(** * openflow transcriber: capture ring, segmentation, dictionary and bias callback

    A shallow embedding of
      - [src/transcriber/transcription/common-sdl.cpp]  (class [audio_async]), and
      - [src/transcriber/transcription/openflow_transcriber.cpp]
        (the helpers [split_dictionary_entries], [read_wav_mono_f32] and
        [escape_json], the logits filter callback, and the lambdas and the
        input loops of [main]),
    with the properties of the specification stated over it.

    Conventions.
      - Unsigned integers ([size_t], [uint64_t]) wrap around; the wrap is
        written out with [wrap64].  Signed overflow is undefined behaviour in
        C++, so [int] and [int64_t] counters are plain [Z].
      - [float] and [double] are abstract types with the few operations the
        code applies to them; every theorem holds for any implementation of
        those operations, IEEE-754 included.
      - The acoustic model, the VAD network, the clock and the file system are
        oracles indexed by the number of calls made so far. *)

From Stdlib Require Import ZArith Lia String Ascii Sorted.
From stdpp Require Import base list gmap strings sorting.

Local Open Scope Z_scope.

Definition wrap64 (z : Z) : Z := z mod 2 ^ 64.

(** [static_cast<int64_t>] of a [uint64_t] value. *)
Definition to_int64 (z : Z) : Z := if z <? 2 ^ 63 then z else z - 2 ^ 64.

(** [memcpy(&buf[pos], data, |data| * sizeof(float))]. *)
Definition write_at {A} (pos : nat) (data buf : list A) : list A :=
  take pos buf ++ data ++ drop (pos + length data) buf.

(** ** common-sdl.cpp: the capture ring *)
Module Ring.
Section AudioAsync.
Context {sample : Type}.

(** One line on stderr: [fprintf(stderr, "%s: msg\n", __func__)]. *)
Inductive log_line := LogLine (func msg : string).

Record audio_async := {
  m_dev_id_in : Z;
  m_len_ms : Z;
  m_sample_rate : Z;
  m_running : bool;
  m_audio : list sample;     (* circular buffer, [m_audio.size()] is the capacity *)
  m_audio_pos : nat;         (* next write index *)
  m_audio_len : nat;         (* number of valid samples *)
  m_total_samples : Z        (* uint64_t *)
}.

Definition set_running (a : audio_async) (b : bool) : audio_async :=
  {| m_dev_id_in := m_dev_id_in a; m_len_ms := m_len_ms a;
     m_sample_rate := m_sample_rate a; m_running := b;
     m_audio := m_audio a; m_audio_pos := m_audio_pos a;
     m_audio_len := m_audio_len a; m_total_samples := m_total_samples a |}.

Definition set_ring (a : audio_async) (buf : list sample) (pos len : nat) (total : Z)
  : audio_async :=
  {| m_dev_id_in := m_dev_id_in a; m_len_ms := m_len_ms a;
     m_sample_rate := m_sample_rate a; m_running := m_running a;
     m_audio := buf; m_audio_pos := pos;
     m_audio_len := len; m_total_samples := total |}.

Definition resume (a : audio_async) : bool * audio_async * list log_line :=
  if m_dev_id_in a =? 0 then (false, a, [LogLine "resume" "no audio device to resume!"])
  else if m_running a then (false, a, [LogLine "resume" "already running!"])
  else (true, set_running (set_ring a (m_audio a) 0 0 0) true, []).

Definition pause (a : audio_async) : bool * audio_async * list log_line :=
  if m_dev_id_in a =? 0 then (false, a, [LogLine "pause" "no audio device to pause!"])
  else if negb (m_running a) then (false, a, [LogLine "pause" "already paused!"])
  else (true, set_running a false, []).

Definition clear (a : audio_async) : bool * audio_async * list log_line :=
  if m_dev_id_in a =? 0 then (false, a, [LogLine "clear" "no audio device to clear!"])
  else if negb (m_running a) then (false, a, [LogLine "clear" "not running!"])
  else (true, set_ring a (m_audio a) 0 0 (m_total_samples a), []).

(** [audio_async::callback]; [stream] is the delivery seen as floats, so
    [samples_in = length stream].  A capacity of zero makes the source
    divide by zero; callers of the lemmas below assume a positive one. *)
Definition callback (a : audio_async) (stream : list sample) : audio_async :=
  if negb (m_running a) then a
  else
    let samples_in := length stream in
    let cap := length (m_audio a) in
    let '(stream, n_samples) :=
      if (cap <? samples_in)%nat
      then (drop (samples_in - cap) stream, cap)
      else (stream, samples_in) in
    let pos := m_audio_pos a in
    let audio :=
      if (cap <? pos + n_samples)%nat
      then
        let n0 := (cap - pos)%nat in
        write_at 0 (drop n0 stream) (write_at pos (take n0 stream) (m_audio a))
      else write_at pos stream (m_audio a) in
    set_ring a audio
      ((pos + n_samples) mod cap)%nat
      (Nat.min (m_audio_len a + n_samples) cap)
      (wrap64 (m_total_samples a + Z.of_nat samples_in)).

(** [audio_async::get]; [result] and [current_time_ms] are the caller's
    variables passed by reference, returned as they stand on exit. *)
Definition get (a : audio_async) (ms : Z) (result : list sample) (current_time_ms : Z)
  : list sample * Z * list log_line :=
  if m_dev_id_in a =? 0
  then (result, current_time_ms, [LogLine "get" "no audio device to get audio from!"])
  else if negb (m_running a)
  then (result, current_time_ms, [LogLine "get" "not running!"])
  else
    let ms := if ms <=? 0 then m_len_ms a else ms in
    let wanted := wrap64 (wrap64 (m_sample_rate a) * wrap64 ms) / 1000 in
    let n_samples :=
      if Z.of_nat (m_audio_len a) <? wanted then m_audio_len a else Z.to_nat wanted in
    let cap := length (m_audio a) in
    let s0 := Z.of_nat (m_audio_pos a) - Z.of_nat n_samples in
    let s0 := Z.to_nat (if s0 <? 0 then s0 + Z.of_nat cap else s0) in
    let out :=
      if (cap <? s0 + n_samples)%nat
      then
        let n0 := (cap - s0)%nat in
        take n0 (drop s0 (m_audio a)) ++ take (n_samples - n0) (m_audio a)
      else take n_samples (drop s0 (m_audio a)) in
    let t :=
      if 0 <? m_sample_rate a
      then to_int64 (wrap64 (m_total_samples a * 1000) / wrap64 (m_sample_rate a))
      else 0 in
    (out, t, []).

Definition get_samples (r : list sample * Z * list log_line) : list sample := r.1.1.
Definition get_time_ms (r : list sample * Z * list log_line) : Z := r.1.2.
Definition get_log (r : list sample * Z * list log_line) : list log_line := r.2.

End AudioAsync.
Arguments audio_async : clear implicits.
End Ring.

(** ** Floating point, kept abstract

    [float] is the 32-bit type of samples, probabilities and logits, [double]
    the 64-bit type of the running probability sum. *)
Class FloatOps := {
  float : Type;
  double : Type;
  f_zero : float;                         (* 0.0f *)
  f_add : float -> float -> float;        (* a + b *)
  f_ge : float -> float -> bool;          (* a >= b, false on NaN *)
  f_isfinite : float -> bool;             (* std::isfinite *)
  d_zero : double;                        (* 0.0 *)
  d_of_float : float -> double;           (* implicit float -> double *)
  d_add : double -> double -> double;
  d_div_int : double -> Z -> double       (* sum / count *)
}.

(** ** openflow_transcriber.cpp: the logits filter callback *)
Module Bias.
Section Callback.
Context `{FloatOps}.

Record bias_decode_context := {
  segment_index : Z;
  partial_seq : Z;
  is_final : bool;
  dict_token_seqs : option (list (list Z));   (* nullptr = None *)
  dict_first_tokens : option (list Z);
  dict_first_token_ids : option (gset Z);
  dict_entries : Z;
  dict_first_tokens_total : Z;
  enabled : bool;
  bias_first_logit : float;
  bias_continuation_logit : float;
  logits_top_k : Z;
  logits_prob_threshold : float;
  logits_prefix_text : bool;
  logits_boosted_k : Z;
  writer : bool;                              (* non-null and enabled *)
  emit_stdout_packets : bool
}.

(** The [add_bias] lambda; [logits] is the array it captures by reference. *)
Definition add_bias (n_vocab token_beg : Z) (logits : list float)
    (token_id : Z) (bias : float) : list float :=
  if (token_id <? 0) || (n_vocab <=? token_id) then logits
  else if (0 <? token_beg) && (token_beg <=? token_id) then logits
  else
    match logits !! Z.to_nat token_id with
    | Some v =>
        if f_isfinite v then <[Z.to_nat token_id := f_add v bias]> logits else logits
    | None => logits
    end.

(** The inner [for j] loop: [tokens[n_tokens - l + j].id == seq[j]] for all [j < l]. *)
Definition prefix_matches (tokens sq : list Z) (l : nat) : bool :=
  forallb
    (fun j => match tokens !! (length tokens - l + j)%nat, sq !! j with
              | Some t, Some s => t =? s
              | _, _ => false
              end)
    (seq 0 l).

(** [for (int l = max_l; l >= 1; --l)] stopping at the first match. *)
Fixpoint longest_match (tokens sq : list Z) (l : nat) : option nat :=
  match l with
  | O => None
  | S l' => if prefix_matches tokens sq l then Some l else longest_match tokens sq l'
  end.

(** Body of [for (const auto &seq : *bctx->dict_token_seqs)]. *)
Definition continuation_step (n_vocab token_beg : Z) (kContinuationBias : float)
    (tokens : list Z) (acc : list float * gmap Z float) (sq : list Z)
  : list float * gmap Z float :=
  if (length sq <? 2)%nat then acc
  else
    let max_l := Nat.min (length tokens) (length sq - 1) in
    match longest_match tokens sq max_l with
    | Some l =>
        match sq !! l with
        | Some next_id =>
            (add_bias n_vocab token_beg acc.1 next_id kContinuationBias,
             <[next_id := f_add (default f_zero (acc.2 !! next_id)) kContinuationBias]> acc.2)
        | None => acc
        end
    | None => acc
    end.

Definition boost_continuations (n_vocab token_beg : Z) (bctx : bias_decode_context)
    (tokens : list Z) (logits : list float) : list float * gmap Z float :=
  match dict_token_seqs bctx with
  | Some seqs =>
      fold_left (continuation_step n_vocab token_beg (bias_continuation_logit bctx) tokens)
                seqs (logits, ∅)
  | None => (logits, ∅)
  end.

Definition boost_first_tokens (n_vocab token_beg : Z) (bctx : bias_decode_context)
    (boosted_cont : gmap Z float) (logits : list float) : list float * Z :=
  match dict_first_tokens bctx with
  | Some firsts =>
      if decide (boosted_cont = ∅)
      then fold_left
             (fun acc tid =>
                (add_bias n_vocab token_beg acc.1 tid (bias_first_logit bctx), acc.2 + 1))
             firsts (logits, 0)
      else (logits, 0)
  | None => (logits, 0)
  end.

Record cb_result := {
  logits_out : list float;
  boosted_cont : gmap Z float;
  boosted_first_total : Z;
  want_log_packets : bool
}.

(** [whisper_logits_filter_cb] with valid pointers; [tokens] are the ids of
    the prefix.  The rest of the function (from [want_log_packets] on) reads
    [logits] and formats a JSON line; it writes to no logit. *)
Definition whisper_logits_filter_cb (n_vocab token_beg : Z) (bctx : bias_decode_context)
    (tokens : list Z) (logits : list float) : cb_result :=
  if negb (enabled bctx) then
    {| logits_out := logits; boosted_cont := ∅; boosted_first_total := 0;
       want_log_packets := false |}
  else if n_vocab <=? 0 then
    {| logits_out := logits; boosted_cont := ∅; boosted_first_total := 0;
       want_log_packets := false |}
  else
    let '(l1, cont) := boost_continuations n_vocab token_beg bctx tokens logits in
    let '(l2, n_first) := boost_first_tokens n_vocab token_beg bctx cont l1 in
    {| logits_out := l2; boosted_cont := cont; boosted_first_total := n_first;
       want_log_packets := emit_stdout_packets bctx || writer bctx |}.

End Callback.
End Bias.

(** ** openflow_transcriber.cpp: the pipeline of [main] *)
Module Transcriber.
Section Pipeline.
Context `{FloatOps}.

Record vad_params := {
  n_threads : Z;
  language : string;
  dictionary_path : string;
  dictionary_poll_ms : Z;
  send_prompt : bool;
  bias_decoding : bool;
  bias_first_logit : float;
  bias_continuation_logit : float;
  beam_size : Z;
  logits_top_k : Z;
  logits_prob_threshold : float;
  logits_prefix_text : bool;
  logits_boosted_k : Z;
  log : bool;
  emit_vad_events : bool;
  debug : bool;
  step_ms : Z;
  start_threshold : float;
  stop_threshold : float;
  min_segment_ms : Z;
  max_segment_ms : Z;
  min_silence_ms : Z;
  pre_padding_ms : Z;
  post_padding_ms : Z;
  ring_buffer_ms : Z
}.

(** Modelled from the spec: [WHISPER_SAMPLE_RATE] of whisper.h, which is not
    part of the sources; the specification fixes the rate at 16 000 Hz. *)
Definition sample_rate : Z := 16000.

(** [SileroVadRunner::expected_chunk_size]. *)
Definition vad_chunk_samples : nat := 512.

(** [constexpr int kWhisperMaxDecoders] of [emit_transcription]. *)
Definition kWhisperMaxDecoders : Z := 8.

(** [(int64_t) ms * sample_rate / 1000], C++ division truncating. *)
Definition ms_to_samples (ms : Z) : Z := Z.quot (ms * sample_rate) 1000.

Definition enable_partials (p : vad_params) : bool := 0 <=? step_ms p.
Definition step_samples (p : vad_params) : Z :=
  if enable_partials p then Z.max 1 (ms_to_samples (step_ms p)) else 0.
Definition pre_padding_samples (p : vad_params) : nat :=
  Z.to_nat (Z.max 0 (ms_to_samples (pre_padding_ms p))).
Definition post_padding_samples (p : vad_params) : nat :=
  Z.to_nat (Z.max 0 (ms_to_samples (post_padding_ms p))).
Definition min_silence_samples (p : vad_params) : nat :=
  Z.to_nat (Z.max 0 (ms_to_samples (min_silence_ms p))).
Definition min_segment_samples (p : vad_params) : nat :=
  Z.to_nat (Z.max 0 (ms_to_samples (min_segment_ms p))).
Definition max_segment_samples (p : vad_params) : nat :=
  Z.to_nat (Z.max sample_rate (ms_to_samples (max_segment_ms p))).
Definition log_stdout_packets (p : vad_params) : bool := log p || debug p.
Definition verbose_dictionary_packets (p : vad_params) : bool := log p || debug p.

(** *** What the process writes *)

Record piece := {
  piece_text : string;
  t0_ms : Z;
  t1_ms : Z;
  leading_space : bool
}.

Record dictionary_event := {
  de_segment_index : Z;
  de_partial_seq : Z;
  de_final : bool;
  de_attempted : bool;
  de_reloaded : bool;
  de_ok : bool;
  de_error : string;
  de_dict_entries_raw : Z;
  de_dict_entries : Z;
  de_dict_first_tokens : Z;
  de_dict_total_tokens : Z;
  de_dict_cache_bytes : Z;
  de_words : list (string * list (Z * string))
}.

Record segment_event := {
  se_segment_index : Z;
  se_start_ms : Z;
  se_end_ms : Z;
  se_duration_ms : Z;
  se_avg_vad : double;
  se_final : bool;
  se_partial_seq : Z;
  se_text : string;
  se_tokens : list piece
}.

(** One JSON line on stdout. *)
Inductive event :=
  | EvVad (audio_time_ms : Z) (prob : float) (chunk_samples : nat) (rate : Z)
  | EvDictionary (d : dictionary_event)
  | EvSegment (s : segment_event)
  | EvJobStart (path : option string)
  | EvJobEnd (path : option string).

(** One line on stderr. *)
Inductive err_line :=
  | ErrVadInferenceFailed
  | ErrWhisperFullFailed (segment_idx : Z) (is_final : bool)
  | WarnBeamSizeClamp (requested clamped : Z)
  | DbgDiscardShort (keep_samples : nat)
  | DbgSegmentStart (segment_idx chunk_end_ms : Z) (prob : float)
  | DbgForcedFlush (segment_idx : Z)
  | DbgFlushAfterSilence (segment_idx : Z) (prob : float)
  | DbgDictionaryReload (raw tokenized firsts : nat) (total : Z).

(** *** The acoustic model's interface *)

Inductive whisper_sampling_strategy := WHISPER_SAMPLING_GREEDY | WHISPER_SAMPLING_BEAM_SEARCH.

Record whisper_token_data := { td_id : Z; td_t0 : Z; td_t1 : Z }.

(** The fields of [whisper_full_params] that vary between calls. *)
Record whisper_full_params := {
  strategy : whisper_sampling_strategy;
  wp_beam_size : Z;
  initial_prompt : option string;
  logits_filter_callback_user_data : option Bias.bias_decode_context
}.

(** The collaborators of the pipeline.  The [nat] argument of an oracle is
    the number of earlier calls, so successive calls may answer differently. *)
Record env := {
  vad_infer : nat -> list float -> option float;          (* None: exception *)
  whisper_full : nat -> whisper_full_params -> list float
                 -> option (list (list whisper_token_data)); (* None: non-zero return *)
  whisper_token_to_str : Z -> option string;              (* None: nullptr *)
  whisper_token_count : string -> Z;
  whisper_tokenize : string -> nat -> Z * list Z;         (* return value, tokens written *)
  default_beam_size : whisper_sampling_strategy -> Z;     (* whisper_full_default_params *)
  steady_now : nat -> Z;                                  (* steady_clock::now(), in ms *)
  last_write_time : nat -> string + Z;                    (* inl: error_code message *)
  open_file : nat -> option string;                       (* None: !good() *)
  logits_writer_enabled : bool                            (* the logits log was opened *)
}.

(** *** The variables captured by the lambdas *)

Record seg_state := {
  pending_samples : list float;
  pre_roll : list float;
  chunk_buffer : list float;
  current_segment : list float;
  segment_prob_sum : double;
  segment_prob_count : Z;
  in_segment : bool;
  segment_start_sample : Z;
  last_voice_sample : Z;
  processed_samples_total : Z;
  last_fetch_time_ms : Z;
  segment_index : Z;
  active_segment_index : Z;
  partial_sequence : Z;
  last_partial_emit_sample : Z
}.

Record dict_state := {
  dictionary_cache : string;
  dictionary_token_seqs : list (list Z);
  dictionary_entry_texts : list string;
  dictionary_first_tokens : list Z;
  dictionary_first_token_ids : gset Z;
  last_dictionary_reload : Z;
  last_dictionary_write_time : Z;
  last_dictionary_entries_raw : Z;
  last_dictionary_total_tokens : Z;
  last_dictionary_error : string
}.

(** Output written so far and the calls made to each collaborator. *)
Record io_state := {
  stdout : list event;
  stderr : list err_line;
  vad_calls : nat;
  decode_log : list (whisper_full_params * list float);
  clock_reads : nat;
  stat_calls : nat;
  open_calls : nat
}.

Record state := {
  seg : seg_state;
  dict : dict_state;
  warned_beam_size_clamp : bool;
  io : io_state
}.

Definition put_seg (st : state) (s : seg_state) : state :=
  {| seg := s; dict := dict st;
     warned_beam_size_clamp := warned_beam_size_clamp st; io := io st |}.
Definition put_dict (st : state) (d : dict_state) : state :=
  {| seg := seg st; dict := d;
     warned_beam_size_clamp := warned_beam_size_clamp st; io := io st |}.
Definition put_warned (st : state) (b : bool) : state :=
  {| seg := seg st; dict := dict st; warned_beam_size_clamp := b; io := io st |}.
Definition put_io (st : state) (o : io_state) : state :=
  {| seg := seg st; dict := dict st;
     warned_beam_size_clamp := warned_beam_size_clamp st; io := o |}.

Definition print (st : state) (e : event) : state :=
  let o := io st in
  put_io st {| stdout := stdout o ++ [e]; stderr := stderr o; vad_calls := vad_calls o;
               decode_log := decode_log o; clock_reads := clock_reads o;
               stat_calls := stat_calls o; open_calls := open_calls o |}.
Definition eprint (st : state) (l : err_line) : state :=
  let o := io st in
  put_io st {| stdout := stdout o; stderr := stderr o ++ [l]; vad_calls := vad_calls o;
               decode_log := decode_log o; clock_reads := clock_reads o;
               stat_calls := stat_calls o; open_calls := open_calls o |}.
Definition count_vad_call (st : state) : state :=
  let o := io st in
  put_io st {| stdout := stdout o; stderr := stderr o; vad_calls := S (vad_calls o);
               decode_log := decode_log o; clock_reads := clock_reads o;
               stat_calls := stat_calls o; open_calls := open_calls o |}.
Definition log_decode (st : state) (w : whisper_full_params) (audio : list float) : state :=
  let o := io st in
  put_io st {| stdout := stdout o; stderr := stderr o; vad_calls := vad_calls o;
               decode_log := decode_log o ++ [(w, audio)]; clock_reads := clock_reads o;
               stat_calls := stat_calls o; open_calls := open_calls o |}.
Definition count_clock_read (st : state) : state :=
  let o := io st in
  put_io st {| stdout := stdout o; stderr := stderr o; vad_calls := vad_calls o;
               decode_log := decode_log o; clock_reads := S (clock_reads o);
               stat_calls := stat_calls o; open_calls := open_calls o |}.
Definition count_stat_call (st : state) : state :=
  let o := io st in
  put_io st {| stdout := stdout o; stderr := stderr o; vad_calls := vad_calls o;
               decode_log := decode_log o; clock_reads := clock_reads o;
               stat_calls := S (stat_calls o); open_calls := open_calls o |}.
Definition count_open_call (st : state) : state :=
  let o := io st in
  put_io st {| stdout := stdout o; stderr := stderr o; vad_calls := vad_calls o;
               decode_log := decode_log o; clock_reads := clock_reads o;
               stat_calls := stat_calls o; open_calls := S (open_calls o) |}.
Definition debug_print (p : vad_params) (st : state) (l : err_line) : state :=
  if debug p then eprint st l else st.

(** *** Dictionary: splitting, tokenizing, reloading *)

(** [std::isspace] in the C locale. *)
Definition isspace (c : ascii) : bool :=
  let n := nat_of_ascii c in
  (n =? 32)%nat || ((9 <=? n)%nat && (n <=? 13)%nat).

Fixpoint drop_spaces (l : list ascii) : list ascii :=
  match l with
  | c :: r => if isspace c then drop_spaces r else l
  | [] => []
  end.

Definition trim (l : list ascii) : list ascii :=
  rev (drop_spaces (rev (drop_spaces l))).

(** The [flush] lambda of [split_dictionary_entries]. *)
Definition flush_word (cur : list ascii) (out : list string) : list string :=
  match cur with
  | [] => out
  | _ => match trim cur with
         | [] => out
         | t => out ++ [string_of_list_ascii t]
         end
  end.

Fixpoint split_words (raw cur : list ascii) (out : list string) : list string :=
  match raw with
  | [] => flush_word cur out
  | c :: r =>
      if isspace c then split_words r [] (flush_word cur out)
      else split_words r (cur ++ [c]) out
  end.

Fixpoint uniq_words (l : list string) (seen : gset string) : list string :=
  match l with
  | [] => []
  | s :: r =>
      if decide (s = "") then uniq_words r seen
      else if decide (s ∈ seen) then uniq_words r seen
      else s :: uniq_words r ({[s]} ∪ seen)
  end.

Definition split_dictionary_entries (raw : string) : list string :=
  uniq_words (split_words (list_ascii_of_string raw) [] []) ∅.

(** The vectors and counters filled by the tokenizing loop. *)
Record tok_acc := {
  acc_token_seqs : list (list Z);
  acc_entry_texts : list string;
  acc_first_tokens : list Z;
  acc_first_token_ids : gset Z;
  first_seen : gset Z;
  total_tokens : Z
}.

Definition tok_acc_empty : tok_acc :=
  {| acc_token_seqs := []; acc_entry_texts := []; acc_first_tokens := [];
     acc_first_token_ids := ∅; first_seen := ∅; total_tokens := 0 |}.

(** Body of [for (const auto &text : variants)]. *)
Definition tokenize_variant (E : env) (entry : string) (a : tok_acc) (text : string) : tok_acc :=
  let n_needed := whisper_token_count E text in
  if n_needed <=? 0 then a
  else
    let '(n_got, written) := whisper_tokenize E text (Z.to_nat n_needed) in
    if n_got <=? 0 then a
    else
      let buf := take (Z.to_nat n_needed) (written ++ replicate (Z.to_nat n_needed) 0) in
      let sq := resize (Z.to_nat n_got) 0 buf in
      let fresh :=
        match sq with
        | first :: _ => negb (bool_decide (first ∈ first_seen a))
        | [] => false
        end in
      let first := default 0 (head sq) in
      {| acc_token_seqs := acc_token_seqs a ++ [sq];
         acc_entry_texts := acc_entry_texts a ++ [entry];
         acc_first_tokens :=
           if fresh then acc_first_tokens a ++ [first] else acc_first_tokens a;
         acc_first_token_ids :=
           if fresh then {[first]} ∪ acc_first_token_ids a else acc_first_token_ids a;
         first_seen := if fresh then {[first]} ∪ first_seen a else first_seen a;
         total_tokens := total_tokens a + n_got |}.

(** Body of [for (const auto &entry : entries)]. *)
Definition tokenize_entry (E : env) (a : tok_acc) (entry : string) : tok_acc :=
  match entry with
  | EmptyString => a
  | String c _ =>
      let variants :=
        if Ascii.eqb c " " then [entry] else [entry; String " " entry] in
      fold_left (tokenize_variant E entry) variants a
  end.

Definition clear_dictionary (d : dict_state) (err : string) : dict_state :=
  {| dictionary_cache := ""; dictionary_token_seqs := []; dictionary_entry_texts := [];
     dictionary_first_tokens := []; dictionary_first_token_ids := ∅;
     last_dictionary_reload := last_dictionary_reload d;
     last_dictionary_write_time := last_dictionary_write_time d;
     last_dictionary_entries_raw := 0; last_dictionary_total_tokens := 0;
     last_dictionary_error := err |}.

Definition set_last_dictionary_reload (d : dict_state) (now : Z) : dict_state :=
  {| dictionary_cache := dictionary_cache d;
     dictionary_token_seqs := dictionary_token_seqs d;
     dictionary_entry_texts := dictionary_entry_texts d;
     dictionary_first_tokens := dictionary_first_tokens d;
     dictionary_first_token_ids := dictionary_first_token_ids d;
     last_dictionary_reload := now;
     last_dictionary_write_time := last_dictionary_write_time d;
     last_dictionary_entries_raw := last_dictionary_entries_raw d;
     last_dictionary_total_tokens := last_dictionary_total_tokens d;
     last_dictionary_error := last_dictionary_error d |}.

(** [emit_dictionary_event]: the line printed on stdout.  The copy appended to
    the logits log file is not part of the event stream. *)
Definition emit_dictionary_event (E : env) (p : vad_params) (st : state)
    (segment_idx partial_seq : Z) (is_final attempted reloaded : bool) : state :=
  let d := dict st in
  let words :=
    if verbose_dictionary_packets p
    then map (fun ts : string * list Z =>
                (ts.1, map (fun tid => (tid, default "" (whisper_token_to_str E tid))) ts.2))
             (take 40 (zip (dictionary_entry_texts d) (dictionary_token_seqs d)))
    else [] in
  print st (EvDictionary
    {| de_segment_index := segment_idx; de_partial_seq := partial_seq; de_final := is_final;
       de_attempted := attempted; de_reloaded := reloaded;
       de_ok := bool_decide (last_dictionary_error d = "");
       de_error := last_dictionary_error d;
       de_dict_entries_raw := last_dictionary_entries_raw d;
       de_dict_entries := Z.of_nat (length (dictionary_token_seqs d));
       de_dict_first_tokens := Z.of_nat (length (dictionary_first_tokens d));
       de_dict_total_tokens := last_dictionary_total_tokens d;
       de_dict_cache_bytes := Z.of_nat (String.length (dictionary_cache d));
       de_words := words |}).

(** The part of [reload_dictionary_if_needed] after the file was read. *)
Definition rebuild_dictionary (E : env) (d : dict_state) (contents : string) (mtime : Z)
  : dict_state :=
  let entries := split_dictionary_entries contents in
  let a := fold_left (tokenize_entry E) entries tok_acc_empty in
  {| dictionary_cache := contents;
     dictionary_token_seqs := acc_token_seqs a;
     dictionary_entry_texts := acc_entry_texts a;
     dictionary_first_tokens := acc_first_tokens a;
     dictionary_first_token_ids := acc_first_token_ids a;
     last_dictionary_reload := last_dictionary_reload d;
     last_dictionary_write_time := mtime;
     last_dictionary_entries_raw := Z.of_nat (length entries);
     last_dictionary_total_tokens := total_tokens a;
     last_dictionary_error := "" |}.

Definition reload_dictionary_if_needed (E : env) (p : vad_params) (st : state)
    (segment_idx partial_seq : Z) (is_final force : bool) : state :=
  if bool_decide (dictionary_path p = "") then
    emit_dictionary_event E p
      (put_dict st (clear_dictionary (dict st) "dictionary_file not set"))
      segment_idx partial_seq is_final true true
  else
    let now := steady_now E (clock_reads (io st)) in
    let st := count_clock_read st in
    let elapsed_ms := now - last_dictionary_reload (dict st) in
    let should_reload := force || (dictionary_poll_ms p <=? elapsed_ms) in
    if negb should_reload then st
    else
      let st := put_dict st (set_last_dictionary_reload (dict st) now) in
      let stat := last_write_time E (stat_calls (io st)) in
      let st := count_stat_call st in
      match stat with
      | inl message =>
          emit_dictionary_event E p (put_dict st (clear_dictionary (dict st) message))
            segment_idx partial_seq is_final true true
      | inr mtime =>
          let changed := negb (mtime =? last_dictionary_write_time (dict st)) in
          if negb force && negb changed then
            emit_dictionary_event E p st segment_idx partial_seq is_final true false
          else
            let file := open_file E (open_calls (io st)) in
            let st := count_open_call st in
            match file with
            | None =>
                emit_dictionary_event E p
                  (put_dict st (clear_dictionary (dict st) "failed to open dictionary_file"))
                  segment_idx partial_seq is_final true true
            | Some contents =>
                let d := rebuild_dictionary E (dict st) contents mtime in
                let st := put_dict st d in
                let st :=
                  debug_print p st
                    (DbgDictionaryReload (length (split_dictionary_entries contents))
                       (length (dictionary_token_seqs d))
                       (length (dictionary_first_tokens d))
                       (last_dictionary_total_tokens d)) in
                emit_dictionary_event E p st segment_idx partial_seq is_final true true
            end
      end.

(** *** Decoding *)

Definition is_control_piece (s : string) : bool :=
  match drop_spaces (list_ascii_of_string s) with
  | "<"%char :: "|"%char :: _ => true
  | "["%char :: "_"%char :: _ => true
  | _ => false
  end.

(** [std::clamp(v, lo, hi)]. *)
Definition clamp (v lo hi : Z) : Z := if v <? lo then lo else if hi <? v then hi else v.

(** Body of the token loop of [emit_transcription]: the piece kept for one
    token, if any. *)
Definition token_piece (E : env) (segment_start_ms : Z) (td : whisper_token_data)
  : option piece :=
  match whisper_token_to_str E (td_id td) with
  | None => None
  | Some pc =>
      if is_control_piece pc then None
      else
        Some {| piece_text := pc;
                t0_ms := if 0 <=? td_t0 td then segment_start_ms + td_t0 td * 10 else -1;
                t1_ms := if 0 <=? td_t1 td then segment_start_ms + td_t1 td * 10 else -1;
                leading_space :=
                  match pc with
                  | String c _ => isspace c
                  | EmptyString => false
                  end |}
  end.

Definition make_bias_context (E : env) (p : vad_params) (st : state)
    (segment_idx partial_seq : Z) (is_final : bool) : Bias.bias_decode_context :=
  let d := dict st in
  {| Bias.segment_index := segment_idx;
     Bias.partial_seq := partial_seq;
     Bias.is_final := is_final;
     Bias.dict_token_seqs :=
       match dictionary_token_seqs d with [] => None | l => Some l end;
     Bias.dict_first_tokens :=
       match dictionary_first_tokens d with [] => None | l => Some l end;
     Bias.dict_first_token_ids :=
       if decide (dictionary_first_token_ids d = ∅) then None
       else Some (dictionary_first_token_ids d);
     Bias.dict_entries := last_dictionary_entries_raw d;
     Bias.dict_first_tokens_total := Z.of_nat (length (dictionary_first_tokens d));
     Bias.enabled := true;
     Bias.bias_first_logit := bias_first_logit p;
     Bias.bias_continuation_logit := bias_continuation_logit p;
     Bias.logits_top_k := logits_top_k p;
     Bias.logits_prob_threshold := logits_prob_threshold p;
     Bias.logits_prefix_text := logits_prefix_text p;
     Bias.logits_boosted_k := logits_boosted_k p;
     Bias.writer := logits_writer_enabled E;
     Bias.emit_stdout_packets := log_stdout_packets p |}.

(** The [if (params.bias_decoding)] block: the parameters handed to
    [whisper_full], after the one-shot warning. *)
Definition configure_decode (E : env) (p : vad_params) (st : state)
    (segment_idx partial_seq : Z) (is_final : bool) : state * whisper_full_params :=
  let strat :=
    if bias_decoding p then WHISPER_SAMPLING_BEAM_SEARCH else WHISPER_SAMPLING_GREEDY in
  let prompt :=
    if send_prompt p && negb (bool_decide (dictionary_cache (dict st) = ""))
    then Some (if (4096 <? String.length (dictionary_cache (dict st)))%nat
               then substring 0 4096 (dictionary_cache (dict st))
               else dictionary_cache (dict st))
    else None in
  if bias_decoding p then
    let bctx := make_bias_context E p st segment_idx partial_seq is_final in
    let requested_beam :=
      if 0 <? beam_size p then beam_size p else default_beam_size E strat in
    let clamped_beam := clamp requested_beam 2 kWhisperMaxDecoders in
    let st :=
      if negb (requested_beam =? clamped_beam) && negb (warned_beam_size_clamp st)
      then put_warned (eprint st (WarnBeamSizeClamp requested_beam clamped_beam)) true
      else st in
    (st, {| strategy := strat; wp_beam_size := clamped_beam; initial_prompt := prompt;
            logits_filter_callback_user_data := Some bctx |})
  else
    (st, {| strategy := strat; wp_beam_size := default_beam_size E strat;
            initial_prompt := prompt; logits_filter_callback_user_data := None |}).

(** [emit_transcription].  Lines the bias callback prints while [whisper_full]
    runs are of kind [logits] and are not part of the modelled stream. *)
Definition emit_transcription (E : env) (p : vad_params) (st : state)
    (audio_segment : list float) (segment_idx segment_start_sample : Z)
    (is_final : bool) (avg_prob_now : double) (partial_seq : Z) : state :=
  match audio_segment with
  | [] => st
  | _ =>
      let st := reload_dictionary_if_needed E p st segment_idx partial_seq is_final false in
      let '(st, wparams) := configure_decode E p st segment_idx partial_seq is_final in
      let answer := whisper_full E (length (decode_log (io st))) wparams audio_segment in
      let st := log_decode st wparams audio_segment in
      match answer with
      | None => eprint st (ErrWhisperFullFailed segment_idx is_final)
      | Some segments =>
          let segment_start_ms := Z.quot (segment_start_sample * 1000) sample_rate in
          let segment_end_ms :=
            segment_start_ms
            + Z.quot (Z.of_nat (length audio_segment) * 1000) sample_rate in
          let duration_ms := Z.max 0 (segment_end_ms - segment_start_ms) in
          let pieces := omap (token_piece E segment_start_ms) (concat segments) in
          print st (EvSegment
            {| se_segment_index := segment_idx;
               se_start_ms := segment_start_ms;
               se_end_ms := segment_end_ms;
               se_duration_ms := duration_ms;
               se_avg_vad := avg_prob_now;
               se_final := is_final;
               se_partial_seq := partial_seq;
               se_text := fold_left String.append (map piece_text pieces) "";
               se_tokens := pieces |})
      end
  end.

(** *** Segmentation *)

(** [pre_roll.push_back(sample); if (pre_roll.size() > pre_padding_samples) pre_roll.pop_front();] *)
Definition push_pre_roll (p : vad_params) (pre : list float) (sample : float) : list float :=
  let pre := pre ++ [sample] in
  if (pre_padding_samples p <? length pre)%nat then drop 1 pre else pre.

(** The samples of the current segment that a flush keeps. *)
Definition keep_samples (p : vad_params) (s : seg_state) (forced_flush : bool) : nat :=
  if forced_flush then length (current_segment s)
  else
    let wanted_end_sample := last_voice_sample s + Z.of_nat (post_padding_samples p) in
    let wanted_end_sample :=
      if wanted_end_sample <? segment_start_sample s
      then segment_start_sample s else wanted_end_sample in
    let desired := Z.to_nat (Z.max 0 (wanted_end_sample - segment_start_sample s)) in
    if (length (current_segment s) <? desired)%nat
    then length (current_segment s) else desired.

Definition avg_prob (s : seg_state) : double :=
  if 0 <? segment_prob_count s
  then d_div_int (segment_prob_sum s) (segment_prob_count s)
  else d_zero.

Definition flush_segment (E : env) (p : vad_params) (st : state) (forced_flush : bool)
  : state :=
  let s := seg st in
  if negb (in_segment s) || bool_decide (current_segment s = []) then
    put_seg st
      {| pending_samples := pending_samples s; pre_roll := pre_roll s;
         chunk_buffer := chunk_buffer s; current_segment := [];
         segment_prob_sum := d_zero; segment_prob_count := 0; in_segment := false;
         segment_start_sample := segment_start_sample s;
         last_voice_sample := last_voice_sample s;
         processed_samples_total := processed_samples_total s;
         last_fetch_time_ms := last_fetch_time_ms s;
         segment_index := segment_index s;
         active_segment_index := active_segment_index s;
         partial_sequence := partial_sequence s;
         last_partial_emit_sample := last_partial_emit_sample s |}
  else
    let keep := keep_samples p s forced_flush in
    if (keep <? min_segment_samples p)%nat then
      let st := debug_print p st (DbgDiscardShort keep) in
      put_seg st
        {| pending_samples := pending_samples s; pre_roll := [];
           chunk_buffer := chunk_buffer s; current_segment := [];
           segment_prob_sum := d_zero; segment_prob_count := 0; in_segment := false;
           segment_start_sample := segment_start_sample s;
           last_voice_sample := last_voice_sample s;
           processed_samples_total := processed_samples_total s;
           last_fetch_time_ms := last_fetch_time_ms s;
           segment_index := segment_index s;
           active_segment_index := active_segment_index s;
           partial_sequence := partial_sequence s;
           last_partial_emit_sample := last_partial_emit_sample s |}
    else
      let audio_segment := take keep (current_segment s) in
      let leftover := drop keep (current_segment s) in
      let st :=
        emit_transcription E p st audio_segment
          (if 0 <=? active_segment_index s then active_segment_index s else segment_index s)
          (segment_start_sample s) true (avg_prob s) (partial_sequence s) in
      put_seg st
        {| pending_samples := pending_samples s;
           pre_roll := fold_left (push_pre_roll p) leftover [];
           chunk_buffer := chunk_buffer s; current_segment := [];
           segment_prob_sum := d_zero; segment_prob_count := 0; in_segment := false;
           segment_start_sample := processed_samples_total s;
           last_voice_sample := processed_samples_total s;
           processed_samples_total := processed_samples_total s;
           last_fetch_time_ms := last_fetch_time_ms s;
           segment_index := segment_index s + 1;
           active_segment_index := -1;
           partial_sequence := 0;
           last_partial_emit_sample := 0 |}.

(** The [if (!in_segment && prob >= params.start_threshold)] branch. *)
Definition start_segment (p : vad_params) (st : state) (prob : float) (chunk_end_ms : Z)
  : state :=
  let s := seg st in
  let st := debug_print p st (DbgSegmentStart (segment_index s) chunk_end_ms prob) in
  let start :=
    processed_samples_total s - Z.of_nat (length (pre_roll s)) - Z.of_nat vad_chunk_samples in
  let start := if start <? 0 then 0 else start in
  put_seg st
    {| pending_samples := pending_samples s; pre_roll := [];
       chunk_buffer := chunk_buffer s;
       current_segment := pre_roll s ++ chunk_buffer s;
       segment_prob_sum := d_of_float prob; segment_prob_count := 1; in_segment := true;
       segment_start_sample := start;
       last_voice_sample := processed_samples_total s;
       processed_samples_total := processed_samples_total s;
       last_fetch_time_ms := last_fetch_time_ms s;
       segment_index := segment_index s;
       active_segment_index := segment_index s;
       partial_sequence := 0;
       last_partial_emit_sample := start |}.

(** The start of the [if (in_segment)] branch: the chunk joins the segment. *)
Definition append_chunk (p : vad_params) (s : seg_state) (prob : float) : seg_state :=
  {| pending_samples := pending_samples s; pre_roll := pre_roll s;
     chunk_buffer := chunk_buffer s;
     current_segment := current_segment s ++ chunk_buffer s;
     segment_prob_sum := d_add (segment_prob_sum s) (d_of_float prob);
     segment_prob_count := segment_prob_count s + 1; in_segment := in_segment s;
     segment_start_sample := segment_start_sample s;
     last_voice_sample :=
       if f_ge prob (stop_threshold p) then processed_samples_total s
       else last_voice_sample s;
     processed_samples_total := processed_samples_total s;
     last_fetch_time_ms := last_fetch_time_ms s;
     segment_index := segment_index s;
     active_segment_index := active_segment_index s;
     partial_sequence := partial_sequence s;
     last_partial_emit_sample := last_partial_emit_sample s |}.

(** [last_partial_emit_sample = current_segment_end_sample; ++partial_sequence;] *)
Definition partial_emitted (s : seg_state) (current_segment_end_sample : Z) : seg_state :=
  {| pending_samples := pending_samples s; pre_roll := pre_roll s;
     chunk_buffer := chunk_buffer s; current_segment := current_segment s;
     segment_prob_sum := segment_prob_sum s;
     segment_prob_count := segment_prob_count s; in_segment := in_segment s;
     segment_start_sample := segment_start_sample s;
     last_voice_sample := last_voice_sample s;
     processed_samples_total := processed_samples_total s;
     last_fetch_time_ms := last_fetch_time_ms s;
     segment_index := segment_index s;
     active_segment_index := active_segment_index s;
     partial_sequence := partial_sequence s + 1;
     last_partial_emit_sample := current_segment_end_sample |}.

(** The partial decode of the [if (in_segment)] branch. *)
Definition maybe_emit_partial (E : env) (p : vad_params) (st : state) : state :=
  let s := seg st in
  let current_segment_end_sample :=
    segment_start_sample s + Z.of_nat (length (current_segment s)) in
  if enable_partials p
     && (min_segment_samples p <=? length (current_segment s))%nat
     && (step_samples p <=? current_segment_end_sample - last_partial_emit_sample s)
  then
    let st :=
      emit_transcription E p st (current_segment s)
        (if 0 <=? active_segment_index s then active_segment_index s else segment_index s)
        (segment_start_sample s) false (avg_prob s) (partial_sequence s) in
    put_seg st (partial_emitted (seg st) current_segment_end_sample)
  else st.

(** The end of the [if (in_segment)] branch: the two flush triggers. *)
Definition maybe_flush (E : env) (p : vad_params) (st : state) (prob : float) : state :=
  let s := seg st in
  let segment_samples := processed_samples_total s - segment_start_sample s in
  let silence_samples := processed_samples_total s - last_voice_sample s in
  let over_max := Z.of_nat (max_segment_samples p) <=? segment_samples in
  let enough_silence := Z.of_nat (min_silence_samples p) <=? silence_samples in
  let has_post := Z.of_nat (post_padding_samples p) <=? silence_samples in
  if over_max then
    flush_segment E p (debug_print p st (DbgForcedFlush (segment_index s))) true
  else if enough_silence && has_post then
    flush_segment E p (debug_print p st (DbgFlushAfterSilence (segment_index s) prob)) false
  else st.

(** [chunk_buffer.assign(begin, it_end); pending_samples.erase(begin, it_end);] *)
Definition pop_chunk (s : seg_state) : seg_state :=
  {| pending_samples := drop vad_chunk_samples (pending_samples s);
     pre_roll := pre_roll s;
     chunk_buffer := take vad_chunk_samples (pending_samples s);
     current_segment := current_segment s;
     segment_prob_sum := segment_prob_sum s;
     segment_prob_count := segment_prob_count s; in_segment := in_segment s;
     segment_start_sample := segment_start_sample s;
     last_voice_sample := last_voice_sample s;
     processed_samples_total := processed_samples_total s;
     last_fetch_time_ms := last_fetch_time_ms s;
     segment_index := segment_index s;
     active_segment_index := active_segment_index s;
     partial_sequence := partial_sequence s;
     last_partial_emit_sample := last_partial_emit_sample s |}.

(** [processed_samples_total += (int64_t) vad_chunk_samples;] *)
Definition advance_processed (s : seg_state) : seg_state :=
  {| pending_samples := pending_samples s; pre_roll := pre_roll s;
     chunk_buffer := chunk_buffer s; current_segment := current_segment s;
     segment_prob_sum := segment_prob_sum s;
     segment_prob_count := segment_prob_count s; in_segment := in_segment s;
     segment_start_sample := segment_start_sample s;
     last_voice_sample := last_voice_sample s;
     processed_samples_total := processed_samples_total s + Z.of_nat vad_chunk_samples;
     last_fetch_time_ms := last_fetch_time_ms s;
     segment_index := segment_index s;
     active_segment_index := active_segment_index s;
     partial_sequence := partial_sequence s;
     last_partial_emit_sample := last_partial_emit_sample s |}.

Definition set_pre_roll (s : seg_state) (pre : list float) : seg_state :=
  {| pending_samples := pending_samples s; pre_roll := pre;
     chunk_buffer := chunk_buffer s; current_segment := current_segment s;
     segment_prob_sum := segment_prob_sum s;
     segment_prob_count := segment_prob_count s; in_segment := in_segment s;
     segment_start_sample := segment_start_sample s;
     last_voice_sample := last_voice_sample s;
     processed_samples_total := processed_samples_total s;
     last_fetch_time_ms := last_fetch_time_ms s;
     segment_index := segment_index s;
     active_segment_index := active_segment_index s;
     partial_sequence := partial_sequence s;
     last_partial_emit_sample := last_partial_emit_sample s |}.

Definition set_pending (s : seg_state) (pending : list float) : seg_state :=
  {| pending_samples := pending; pre_roll := pre_roll s;
     chunk_buffer := chunk_buffer s; current_segment := current_segment s;
     segment_prob_sum := segment_prob_sum s;
     segment_prob_count := segment_prob_count s; in_segment := in_segment s;
     segment_start_sample := segment_start_sample s;
     last_voice_sample := last_voice_sample s;
     processed_samples_total := processed_samples_total s;
     last_fetch_time_ms := last_fetch_time_ms s;
     segment_index := segment_index s;
     active_segment_index := active_segment_index s;
     partial_sequence := partial_sequence s;
     last_partial_emit_sample := last_partial_emit_sample s |}.

(** One turn of the [while] loop of [process_pending_chunks], entered with at
    least [vad_chunk_samples] pending samples. *)
Definition process_chunk (E : env) (p : vad_params) (st : state) : state :=
  let st := put_seg st (pop_chunk (seg st)) in
  let answer := vad_infer E (vad_calls (io st)) (chunk_buffer (seg st)) in
  let st := count_vad_call st in
  match answer with
  | None => eprint st ErrVadInferenceFailed
  | Some prob =>
      let st := put_seg st (advance_processed (seg st)) in
      let chunk_end_ms := Z.quot (processed_samples_total (seg st) * 1000) sample_rate in
      let st :=
        if emit_vad_events p
        then print st (EvVad chunk_end_ms prob vad_chunk_samples sample_rate)
        else st in
      if negb (in_segment (seg st)) && f_ge prob (start_threshold p) then
        start_segment p st prob chunk_end_ms
      else if in_segment (seg st) then
        let st := put_seg st (append_chunk p (seg st) prob) in
        let st := maybe_emit_partial E p st in
        maybe_flush E p st prob
      else
        put_seg st
          (set_pre_roll (seg st)
             (fold_left (push_pre_roll p) (chunk_buffer (seg st)) (pre_roll (seg st))))
  end.

(** [while (pending_samples.size() >= vad_chunk_samples)]; every turn removes
    [vad_chunk_samples] samples, so [fuel] turns suffice when [fuel] is at
    least the number of whole chunks pending. *)
Fixpoint process_loop (E : env) (p : vad_params) (fuel : nat) (st : state) : state :=
  match fuel with
  | O => st
  | S fuel =>
      if (vad_chunk_samples <=? length (pending_samples (seg st)))%nat
      then process_loop E p fuel (process_chunk E p st)
      else st
  end.

Definition process_pending_chunks (E : env) (p : vad_params) (st : state) : state :=
  process_loop E p (length (pending_samples (seg st))) st.

(** *** The drivers of [main] *)

Definition initial_seg : seg_state :=
  {| pending_samples := []; pre_roll := []; chunk_buffer := []; current_segment := [];
     segment_prob_sum := d_zero; segment_prob_count := 0; in_segment := false;
     segment_start_sample := 0; last_voice_sample := 0; processed_samples_total := 0;
     last_fetch_time_ms := 0; segment_index := 0; active_segment_index := -1;
     partial_sequence := 0; last_partial_emit_sample := 0 |}.

(** The state of [main] before the first dictionary load; [t_min] and [f_min]
    stand for [steady_clock::time_point::min()] and [file_time_type::min()]. *)
Definition initial_state (t_min f_min : Z) : state :=
  {| seg := initial_seg;
     dict := {| dictionary_cache := ""; dictionary_token_seqs := [];
                dictionary_entry_texts := []; dictionary_first_tokens := [];
                dictionary_first_token_ids := ∅; last_dictionary_reload := t_min;
                last_dictionary_write_time := f_min; last_dictionary_entries_raw := 0;
                last_dictionary_total_tokens := 0; last_dictionary_error := "" |};
     warned_beam_size_clamp := false;
     io := {| stdout := []; stderr := []; vad_calls := 0; decode_log := [];
              clock_reads := 0; stat_calls := 0; open_calls := 0 |} |}.

Definition reset_segment_state (st : state) : state := put_seg st initial_seg.

(** [for (float s : offline_pcm) pending_samples.push_back(s);] followed by the
    zero padding up to a whole number of chunks. *)
Definition enqueue_padded (st : state) (offline_pcm : list float) : state :=
  let pending := pending_samples (seg st) ++ offline_pcm in
  let rem := (length pending mod vad_chunk_samples)%nat in
  let pending :=
    if (0 <? rem)%nat then pending ++ replicate (vad_chunk_samples - rem) f_zero
    else pending in
  put_seg st (set_pending (seg st) pending).

(** The offline branch of [main], from the decoded samples on. *)
Definition run_offline (E : env) (p : vad_params) (st : state) (offline_pcm : list float)
  : state :=
  let st := enqueue_padded st offline_pcm in
  let st := process_pending_chunks E p st in
  flush_segment E p st true.

(** One file of the [--stdin-audio] loop, from the decoded samples on. *)
Definition run_stdin_audio_file (E : env) (p : vad_params) (st : state)
    (path : string) (offline_pcm : list float) : state :=
  let st := reset_segment_state st in
  let st := print st (EvJobStart (Some path)) in
  let st := enqueue_padded st offline_pcm in
  let st := process_pending_chunks E p st in
  let st := flush_segment E p st true in
  print st (EvJobEnd (Some path)).

(** A [J] message of the [--stdin-pcm] loop: samples are queued as they come,
    without padding. *)
Definition run_stdin_pcm_samples (E : env) (p : vad_params) (st : state)
    (samples : list float) : state :=
  match samples with
  | [] => st
  | _ =>
      let st := put_seg st (set_pending (seg st) (pending_samples (seg st) ++ samples)) in
      process_pending_chunks E p st
  end.

(** The microphone branch: the window fetched from the capture ring. *)
Definition fetch_window_ms (p : vad_params) : Z :=
  Z.min (ring_buffer_ms p) (max_segment_ms p + post_padding_ms p + 2000).

Definition set_fetched (s : seg_state) (pending : list float) (audio_time_ms : Z)
  : seg_state :=
  {| pending_samples := pending; pre_roll := pre_roll s;
     chunk_buffer := chunk_buffer s; current_segment := current_segment s;
     segment_prob_sum := segment_prob_sum s;
     segment_prob_count := segment_prob_count s; in_segment := in_segment s;
     segment_start_sample := segment_start_sample s;
     last_voice_sample := last_voice_sample s;
     processed_samples_total := processed_samples_total s;
     last_fetch_time_ms := audio_time_ms;
     segment_index := segment_index s;
     active_segment_index := active_segment_index s;
     partial_sequence := partial_sequence s;
     last_partial_emit_sample := last_partial_emit_sample s |}.

(** A turn of [while (sdl_poll_events())] up to the call of
    [process_pending_chunks]; [a] is the ring as the capture thread has left
    it when [get] takes the lock.  [None] is the [continue] taken when the
    capture time has not moved; otherwise the newest samples of the window
    are queued and [last_fetch_time_ms] is set.  What [get] writes on stderr
    is returned by [Ring.get] and is not copied into the state. *)
Definition mic_queue (p : vad_params) (a : Ring.audio_async float) (st : state)
  : option state :=
  let r := Ring.get a (fetch_window_ms p) [] 0 in
  let window_pcm := Ring.get_samples r in
  let audio_time_ms := Ring.get_time_ms r in
  if audio_time_ms <=? last_fetch_time_ms (seg st) then None
  else
    let delta_ms := audio_time_ms - last_fetch_time_ms (seg st) in
    let new_samples := Z.to_nat (wrap64 (Z.quot (delta_ms * sample_rate) 1000)) in
    let new_samples :=
      if (length window_pcm <? new_samples)%nat then length window_pcm else new_samples in
    let pending :=
      if (0 <? new_samples)%nat
      then pending_samples (seg st)
           ++ drop (length window_pcm - new_samples) window_pcm
      else pending_samples (seg st) in
    Some (put_seg st (set_fetched (seg st) pending audio_time_ms)).

(** The whole turn. *)
Definition mic_turn (E : env) (p : vad_params) (a : Ring.audio_async float) (st : state)
  : state :=
  match mic_queue p a st with
  | None => st
  | Some st => process_pending_chunks E p st
  end.

End Pipeline.
End Transcriber.

(** ** openflow_transcriber.cpp: [escape_json] *)
Module Json.

Definition backslash : ascii := ascii_of_nat 92.
Definition double_quote : ascii := ascii_of_nat 34.
Definition line_feed : ascii := ascii_of_nat 10.
Definition carriage_return : ascii := ascii_of_nat 13.
Definition tab : ascii := ascii_of_nat 9.

(** The [switch (c)] of the loop body: what is appended to [out]. *)
Definition escape_char (c : ascii) : list ascii :=
  if Ascii.eqb c backslash then [backslash; backslash]
  else if Ascii.eqb c double_quote then [backslash; double_quote]
  else if Ascii.eqb c line_feed then [backslash; "n"%char]
  else if Ascii.eqb c carriage_return then [backslash; "r"%char]
  else if Ascii.eqb c tab then [backslash; "t"%char]
  else [c].

(** [for (char c : s) { switch (c) ... }], [out] being the accumulator. *)
Definition escape_json (s : string) : string :=
  string_of_list_ascii
    (fold_left (fun out c => out ++ escape_char c) (list_ascii_of_string s) []).

End Json.

(** ** openflow_transcriber.cpp: the prefix fields of a [logits] packet *)
Module Packet.

(** [(uint32_t) tokens[i].id]. *)
Definition to_uint32 (z : Z) : Z := z mod 2 ^ 32.

(** The [fnv1a_step] lambda: [h ^= (uint64_t) v; h *= 1099511628211ULL;]. *)
Definition fnv1a_step (h v : Z) : Z := wrap64 (Z.lxor h v * 1099511628211).

Definition fnv_offset : Z := 14695981039346656037.

(** Body of [for (int i = 0; i < n_tokens; ++i)]: the state is
    [(prefix_hash, prefix_prev_hash)], the item is [(i, tokens[i].id)]. *)
Definition hash_step (n_tokens : nat) (acc : Z * Z) (it : nat * Z) : Z * Z :=
  let prefix_prev_hash := if (it.1 =? n_tokens - 1)%nat then acc.1 else acc.2 in
  (fnv1a_step acc.1 (to_uint32 it.2), prefix_prev_hash).

(** [prefix_hash] and [prefix_prev_hash] of a prefix of token ids. *)
Definition prefix_hashes (tokens : list Z) : Z * Z :=
  let n_tokens := length tokens in
  let acc :=
    fold_left (hash_step n_tokens) (zip (seq 0 n_tokens) tokens) (fnv_offset, fnv_offset) in
  if (n_tokens =? 0)%nat then (acc.1, acc.1) else acc.

(** Body of the loop that builds [prefix_text]; the text is kept as its
    bytes. *)
Definition prefix_text_step (token_to_str : Z -> option string) (text : list ascii) (id : Z)
  : list ascii :=
  match token_to_str id with
  | None => text
  | Some piece =>
      if Transcriber.is_control_piece piece then text
      else
        let text := text ++ list_ascii_of_string piece in
        if (256 <? length text)%nat then drop (length text - 256) text else text
  end.

(** [prefix_text], empty unless [bctx->logits_prefix_text]. *)
Definition prefix_text (token_to_str : Z -> option string) (logits_prefix_text : bool)
    (tokens : list Z) : list ascii :=
  if logits_prefix_text then
    let n_tokens := length tokens in
    let max_prefix_tokens := Nat.min n_tokens 48 in
    fold_left (prefix_text_step token_to_str) (drop (n_tokens - max_prefix_tokens) tokens) []
  else [].

End Packet.

(** ** openflow_transcriber.cpp: the WAV reader

    Offsets and sizes are [size_t]; they are kept as [nat], the sums of an
    offset inside the file and a 32-bit chunk size being far from wrapping a
    64-bit [size_t].  The bytes of the file are integers from 0 to 255, and a
    read past the end of the buffer, which the checks of the reader rule
    out, gives 0. *)

(** The conversions of a sample to [double], and of a frame to [float]. *)
Class SampleOps `{FloatOps} := {
  d_of_pcm16 : Z -> double;       (* (double) s / 32768.0, [s] an [int16_t] *)
  d_of_pcm32 : Z -> double;       (* (double) s / 2147483648.0, [s] an [int32_t] *)
  d_of_f32_bits : Z -> double;    (* (double) s, [s] the [float] with these 32 bits *)
  f_of_double : double -> float   (* (float) d *)
}.

Module Wav.

Definition byte_at (buf : list Z) (off : nat) : Z := default 0 (buf !! off).

(** [(uint16_t) p[0] | ((uint16_t) p[1] << 8)], returned as [uint16_t]. *)
Definition read_u16_le (buf : list Z) (off : nat) : Z :=
  Z.lor (byte_at buf off) (Z.shiftl (byte_at buf (off + 1)) 8) mod 2 ^ 16.

(** The same on four bytes, in [uint32_t] arithmetic. *)
Definition read_u32_le (buf : list Z) (off : nat) : Z :=
  Z.lor
    (Z.lor
       (Z.lor (byte_at buf off) (Z.shiftl (byte_at buf (off + 1)) 8 mod 2 ^ 32))
       (Z.shiftl (byte_at buf (off + 2)) 16 mod 2 ^ 32))
    (Z.shiftl (byte_at buf (off + 3)) 24 mod 2 ^ 32).

(** [int16_t s; memcpy(&s, p, sizeof(s));] on a little-endian host. *)
Definition read_i16 (buf : list Z) (off : nat) : Z :=
  let u := Z.lor (byte_at buf off) (Z.shiftl (byte_at buf (off + 1)) 8) mod 2 ^ 16 in
  if u <? 2 ^ 15 then u else u - 2 ^ 16.

(** [int32_t s; memcpy(&s, p, sizeof(s));] on a little-endian host. *)
Definition read_i32 (buf : list Z) (off : nat) : Z :=
  let u := read_u32_le buf off in
  if u <? 2 ^ 31 then u else u - 2 ^ 32.

(** [(int) sample_rate], [sample_rate] a [uint32_t]. *)
Definition to_int32 (u : Z) : Z := if u <? 2 ^ 31 then u else u - 2 ^ 32.

(** [memcmp(buf.data() + off, tag, 4) == 0]. *)
Definition tag_at (buf : list Z) (off : nat) (tag : list Z) : bool :=
  bool_decide (map (byte_at buf) (seq off 4) = tag).

Definition tag_RIFF : list Z := [82; 73; 70; 70].
Definition tag_WAVE : list Z := [87; 65; 86; 69].
Definition tag_fmt : list Z := [102; 109; 116; 32].
Definition tag_data : list Z := [100; 97; 116; 97].

(** The variables the chunk loop fills. *)
Record wav_header := {
  audio_format : Z;
  num_channels : Z;
  sample_rate : Z;
  bits_per_sample : Z;
  data_off : nat;
  data_size : nat
}.

Definition no_header : wav_header :=
  {| audio_format := 0; num_channels := 0; sample_rate := 0; bits_per_sample := 0;
     data_off := 0; data_size := 0 |}.

(** [while (off + 8 <= buf.size())]: a turn moves [off] forward by at least
    8 bytes, so [fuel] turns suffice when [fuel] is at least the size of the
    file. *)
Fixpoint scan_chunks (fuel : nat) (buf : list Z) (off : nat) (h : wav_header) : wav_header :=
  match fuel with
  | O => h
  | S fuel =>
      if (off + 8 <=? length buf)%nat then
        let chunk_sz := Z.to_nat (read_u32_le buf (off + 4)) in
        let chunk_data_off := (off + 8)%nat in
        if (length buf <? chunk_data_off + chunk_sz)%nat then h
        else
          let h :=
            if tag_at buf off tag_fmt && (16 <=? chunk_sz)%nat then
              {| audio_format := read_u16_le buf (chunk_data_off + 0);
                 num_channels := read_u16_le buf (chunk_data_off + 2);
                 sample_rate := read_u32_le buf (chunk_data_off + 4);
                 bits_per_sample := read_u16_le buf (chunk_data_off + 14);
                 data_off := data_off h; data_size := data_size h |}
            else if tag_at buf off tag_data then
              {| audio_format := audio_format h; num_channels := num_channels h;
                 sample_rate := sample_rate h; bits_per_sample := bits_per_sample h;
                 data_off := chunk_data_off; data_size := chunk_sz |}
            else h in
          let off := (chunk_data_off + chunk_sz)%nat in
          let off := if Nat.odd off then S off else off in
          scan_chunks fuel buf off h
      else h
  end.

Inductive wav_error :=
  | ErrOpen
  | ErrEmpty
  | ErrRead
  | ErrNotRiffWave
  | ErrNoDataChunk
  | ErrMissingFmt
  | ErrUnsupportedFormat (format : Z)
  | ErrInvalidBits (bits : Z)
  | ErrUnsupportedEncoding (format bits : Z).

(** What opening and reading the file gives. *)
Inductive file_read :=
  | FileClosed                     (* [!f.good()] after opening *)
  | FileTruncated (size : nat)     (* [!f.good()] after [f.read], for a size above 0 *)
  | FileBytes (buf : list Z).

Section Reader.
Context `{SampleOps}.

(** The three encodings of the channel loop; [None] is the [else] branch. *)
Definition decode_sample (h : wav_header) (buf : list Z) (p : nat) : option double :=
  if (audio_format h =? 1) && (bits_per_sample h =? 16)
  then Some (d_of_pcm16 (read_i16 buf p))
  else if (audio_format h =? 1) && (bits_per_sample h =? 32)
  then Some (d_of_pcm32 (read_i32 buf p))
  else if (audio_format h =? 3) && (bits_per_sample h =? 32)
  then Some (d_of_f32_bits (read_u32_le buf p))
  else None.

(** [for (uint16_t ch = 0; ch < num_channels; ++ch)] from channel [ch] on,
    with the running [sum]. *)
Fixpoint sum_channels (h : wav_header) (buf : list Z) (frame : nat) (chs : list nat)
    (sum : double) : option double :=
  match chs with
  | [] => Some sum
  | ch :: chs =>
      match decode_sample h buf (frame + ch * Z.to_nat (bits_per_sample h / 8)) with
      | Some s => sum_channels h buf frame chs (d_add sum s)
      | None => None
      end
  end.

(** [for (size_t i = 0; i < n_frames; ++i)] over the frames [is], [out]
    being the vector filled so far; [false] is the [return false] of the
    unsupported encoding. *)
Fixpoint decode_frames (h : wav_header) (buf : list Z) (frame_bytes : nat) (frames : list nat)
    (out : list float) : bool * list float :=
  match frames with
  | [] => (true, out)
  | i :: frames =>
      match sum_channels h buf (data_off h + i * frame_bytes)
              (seq 0 (Z.to_nat (num_channels h))) d_zero with
      | Some sum =>
          decode_frames h buf frame_bytes frames
            (out ++ [f_of_double (d_div_int sum (Z.max 1 (num_channels h)))])
      | None => (false, out)
      end
  end.

(** [read_wav_mono_f32]: the error, if any, and the two output arguments as
    they stand on return. *)
Definition read_wav_mono_f32 (file : file_read) (out : list float) (sample_rate_out : Z)
  : option wav_error * list float * Z :=
  match file with
  | FileClosed => (Some ErrOpen, out, sample_rate_out)
  | FileTruncated _ => (Some ErrRead, out, sample_rate_out)
  | FileBytes [] => (Some ErrEmpty, out, sample_rate_out)
  | FileBytes buf =>
      if (length buf <? 44)%nat || negb (tag_at buf 0 tag_RIFF)
         || negb (tag_at buf 8 tag_WAVE)
      then (Some ErrNotRiffWave, out, sample_rate_out)
      else
        let h := scan_chunks (length buf) buf 12 no_header in
        if (data_off h =? 0)%nat || (data_size h =? 0)%nat
        then (Some ErrNoDataChunk, out, sample_rate_out)
        else if (sample_rate h =? 0) || (num_channels h =? 0)
        then (Some ErrMissingFmt, out, sample_rate_out)
        else if negb (audio_format h =? 1) && negb (audio_format h =? 3)
        then (Some (ErrUnsupportedFormat (audio_format h)), out, sample_rate_out)
        else
          let frame_bytes :=
            (Z.to_nat (num_channels h) * Z.to_nat (bits_per_sample h / 8))%nat in
          if (frame_bytes =? 0)%nat
          then (Some (ErrInvalidBits (bits_per_sample h)), out, sample_rate_out)
          else
            let n_frames := (data_size h / frame_bytes)%nat in
            match decode_frames h buf frame_bytes (seq 0 n_frames) [] with
            | (true, out) => (None, out, to_int32 (sample_rate h))
            | (false, out) =>
                (Some (ErrUnsupportedEncoding (audio_format h) (bits_per_sample h)),
                 out, sample_rate_out)
            end
  end.

End Reader.
End Wav.

(** ** Predicates used in the statements *)
Section Predicates.
Context `{FloatOps}.
Import Transcriber.

(** [v'] is [v] after adding, in order, biases that all satisfy [P]. *)
Definition boosted_by (P : float -> Prop) (v v' : float) : Prop :=
  exists bs : list float, Forall P bs /\ v' = fold_left f_add bs v.

(** Two arrays of the same length where an entry may only differ by additions
    of biases, and no entry of the timestamp range differs. *)
Definition boosted_array (P : float -> Prop) (token_beg : Z) (logits logits' : list float)
  : Prop :=
  length logits' = length logits
  /\ (forall (i : nat) v v', logits !! i = Some v -> logits' !! i = Some v' ->
        boosted_by P v v')
  /\ (forall i : nat, 0 < token_beg -> token_beg <= Z.of_nat i ->
        logits' !! i = logits !! i).

(** The consistency of the dictionary indices. *)
Definition dict_invariant (d : dict_state) : Prop :=
  Forall (fun sq => exists first, head sq = Some first
                                  /\ first ∈ dictionary_first_token_ids d)
         (dictionary_token_seqs d)
  /\ (forall x, x ∈ dictionary_first_token_ids d <-> x ∈ dictionary_first_tokens d)
  /\ NoDup (dictionary_first_tokens d)
  /\ size (dictionary_first_token_ids d) = length (dictionary_first_tokens d)
  /\ last_dictionary_total_tokens d
     = Z.of_nat (sum_list_with length (dictionary_token_seqs d))
  /\ length (dictionary_entry_texts d) = length (dictionary_token_seqs d).

(** The same for the accumulator of the tokenizing loop. *)
Definition tok_acc_invariant (a : tok_acc) : Prop :=
  Forall (fun sq => exists first, head sq = Some first /\ first ∈ acc_first_token_ids a)
         (acc_token_seqs a)
  /\ (forall x, x ∈ acc_first_token_ids a <-> x ∈ acc_first_tokens a)
  /\ NoDup (acc_first_tokens a)
  /\ first_seen a = acc_first_token_ids a
  /\ total_tokens a = Z.of_nat (sum_list_with length (acc_token_seqs a))
  /\ length (acc_entry_texts a) = length (acc_token_seqs a).

(** Everything a reload may replace: the indices, the cached text, the
    totals, the error and the recorded mtime. *)
Definition dict_indices (d : dict_state) :=
  (dictionary_token_seqs d, dictionary_entry_texts d, dictionary_first_token_ids d,
   dictionary_first_tokens d, dictionary_cache d, last_dictionary_total_tokens d,
   last_dictionary_entries_raw d, last_dictionary_error d, last_dictionary_write_time d).

(** The [segment] lines of an output, in order. *)
Definition segment_events (out : list event) : list segment_event :=
  omap (fun e => match e with EvSegment s => Some s | _ => None end) out.

(** The [vad] lines of an output: time and probability. *)
Definition vad_events (out : list event) : list (Z * float) :=
  omap (fun e => match e with EvVad t prob _ _ => Some (t, prob) | _ => None end) out.

(** The [partial_seq] of the lines with [final=false], resp. [final=true]. *)
Definition partial_seqs (l : list segment_event) : list Z :=
  se_partial_seq <$> filter (fun s => se_final s = false) l.
Definition final_seqs (l : list segment_event) : list Z :=
  se_partial_seq <$> filter (fun s => se_final s = true) l.

(** The beam-size warnings on stderr. *)
Definition beam_warnings (st : state) : list (Z * Z) :=
  omap (fun l => match l with WarnBeamSizeClamp r c => Some (r, c) | _ => None end)
       (stderr (io st)).

(** The beam the command line asks for, the model's default when it is 0. *)
Definition requested_beam (E : env) (p : vad_params) : Z :=
  if 0 <? beam_size p then beam_size p
  else default_beam_size E WHISPER_SAMPLING_BEAM_SEARCH.

(** What holds of the decodes made so far when bias decoding is on: each got
    the clamped beam; the warning was printed once if a decode had to clamp,
    and not at all otherwise. *)
Definition beam_invariant (E : env) (p : vad_params) (st : state) : Prop :=
  Forall (fun c : whisper_full_params * list float =>
            strategy c.1 = WHISPER_SAMPLING_BEAM_SEARCH
            /\ wp_beam_size c.1 = clamp (requested_beam E p) 2 kWhisperMaxDecoders)
         (decode_log (io st))
  /\ beam_warnings st
     = (if warned_beam_size_clamp st
        then [(requested_beam E p, clamp (requested_beam E p) 2 kWhisperMaxDecoders)]
        else [])
  /\ (warned_beam_size_clamp st = true <->
      decode_log (io st) <> []
      /\ requested_beam E p <> clamp (requested_beam E p) 2 kWhisperMaxDecoders).

(** One action of [main] on the pipeline state. *)
Inductive step (E : env) (p : vad_params) : state -> state -> Prop :=
  | step_reload st si ps fin force :
      step E p st (reload_dictionary_if_needed E p st si ps fin force)
  | step_reset st : step E p st (reset_segment_state st)
  | step_enqueue_padded st pcm : step E p st (enqueue_padded st pcm)
  | step_enqueue st samples :
      step E p st (put_seg st (set_pending (seg st) (pending_samples (seg st) ++ samples)))
  | step_chunk st :
      (vad_chunk_samples <= length (pending_samples (seg st)))%nat ->
      step E p st (process_chunk E p st)
  | step_flush st forced : step E p st (flush_segment E p st forced)
  | step_fetch st a st1 : mic_queue p a st = Some st1 -> step E p st st1
  | step_print_job st e :
      (forall s, e <> EvSegment s) -> (forall t pr n r, e <> EvVad t pr n r) ->
      step E p st (print st e).

(** The states [main] can be in. *)
Inductive reachable (E : env) (p : vad_params) : state -> Prop :=
  | reachable_init t_min f_min : reachable E p (initial_state t_min f_min)
  | reachable_step st st' : reachable E p st -> step E p st st' -> reachable E p st'.

(** What a state shows of the segmentation, the decodes, the VAD calls and
    the lines other than [dictionary] ones. *)
Definition outside_dictionary (st : state) :=
  (seg st, warned_beam_size_clamp st, decode_log (io st), vad_calls (io st),
   beam_warnings st, segment_events (stdout (io st)), vad_events (stdout (io st))).

(** The part of a state the beam invariant reads. *)
Definition beam_view (st : state) :=
  (decode_log (io st), warned_beam_size_clamp st, beam_warnings st).

(** The [segment] line [emit_transcription] prints when the decode succeeds. *)
Definition printed_segment (fin : bool) (avg : double) (si ps start : Z) (audio : list float)
    (e : segment_event) : Prop :=
  se_final e = fin /\ se_partial_seq e = ps /\ se_avg_vad e = avg
  /\ se_segment_index e = si
  /\ se_start_ms e = Z.quot (start * 1000) sample_rate
  /\ se_end_ms e = se_start_ms e + Z.quot (Z.of_nat (length audio) * 1000) sample_rate
  /\ se_duration_ms e = Z.max 0 (se_end_ms e - se_start_ms e).

(** The life of the active utterance: actions taken while [in_segment]. *)
Inductive utterance_run (E : env) (p : vad_params) : state -> state -> Prop :=
  | utterance_pause st : utterance_run E p st st
  | utterance_step st st1 st2 :
      in_segment (seg st) = true -> step E p st st1 -> utterance_run E p st1 st2 ->
      utterance_run E p st st2.

(** Every call of [whisper_full] returns 0. *)
Definition decodes_succeed (E : env) : Prop :=
  forall n w audio, whisper_full E n w audio <> None.

(** Every frame gets a probability, and it is below the start threshold. *)
Definition all_silent (E : env) (p : vad_params) : Prop :=
  forall n frame, exists prob,
    vad_infer E n frame = Some prob /\ f_ge prob (start_threshold p) = false.

(** [ceil (n / 512)]. *)
Definition chunks_up (n : nat) : nat := ((n + (vad_chunk_samples - 1)) / vad_chunk_samples)%nat.

(** The state of [process_chunk] once the VAD has answered [prob]. *)
Definition after_vad (p : vad_params) (st : state) (prob : float) : state :=
  let st := count_vad_call (put_seg st (pop_chunk (seg st))) in
  let st := put_seg st (advance_processed (seg st)) in
  if emit_vad_events p
  then print st (EvVad (Z.quot (processed_samples_total (seg st) * 1000) sample_rate)
                   prob vad_chunk_samples sample_rate)
  else st.

(** What the two streaming modes put on the queue between two calls of
    [process_pending_chunks]: the samples of a [J] message of the stdin-pcm
    protocol, or what a turn of the microphone loop takes from the ring. *)
Inductive feed : Type :=
  | FeedMessage (samples : list float)
  | FeedFetch (a : Ring.audio_async float).

Definition run_feed (E : env) (p : vad_params) (st : state) (f : feed) : state :=
  match f with
  | FeedMessage samples => run_stdin_pcm_samples E p st samples
  | FeedFetch a => mic_turn E p a st
  end.

(** The number of samples a feed adds to the queue. *)
Definition fed (p : vad_params) (st : state) (f : feed) : nat :=
  match f with
  | FeedMessage samples => length samples
  | FeedFetch a =>
      match mic_queue p a st with
      | Some st1 => length (pending_samples (seg st1)) - length (pending_samples (seg st))
      | None => 0
      end
  end.

(** The feeds in turn: the state reached and the number of samples queued. *)
Fixpoint run_feeds (E : env) (p : vad_params) (st : state) (fs : list feed)
  : state * nat :=
  match fs with
  | [] => (st, 0%nat)
  | f :: fs =>
      let r := run_feeds E p (run_feed E p st f) fs in
      (r.1, (fed p st f + r.2)%nat)
  end.

(** Whether the decode logged at position [i] returned 0. *)
Definition decode_succeeded (E : env) (log : list (whisper_full_params * list float))
    (i : nat) : bool :=
  match log !! i with
  | Some c => match whisper_full E i c.1 c.2 with Some _ => true | None => false end
  | None => false
  end.

(** The numbers of the partial decodes [d0], [d0 + 1], ... , [d0 + k - 1] of
    the log that returned 0, counted from 0. *)
Definition successful_partials (E : env) (log : list (whisper_full_params * list float))
    (d0 k : nat) : list Z :=
  Z.of_nat <$> filter (fun i => decode_succeeded E log (d0 + i) = true) (seq 0 k).

(** A frame met while active, up to the flush triggers: the frame joins the
    segment and the partial decode is made when it is due. *)
Definition join_frame (E : env) (p : vad_params) (st : state) (prob : float) : state :=
  let st1 := after_vad p st prob in
  maybe_emit_partial E p (put_seg st1 (append_chunk p (seg st1) prob)).

(** The states in which [flush_segment] is called on the utterance that is
    active in [st]: [st] itself, for the calls of [main] at the end of the
    input, and the state of a frame that fires one of the two triggers of
    [process_pending_chunks]. *)
Inductive flush_point (E : env) (p : vad_params) (st : state) : state -> bool -> Prop :=
  | flush_at_end forced : flush_point E p st st forced
  | flush_over_max prob :
      (vad_chunk_samples <= length (pending_samples (seg st)))%nat ->
      vad_infer E (vad_calls (io st)) (take vad_chunk_samples (pending_samples (seg st)))
      = Some prob ->
      flush_point E p st
        (debug_print p (join_frame E p st prob)
           (DbgForcedFlush (segment_index (seg (join_frame E p st prob))))) true
  | flush_after_silence prob :
      (vad_chunk_samples <= length (pending_samples (seg st)))%nat ->
      vad_infer E (vad_calls (io st)) (take vad_chunk_samples (pending_samples (seg st)))
      = Some prob ->
      flush_point E p st
        (debug_print p (join_frame E p st prob)
           (DbgFlushAfterSilence (segment_index (seg (join_frame E p st prob))) prob)) false.

(** What an active utterance has done since the state it was opened in, whose
    [segment] lines were [lines0] and which had logged [d0] decodes: [k]
    partial decodes, numbered by the counter, of which those that returned 0
    printed a line with [final=false], and no line with [final=true]. *)
Definition utterance_trace (E : env) (lines0 : list segment_event) (d0 : nat)
    (st : state) (k : nat) (evs : list segment_event) : Prop :=
  segment_events (stdout (io st)) = lines0 ++ evs
  /\ partial_sequence (seg st) = Z.of_nat k
  /\ length (decode_log (io st)) = (d0 + k)%nat
  /\ final_seqs evs = []
  /\ partial_seqs evs = successful_partials E (decode_log (io st)) d0 k.

End Predicates.

(** The cursor and the valid length of a ring stay inside the buffer. *)
Definition ring_ok {sample : Type} (a : Ring.audio_async sample) : Prop :=
  (Ring.m_audio_pos a < length (Ring.m_audio a))%nat
  /\ (Ring.m_audio_len a <= length (Ring.m_audio a))%nat.

(** The window of [get] in samples, for a request of [ms] milliseconds. *)
Definition window_samples {sample : Type} (a : Ring.audio_async sample) (ms : Z) : Z :=
  Ring.m_sample_rate a * (if ms <=? 0 then Ring.m_len_ms a else ms) / 1000.

Section BiasPredicates.
Context `{FloatOps}.

(** The last [l] tokens of the prefix are the first [l] tokens of [sq]. *)
Definition suffix_match (tokens sq : list Z) (l : nat) : Prop :=
  (l <= length tokens)%nat /\ (l <= length sq)%nat
  /\ take l sq = drop (length tokens - l) tokens.

(** [sq] continues the prefix with [next]: the longest match of at least one
    and at most [|sq| - 1] tokens ends just before [next]. *)
Definition continues_with (tokens sq : list Z) (next : Z) : Prop :=
  exists l : nat,
    (1 <= l <= Nat.min (length tokens) (length sq - 1))%nat
    /\ suffix_match tokens sq l
    /\ (forall l', (l < l' <= Nat.min (length tokens) (length sq - 1))%nat ->
                   ~ suffix_match tokens sq l')
    /\ sq !! l = Some next.

End BiasPredicates.

Section SegmentationPredicates.
Context `{FloatOps}.
Import Transcriber.

(** The length an utterance buffer stays below between two frames: the
    longest segment, or the pre-padding and the frame that opens it. *)
Definition segment_bound (p : vad_params) : nat :=
  Nat.max (max_segment_samples p) (pre_padding_samples p + vad_chunk_samples + 1).

(** The bookkeeping of the sample timeline: the pre-roll never exceeds the
    pre-padding nor the audio processed so far; while an utterance is open its
    buffer holds exactly the samples from [segment_start_sample] to
    [processed_samples_total] and stays below [segment_bound + slack], the
    last voiced sample lies in between, and the utterance carries the current
    segment index. *)
Definition timeline_within (slack : nat) (p : vad_params) (s : seg_state) : Prop :=
  (length (pre_roll s) <= pre_padding_samples p)%nat
  /\ Z.of_nat (length (pre_roll s)) <= processed_samples_total s
  /\ 0 <= segment_index s
  /\ (in_segment s = true ->
      pre_roll s = []
      /\ 0 <= segment_start_sample s
      /\ segment_start_sample s + Z.of_nat (length (current_segment s))
         = processed_samples_total s
      /\ segment_start_sample s <= last_voice_sample s <= processed_samples_total s
      /\ active_segment_index s = segment_index s
      /\ 0 <= partial_sequence s
      /\ (vad_chunk_samples <= length (current_segment s) < segment_bound p + slack)%nat).

(** Between two frames there is no slack; inside a turn of the loop the
    buffer may be one frame longer until the flush triggers are looked at. *)
Definition timeline_invariant (p : vad_params) (s : seg_state) : Prop :=
  timeline_within 0 p s.

(** A [segment] line with sound times and numbers: it starts at or after 0,
    ends at or after its start, lasts [end - start] and at least
    [min_segment_ms]. *)
Definition segment_line_ok (p : vad_params) (e : segment_event) : Prop :=
  0 <= se_start_ms e <= se_end_ms e
  /\ se_duration_ms e = se_end_ms e - se_start_ms e
  /\ Z.max 0 (min_segment_ms p) <= se_duration_ms e
  /\ 0 <= se_partial_seq e
  /\ 0 <= se_segment_index e.

(** A call of [whisper_full] within bounds: the audio is not empty, at least
    [min_segment_samples] and less than a frame above [segment_bound] long;
    a prompt is given only when prompts are on, and has 1 to 4096 bytes. *)
Definition decode_ok (p : vad_params) (c : whisper_full_params * list float) : Prop :=
  c.2 <> []
  /\ (min_segment_samples p <= length c.2 < segment_bound p + vad_chunk_samples)%nat
  /\ match initial_prompt c.1 with
     | Some s => send_prompt p = true /\ (1 <= String.length s <= 4096)%nat
     | None => True
     end.

Definition output_invariant (p : vad_params) (st : state) : Prop :=
  Forall (segment_line_ok p) (segment_events (stdout (io st)))
  /\ Forall (decode_ok p) (decode_log (io st)).

Definition pipeline_invariant (p : vad_params) (st : state) : Prop :=
  timeline_invariant p (seg st) /\ output_invariant p st.

End SegmentationPredicates.

Section FramePredicates.
Context `{FloatOps}.
Import Transcriber.

(** The number of [VAD inference failed] lines on stderr. *)
Definition vad_failures (st : state) : nat :=
  length (omap (fun l => match l with ErrVadInferenceFailed => Some l | _ => None end)
            (stderr (io st))).

(** Frame [k] of a queue: samples [512 k .. 512 k + 511]. *)
Definition frame (pending : list float) (k : nat) : list float :=
  take vad_chunk_samples (drop (vad_chunk_samples * k) pending).

(** The probabilities the VAD gives for the first [m] frames of the queue,
    the calls being numbered from [c]; a frame whose call throws gives none. *)
Definition vad_answers (E : env) (c : nat) (pending : list float) (m : nat) : list float :=
  omap (fun k => vad_infer E (c + k) (frame pending k)) (seq 0 m).

(** The [vad] lines of those answers on a timeline that stands at [start]. *)
Definition vad_lines (start : Z) (answers : list float) : list (Z * float) :=
  imap (fun i prob =>
          (Z.quot ((start + Z.of_nat vad_chunk_samples * (Z.of_nat i + 1)) * 1000)
             sample_rate, prob))
       answers.

(** What [process_chunk] shows of the frame clock. *)
Definition frame_view (st : state) :=
  (processed_samples_total (seg st), vad_failures st, vad_events (stdout (io st))).

End FramePredicates.

Section DictionaryPredicates.
Import Transcriber.

(** A word as a dictionary entry: not empty and free of white space. *)
Definition clean_word (w : string) : Prop :=
  w <> EmptyString /\ Forall (fun c => isspace c = false) (list_ascii_of_string w).

(** A dictionary file with one entry per line. *)
Definition one_per_line (ws : list string) : string :=
  fold_right (fun w rest => String.append w (String (ascii_of_nat 10) rest)) EmptyString ws.

End DictionaryPredicates.

Section DictionaryAccounting.
Context `{FloatOps}.
Import Transcriber.

(** The [dictionary] lines of an output, in order. *)
Definition dictionary_events (out : list event) : list dictionary_event :=
  omap (fun e => match e with EvDictionary d => Some d | _ => None end) out.

(** The accounting of the tokenized dictionary: an entry gives at most two
    token sequences, none of them empty; the first tokens are no more than
    the sequences and each of them starts one; the entry texts are entries of
    the cached file; and a recorded error means an empty dictionary. *)
Definition dictionary_sized (d : dict_state) : Prop :=
  (length (dictionary_first_tokens d) <= length (dictionary_token_seqs d))%nat
  /\ Z.of_nat (length (dictionary_token_seqs d)) <= 2 * last_dictionary_entries_raw d
  /\ Z.of_nat (length (dictionary_token_seqs d)) <= last_dictionary_total_tokens d
  /\ Forall (fun sq => sq <> []) (dictionary_token_seqs d)
  /\ Forall (fun x => exists sq, sq ∈ dictionary_token_seqs d /\ head sq = Some x)
       (dictionary_first_tokens d)
  /\ Forall (fun t => t ∈ split_dictionary_entries (dictionary_cache d))
       (dictionary_entry_texts d)
  /\ (last_dictionary_error d <> EmptyString ->
      dictionary_cache d = EmptyString /\ dictionary_token_seqs d = []
      /\ dictionary_first_tokens d = [] /\ dictionary_first_token_ids d = ∅
      /\ last_dictionary_entries_raw d = 0 /\ last_dictionary_total_tokens d = 0).

(** The same for the accumulator of the tokenizing loop, [entries] being the
    entries gone through so far. *)
Definition tok_acc_sized (entries : list string) (a : tok_acc) : Prop :=
  (length (acc_first_tokens a) <= length (acc_token_seqs a))%nat
  /\ (length (acc_token_seqs a) <= 2 * length entries)%nat
  /\ Z.of_nat (length (acc_token_seqs a)) <= total_tokens a
  /\ Forall (fun sq => sq <> []) (acc_token_seqs a)
  /\ Forall (fun x => exists sq, sq ∈ acc_token_seqs a /\ head sq = Some x)
       (acc_first_tokens a)
  /\ Forall (fun t => t ∈ entries) (acc_entry_texts a).

(** What one variant keeps of the accounting, [entries] being fixed. *)
Definition variant_sized (entries : list string) (a : tok_acc) : Prop :=
  (length (acc_first_tokens a) <= length (acc_token_seqs a))%nat
  /\ Z.of_nat (length (acc_token_seqs a)) <= total_tokens a
  /\ Forall (fun sq => sq <> []) (acc_token_seqs a)
  /\ Forall (fun x => exists sq, sq ∈ acc_token_seqs a /\ head sq = Some x)
       (acc_first_tokens a)
  /\ Forall (fun t => t ∈ entries) (acc_entry_texts a).

(** The dictionary a reload leaves: untouched but for the poll time, emptied,
    or rebuilt from the file. *)
Definition reload_outcome (E : env) (d d' : dict_state) : Prop :=
  d' = d
  \/ (exists now, d' = set_last_dictionary_reload d now)
  \/ (exists d0 err, d' = clear_dictionary d0 err)
  \/ (exists d0 contents mtime, d' = rebuild_dictionary E d0 contents mtime).

(** A [dictionary] line whose numbers agree with each other. *)
Definition dictionary_line_ok (e : dictionary_event) : Prop :=
  de_attempted e = true
  /\ de_ok e = bool_decide (de_error e = EmptyString)
  /\ 0 <= de_dict_first_tokens e <= de_dict_entries e
  /\ de_dict_entries e <= 2 * de_dict_entries_raw e
  /\ de_dict_entries e <= de_dict_total_tokens e
  /\ (length (de_words e) <= 40)%nat
  /\ (de_ok e = false ->
      de_dict_entries_raw e = 0 /\ de_dict_entries e = 0 /\ de_dict_first_tokens e = 0
      /\ de_dict_total_tokens e = 0 /\ de_dict_cache_bytes e = 0).

End DictionaryAccounting.

Section BiasPipelinePredicates.
Context `{FloatOps}.
Import Transcriber.

(** [x] is the first token of a sequence of the dictionary. *)
Definition starts_entry (d : dict_state) (x : Z) : Prop :=
  exists sq, sq ∈ dictionary_token_seqs d /\ head sq = Some x.

(** The guards of [add_bias] for the logit [v] at index [i]. *)
Definition boostable (n_vocab token_beg : Z) (i : nat) (v : float) : bool :=
  (Z.of_nat i <? n_vocab)
  && negb ((0 <? token_beg) && (token_beg <=? Z.of_nat i))
  && f_isfinite v.

End BiasPipelinePredicates.

Section TextPredicates.

(** The last [n] elements of a list, all of it when it is shorter. *)
Definition last_n {A} (n : nat) (l : list A) : list A := drop (length l - n) l.

(** The reading of an escaped text: a backslash stands with the next byte
    for one byte. *)
Fixpoint unescape (l : list ascii) : list ascii :=
  match l with
  | [] => []
  | c :: r =>
      if Ascii.eqb c Json.backslash then
        match r with
        | [] => [c]
        | e :: r' =>
            (if Ascii.eqb e "n"%char then Json.line_feed
             else if Ascii.eqb e "r"%char then Json.carriage_return
             else if Ascii.eqb e "t"%char then Json.tab
             else e) :: unescape r'
        end
      else c :: unescape r
  end.

(** The pieces [prefix_text] is made of: those of the tokens that have a
    text which is not a control piece. *)
Definition kept_pieces (token_to_str : Z -> option string) (tokens : list Z) : list ascii :=
  concat (omap (fun id =>
                  match token_to_str id with
                  | Some piece =>
                      if Transcriber.is_control_piece piece then None
                      else Some (list_ascii_of_string piece)
                  | None => None
                  end) tokens).

End TextPredicates.

Section WavPredicates.
Context `{SampleOps}.
Import Wav.

(** The bytes of a buffer are bytes. *)
Definition bytes_ok (buf : list Z) : Prop := Forall (fun b => 0 <= b < 256) buf.

(** A value on two and on four bytes, least significant byte first. *)
Definition le_bytes_2 (v : Z) : list Z := [v mod 256; v / 256 mod 256].
Definition le_bytes_4 (v : Z) : list Z :=
  [v mod 256; v / 256 mod 256; v / 65536 mod 256; v / 16777216 mod 256].

(** A 16-bit sample in two's complement. *)
Definition pcm16_bytes (s : Z) : list Z := le_bytes_2 (s mod 65536).

Definition pcm16_sample (s : Z) : Prop := - 2 ^ 15 <= s < 2 ^ 15.

(** A 16-bit PCM file with the canonical 44-byte header: [channels]
    interleaved channels at [rate] Hz, one list of samples per frame. *)
Definition pcm16_data (frames : list (list Z)) : list Z :=
  concat (map pcm16_bytes (concat frames)).

Definition wav_pcm16 (rate : Z) (channels : nat) (frames : list (list Z)) : list Z :=
  let data := pcm16_data frames in
  let c := Z.of_nat channels in
  tag_RIFF ++ le_bytes_4 (36 + Z.of_nat (length data)) ++ tag_WAVE
  ++ tag_fmt ++ le_bytes_4 16 ++ le_bytes_2 1 ++ le_bytes_2 c ++ le_bytes_4 rate
  ++ le_bytes_4 (rate * c * 2) ++ le_bytes_2 (c * 2) ++ le_bytes_2 16
  ++ tag_data ++ le_bytes_4 (Z.of_nat (length data)) ++ data.

(** What the chunk loop reads in that file. *)
Definition canonical_header (rate : Z) (channels : nat) (frames : list (list Z))
  : wav_header :=
  {| audio_format := 1; num_channels := Z.of_nat channels; sample_rate := rate;
     bits_per_sample := 16; data_off := 44; data_size := length (pcm16_data frames) |}.

(** The mono sample of a frame: the mean of its channels. *)
Definition downmix (channels : nat) (frame : list Z) : float :=
  f_of_double
    (d_div_int (fold_left d_add (map d_of_pcm16 frame) d_zero) (Z.of_nat channels)).

End WavPredicates.

Section IndexPredicates.
Context `{FloatOps}.
Import Transcriber.




End IndexPredicates.

(** ** Concrete instances used to run the model

    A fixed-point stand-in for the floating types: a finite value is an
    integer number of thousandths, [None] is a non-finite value.  It is only
    used to evaluate the definitions on examples. *)
#[export] Instance fixed_point : FloatOps :=
  {| float := option Z;
     double := option Z;
     f_zero := Some 0;
     f_add := fun a b => match a, b with Some x, Some y => Some (x + y) | _, _ => None end;
     f_ge := fun a b => match a, b with Some x, Some y => y <=? x | _, _ => false end;
     f_isfinite := fun a => match a with Some _ => true | None => false end;
     d_zero := Some 0;
     d_of_float := fun a => a;
     d_add := fun a b => match a, b with Some x, Some y => Some (x + y) | _, _ => None end;
     d_div_int := fun a n => match a with Some x => Some (x / n) | None => None end |}.

Definition ring4 : Ring.audio_async Z :=
  {| Ring.m_dev_id_in := 2; Ring.m_len_ms := 1; Ring.m_sample_rate := 4000;
     Ring.m_running := true; Ring.m_audio := [0; 0; 0; 0];
     Ring.m_audio_pos := 3%nat; Ring.m_audio_len := 1%nat; Ring.m_total_samples := 7 |}.

Definition ring4_paused : Ring.audio_async Z :=
  {| Ring.m_dev_id_in := 2; Ring.m_len_ms := 1; Ring.m_sample_rate := 4000;
     Ring.m_running := false; Ring.m_audio := [0; 0; 0; 0];
     Ring.m_audio_pos := 0%nat; Ring.m_audio_len := 0%nat; Ring.m_total_samples := 0 |}.

(** A decode context over a dictionary of one entry whose two variants are
    tokenized as [[10; 11]] and [[20; 10; 11]]; biases 0.350 and 0.850. *)
Definition bctx_small : Bias.bias_decode_context :=
  {| Bias.segment_index := 0; Bias.partial_seq := 0; Bias.is_final := false;
     Bias.dict_token_seqs := Some [[10; 11]; [20; 10; 11]];
     Bias.dict_first_tokens := Some [10; 20];
     Bias.dict_first_token_ids := Some ({[10; 20]} : gset Z);
     Bias.dict_entries := 1; Bias.dict_first_tokens_total := 2;
     Bias.enabled := true;
     Bias.bias_first_logit := Some 350; Bias.bias_continuation_logit := Some 850;
     Bias.logits_top_k := 50; Bias.logits_prob_threshold := Some 20000;
     Bias.logits_prefix_text := false; Bias.logits_boosted_k := 24;
     Bias.writer := false; Bias.emit_stdout_packets := false |}.

(** Thirty logits, all 1.000. *)
Definition logits30 : list float := replicate 30 (Some 1000).

(** The defaults of [struct vad_params], with the fields the examples vary. *)
Definition make_params (path : string) (bias : bool) (beam step : Z)
  : Transcriber.vad_params :=
  {| Transcriber.n_threads := 2; Transcriber.language := "en";
     Transcriber.dictionary_path := path; Transcriber.dictionary_poll_ms := 1000;
     Transcriber.send_prompt := true; Transcriber.bias_decoding := bias;
     Transcriber.bias_first_logit := Some 350;
     Transcriber.bias_continuation_logit := Some 850;
     Transcriber.beam_size := beam; Transcriber.logits_top_k := 50;
     Transcriber.logits_prob_threshold := Some 20000;
     Transcriber.logits_prefix_text := false; Transcriber.logits_boosted_k := 24;
     Transcriber.log := false; Transcriber.emit_vad_events := true;
     Transcriber.debug := false; Transcriber.step_ms := step;
     Transcriber.start_threshold := Some 600; Transcriber.stop_threshold := Some 350;
     Transcriber.min_segment_ms := 250; Transcriber.max_segment_ms := 12000;
     Transcriber.min_silence_ms := 150; Transcriber.pre_padding_ms := 200;
     Transcriber.post_padding_ms := 350; Transcriber.ring_buffer_ms := 20000 |}.

Definition params_default : Transcriber.vad_params := make_params "" false 0 200.

(** A tokenizer with one token per byte. *)
Definition byte_tokens (s : string) : list Z :=
  map (fun c => Z.of_nat (nat_of_ascii c)) (list_ascii_of_string s).

(** Collaborators for the examples: [vad] gives the probability of each
    frame, [decode_ok] tells which decodes succeed; the clock advances 400 ms
    per reading and the dictionary file never changes. *)
Definition make_env (vad : nat -> option float) (decode_ok : nat -> bool)
  : Transcriber.env :=
  {| Transcriber.vad_infer := fun n _ => vad n;
     Transcriber.whisper_full := fun n _ _ => if decode_ok n then Some [] else None;
     Transcriber.whisper_token_to_str := fun _ => None;
     Transcriber.whisper_token_count := fun s => Z.of_nat (String.length s);
     Transcriber.whisper_tokenize := fun s _ => (Z.of_nat (String.length s), byte_tokens s);
     Transcriber.default_beam_size := fun _ => 5;
     Transcriber.steady_now := fun n => 400 * Z.of_nat n;
     Transcriber.last_write_time := fun _ => inr 42;
     Transcriber.open_file := fun _ => Some "widget openflow widget";
     Transcriber.logits_writer_enabled := false |}.

Definition env_silent : Transcriber.env := make_env (fun _ => Some (Some 0)) (fun _ => true).

Definition state0 : Transcriber.state := Transcriber.initial_state (-1000000) 0.

(** The state after the forced dictionary load of start-up. *)
Definition state_loaded : Transcriber.state :=
  Transcriber.reload_dictionary_if_needed env_silent (make_params "dict.txt" false 0 200)
    state0 (-1) (-1) false true.

(** The state after two more polls, 400 ms and 800 ms after the load. *)
Definition state_polled_twice : Transcriber.state :=
  let p := make_params "dict.txt" false 0 200 in
  Transcriber.reload_dictionary_if_needed env_silent p
    (Transcriber.reload_dictionary_if_needed env_silent p state_loaded 0 0 false false)
    0 1 false false.

(** Two seconds of zeros at 16 kHz. *)
Definition two_seconds_of_silence : list float := replicate (Z.to_nat 32000) (Some 0).

(** Every frame is voiced (probability 0.900); every decode succeeds. *)
Definition env_voiced : Transcriber.env := make_env (fun _ => Some (Some 900)) (fun _ => true).

(** Every frame is voiced; the first decode fails, the later ones succeed. *)
Definition env_first_decode_fails : Transcriber.env :=
  make_env (fun _ => Some (Some 900)) (fun n => negb (n =? 0)%nat).

(** Every frame is voiced; no decode succeeds. *)
Definition env_decode_fails : Transcriber.env :=
  make_env (fun _ => Some (Some 900)) (fun _ => false).

(** Two voiced frames, then silence; no decode succeeds. *)
Definition env_two_voiced_decode_fails : Transcriber.env :=
  make_env (fun n => if (n <? 2)%nat then Some (Some 900) else Some (Some 0))
           (fun _ => false).

(** [n] frames of a tone. *)
Definition tone (frames : nat) : list float := replicate (512 * frames) (Some 100).

(** A thousand zeros: one whole frame and 488 samples more. *)
Definition short_silence : list float := replicate 1000 (Some 0).

(** Short timings: segments of at least 32 ms, 50 ms of post-padding, 30 ms
    of silence to end an utterance, no pre-padding; [step] is [--step]. *)
Definition make_params_short (step : Z) : Transcriber.vad_params :=
  {| Transcriber.n_threads := 2; Transcriber.language := "en";
     Transcriber.dictionary_path := ""; Transcriber.dictionary_poll_ms := 1000;
     Transcriber.send_prompt := true; Transcriber.bias_decoding := false;
     Transcriber.bias_first_logit := Some 350;
     Transcriber.bias_continuation_logit := Some 850;
     Transcriber.beam_size := 0; Transcriber.logits_top_k := 50;
     Transcriber.logits_prob_threshold := Some 20000;
     Transcriber.logits_prefix_text := false; Transcriber.logits_boosted_k := 24;
     Transcriber.log := false; Transcriber.emit_vad_events := true;
     Transcriber.debug := false; Transcriber.step_ms := step;
     Transcriber.start_threshold := Some 600; Transcriber.stop_threshold := Some 350;
     Transcriber.min_segment_ms := 32; Transcriber.max_segment_ms := 12000;
     Transcriber.min_silence_ms := 30; Transcriber.pre_padding_ms := 0;
     Transcriber.post_padding_ms := 50; Transcriber.ring_buffer_ms := 20000 |}.

(** Short timings without partials, and with a partial every 32 ms. *)
Definition params_short : Transcriber.vad_params := make_params_short (-1).
Definition params_short_partials : Transcriber.vad_params := make_params_short 32.

(** An active utterance at the moment silence ends it: 2 voiced frames from
    sample 0, then 2 silent ones. *)
Definition seg_before_natural_flush : Transcriber.seg_state :=
  {| Transcriber.pending_samples := []; Transcriber.pre_roll := [];
     Transcriber.chunk_buffer := replicate 512 (Some 0);
     Transcriber.current_segment := tone 2 ++ replicate 1024 (Some 0);
     Transcriber.segment_prob_sum := Some 1800; Transcriber.segment_prob_count := 4;
     Transcriber.in_segment := true; Transcriber.segment_start_sample := 0;
     Transcriber.last_voice_sample := 1024; Transcriber.processed_samples_total := 2048;
     Transcriber.last_fetch_time_ms := 0; Transcriber.segment_index := 0;
     Transcriber.active_segment_index := 0; Transcriber.partial_sequence := 0;
     Transcriber.last_partial_emit_sample := 0 |}.

Definition state_before_natural_flush : Transcriber.state :=
  Transcriber.put_seg state0 seg_before_natural_flush.

(** A running capture ring of 8192 samples, filled exactly once with a tone:
    512 ms of audio. *)
Definition ring_tone : Ring.audio_async float :=
  {| Ring.m_dev_id_in := 2; Ring.m_len_ms := 512; Ring.m_sample_rate := 16000;
     Ring.m_running := true; Ring.m_audio := tone 16;
     Ring.m_audio_pos := 0%nat; Ring.m_audio_len := (512 * 16)%nat;
     Ring.m_total_samples := 8192 |}.

(** A running ring of 1024 samples that has been filled exactly once with
    zeros: 64 ms of audio. *)
Definition ring_one_lap : Ring.audio_async float :=
  {| Ring.m_dev_id_in := 2; Ring.m_len_ms := 64; Ring.m_sample_rate := 16000;
     Ring.m_running := true; Ring.m_audio := replicate 1024 (Some 0);
     Ring.m_audio_pos := 0%nat; Ring.m_audio_len := 1024%nat;
     Ring.m_total_samples := 1024 |}.

(** Silence in three feeds: two messages of 300 zeros, then a fetch of the
    1024 zeros of [ring_one_lap]. *)
Definition silent_feeds : list feed :=
  [FeedMessage (replicate 300 (Some 0)); FeedMessage (replicate 300 (Some 0));
   FeedFetch ring_one_lap].

(** Bias decoding with [--beam-size 12]. *)
Definition params_beam12 : Transcriber.vad_params := make_params "" true 12 200.

(** Three voiced frames queued on a fresh state, and the states after each
    frame and after the flush at the end of the input. *)
Definition utterance_states (E : Transcriber.env) (p : Transcriber.vad_params)
  : Transcriber.state * Transcriber.state * Transcriber.state * Transcriber.state
    * Transcriber.state :=
  let queued := Transcriber.enqueue_padded state0 (tone 3) in
  let st1 := Transcriber.process_chunk E p queued in
  let st2 := Transcriber.process_chunk E p st1 in
  let st3 := Transcriber.process_chunk E p st2 in
  (queued, st1, st2, st3, Transcriber.flush_segment E p st3 true).

(** The short timings with 1 ms, that is 16 samples, of pre-padding. *)
Definition params_pre_padding_1ms : Transcriber.vad_params :=
  {| Transcriber.n_threads := 2; Transcriber.language := "en";
     Transcriber.dictionary_path := ""; Transcriber.dictionary_poll_ms := 1000;
     Transcriber.send_prompt := true; Transcriber.bias_decoding := false;
     Transcriber.bias_first_logit := Some 350;
     Transcriber.bias_continuation_logit := Some 850;
     Transcriber.beam_size := 0; Transcriber.logits_top_k := 50;
     Transcriber.logits_prob_threshold := Some 20000;
     Transcriber.logits_prefix_text := false; Transcriber.logits_boosted_k := 24;
     Transcriber.log := false; Transcriber.emit_vad_events := true;
     Transcriber.debug := false; Transcriber.step_ms := 32;
     Transcriber.start_threshold := Some 600; Transcriber.stop_threshold := Some 350;
     Transcriber.min_segment_ms := 32; Transcriber.max_segment_ms := 12000;
     Transcriber.min_silence_ms := 30; Transcriber.pre_padding_ms := 1;
     Transcriber.post_padding_ms := 50; Transcriber.ring_buffer_ms := 20000 |}.

(** A silent frame, then voiced ones; every decode succeeds. *)
Definition env_voiced_after_one : Transcriber.env :=
  make_env (fun n => if (n <? 1)%nat then Some (Some 0) else Some (Some 900))
           (fun _ => true).

(** The parameters of [state_loaded]: a dictionary file, no bias decoding. *)
Definition params_dictionary : Transcriber.vad_params := make_params "dict.txt" false 0 200.

(** The state after the start-up load when no dictionary file is given. *)
Definition state_without_dictionary : Transcriber.state :=
  Transcriber.reload_dictionary_if_needed env_silent params_default state0 (-1) (-1)
    false true.

(** Two hundred logits, all 1.000. *)
Definition logits200 : list float := replicate 200 (Some 1000).

(** Sample conversions for the fixed-point stand-in, in thousandths. *)
#[export] Instance fixed_point_samples : SampleOps :=
  {| d_of_pcm16 := fun s => Some (s * 1000 / 32768);
     d_of_pcm32 := fun s => Some (s * 1000 / 2147483648);
     d_of_f32_bits := fun _ => None;
     f_of_double := fun d => d |}.

(** Two stereo frames at 16 kHz. *)
Definition stereo_frames : list (list Z) := [[16384; -16384]; [32767; 1]].

(** * Properties *)

(** ** The capture ring *)

Section RingFacts.
Context {A : Type}.
Implicit Types (buf data : list A).

Lemma write_at_length pos data buf :
  (pos + length data <= length buf)%nat -> length (write_at pos data buf) = length buf.
Proof.
  intros Hle. unfold write_at.
  rewrite !length_app, length_take, length_drop. lia.
Qed.

Lemma write_at_lookup_in pos data buf i :
  (pos + length data <= length buf)%nat -> (i < length data)%nat ->
  write_at pos data buf !! (pos + i)%nat = data !! i.
Proof.
  intros Hle Hi. unfold write_at.
  rewrite lookup_app_r by (rewrite length_take; lia).
  rewrite length_take, Nat.min_l by lia.
  replace (pos + i - pos)%nat with i by lia.
  by rewrite lookup_app_l.
Qed.

Lemma write_at_lookup_out pos data buf j :
  (pos + length data <= length buf)%nat ->
  (j < pos \/ pos + length data <= j)%nat ->
  write_at pos data buf !! j = buf !! j.
Proof.
  intros Hle [Hj | Hj]; unfold write_at.
  - rewrite lookup_app_l by (rewrite length_take; lia).
    by rewrite lookup_take_lt.
  - rewrite lookup_app_r by (rewrite length_take; lia).
    rewrite length_take, Nat.min_l by lia.
    rewrite lookup_app_r by lia.
    rewrite lookup_drop. f_equal. lia.
Qed.
End RingFacts.

Section RingSpec.
Context {sample : Type}.
Import Ring.
Implicit Types (a b : audio_async sample) (stream result : list sample).

Lemma callback_not_running a stream :
  m_running a = false -> callback a stream = a.
Proof. intros Hr. unfold callback. by rewrite Hr. Qed.

Lemma callback_total_wraps a stream :
  m_running a = true ->
  m_total_samples (callback a stream)
  = wrap64 (m_total_samples a + Z.of_nat (length stream)).
Proof.
  intros Hr. unfold callback. rewrite Hr. simpl.
  by destruct (length (m_audio a) <? length stream)%nat.
Qed.

Lemma callback_cursor a stream :
  m_running a = true ->
  let n := Nat.min (length stream) (length (m_audio a)) in
  m_audio_pos (callback a stream) = ((m_audio_pos a + n) mod length (m_audio a))%nat
  /\ m_audio_len (callback a stream) = Nat.min (m_audio_len a + n) (length (m_audio a)).
Proof.
  intros Hr n. subst n. unfold callback. rewrite Hr. simpl.
  destruct (Nat.ltb_spec (length (m_audio a)) (length stream)); simpl.
  - by rewrite Nat.min_r by lia.
  - by rewrite Nat.min_l by lia.
Qed.

Lemma mod_wrap_once (x c : nat) : (c <= x < 2 * c)%nat -> (x mod c = x - c)%nat.
Proof.
  intros Hx. replace x with ((x - c) + 1 * c)%nat at 1 by lia.
  rewrite Nat.Div0.mod_add. apply Nat.mod_small. lia.
Qed.

(** The ring after a delivery: the kept tail [tl] of the stream sits at
    [pos], wrapping once. *)
Lemma ring_write_lookup (buf tl : list sample) (pos : nat) :
  (pos < length buf)%nat -> (length tl <= length buf)%nat ->
  let cap := length buf in
  let buf' :=
    if (cap <? pos + length tl)%nat
    then write_at 0 (drop (cap - pos) tl) (write_at pos (take (cap - pos) tl) buf)
    else write_at pos tl buf in
  length buf' = cap
  /\ (forall i, (i < length tl)%nat -> buf' !! ((pos + i) mod cap)%nat = tl !! i)
  /\ (forall j, (forall i, (i < length tl)%nat -> j <> ((pos + i) mod cap)%nat) ->
                buf' !! j = buf !! j).
Proof.
  intros Hpos Htl cap buf'. subst cap buf'.
  destruct (Nat.ltb_spec (length buf) (pos + length tl)) as [Hwrap | Hfit].
  - assert (Hl1 : (pos + length (take (length buf - pos) tl) <= length buf)%nat)
      by (rewrite length_take; lia).
    assert (Hlen1 := write_at_length pos (take (length buf - pos) tl) buf Hl1).
    assert (Hl2 : (0 + length (drop (length buf - pos) tl)
                   <= length (write_at pos (take (length buf - pos) tl) buf))%nat)
      by (rewrite length_drop, Hlen1; lia).
    split; [by rewrite write_at_length, Hlen1 | split].
    + intros i Hi.
      destruct (Nat.lt_ge_cases (pos + i) (length buf)) as [Hlo | Hhi].
      * rewrite Nat.mod_small by lia.
        rewrite write_at_lookup_out by (try done; rewrite length_drop; lia).
        rewrite write_at_lookup_in by (try done; rewrite length_take; lia).
        apply lookup_take_lt. lia.
      * rewrite mod_wrap_once by lia.
        replace (pos + i - length buf)%nat with (0 + (i - (length buf - pos)))%nat by lia.
        rewrite write_at_lookup_in by (try done; rewrite length_drop; lia).
        rewrite lookup_drop. f_equal. lia.
    + intros j Hj.
      assert (Hrange : (length tl - (length buf - pos) <= j < pos \/ length buf <= j)%nat).
      { destruct (Nat.lt_ge_cases j (length buf)) as [Hjl | ?]; [left | by right].
        split.
        - destruct (Nat.lt_ge_cases j (length tl - (length buf - pos))) as [Hc | ?];
            [exfalso | done].
          apply (Hj (j + (length buf - pos))%nat); [lia |].
          rewrite mod_wrap_once by lia. lia.
        - destruct (Nat.lt_ge_cases j pos) as [? | Hc]; [done | exfalso].
          apply (Hj (j - pos)%nat); [lia |].
          rewrite Nat.mod_small by lia. lia. }
      rewrite write_at_lookup_out by (try done; rewrite length_drop; lia).
      apply write_at_lookup_out; [done | rewrite length_take; lia].
  - split; [by apply write_at_length | split].
    + intros i Hi. rewrite Nat.mod_small by lia.
      by apply write_at_lookup_in.
    + intros j Hj. apply write_at_lookup_out; [done |].
      destruct (Nat.lt_ge_cases j pos) as [? | Hc]; [by left | right].
      destruct (Nat.lt_ge_cases j (pos + length tl)) as [Hc2 | ?]; [exfalso | done].
      apply (Hj (j - pos)%nat); [lia |].
      rewrite Nat.mod_small by lia. lia.
Qed.

Lemma callback_buffer a stream :
  m_running a = true -> (m_audio_pos a < length (m_audio a))%nat ->
  let s := length stream in
  let cap := length (m_audio a) in
  let n := Nat.min s cap in
  length (m_audio (callback a stream)) = cap
  /\ (forall i, (i < n)%nat ->
        m_audio (callback a stream) !! ((m_audio_pos a + i) mod cap)%nat
        = stream !! (s - n + i)%nat)
  /\ (forall j, (forall i, (i < n)%nat -> j <> ((m_audio_pos a + i) mod cap)%nat) ->
        m_audio (callback a stream) !! j = m_audio a !! j).
Proof.
  intros Hr Hpos s cap n. subst s cap n.
  unfold callback. rewrite Hr. simpl.
  destruct (Nat.ltb_spec (length (m_audio a)) (length stream)) as [Hbig | Hsmall]; simpl.
  - rewrite Nat.min_r by lia.
    pose proof (ring_write_lookup (m_audio a)
                  (drop (length stream - length (m_audio a)) stream)
                  (m_audio_pos a) Hpos) as Hw.
    rewrite length_drop in Hw.
    replace (length stream - (length stream - length (m_audio a)))%nat
      with (length (m_audio a)) in Hw by lia.
    destruct (Hw ltac:(lia)) as (Hlen & Hin & Hout).
    split; [done | split; [| done]].
    intros i Hi. rewrite Hin by done. by rewrite lookup_drop.
  - rewrite Nat.min_l by lia.
    destruct (ring_write_lookup (m_audio a) stream (m_audio_pos a) Hpos Hsmall)
      as (Hlen & Hin & Hout).
    split; [done | split; [| done]].
    intros i Hi. rewrite Hin by done. f_equal. lia.
Qed.

Lemma get_timeline b ms result t :
  m_dev_id_in b <> 0 -> m_running b = true ->
  0 < m_sample_rate b < 2 ^ 31 ->
  0 <= m_total_samples b -> m_total_samples b * 1000 < 2 ^ 63 ->
  get_time_ms (get b ms result t) = m_total_samples b * 1000 / m_sample_rate b.
Proof.
  intros Hdev Hr Hsr Hlo Hhi. unfold get, get_time_ms.
  destruct (Z.eqb_spec (m_dev_id_in b) 0) as [? | _]; [done |].
  rewrite Hr. cbn [negb fst snd].
  destruct (Z.ltb_spec 0 (m_sample_rate b)) as [_ | ?]; [| lia].
  unfold wrap64, to_int64.
  rewrite (Z.mod_small (m_total_samples b * 1000)) by lia.
  rewrite (Z.mod_small (m_sample_rate b)) by lia.
  assert (0 <= m_total_samples b * 1000 / m_sample_rate b < 2 ^ 63).
  { split; [apply Z.div_pos; lia |].
    apply Z.div_lt_upper_bound; [lia |]. nia. }
  destruct (Z.ltb_spec (m_total_samples b * 1000 / m_sample_rate b) (2 ^ 63)); lia.
Qed.

End RingSpec.

Section RingTimeline.
Context {sample : Type}.
Import Ring.
Implicit Types (a b : audio_async sample) (stream result : list sample).

(** C1.  A delivery of [s = length stream] samples to a running ring adds
    exactly [s] to [m_total_samples], also when [s] exceeds the capacity and
    only the last [min s cap] samples land in the buffer (at the write cursor,
    wrapping once; every other slot keeps its content); and a [get] that is
    not refused reports [floor (m_total_samples * 1000 / m_sample_rate)].
    The counters are taken in the range where the 64-bit arithmetic of the
    source does not wrap. *)
Theorem capture_timeline_counts_every_sample a b stream ms result t :
  m_running a = true ->
  (m_audio_pos a < length (m_audio a))%nat ->
  0 <= m_total_samples a ->
  m_total_samples a + Z.of_nat (length stream) < 2 ^ 64 ->
  m_dev_id_in b <> 0 -> m_running b = true ->
  0 < m_sample_rate b < 2 ^ 31 ->
  0 <= m_total_samples b -> m_total_samples b * 1000 < 2 ^ 63 ->
  let s := length stream in
  let cap := length (m_audio a) in
  let n := Nat.min s cap in
  let a' := callback a stream in
  m_total_samples a' = m_total_samples a + Z.of_nat s
  /\ m_audio_pos a' = ((m_audio_pos a + n) mod cap)%nat
  /\ m_audio_len a' = Nat.min (m_audio_len a + n) cap
  /\ length (m_audio a') = cap
  /\ (forall i, (i < n)%nat ->
        m_audio a' !! ((m_audio_pos a + i) mod cap)%nat = stream !! (s - n + i)%nat)
  /\ (forall j, (forall i, (i < n)%nat -> j <> ((m_audio_pos a + i) mod cap)%nat) ->
        m_audio a' !! j = m_audio a !! j)
  /\ get_time_ms (get b ms result t) = m_total_samples b * 1000 / m_sample_rate b.
Proof.
  intros Hr Hpos Hlo Hhi Hdev Hrb Hsr Hlob Hhib s cap n a'.
  destruct (callback_cursor a stream Hr) as [Hp Hl].
  destruct (callback_buffer a stream Hr Hpos) as (Hlen & Hin & Hout).
  repeat split; try done.
  - subst a'. rewrite callback_total_wraps by done.
    unfold wrap64. apply Z.mod_small. lia.
  - by apply get_timeline.
Qed.

End RingTimeline.

Lemma capture_timeline_counts_every_sample_witness :
  let a := ring4 in
  let stream := [1; 2; 3; 4; 5; 6] in
  Ring.m_total_samples (Ring.callback a stream) = 13
  /\ Ring.m_audio (Ring.callback a stream) = [4; 5; 6; 3]
  /\ Ring.get_time_ms (Ring.get (Ring.callback a stream) 0 [] 0) = 3.
Proof.
  intros a stream.
  assert (Hr : Ring.m_running a = true) by reflexivity.
  assert (Hpos : (Ring.m_audio_pos a < length (Ring.m_audio a))%nat) by (vm_compute; lia).
  assert (Hlo : 0 <= Ring.m_total_samples a) by (vm_compute; congruence).
  assert (Hhi : Ring.m_total_samples a + Z.of_nat (length stream) < 2 ^ 64) by reflexivity.
  assert (Hdev : Ring.m_dev_id_in (Ring.callback a stream) <> 0) by (vm_compute; congruence).
  assert (Hrb : Ring.m_running (Ring.callback a stream) = true) by reflexivity.
  assert (Hsr : 0 < Ring.m_sample_rate (Ring.callback a stream) < 2 ^ 31)
    by (split; reflexivity).
  assert (Hlob : 0 <= Ring.m_total_samples (Ring.callback a stream))
    by (vm_compute; congruence).
  assert (Hhib : Ring.m_total_samples (Ring.callback a stream) * 1000 < 2 ^ 63)
    by reflexivity.
  pose proof (capture_timeline_counts_every_sample a (Ring.callback a stream) stream 0 [] 0
                Hr Hpos Hlo Hhi Hdev Hrb Hsr Hlob Hhib) as (Ht & _ & _ & _ & _ & _ & Hg).
  split; [exact Ht | split; [reflexivity | exact Hg]].
Defined.

Section RingFailure.
Context {sample : Type}.
Import Ring.
Implicit Types (a b : audio_async sample) (stream result : list sample).

(** C6 (amended).  When [get] is refused, because no device was opened or
    capture is not running, it returns before it touches its output
    arguments: the caller's vector and time stamp come back exactly as they
    were passed in, and one line is logged.  The samples returned are
    therefore empty when the caller passes an empty vector, as [main] does. *)
Theorem get_refused_leaves_output_untouched a ms result t :
  m_dev_id_in a = 0 \/ m_running a = false ->
  get_samples (get a ms result t) = result
  /\ get_time_ms (get a ms result t) = t
  /\ (exists msg, get_log (get a ms result t) = [LogLine "get" msg])
  /\ get_samples (get a ms [] t) = [].
Proof.
  intros Hcase. unfold get.
  destruct (Z.eqb_spec (m_dev_id_in a) 0) as [Hdev | Hdev].
  - repeat split; eauto.
  - destruct Hcase as [? | Hr]; [done |]. rewrite Hr. repeat split; eauto.
Qed.

End RingFailure.

Lemma get_refused_leaves_output_untouched_witness :
  Ring.m_running ring4_paused = false
  /\ Ring.get_samples (Ring.get ring4_paused 100 [] 0) = [].
Proof.
  split; [reflexivity |].
  apply (get_refused_leaves_output_untouched ring4_paused 100 [] 0).
  right. reflexivity.
Defined.

(** C6 as stated fails: [get] on a ring that is not running, given a vector
    that holds two samples, logs "not running!" and leaves the two samples
    in the vector; the early [return] comes before [result.clear()]. *)
Lemma get_before_resume_keeps_stale_samples :
  Ring.m_running ring4_paused = false
  /\ Ring.get_log (Ring.get ring4_paused 100 [7; 8] 0)
     = [Ring.LogLine "get" "not running!"]
  /\ Ring.get_samples (Ring.get ring4_paused 100 [7; 8] 0) = [7; 8]
  /\ ~ (forall (a : Ring.audio_async Z) (ms : Z) (result : list Z) (t : Z),
          Ring.m_dev_id_in a = 0 \/ Ring.m_running a = false ->
          Ring.get_samples (Ring.get a ms result t) = []).
Proof.
  split; [reflexivity | split; [reflexivity | split; [reflexivity |]]].
  intros Hclaim.
  specialize (Hclaim ring4_paused 100 [7; 8] 0 (or_intror eq_refl)).
  discriminate Hclaim.
Qed.

(** ** The bias callback *)

Section BiasFacts.
Context `{FloatOps}.
Import Bias.
Implicit Types (logits : list float) (tokens sq : list Z) (bctx : bias_decode_context).

Lemma boosted_by_refl P v : boosted_by P v v.
Proof. by exists []. Qed.

Lemma boosted_by_trans P u v w : boosted_by P u v -> boosted_by P v w -> boosted_by P u w.
Proof.
  intros (bs1 & H1 & ->) (bs2 & H2 & ->). exists (bs1 ++ bs2).
  split; [by apply Forall_app | by rewrite fold_left_app].
Qed.

Lemma boosted_array_refl P token_beg logits : boosted_array P token_beg logits logits.
Proof.
  split; [done | split; [| done]].
  intros i v v' Hv Hv'. rewrite Hv in Hv'. injection Hv' as <-. apply boosted_by_refl.
Qed.

Lemma boosted_array_trans P token_beg l1 l2 l3 :
  boosted_array P token_beg l1 l2 -> boosted_array P token_beg l2 l3 ->
  boosted_array P token_beg l1 l3.
Proof.
  intros (Hlen1 & Hb1 & Hp1) (Hlen2 & Hb2 & Hp2).
  split; [congruence | split].
  - intros i v v' Hv Hv'.
    destruct (l2 !! i) as [u |] eqn:Hu.
    + eapply boosted_by_trans; eauto.
    + apply lookup_ge_None in Hu. apply lookup_lt_Some in Hv. lia.
  - intros i Hb Hi. rewrite Hp2, Hp1; done.
Qed.

Lemma add_bias_noop n_vocab token_beg logits id b :
  id < 0 \/ n_vocab <= id \/ (0 < token_beg /\ token_beg <= id)
  \/ (exists v, logits !! Z.to_nat id = Some v /\ f_isfinite v = false) ->
  add_bias n_vocab token_beg logits id b = logits.
Proof.
  intros Hcase. unfold add_bias.
  destruct (Z.ltb_spec id 0); [done |].
  destruct (Z.leb_spec n_vocab id); [done |]. cbn [orb].
  destruct (Z.ltb_spec 0 token_beg), (Z.leb_spec token_beg id); cbn [andb]; try done.
  all: destruct Hcase as [? | [? | [[? ?] | (v & Hv & Hfin)]]]; try lia.
  all: by rewrite Hv, Hfin.
Qed.

Lemma add_bias_adds n_vocab token_beg logits id b v :
  0 <= id < n_vocab -> ~ (0 < token_beg /\ token_beg <= id) ->
  logits !! Z.to_nat id = Some v -> f_isfinite v = true ->
  add_bias n_vocab token_beg logits id b = <[Z.to_nat id := f_add v b]> logits.
Proof.
  intros Hid Hbeg Hv Hfin. unfold add_bias.
  destruct (Z.ltb_spec id 0); [lia |].
  destruct (Z.leb_spec n_vocab id); [lia |]. cbn [orb].
  destruct (Z.ltb_spec 0 token_beg), (Z.leb_spec token_beg id); cbn [andb]; try lia.
  all: by rewrite Hv, Hfin.
Qed.

(** What [add_bias] does in every case: nothing, or one addition at [id]. *)
Lemma add_bias_cases n_vocab token_beg logits id b :
  add_bias n_vocab token_beg logits id b = logits
  \/ (exists v, 0 <= id < n_vocab /\ ~ (0 < token_beg /\ token_beg <= id)
                /\ logits !! Z.to_nat id = Some v
                /\ add_bias n_vocab token_beg logits id b
                   = <[Z.to_nat id := f_add v b]> logits).
Proof.
  unfold add_bias.
  destruct (Z.ltb_spec id 0); [by left |].
  destruct (Z.leb_spec n_vocab id); [by left |]. cbn [orb].
  destruct (Z.ltb_spec 0 token_beg), (Z.leb_spec token_beg id); cbn [andb];
    try (by left).
  all: destruct (logits !! Z.to_nat id) as [v |] eqn:Hv; [| by left].
  all: destruct (f_isfinite v); [right | by left].
  all: exists v; repeat split; try done; lia.
Qed.

Lemma add_bias_boosted (P : float -> Prop) n_vocab token_beg logits id b :
  P b -> boosted_array P token_beg logits (add_bias n_vocab token_beg logits id b).
Proof.
  intros HP.
  destruct (add_bias_cases n_vocab token_beg logits id b)
    as [-> | (v & Hid & Hbeg & Hv & ->)]; [apply boosted_array_refl |].
  split; [apply length_insert | split].
  - intros i u u' Hu Hu'.
    destruct (decide (i = Z.to_nat id)) as [-> | Hne].
    + rewrite list_lookup_insert_eq in Hu' by (by eapply lookup_lt_Some).
      rewrite Hv in Hu. injection Hu as <-. injection Hu' as <-.
      exists [b]. split; [by constructor | done].
    + rewrite list_lookup_insert_ne in Hu' by done.
      rewrite Hu in Hu'. injection Hu' as <-. apply boosted_by_refl.
  - intros i Hb Hi. apply list_lookup_insert_ne. lia.
Qed.

Lemma continuation_step_boosted (P : float -> Prop) n_vocab token_beg kc tokens acc sq :
  P kc ->
  boosted_array P token_beg acc.1 (continuation_step n_vocab token_beg kc tokens acc sq).1.
Proof.
  intros HP. unfold continuation_step.
  destruct (length sq <? 2)%nat; [apply boosted_array_refl |].
  destruct (longest_match _ _ _); [| apply boosted_array_refl].
  destruct (sq !! n); [| apply boosted_array_refl].
  by apply add_bias_boosted.
Qed.

Lemma boost_continuations_boosted (P : float -> Prop) n_vocab token_beg bctx tokens logits :
  P (bias_continuation_logit bctx) ->
  boosted_array P token_beg logits
    (boost_continuations n_vocab token_beg bctx tokens logits).1.
Proof.
  intros HP. unfold boost_continuations.
  destruct (dict_token_seqs bctx) as [seqs |]; [| apply boosted_array_refl].
  generalize (∅ : gmap Z float) as m.
  assert (Hgen : forall acc,
    boosted_array P token_beg acc.1
      (fold_left (continuation_step n_vocab token_beg (bias_continuation_logit bctx) tokens)
         seqs acc).1).
  { induction seqs as [| sq seqs IH]; intros acc; [apply boosted_array_refl |].
    cbn [fold_left]. eapply boosted_array_trans; [| apply IH].
    by apply continuation_step_boosted. }
  intros m. apply (Hgen (logits, m)).
Qed.

Lemma boost_first_tokens_boosted (P : float -> Prop) n_vocab token_beg bctx cont logits :
  P (bias_first_logit bctx) ->
  boosted_array P token_beg logits
    (boost_first_tokens n_vocab token_beg bctx cont logits).1.
Proof.
  intros HP. unfold boost_first_tokens.
  destruct (dict_first_tokens bctx) as [firsts |]; [| apply boosted_array_refl].
  destruct (decide (cont = ∅)); [| apply boosted_array_refl].
  generalize 0 as k. revert logits.
  induction firsts as [| tid firsts IH]; intros logits k; [apply boosted_array_refl |].
  cbn [fold_left fst snd]. eapply boosted_array_trans; [| apply IH].
  by apply add_bias_boosted.
Qed.

Lemma callback_boosted n_vocab token_beg bctx tokens logits :
  boosted_array
    (fun b => b = bias_continuation_logit bctx \/ b = bias_first_logit bctx)
    token_beg logits
    (logits_out (whisper_logits_filter_cb n_vocab token_beg bctx tokens logits)).
Proof.
  unfold whisper_logits_filter_cb.
  destruct (enabled bctx); cbn [negb]; [| apply boosted_array_refl].
  destruct (n_vocab <=? 0); [apply boosted_array_refl |].
  destruct (boost_continuations n_vocab token_beg bctx tokens logits) as [l1 cont] eqn:H1.
  destruct (boost_first_tokens n_vocab token_beg bctx cont l1) as [l2 nf] eqn:H2.
  cbn [logits_out].
  pose proof (boost_continuations_boosted
                (fun b => b = bias_continuation_logit bctx \/ b = bias_first_logit bctx)
                n_vocab token_beg bctx tokens logits (or_introl eq_refl)) as Hc.
  pose proof (boost_first_tokens_boosted
                (fun b => b = bias_continuation_logit bctx \/ b = bias_first_logit bctx)
                n_vocab token_beg bctx cont l1 (or_intror eq_refl)) as Hf.
  rewrite H1 in Hc. rewrite H2 in Hf.
  eapply boosted_array_trans; [exact Hc | exact Hf].
Qed.

End BiasFacts.

Section BiasSpec.
Context `{FloatOps}.
Import Bias.
Implicit Types (logits : list float) (tokens sq : list Z) (bctx : bias_decode_context).

(** C4 (amended).  [add_bias] leaves the logits unchanged when [id < 0], when
    [id >= n_vocab], when [token_beg > 0] and [id >= token_beg], or when
    [logits[id]] is not finite; in every other case it replaces [logits[id]]
    by [logits[id] + bias] and nothing else.  Over a whole invocation of the
    callback the array keeps its length, no entry at an index [>= token_beg]
    changes when [token_beg > 0], and every entry ends as its old value plus a
    sequence of additions of the continuation or first-token bias. *)
Theorem bias_callback_spares_timestamp_range n_vocab token_beg bctx tokens logits id b :
  (id < 0 \/ n_vocab <= id \/ (0 < token_beg /\ token_beg <= id)
   \/ (exists v, logits !! Z.to_nat id = Some v /\ f_isfinite v = false) ->
   add_bias n_vocab token_beg logits id b = logits)
  /\ (forall v, 0 <= id < n_vocab -> ~ (0 < token_beg /\ token_beg <= id) ->
        logits !! Z.to_nat id = Some v -> f_isfinite v = true ->
        add_bias n_vocab token_beg logits id b = <[Z.to_nat id := f_add v b]> logits)
  /\ (let out := logits_out (whisper_logits_filter_cb n_vocab token_beg bctx tokens logits) in
      length out = length logits
      /\ (forall i : nat, 0 < token_beg -> token_beg <= Z.of_nat i ->
            out !! i = logits !! i)
      /\ (forall (i : nat) v v', logits !! i = Some v -> out !! i = Some v' ->
            boosted_by
              (fun x => x = bias_continuation_logit bctx \/ x = bias_first_logit bctx)
              v v')).
Proof.
  split; [apply add_bias_noop | split; [intros v; apply add_bias_adds |]].
  destruct (callback_boosted n_vocab token_beg bctx tokens logits) as (Hlen & Hb & Hp).
  cbn zeta. auto.
Qed.

End BiasSpec.

Lemma bias_callback_spares_timestamp_range_witness :
  let out :=
    Bias.logits_out (Bias.whisper_logits_filter_cb 30 25 bctx_small [20; 10] logits30) in
  Bias.add_bias 30 25 logits30 26 (Some 850) = logits30
  /\ Bias.add_bias 30 25 logits30 11 (Some 850) = <[11%nat := Some 1850]> logits30
  /\ out !! 26%nat = logits30 !! 26%nat
  /\ out !! 11%nat = Some (Some 2700).
Proof.
  intros out.
  destruct (bias_callback_spares_timestamp_range 30 25 bctx_small [20; 10] logits30
              26 (Some 850)) as (Hnoop & _ & _ & Hprot & _).
  destruct (bias_callback_spares_timestamp_range 30 25 bctx_small [20; 10] logits30
              11 (Some 850)) as (_ & Hadd & _).
  split; [apply Hnoop; right; right; left; lia |].
  split; [apply (Hadd (Some 1000)); [lia | lia | reflexivity | reflexivity] |].
  split; [apply Hprot; lia | reflexivity].
Defined.

(** C4 as stated fails: the guard on the timestamp range reads
    [token_beg > 0 && token_id >= token_beg], so with [token_beg = 0] the
    index 1, which is [>= token_beg], is biased from 1.000 to 1.350. *)
Lemma add_bias_unguarded_without_token_beg :
  let logits : list float := [Some 1000; Some 1000] in
  0 <= 1
  /\ Bias.add_bias 2 0 logits 1 (Some 350) = [Some 1000; Some 1350]
  /\ ~ (forall (n_vocab token_beg : Z) (l : list float) (id : Z) (b : float),
          token_beg <= id -> Bias.add_bias n_vocab token_beg l id b = l).
Proof.
  intros logits.
  split; [lia | split; [reflexivity |]].
  intros Hclaim.
  specialize (Hclaim 2 0 logits 1 (Some 350) ltac:(lia)).
  discriminate Hclaim.
Qed.

(** ** The dictionary *)

Section DictionaryFacts.
Context `{FloatOps}.
Import Transcriber.
Implicit Types (E : env) (p : vad_params) (st : state) (d : dict_state) (a : tok_acc).

Lemma tok_acc_empty_invariant : tok_acc_invariant tok_acc_empty.
Proof.
  unfold tok_acc_invariant, tok_acc_empty; cbn.
  repeat split; try done; try constructor; set_solver.
Qed.

Lemma tokenize_variant_invariant E entry a text :
  tok_acc_invariant a -> tok_acc_invariant (tokenize_variant E entry a text).
Proof.
  intros Ha. unfold tokenize_variant.
  destruct (Z.leb_spec (whisper_token_count E text) 0) as [| Hneeded]; [done |].
  destruct (whisper_tokenize E text _) as [n_got written].
  destruct (Z.leb_spec n_got 0) as [| Hgot]; [done |].
  set (buf := take _ _).
  destruct (resize (Z.to_nat n_got) 0 buf) as [| first sq] eqn:Hsq.
  { apply (f_equal length) in Hsq. rewrite length_resize in Hsq. cbn in Hsq. lia. }
  assert (Hlen : Z.of_nat (length (first :: sq)) = n_got).
  { rewrite <- Hsq, length_resize. lia. }
  destruct Ha as (Hseqs & Hmem & Hnodup & Hseen & Htotal & Htexts).
  cbn [head default].
  destruct (bool_decide (first ∈ first_seen a)) eqn:Hfresh; cbn [negb].
  - apply bool_decide_eq_true in Hfresh.
    unfold tok_acc_invariant;
      cbn [acc_token_seqs acc_entry_texts acc_first_tokens acc_first_token_ids
           first_seen total_tokens].
    repeat split; try done.
    + apply Forall_app. split; [done |].
      constructor; [| constructor]. exists first. split; [done | by rewrite <- Hseen].
    + by apply Hmem.
    + by apply Hmem.
    + rewrite sum_list_with_app. cbn [sum_list_with]. lia.
    + rewrite !length_app. cbn. lia.
  - apply bool_decide_eq_false in Hfresh.
    unfold tok_acc_invariant;
      cbn [acc_token_seqs acc_entry_texts acc_first_tokens acc_first_token_ids
           first_seen total_tokens].
    repeat split.
    + apply Forall_app. split.
      * eapply Forall_impl; [exact Hseqs |].
        intros s (f & Hf & Hin). exists f.
        split; [done | apply elem_of_union; by right].
      * constructor; [| constructor]. exists first.
        split; [done | apply elem_of_union; left; by apply elem_of_singleton].
    + intros Hx. apply elem_of_app.
      apply elem_of_union in Hx as [Hx | Hx].
      * right. apply elem_of_singleton in Hx as ->. by apply list_elem_of_singleton.
      * left. by apply Hmem.
    + intros Hx. apply elem_of_union. apply elem_of_app in Hx as [Hx | Hx].
      * right. by apply Hmem.
      * left. apply list_elem_of_singleton in Hx as ->. by apply elem_of_singleton.
    + apply NoDup_app. split; [done | split; [| apply NoDup_singleton]].
      intros x Hx Hx'. apply list_elem_of_singleton in Hx' as ->.
      apply Hfresh. rewrite Hseen. by apply Hmem.
    + by rewrite Hseen.
    + rewrite sum_list_with_app. cbn [sum_list_with]. lia.
    + rewrite !length_app. cbn. lia.
Qed.

Lemma fold_left_invariant {A B} (P : A -> Prop) (f : A -> B -> A) (l : list B) (x : A) :
  (forall y b, P y -> P (f y b)) -> P x -> P (fold_left f l x).
Proof. intros Hf. revert x. induction l; cbn; auto. Qed.

Lemma tokenize_entry_invariant E a entry :
  tok_acc_invariant a -> tok_acc_invariant (tokenize_entry E a entry).
Proof.
  intros Ha. unfold tokenize_entry. destruct entry as [| c s]; [done |].
  apply fold_left_invariant; [| done].
  intros. by apply tokenize_variant_invariant.
Qed.

Lemma first_tokens_cardinal (ids : gset Z) (firsts : list Z) :
  (forall x, x ∈ ids <-> x ∈ firsts) -> NoDup firsts -> size ids = length firsts.
Proof.
  intros Hmem Hnodup.
  assert (ids = list_to_set firsts) as ->.
  { apply set_eq. intros x. rewrite elem_of_list_to_set. apply Hmem. }
  by apply size_list_to_set.
Qed.

Lemma rebuild_dictionary_invariant E d contents mtime :
  dict_invariant (rebuild_dictionary E d contents mtime).
Proof.
  unfold rebuild_dictionary.
  set (a := fold_left _ _ _).
  assert (Ha : tok_acc_invariant a).
  { apply fold_left_invariant; [| apply tok_acc_empty_invariant].
    intros. by apply tokenize_entry_invariant. }
  destruct Ha as (Hseqs & Hmem & Hnodup & Hseen & Htotal & Htexts).
  unfold dict_invariant; cbn.
  repeat split; try done; try apply Hmem.
  by apply first_tokens_cardinal.
Qed.

Lemma clear_dictionary_invariant d err : dict_invariant (clear_dictionary d err).
Proof.
  unfold dict_invariant, clear_dictionary; cbn.
  repeat split; try done; try constructor; set_solver.
Qed.

Lemma set_last_dictionary_reload_invariant d now :
  dict_invariant d -> dict_invariant (set_last_dictionary_reload d now).
Proof. done. Qed.

Lemma emit_dictionary_event_dict E p st si ps fin att rel :
  dict (emit_dictionary_event E p st si ps fin att rel) = dict st.
Proof. done. Qed.

Lemma emit_dictionary_event_stdout E p st si ps fin att rel :
  exists e, stdout (io (emit_dictionary_event E p st si ps fin att rel))
            = stdout (io st) ++ [EvDictionary e]
            /\ de_reloaded e = rel /\ de_attempted e = att
            /\ de_segment_index e = si /\ de_partial_seq e = ps /\ de_final e = fin.
Proof. unfold emit_dictionary_event. cbn. eexists. split; [reflexivity | done]. Qed.

Lemma app_singleton_neq {A} (l : list A) (x : A) : l <> l ++ [x].
Proof. intros Heq. apply (f_equal length) in Heq. rewrite length_app in Heq. cbn in Heq. lia. Qed.

End DictionaryFacts.

Section DictionarySpec.
Context `{FloatOps}.
Import Transcriber.
Implicit Types (E : env) (p : vad_params) (st : state) (d : dict_state) (a : tok_acc).

(** C8.  [dict_invariant] says: every sequence of [token_seqs] is non-empty
    and its first token is in [first_token_ids]; [first_token_ids] and
    [first_tokens_ordered] have the same members, the list has no duplicate
    and the two have the same cardinality; [dict_total_tokens] is the sum of
    the lengths of the sequences.  Every call of [reload_dictionary_if_needed]
    that prints a [dictionary] line with [reloaded=true] ends in a state where
    it holds, whatever the state before; and every call keeps it. *)
Theorem reload_keeps_indices_consistent E p st si ps fin force :
  let st' := reload_dictionary_if_needed E p st si ps fin force in
  (dict_invariant (dict st) -> dict_invariant (dict st'))
  /\ (forall e, stdout (io st') = stdout (io st) ++ [EvDictionary e] ->
                de_reloaded e = true -> dict_invariant (dict st')).
Proof.
  cbn zeta. unfold reload_dictionary_if_needed.
  destruct (bool_decide (dictionary_path p = "")).
  { rewrite emit_dictionary_event_dict. cbn [dict put_dict].
    split; intros; apply clear_dictionary_invariant. }
  destruct (force || (dictionary_poll_ms p <=? _)); cbn [negb].
  2:{ split; [done |]. intros e He _. cbn in He. by apply app_singleton_neq in He. }
  destruct (last_write_time E _) as [message | mtime].
  { rewrite emit_dictionary_event_dict. cbn [dict put_dict count_stat_call put_io].
    split; intros; apply clear_dictionary_invariant. }
  match goal with |- context [negb force && ?b] => destruct (negb force && b) end.
  { split; [done |]. intros e He Hrel.
    cbn in He. apply app_inj_tail in He as [_ He]. injection He as <-. discriminate Hrel. }
  destruct (open_file E _) as [contents |].
  - rewrite emit_dictionary_event_dict.
    assert (Hd : forall st0 l, dict (debug_print p st0 l) = dict st0)
      by (intros; unfold debug_print; by destruct (debug p)).
    rewrite Hd. cbn [dict put_dict].
    split; intros; apply rebuild_dictionary_invariant.
  - rewrite emit_dictionary_event_dict. cbn [dict put_dict count_open_call put_io].
    split; intros; apply clear_dictionary_invariant.
Qed.

(** C9 (amended).  With a dictionary path set, [force] unset and an mtime equal
    to the recorded one, [reload_dictionary_if_needed] leaves the indices, the
    cached text, the totals and the error unchanged.  When at least
    [dictionary_poll_ms] have passed since the last poll it prints one
    [dictionary] line with [attempted=true] and [reloaded=false]; when less
    has passed it returns at once and prints nothing. *)
Theorem reload_with_unchanged_mtime E p st si ps fin :
  dictionary_path p <> "" ->
  last_write_time E (stat_calls (io st)) = inr (last_dictionary_write_time (dict st)) ->
  let now := steady_now E (clock_reads (io st)) in
  let st' := reload_dictionary_if_needed E p st si ps fin false in
  dict_indices (dict st') = dict_indices (dict st)
  /\ (dictionary_poll_ms p <= now - last_dictionary_reload (dict st) ->
      last_dictionary_reload (dict st') = now
      /\ exists e, stdout (io st') = stdout (io st) ++ [EvDictionary e]
                   /\ de_reloaded e = false /\ de_attempted e = true)
  /\ (now - last_dictionary_reload (dict st) < dictionary_poll_ms p ->
      dict st' = dict st /\ stdout (io st') = stdout (io st)).
Proof.
  intros Hpath Hstat now st'. subst now st'. unfold reload_dictionary_if_needed.
  rewrite bool_decide_eq_false_2 by done. cbn [orb].
  destruct (Z.leb_spec (dictionary_poll_ms p)
              (steady_now E (clock_reads (io st))
               - last_dictionary_reload (dict (count_clock_read st)))) as [Hpoll | Hpoll];
    cbn [negb].
  - cbn [count_clock_read put_io put_dict io stat_calls dict] in *.
    rewrite Hstat. cbn [set_last_dictionary_reload last_dictionary_write_time].
    rewrite Z.eqb_refl. cbn [negb andb].
    split; [done | split; [| intros; cbn in *; lia]].
    intros _. split; [done |]. eexists. split; [reflexivity | done].
  - cbn [count_clock_read put_io put_dict io stat_calls dict] in *.
    split; [done | split; [intros; lia | done]].
Qed.

End DictionarySpec.

Lemma reload_keeps_indices_consistent_witness :
  dict_invariant (Transcriber.dict state_loaded)
  /\ Transcriber.dictionary_token_seqs (Transcriber.dict state_loaded)
     = [byte_tokens "widget"; byte_tokens " widget";
        byte_tokens "openflow"; byte_tokens " openflow"]
  /\ Transcriber.dictionary_first_tokens (Transcriber.dict state_loaded) = [119; 32; 111]
  /\ Transcriber.last_dictionary_total_tokens (Transcriber.dict state_loaded) = 30.
Proof.
  split; [| split; [vm_compute; reflexivity | split; vm_compute; reflexivity]].
  destruct (reload_keeps_indices_consistent env_silent (make_params "dict.txt" false 0 200)
              state0 (-1) (-1) false true) as [_ Hreload].
  eapply Hreload; vm_compute; reflexivity.
Defined.

Lemma reload_with_unchanged_mtime_witness :
  let p := make_params "dict.txt" false 0 200 in
  let st' := Transcriber.reload_dictionary_if_needed env_silent p state_polled_twice
               0 2 false false in
  dict_indices (Transcriber.dict st') = dict_indices (Transcriber.dict state_polled_twice)
  /\ exists e, Transcriber.stdout (Transcriber.io st')
               = Transcriber.stdout (Transcriber.io state_polled_twice)
                 ++ [Transcriber.EvDictionary e]
               /\ Transcriber.de_reloaded e = false.
Proof.
  intros p st'.
  destruct (reload_with_unchanged_mtime env_silent p state_polled_twice 0 2 false)
    as (Hidx & Hev & _).
  - vm_compute. discriminate.
  - vm_compute. reflexivity.
  - split; [exact Hidx |].
    destruct Hev as (_ & e & He & Hrel & _); [vm_compute; discriminate |].
    exists e. split; [exact He | exact Hrel].
Defined.

(** C9 as stated fails: a call 400 ms after the load, with the default poll
    interval of 1000 ms and the file's mtime unchanged, prints no
    [dictionary] line at all. *)
Lemma reload_inside_poll_interval_is_silent :
  let p := make_params "dict.txt" false 0 200 in
  let st' := Transcriber.reload_dictionary_if_needed env_silent p state_loaded
               0 0 false false in
  Transcriber.last_write_time env_silent
    (Transcriber.stat_calls (Transcriber.io state_loaded))
  = inr (Transcriber.last_dictionary_write_time (Transcriber.dict state_loaded))
  /\ Transcriber.stdout (Transcriber.io st')
     = Transcriber.stdout (Transcriber.io state_loaded)
  /\ ~ (exists e, Transcriber.stdout (Transcriber.io st')
                  = Transcriber.stdout (Transcriber.io state_loaded)
                    ++ [Transcriber.EvDictionary e]).
Proof.
  intros p st'.
  split; [vm_compute; reflexivity | split; [vm_compute; reflexivity |]].
  intros (e & He). apply (f_equal length) in He.
  rewrite length_app in He. vm_compute in He. discriminate He.
Qed.

(** ** Decoding *)

(** Case analysis on the first [match] or [if] of the goal that is stuck. *)
Ltac destruct_match :=
  match goal with
  | |- context [match ?x with _ => _ end] => destruct x eqn:?
  end.

Section DecodeFacts.
Context `{FloatOps}.
Import Transcriber.
Implicit Types (E : env) (p : vad_params) (st : state) (s : seg_state).

Lemma reload_frame E p st si ps fin force :
  outside_dictionary (reload_dictionary_if_needed E p st si ps fin force)
  = outside_dictionary st.
Proof.
  unfold reload_dictionary_if_needed, emit_dictionary_event, debug_print,
    outside_dictionary, beam_warnings, segment_events, vad_events.
  repeat destruct_match; cbn; rewrite ?omap_app; cbn; rewrite ?app_nil_r; done.
Qed.

Lemma configure_decode_frame E p st si ps fin :
  let r := configure_decode E p st si ps fin in
  seg r.1 = seg st /\ dict r.1 = dict st /\ stdout (io r.1) = stdout (io st)
  /\ decode_log (io r.1) = decode_log (io st) /\ vad_calls (io r.1) = vad_calls (io st).
Proof. unfold configure_decode. repeat destruct_match; cbn; done. Qed.

Lemma configure_decode_greedy E p st si ps fin :
  bias_decoding p = false -> (configure_decode E p st si ps fin).1 = st.
Proof. intros Hb. unfold configure_decode. by rewrite Hb. Qed.

Lemma configure_decode_beam E p st si ps fin :
  bias_decoding p = true ->
  let r := configure_decode E p st si ps fin in
  let clamped := clamp (requested_beam E p) 2 kWhisperMaxDecoders in
  let warns := negb (requested_beam E p =? clamped) && negb (warned_beam_size_clamp st) in
  strategy r.2 = WHISPER_SAMPLING_BEAM_SEARCH
  /\ wp_beam_size r.2 = clamped
  /\ warned_beam_size_clamp r.1 = warned_beam_size_clamp st || warns
  /\ beam_warnings r.1
     = beam_warnings st ++ (if warns then [(requested_beam E p, clamped)] else []).
Proof.
  intros Hb. unfold configure_decode, requested_beam, beam_warnings. rewrite Hb.
  cbn zeta.
  destruct (negb _ && negb _) eqn:Hw; cbn; rewrite ?omap_app, ?app_nil_r; cbn.
  - by rewrite orb_true_r.
  - by rewrite orb_false_r.
Qed.

Lemma emit_transcription_empty E p st si start fin avg ps :
  emit_transcription E p st [] si start fin avg ps = st.
Proof. done. Qed.

Lemma emit_transcription_spec E p st audio si start fin avg ps :
  audio <> [] ->
  let st0 := reload_dictionary_if_needed E p st si ps fin false in
  let r := configure_decode E p st0 si ps fin in
  let st' := emit_transcription E p st audio si start fin avg ps in
  let answer := whisper_full E (length (decode_log (io st))) r.2 audio in
  seg st' = seg st
  /\ vad_calls (io st') = vad_calls (io st)
  /\ vad_events (stdout (io st')) = vad_events (stdout (io st))
  /\ decode_log (io st') = decode_log (io st) ++ [(r.2, audio)]
  /\ warned_beam_size_clamp st' = warned_beam_size_clamp r.1
  /\ beam_warnings st' = beam_warnings r.1
  /\ (answer = None -> segment_events (stdout (io st')) = segment_events (stdout (io st)))
  /\ (answer <> None ->
      exists e, segment_events (stdout (io st')) = segment_events (stdout (io st)) ++ [e]
                /\ printed_segment fin avg si ps start audio e).
Proof.
  intros Haudio st0 r st' answer.
  pose proof (reload_frame E p st si ps fin false) as Hre.
  unfold outside_dictionary in Hre. fold st0 in Hre.
  injection Hre as Hseg Hwarned Hlog Hvad Hbw Hsegev Hvadev.
  pose proof (configure_decode_frame E p st0 si ps fin) as (Cseg & Cdict & Cout & Clog & Cvad).
  fold r in Cseg, Cdict, Cout, Clog, Cvad. cbn zeta in *.
  assert (Hst' : st' = match answer with
                       | None => eprint (log_decode r.1 r.2 audio) (ErrWhisperFullFailed si fin)
                       | Some segments =>
                           print (log_decode r.1 r.2 audio)
                             (EvSegment
                                {| se_segment_index := si;
                                   se_start_ms := Z.quot (start * 1000) sample_rate;
                                   se_end_ms := Z.quot (start * 1000) sample_rate
                                     + Z.quot (Z.of_nat (length audio) * 1000) sample_rate;
                                   se_duration_ms :=
                                     Z.max 0 (Z.quot (start * 1000) sample_rate
                                       + Z.quot (Z.of_nat (length audio) * 1000) sample_rate
                                       - Z.quot (start * 1000) sample_rate);
                                   se_avg_vad := avg; se_final := fin; se_partial_seq := ps;
                                   se_text := fold_left String.append
                                     (map piece_text
                                        (omap (token_piece E (Z.quot (start * 1000) sample_rate))
                                           (concat segments))) "";
                                   se_tokens :=
                                     omap (token_piece E (Z.quot (start * 1000) sample_rate))
                                       (concat segments) |})
                       end).
  { subst st' answer r st0. unfold emit_transcription.
    destruct audio as [| x audio]; [done |].
    destruct (configure_decode _ _ _ _ _ _) as [st1 w] eqn:Hc. cbn [fst snd] in *.
    rewrite Clog, Hlog. done. }
  rewrite Hst'. unfold beam_warnings, segment_events, vad_events in *.
  destruct answer as [segments |]; cbn; rewrite ?omap_app; cbn; rewrite ?app_nil_r.
  - rewrite Cseg, Cvad, Cout, Clog, Hseg, Hvad, Hlog, Hvadev, Hsegev.
    repeat split; try done.
    intros _. eexists. split; [done |]. by repeat split.
  - rewrite Cseg, Cvad, Cout, Clog, Hseg, Hvad, Hlog, Hvadev, Hsegev.
    by repeat split.
Qed.

End DecodeFacts.

(** ** Segmentation *)

Section SegmentationFacts.
Context `{FloatOps}.
Import Transcriber.
Implicit Types (E : env) (p : vad_params) (st : state) (s : seg_state).

Lemma emit_transcription_shape E p st audio si start fin avg ps :
  let st' := emit_transcription E p st audio si start fin avg ps in
  seg st' = seg st
  /\ vad_calls (io st') = vad_calls (io st)
  /\ vad_events (stdout (io st')) = vad_events (stdout (io st))
  /\ exists out,
       segment_events (stdout (io st')) = segment_events (stdout (io st)) ++ out
       /\ (out = [] \/ exists e, out = [e] /\ printed_segment fin avg si ps start audio e)
       /\ (decodes_succeed E -> audio <> [] -> out <> []).
Proof.
  destruct (decide (audio = [])) as [-> | Haudio].
  { cbn. repeat split; try done. exists []. rewrite app_nil_r. split; [done |].
    split; [by left | done]. }
  destruct (emit_transcription_spec E p st audio si start fin avg ps Haudio)
    as (Hseg & Hvad & Hvadev & _ & _ & _ & Hnone & Hsome).
  cbn zeta in *. repeat split; try done.
  destruct (whisper_full E _ _ audio) as [segs |] eqn:Hanswer.
  - destruct Hsome as (e & He & Hpr); [done |].
    exists [e]. split; [done | split; [right; by exists e | done]].
  - exists []. rewrite app_nil_r. split; [by apply Hnone | split; [by left |]].
    intros Hok _. by apply Hok in Hanswer.
Qed.

Lemma flush_segment_shape E p st forced :
  let st' := flush_segment E p st forced in
  in_segment (seg st') = false
  /\ pending_samples (seg st') = pending_samples (seg st)
  /\ vad_calls (io st') = vad_calls (io st)
  /\ vad_events (stdout (io st')) = vad_events (stdout (io st))
  /\ exists out,
       segment_events (stdout (io st')) = segment_events (stdout (io st)) ++ out
       /\ (out = [] \/ exists f, out = [f] /\ se_final f = true
                                 /\ se_partial_seq f = partial_sequence (seg st))
       /\ (in_segment (seg st) = false -> out = []).
Proof.
  cbn zeta. unfold flush_segment.
  destruct (negb (in_segment (seg st)) || bool_decide (current_segment (seg st) = []))
    eqn:Hearly.
  { cbn. repeat split; try done. exists []. rewrite app_nil_r.
    split; [done | split; [by left | done]]. }
  apply orb_false_iff in Hearly as [Hin _]. apply negb_false_iff in Hin.
  destruct (_ <? _)%nat.
  { unfold debug_print. destruct (debug p); cbn; repeat split; try done.
    all: exists []; rewrite app_nil_r; split; [done | split; [by left | congruence]]. }
  match goal with
  | |- context [emit_transcription E p st ?a ?si ?start ?fin ?avg ?ps] =>
      destruct (emit_transcription_shape E p st a si start fin avg ps)
        as (Hseg & Hvad & Hvadev & out & Hout & Hcases & _)
  end.
  cbn [seg io put_seg in_segment pending_samples]. repeat split; try done.
  exists out. split; [done | split; [| congruence]].
  destruct Hcases as [-> | (f & -> & Hf & Hps & _)]; [by left | right].
  by exists f.
Qed.

Lemma maybe_emit_partial_shape E p st :
  let st' := maybe_emit_partial E p st in
  let q := partial_sequence (seg st) in
  in_segment (seg st') = in_segment (seg st)
  /\ pending_samples (seg st') = pending_samples (seg st)
  /\ current_segment (seg st') = current_segment (seg st)
  /\ vad_calls (io st') = vad_calls (io st)
  /\ vad_events (stdout (io st')) = vad_events (stdout (io st))
  /\ exists out,
       segment_events (stdout (io st')) = segment_events (stdout (io st)) ++ out
       /\ ((out = [] /\ partial_sequence (seg st') = q)
           \/ (out = [] /\ partial_sequence (seg st') = q + 1
               /\ (decodes_succeed E -> current_segment (seg st) = []))
           \/ (exists e, out = [e] /\ se_final e = false /\ se_partial_seq e = q
                         /\ partial_sequence (seg st') = q + 1)).
Proof.
  cbn zeta. unfold maybe_emit_partial.
  destruct (_ && _ && _).
  2:{ repeat split; try done. exists []. rewrite app_nil_r. split; [done | by left]. }
  match goal with
  | |- context [emit_transcription E p st ?a ?si ?start ?fin ?avg ?ps] =>
      destruct (emit_transcription_shape E p st a si start fin avg ps)
        as (Hseg & Hvad & Hvadev & out & Hout & Hcases & Hok)
  end.
  cbn [seg io put_seg partial_emitted in_segment pending_samples current_segment
       partial_sequence].
  rewrite Hseg. repeat split; try done.
  exists out. split; [done |].
  destruct Hcases as [-> | (e & -> & Hf & Hps & _)].
  - right; left. repeat split; try done.
    intros Hall. destruct (decide (current_segment (seg st) = [])); [done |].
    by destruct (Hok Hall).
  - right; right. by exists e.
Qed.

Lemma debug_print_frame p st l :
  (forall r c, l <> WarnBeamSizeClamp r c) ->
  outside_dictionary (debug_print p st l) = outside_dictionary st
  /\ dict (debug_print p st l) = dict st
  /\ stdout (io (debug_print p st l)) = stdout (io st).
Proof.
  intros Hl. unfold debug_print, outside_dictionary, beam_warnings.
  destruct (debug p); [| done]. cbn. rewrite omap_app.
  destruct l; cbn; rewrite ?app_nil_r; try done.
  by destruct (Hl requested clamped).
Qed.

Lemma maybe_flush_shape E p st prob :
  let st' := maybe_flush E p st prob in
  let q := partial_sequence (seg st) in
  pending_samples (seg st') = pending_samples (seg st)
  /\ vad_calls (io st') = vad_calls (io st)
  /\ vad_events (stdout (io st')) = vad_events (stdout (io st))
  /\ exists out,
       segment_events (stdout (io st')) = segment_events (stdout (io st)) ++ out
       /\ ((out = [] /\ in_segment (seg st') = in_segment (seg st)
            /\ partial_sequence (seg st') = q)
           \/ (in_segment (seg st') = false
               /\ (out = [] \/ exists f, out = [f] /\ se_final f = true
                                         /\ se_partial_seq f = q))).
Proof.
  cbn zeta. unfold maybe_flush.
  destruct (_ <=? _); [| destruct (_ && _)].
  3:{ repeat split; try done. exists []. rewrite app_nil_r. split; [done | by left]. }
  all: match goal with
       | |- context [flush_segment ?E0 ?p0 (debug_print ?p0 ?st0 ?l) ?f] =>
           destruct (flush_segment_shape E0 p0 (debug_print p0 st0 l) f)
             as (Hin & Hpend & Hvad & Hvadev & out & Hout & Hcases & _);
           destruct (debug_print_frame p0 st0 l ltac:(done)) as (Hd & _ & Hd')
       end.
  all: unfold outside_dictionary in Hd; injection Hd as Hseg _ _ Hv _ Hse Hve.
  all: cbn zeta in *; rewrite Hseg in *; rewrite Hv in *; rewrite Hse in *;
       rewrite Hve in *.
  all: repeat split; try done.
  all: exists out; split; [done | right; by split].
Qed.

End SegmentationFacts.

Section ChunkFacts.
Context `{FloatOps}.
Import Transcriber.
Implicit Types (E : env) (p : vad_params) (st : state) (s : seg_state).

Lemma vad_events_print st e :
  vad_events (stdout (io (print st e)))
  = vad_events (stdout (io st))
    ++ match e with EvVad t prob _ _ => [(t, prob)] | _ => [] end.
Proof. unfold vad_events. cbn. rewrite omap_app. by destruct e. Qed.

Lemma segment_events_print st e :
  segment_events (stdout (io (print st e)))
  = segment_events (stdout (io st))
    ++ match e with EvSegment s => [s] | _ => [] end.
Proof. unfold segment_events. cbn. rewrite omap_app. by destruct e. Qed.

Lemma after_vad_frame p st prob :
  seg (after_vad p st prob) = advance_processed (pop_chunk (seg st))
  /\ vad_calls (io (after_vad p st prob)) = S (vad_calls (io st))
  /\ segment_events (stdout (io (after_vad p st prob))) = segment_events (stdout (io st))
  /\ vad_events (stdout (io (after_vad p st prob)))
     = vad_events (stdout (io st))
       ++ (if emit_vad_events p
           then [(Z.quot ((processed_samples_total (seg st) + Z.of_nat vad_chunk_samples)
                          * 1000) sample_rate, prob)]
           else []).
Proof.
  unfold after_vad. destruct (emit_vad_events p).
  - rewrite vad_events_print, segment_events_print. cbn. by rewrite app_nil_r.
  - cbn. by rewrite app_nil_r.
Qed.

Lemma process_chunk_unfold E p st :
  process_chunk E p st
  = match vad_infer E (vad_calls (io st)) (take vad_chunk_samples (pending_samples (seg st)))
    with
    | None => eprint (count_vad_call (put_seg st (pop_chunk (seg st)))) ErrVadInferenceFailed
    | Some prob =>
        let st1 := after_vad p st prob in
        if negb (in_segment (seg st)) && f_ge prob (start_threshold p) then
          start_segment p st1 prob
            (Z.quot ((processed_samples_total (seg st) + Z.of_nat vad_chunk_samples) * 1000)
               sample_rate)
        else if in_segment (seg st) then
          maybe_flush E p
            (maybe_emit_partial E p (put_seg st1 (append_chunk p (seg st1) prob))) prob
        else
          put_seg st1
            (set_pre_roll (seg st1)
               (fold_left (push_pre_roll p) (chunk_buffer (seg st1)) (pre_roll (seg st1))))
    end.
Proof.
  unfold process_chunk, after_vad. cbn.
  destruct (vad_infer E _ _); [| done].
  by destruct (emit_vad_events p).
Qed.

Lemma start_segment_frame p st prob t :
  let st' := start_segment p st prob t in
  in_segment (seg st') = true
  /\ partial_sequence (seg st') = 0
  /\ pending_samples (seg st') = pending_samples (seg st)
  /\ vad_calls (io st') = vad_calls (io st)
  /\ segment_events (stdout (io st')) = segment_events (stdout (io st))
  /\ vad_events (stdout (io st')) = vad_events (stdout (io st)).
Proof.
  cbn zeta. unfold start_segment.
  destruct (debug_print_frame p st (DbgSegmentStart (segment_index (seg st)) t prob)
              ltac:(done)) as (Hd & _ & _).
  unfold outside_dictionary in Hd. injection Hd as Hseg _ _ Hv _ Hse Hve.
  cbn. by rewrite Hv, Hse, Hve.
Qed.

(** Every turn of the loop takes one chunk off the queue and asks the VAD once. *)
Lemma process_chunk_queue E p st :
  pending_samples (seg (process_chunk E p st))
  = drop vad_chunk_samples (pending_samples (seg st))
  /\ vad_calls (io (process_chunk E p st)) = S (vad_calls (io st)).
Proof.
  rewrite process_chunk_unfold.
  destruct (vad_infer E _ _) as [prob |]; [| done].
  cbn zeta.
  destruct (after_vad_frame p st prob) as (Hseg & Hvad & _ & _).
  destruct (negb _ && _); [| destruct (in_segment (seg st))].
  - destruct (start_segment_frame p (after_vad p st prob) prob
                (Z.quot ((processed_samples_total (seg st) + Z.of_nat vad_chunk_samples)
                         * 1000) sample_rate)) as (_ & _ & Hp & Hv & _).
    cbn zeta in *. by rewrite Hp, Hv, Hseg, Hvad.
  - match goal with
    | |- context [maybe_flush E p ?x prob] =>
        destruct (maybe_flush_shape E p x prob) as (Hp & Hv & _);
        match x with
        | maybe_emit_partial E p ?y =>
            destruct (maybe_emit_partial_shape E p y) as (_ & Hp' & _ & Hv' & _)
        end
    end.
    cbn zeta in *. rewrite Hp, Hv, Hp', Hv'. cbn. by rewrite Hseg, Hvad.
  - cbn. by rewrite Hseg, Hvad.
Qed.

(** What a fetch of the microphone loop changes: the queue, which only
    grows, and the time of the last fetch. *)
Lemma mic_queue_frame p (a : Ring.audio_async float) st st1 :
  mic_queue p a st = Some st1 ->
  exists tail t,
    st1 = put_seg st (set_fetched (seg st) (pending_samples (seg st) ++ tail) t).
Proof.
  unfold mic_queue. destruct (_ <=? _); [done |]. intros [= <-].
  destruct (0 <? _)%nat.
  - by eexists _, _.
  - exists [], (Ring.get_time_ms (Ring.get a (fetch_window_ms p) [] 0)).
    by rewrite app_nil_r.
Qed.

End ChunkFacts.

Section LoopFacts.
Context `{FloatOps}.
Import Transcriber.
Implicit Types (E : env) (p : vad_params) (st : state) (s : seg_state).

Lemma process_loop_step E p fuel st :
  (vad_chunk_samples <= length (pending_samples (seg st)))%nat ->
  process_loop E p (S fuel) st = process_loop E p fuel (process_chunk E p st).
Proof.
  intros Hlen. cbn [process_loop].
  by destruct (Nat.leb_spec vad_chunk_samples (length (pending_samples (seg st)))); [| lia].
Qed.

Lemma process_loop_done E p fuel st :
  (length (pending_samples (seg st)) < vad_chunk_samples)%nat ->
  process_loop E p fuel st = st.
Proof.
  intros Hlen. destruct fuel; [done |]. cbn [process_loop].
  by destruct (Nat.leb_spec vad_chunk_samples (length (pending_samples (seg st)))); [lia |].
Qed.

Lemma div_chunk_step (n : nat) :
  (vad_chunk_samples <= n)%nat ->
  (n / vad_chunk_samples = S ((n - vad_chunk_samples) / vad_chunk_samples))%nat.
Proof.
  intros Hn. replace n with ((n - vad_chunk_samples) + 1 * vad_chunk_samples)%nat at 1 by lia.
  rewrite Nat.div_add by done. lia.
Qed.

(** A property kept by every turn of the loop is kept by the loop; [k] counts
    the turns. *)
Lemma process_loop_ind E p (P : nat -> state -> Prop) :
  (forall k st, P k st ->
     (vad_chunk_samples <= length (pending_samples (seg st)))%nat ->
     P (S k) (process_chunk E p st)) ->
  forall fuel st k,
    (length (pending_samples (seg st)) / vad_chunk_samples <= fuel)%nat ->
    P k st ->
    P (k + length (pending_samples (seg st)) / vad_chunk_samples)%nat
      (process_loop E p fuel st)
    /\ (length (pending_samples (seg (process_loop E p fuel st))) < vad_chunk_samples)%nat.
Proof.
  intros Hstep. induction fuel as [| fuel IH]; intros st k Hfuel HP.
  - assert (Hsmall : (length (pending_samples (seg st)) < vad_chunk_samples)%nat).
    { destruct (Nat.lt_ge_cases (length (pending_samples (seg st))) vad_chunk_samples)
        as [| Hge]; [done |].
      rewrite div_chunk_step in Hfuel by done. lia. }
    cbn [process_loop]. rewrite Nat.div_small by done.
    by rewrite Nat.add_0_r.
  - destruct (Nat.lt_ge_cases (length (pending_samples (seg st))) vad_chunk_samples)
      as [Hsmall | Hge].
    + rewrite process_loop_done by done. rewrite Nat.div_small by done.
      by rewrite Nat.add_0_r.
    + rewrite process_loop_step by done.
      destruct (process_chunk_queue E p st) as [Hq _].
      rewrite (div_chunk_step (length (pending_samples (seg st)))) in * by done.
      assert (Hlen : length (pending_samples (seg (process_chunk E p st)))
                     = (length (pending_samples (seg st)) - vad_chunk_samples)%nat)
        by (by rewrite Hq, length_drop).
      specialize (IH (process_chunk E p st) (S k)).
      rewrite Hlen in IH.
      replace (k + S ((length (pending_samples (seg st)) - vad_chunk_samples)
                      / vad_chunk_samples))%nat
        with (S k + (length (pending_samples (seg st)) - vad_chunk_samples)
                    / vad_chunk_samples)%nat by lia.
      apply IH; [lia | by apply Hstep].
Qed.

Lemma fuel_suffices (n : nat) : (n / vad_chunk_samples <= n)%nat.
Proof. apply Nat.Div0.div_le_upper_bound. unfold vad_chunk_samples. lia. Qed.

(** The loop empties the queue of whole chunks, asking the VAD once per chunk. *)
Lemma process_pending_chunks_queue E p st :
  let n := length (pending_samples (seg st)) in
  let st' := process_pending_chunks E p st in
  vad_calls (io st') = (vad_calls (io st) + n / vad_chunk_samples)%nat
  /\ pending_samples (seg st')
     = drop (vad_chunk_samples * (n / vad_chunk_samples)) (pending_samples (seg st)).
Proof.
  cbn zeta. unfold process_pending_chunks.
  pose (P := fun (k : nat) (s : state) =>
               vad_calls (io s) = (vad_calls (io st) + k)%nat
               /\ pending_samples (seg s)
                  = drop (vad_chunk_samples * k) (pending_samples (seg st))).
  destruct (process_loop_ind E p P) with
    (fuel := length (pending_samples (seg st))) (st := st) (k := 0%nat) as [HP _].
  - intros k s [Hv Hp] _. destruct (process_chunk_queue E p s) as [Hq Hc].
    split; [rewrite Hc, Hv; lia |].
    rewrite Hq, Hp, drop_drop. f_equal. lia.
  - apply fuel_suffices.
  - split; [lia | by rewrite Nat.mul_0_r].
  - exact HP.
Qed.

End LoopFacts.

Section OfflineFacts.
Context `{FloatOps}.
Import Transcriber.
Implicit Types (E : env) (p : vad_params) (st : state) (s : seg_state).

Lemma chunks_up_exact (q : nat) : chunks_up (vad_chunk_samples * q) = q.
Proof.
  unfold chunks_up. symmetry.
  apply (Nat.div_unique _ _ _ (vad_chunk_samples - 1)); unfold vad_chunk_samples; lia.
Qed.

Lemma chunks_up_inexact (q r : nat) :
  (0 < r < vad_chunk_samples)%nat -> chunks_up (vad_chunk_samples * q + r) = S q.
Proof.
  intros Hr. unfold chunks_up. symmetry.
  apply (Nat.div_unique _ _ _ (r - 1)); unfold vad_chunk_samples in *; lia.
Qed.

(** The queue after [enqueue_padded] on an empty queue. *)
Lemma enqueue_padded_length st pcm :
  pending_samples (seg st) = [] ->
  let n := length pcm in
  pending_samples (seg (enqueue_padded st pcm))
  = pcm ++ replicate (vad_chunk_samples * chunks_up n - n) f_zero
  /\ length (pending_samples (seg (enqueue_padded st pcm)))
     = (vad_chunk_samples * chunks_up n)%nat
  /\ io (enqueue_padded st pcm) = io st
  /\ in_segment (seg (enqueue_padded st pcm)) = in_segment (seg st).
Proof.
  intros Hempty n. subst n. unfold enqueue_padded. rewrite Hempty. cbn [app].
  pose proof (Nat.div_mod_eq (length pcm) vad_chunk_samples) as Hdm.
  pose proof (Nat.mod_upper_bound (length pcm) vad_chunk_samples ltac:(done)) as Hlt.
  set (q := (length pcm / vad_chunk_samples)%nat) in *.
  set (r := (length pcm mod vad_chunk_samples)%nat) in *.
  destruct (Nat.ltb_spec 0 r) as [Hr | Hr]; cbn [seg put_seg set_pending pending_samples io
                                                  in_segment].
  - rewrite Hdm, chunks_up_inexact by lia.
    replace (vad_chunk_samples * S q - (vad_chunk_samples * q + r))%nat
      with (vad_chunk_samples - r)%nat by lia.
    rewrite length_app, length_replicate. repeat split; try done. lia.
  - assert (r = 0%nat) as Hr0 by lia. rewrite Hr0 in Hdm.
    rewrite Nat.add_0_r in Hdm.
    assert (Hc : chunks_up (length pcm) = q) by (rewrite Hdm; apply chunks_up_exact).
    rewrite Hc, <- Hdm, Nat.sub_diag. cbn [replicate]. rewrite app_nil_r.
    repeat split; try done.
Qed.

Lemma flush_segment_inactive E p st forced :
  in_segment (seg st) = false ->
  io (flush_segment E p st forced) = io st
  /\ pending_samples (seg (flush_segment E p st forced)) = pending_samples (seg st).
Proof. intros Hin. unfold flush_segment. by rewrite Hin. Qed.

(** A frame below the start threshold, met while inactive, only feeds the
    pre-roll. *)
Lemma process_chunk_silent E p st :
  all_silent E p -> in_segment (seg st) = false ->
  let st' := process_chunk E p st in
  in_segment (seg st') = false
  /\ segment_events (stdout (io st')) = segment_events (stdout (io st))
  /\ length (vad_events (stdout (io st')))
     = (length (vad_events (stdout (io st))) + (if emit_vad_events p then 1 else 0))%nat.
Proof.
  intros Hsilent Hin. cbn zeta. rewrite process_chunk_unfold.
  destruct (Hsilent (vad_calls (io st))
              (take vad_chunk_samples (pending_samples (seg st)))) as (prob & -> & Hlow).
  cbn zeta. rewrite Hin, Hlow. cbn [negb andb].
  destruct (after_vad_frame p st prob) as (Hseg & _ & Hse & Hve).
  cbn [seg io put_seg]. rewrite Hse, Hve, length_app, Hseg. cbn [set_pre_roll in_segment
    advance_processed pop_chunk].
  by destruct (emit_vad_events p).
Qed.

Lemma process_pending_chunks_silent E p st :
  all_silent E p -> in_segment (seg st) = false ->
  let n := length (pending_samples (seg st)) in
  let st' := process_pending_chunks E p st in
  in_segment (seg st') = false
  /\ segment_events (stdout (io st')) = segment_events (stdout (io st))
  /\ length (vad_events (stdout (io st')))
     = (length (vad_events (stdout (io st)))
        + (if emit_vad_events p then n / vad_chunk_samples else 0))%nat.
Proof.
  intros Hsilent Hin. cbn zeta. unfold process_pending_chunks.
  pose (P := fun (k : nat) (s : state) =>
               in_segment (seg s) = false
               /\ segment_events (stdout (io s)) = segment_events (stdout (io st))
               /\ length (vad_events (stdout (io s)))
                  = (length (vad_events (stdout (io st)))
                     + (if emit_vad_events p then k else 0))%nat).
  destruct (process_loop_ind E p P) with
    (fuel := length (pending_samples (seg st))) (st := st) (k := 0%nat) as [HP _].
  - intros k s (Hs & Hse & Hve) _.
    destruct (process_chunk_silent E p s Hsilent Hs) as (Hs' & Hse' & Hve').
    cbn zeta in *. split; [done | split; [congruence |]].
    rewrite Hve', Hve. destruct (emit_vad_events p); lia.
  - apply fuel_suffices.
  - split; [done | split; [done |]]. destruct (emit_vad_events p); lia.
  - exact HP.
Qed.

(** The same with what the loop leaves in the queue. *)
Lemma process_pending_chunks_silent_queue E p st :
  all_silent E p -> in_segment (seg st) = false ->
  let n := length (pending_samples (seg st)) in
  let st' := process_pending_chunks E p st in
  in_segment (seg st') = false
  /\ segment_events (stdout (io st')) = segment_events (stdout (io st))
  /\ length (vad_events (stdout (io st')))
     = (length (vad_events (stdout (io st)))
        + (if emit_vad_events p then n / vad_chunk_samples else 0))%nat
  /\ length (pending_samples (seg st')) = (n mod vad_chunk_samples)%nat.
Proof.
  intros Hsilent Hin. cbn zeta.
  destruct (process_pending_chunks_silent E p st Hsilent Hin) as (Hin' & Hse & Hve).
  destruct (process_pending_chunks_queue E p st) as [_ Hq].
  cbn zeta in *. repeat split; try done.
  rewrite Hq, length_drop.
  pose proof (Nat.div_mod_eq (length (pending_samples (seg st))) vad_chunk_samples).
  lia.
Qed.

(** A feed of a streaming mode while every frame is silent: the frames
    completed by the feed are counted, the rest waits in the queue. *)
Lemma run_feed_silent E p st f :
  all_silent E p -> in_segment (seg st) = false ->
  (length (pending_samples (seg st)) < vad_chunk_samples)%nat ->
  let n := (length (pending_samples (seg st)) + fed p st f)%nat in
  let st' := run_feed E p st f in
  in_segment (seg st') = false
  /\ segment_events (stdout (io st')) = segment_events (stdout (io st))
  /\ length (vad_events (stdout (io st')))
     = (length (vad_events (stdout (io st)))
        + (if emit_vad_events p then n / vad_chunk_samples else 0))%nat
  /\ length (pending_samples (seg st')) = (n mod vad_chunk_samples)%nat.
Proof.
  intros Hsilent Hin Hq. cbn zeta.
  assert (Hstay : forall k, k = 0%nat ->
            in_segment (seg st) = false
            /\ segment_events (stdout (io st)) = segment_events (stdout (io st))
            /\ length (vad_events (stdout (io st)))
               = (length (vad_events (stdout (io st)))
                  + (if emit_vad_events p
                     then (length (pending_samples (seg st)) + k) / vad_chunk_samples
                     else 0))%nat
            /\ length (pending_samples (seg st))
               = ((length (pending_samples (seg st)) + k) mod vad_chunk_samples)%nat).
  { intros k ->. rewrite Nat.add_0_r, Nat.div_small, Nat.mod_small by done.
    repeat split; try done. destruct (emit_vad_events p); lia. }
  destruct f as [samples | a]; cbn [run_feed fed].
  - destruct samples as [| x samples]; [by apply Hstay |].
    cbn [run_stdin_pcm_samples].
    set (st1 := put_seg st _).
    destruct (process_pending_chunks_silent_queue E p st1 Hsilent Hin)
      as (Hin' & Hse & Hve & Hp).
    cbn zeta in *.
    replace (length (pending_samples (seg st1)))
      with (length (pending_samples (seg st)) + length (x :: samples))%nat in Hve, Hp
      by (subst st1; cbn [seg put_seg set_pending pending_samples];
          by rewrite length_app).
    done.
  - unfold mic_turn. destruct (mic_queue p a st) as [st1 |] eqn:Hfetch; [| by apply Hstay].
    destruct (mic_queue_frame _ _ _ _ Hfetch) as (tail & t & ->).
    set (st1 := put_seg st _).
    destruct (process_pending_chunks_silent_queue E p st1 Hsilent Hin)
      as (Hin' & Hse & Hve & Hp).
    cbn zeta in *.
    assert (Hlen : length (pending_samples (seg st1))
                   = (length (pending_samples (seg st))
                      + (length (pending_samples (seg st1))
                         - length (pending_samples (seg st))))%nat).
    { subst st1. cbn [seg put_seg set_fetched pending_samples]. rewrite length_app. lia. }
    rewrite Hlen in Hve, Hp. done.
Qed.

Lemma run_feeds_silent E p fs : forall st,
  all_silent E p -> in_segment (seg st) = false ->
  (length (pending_samples (seg st)) < vad_chunk_samples)%nat ->
  let r := run_feeds E p st fs in
  let n := (length (pending_samples (seg st)) + r.2)%nat in
  in_segment (seg r.1) = false
  /\ segment_events (stdout (io r.1)) = segment_events (stdout (io st))
  /\ length (vad_events (stdout (io r.1)))
     = (length (vad_events (stdout (io st)))
        + (if emit_vad_events p then n / vad_chunk_samples else 0))%nat
  /\ length (pending_samples (seg r.1)) = (n mod vad_chunk_samples)%nat.
Proof.
  induction fs as [| f fs IH]; intros st Hsilent Hin Hq; cbn zeta.
  - cbn [run_feeds fst snd]. rewrite Nat.add_0_r, Nat.div_small, Nat.mod_small by done.
    repeat split; try done. destruct (emit_vad_events p); lia.
  - cbn [run_feeds fst snd].
    destruct (run_feed_silent E p st f Hsilent Hin Hq) as (Hin1 & Hse1 & Hve1 & Hp1).
    cbn zeta in *.
    assert (Hq1 : (length (pending_samples (seg (run_feed E p st f)))
                   < vad_chunk_samples)%nat)
      by (rewrite Hp1; by apply Nat.mod_upper_bound).
    destruct (IH (run_feed E p st f) Hsilent Hin1 Hq1) as (Hin2 & Hse2 & Hve2 & Hp2).
    cbn zeta in *. rewrite Hp1 in Hve2, Hp2.
    set (q := length (pending_samples (seg st))) in *.
    set (k := fed p st f) in *.
    set (m := (run_feeds E p (run_feed E p st f) fs).2) in *.
    assert (Hdiv : (((q + k) mod vad_chunk_samples + m) / vad_chunk_samples
                    + (q + k) / vad_chunk_samples
                    = (q + (k + m)) / vad_chunk_samples)%nat).
    { pose proof (Nat.div_mod_eq (q + k) vad_chunk_samples) as Hdm.
      replace (q + (k + m))%nat
        with (((q + k) mod vad_chunk_samples + m)
              + ((q + k) / vad_chunk_samples) * vad_chunk_samples)%nat by lia.
      by rewrite Nat.div_add. }
    assert (Hmod : (((q + k) mod vad_chunk_samples + m) mod vad_chunk_samples
                    = (q + (k + m)) mod vad_chunk_samples)%nat).
    { rewrite Nat.Div0.add_mod_idemp_l. f_equal. lia. }
    split; [done |]. split; [congruence |]. split; [| congruence].
    rewrite Hve2, Hve1, <- Hdiv. destruct (emit_vad_events p); lia.
Qed.

End OfflineFacts.

Section OfflineSpec.
Context `{FloatOps}.
Import Transcriber.
Implicit Types (E : env) (p : vad_params) (st : state) (s : seg_state).

Lemma drain_padded_queue E p st (c : nat) :
  length (pending_samples (seg st)) = (vad_chunk_samples * c)%nat ->
  vad_calls (io (flush_segment E p (process_pending_chunks E p st) true))
  = (vad_calls (io st) + c)%nat
  /\ pending_samples (seg (flush_segment E p (process_pending_chunks E p st) true)) = [].
Proof.
  intros Hlen.
  destruct (process_pending_chunks_queue E p st) as [Hv Hp].
  destruct (flush_segment_shape E p (process_pending_chunks E p st) true)
    as (_ & Hp' & Hv' & _).
  cbn zeta in *. rewrite Hp', Hv', Hv, Hp, Hlen.
  rewrite Nat.mul_comm, Nat.div_mul by done.
  split; [done |]. apply drop_ge. lia.
Qed.

(** C10.  In the offline and the stdin-audio paths the samples of a file are
    queued on an empty queue and followed by zeros up to the next multiple of
    512; the loop then asks the VAD exactly [ceil (n / 512)] times, once per
    frame, and leaves the queue empty, so no trailing sample stays behind. *)
Theorem offline_audio_is_padded_to_whole_frames E p st st2 path pcm :
  pending_samples (seg st) = [] ->
  let n := length pcm in
  pending_samples (seg (enqueue_padded st pcm))
  = pcm ++ replicate (vad_chunk_samples * chunks_up n - n) f_zero
  /\ length (pending_samples (seg (enqueue_padded st pcm)))
     = (vad_chunk_samples * chunks_up n)%nat
  /\ vad_calls (io (run_offline E p st pcm)) = (vad_calls (io st) + chunks_up n)%nat
  /\ pending_samples (seg (run_offline E p st pcm)) = []
  /\ vad_calls (io (run_stdin_audio_file E p st2 path pcm))
     = (vad_calls (io st2) + chunks_up n)%nat
  /\ pending_samples (seg (run_stdin_audio_file E p st2 path pcm)) = [].
Proof.
  intros Hempty n.
  destruct (enqueue_padded_length st pcm Hempty) as (Hq & Hlen & Hio & _).
  split; [done | split; [done |]].
  unfold run_offline, run_stdin_audio_file.
  destruct (drain_padded_queue E p (enqueue_padded st pcm) (chunks_up n) Hlen) as [Hv Hp].
  rewrite Hv, Hp, Hio. split; [done | split; [done |]].
  set (st3 := print (reset_segment_state st2) (EvJobStart (Some path))).
  destruct (enqueue_padded_length st3 pcm eq_refl) as (_ & Hlen3 & Hio3 & _).
  destruct (drain_padded_queue E p (enqueue_padded st3 pcm) (chunks_up n) Hlen3)
    as [Hv3 Hp3].
  cbn [seg io print put_io put_seg vad_calls]. by rewrite Hv3, Hp3, Hio3.
Qed.

(** C5 (amended).  When every frame gets a probability below the start
    threshold, no [segment] line is printed in any mode.  The offline and the
    stdin-audio paths pad the input with zeros to whole frames and print
    [ceil (n / 512)] [vad] lines for [n] samples.  The stdin-pcm path and the
    microphone loop do not pad: whatever the messages and fetches the samples
    arrive in, [floor (n / 512)] [vad] lines are printed for the [n] samples
    queued in all, the [n mod 512] last ones wait in the queue, and the flush
    at the end of the job or of the capture prints nothing.  No [vad] line is
    printed when VAD events are disabled. *)
Theorem silence_gives_one_vad_event_per_frame E p st st2 path pcm feeds :
  all_silent E p -> in_segment (seg st) = false -> pending_samples (seg st) = [] ->
  let n := length pcm in
  let lines st' := length (vad_events (stdout (io st'))) in
  let per_frame (frames : nat) := if emit_vad_events p then frames else 0%nat in
  let streamed := run_feeds E p st feeds in
  segment_events (stdout (io (run_offline E p st pcm))) = segment_events (stdout (io st))
  /\ lines (run_offline E p st pcm) = (lines st + per_frame (chunks_up n))%nat
  /\ segment_events (stdout (io (run_stdin_audio_file E p st2 path pcm)))
     = segment_events (stdout (io st2))
  /\ lines (run_stdin_audio_file E p st2 path pcm)
     = (lines st2 + per_frame (chunks_up n))%nat
  /\ segment_events (stdout (io (run_stdin_pcm_samples E p st pcm)))
     = segment_events (stdout (io st))
  /\ lines (run_stdin_pcm_samples E p st pcm)
     = (lines st + per_frame (n / vad_chunk_samples))%nat
  /\ segment_events (stdout (io streamed.1)) = segment_events (stdout (io st))
  /\ lines streamed.1 = (lines st + per_frame (streamed.2 / vad_chunk_samples))%nat
  /\ length (pending_samples (seg streamed.1)) = (streamed.2 mod vad_chunk_samples)%nat
  /\ in_segment (seg streamed.1) = false
  /\ io (flush_segment E p streamed.1 true) = io streamed.1.
Proof.
  intros Hsilent Hin Hempty n lines per_frame streamed. subst lines per_frame. cbn beta.
  assert (Hrun : forall st0, in_segment (seg st0) = false -> pending_samples (seg st0) = [] ->
    let st' := flush_segment E p (process_pending_chunks E p (enqueue_padded st0 pcm)) true in
    segment_events (stdout (io st')) = segment_events (stdout (io st0))
    /\ length (vad_events (stdout (io st')))
       = (length (vad_events (stdout (io st0)))
          + (if emit_vad_events p then chunks_up n else 0))%nat).
  { intros st0 Hin0 Hempty0.
    destruct (enqueue_padded_length st0 pcm Hempty0) as (_ & Hlen & Hio & Hin').
    rewrite Hin0 in Hin'.
    destruct (process_pending_chunks_silent E p (enqueue_padded st0 pcm) Hsilent Hin')
      as (Hin'' & Hse & Hve).
    destruct (flush_segment_inactive E p _ true Hin'') as [Hio' _].
    cbn zeta in *. rewrite Hio', Hse, Hve, Hio, Hlen.
    by rewrite Nat.mul_comm, Nat.div_mul. }
  split; [apply (Hrun st Hin Hempty) | split; [apply (Hrun st Hin Hempty) |]].
  destruct (Hrun (print (reset_segment_state st2) (EvJobStart (Some path))) eq_refl eq_refl)
    as [Hse2 Hve2].
  unfold run_stdin_audio_file.
  rewrite segment_events_print, vad_events_print, !app_nil_r, Hse2, Hve2.
  rewrite segment_events_print, vad_events_print, !app_nil_r.
  split; [done | split; [done |]].
  assert (Hshort : (length (pending_samples (seg st)) < vad_chunk_samples)%nat)
    by (rewrite Hempty; cbn; unfold vad_chunk_samples; lia).
  destruct (run_feed_silent E p st (FeedMessage pcm) Hsilent Hin Hshort)
    as (_ & Hse1 & Hve1 & _).
  destruct (run_feeds_silent E p feeds st Hsilent Hin Hshort) as (Hin3 & Hse3 & Hve3 & Hp3).
  cbn zeta in *. cbn [run_feed fed] in Hse1, Hve1.
  rewrite Hempty in Hve1, Hve3, Hp3. cbn [length Nat.add] in Hve1, Hve3, Hp3.
  repeat split; try done.
  by apply flush_segment_inactive.
Qed.

End OfflineSpec.

Lemma env_silent_all_silent : all_silent env_silent params_default.
Proof. intros n frame. exists (Some 0). by split. Qed.

Lemma offline_audio_is_padded_to_whole_frames_witness :
  let final := Transcriber.run_offline env_silent params_default state0 (tone 2 ++ [Some 1]) in
  Transcriber.vad_calls (Transcriber.io final) = 3%nat
  /\ Transcriber.pending_samples (Transcriber.seg final) = [].
Proof.
  destruct (offline_audio_is_padded_to_whole_frames env_silent params_default state0 state0
              "a.wav" (tone 2 ++ [Some 1]) eq_refl) as (_ & _ & Hv & Hp & _).
  split; [exact Hv | exact Hp].
Defined.

Lemma silence_gives_one_vad_event_per_frame_witness :
  let final := Transcriber.run_offline env_silent params_default state0 short_silence in
  let streamed :=
    run_feeds env_silent params_default state0 silent_feeds in
  (segment_events (Transcriber.stdout (Transcriber.io final)) = []
   /\ length (vad_events (Transcriber.stdout (Transcriber.io final))) = 2%nat)
  /\ (streamed.2 = 1624%nat
      /\ segment_events (Transcriber.stdout (Transcriber.io streamed.1)) = []
      /\ length (vad_events (Transcriber.stdout (Transcriber.io streamed.1))) = 3%nat
      /\ length (Transcriber.pending_samples (Transcriber.seg streamed.1)) = 88%nat).
Proof.
  intros final streamed.
  destruct (silence_gives_one_vad_event_per_frame env_silent params_default state0 state0
              "a.wav" short_silence silent_feeds
              env_silent_all_silent eq_refl eq_refl)
    as (Hse & Hve & _ & _ & _ & _ & Hse' & Hve' & Hq' & _ & _).
  fold streamed in Hse', Hve', Hq'.
  assert (Hn : streamed.2 = 1624%nat) by (vm_compute; reflexivity).
  rewrite Hn in Hve', Hq'.
  split; [split; [exact Hse | exact Hve] |].
  split; [exact Hn | split; [exact Hse' | split; [exact Hve' | exact Hq']]].
Defined.

(** C5 as stated fails: two seconds of zeros, 32 000 samples, run through the
    offline path with every probability at 0.0 give 63 [vad] lines, not
    [floor (32000 / 512) = 62]: the last 256 samples are padded to a frame. *)
Lemma two_seconds_of_silence_give_63_vad_events :
  let final :=
    Transcriber.run_offline env_silent params_default state0 two_seconds_of_silence in
  all_silent env_silent params_default
  /\ Z.of_nat (length two_seconds_of_silence) = 2 * Transcriber.sample_rate
  /\ Transcriber.emit_vad_events params_default = true
  /\ segment_events (Transcriber.stdout (Transcriber.io final)) = []
  /\ length (vad_events (Transcriber.stdout (Transcriber.io final))) = 63%nat
  /\ length (vad_events (Transcriber.stdout (Transcriber.io final)))
     <> Z.to_nat (2 * Transcriber.sample_rate / 512).
Proof.
  cbn zeta.
  split; [apply env_silent_all_silent |].
  split; [vm_compute; reflexivity |].
  split; [reflexivity |].
  split; [vm_compute; reflexivity |].
  split; [vm_compute; reflexivity |].
  intros Heq. vm_compute in Heq. discriminate Heq.
Qed.

Section BeamFacts.
Context `{FloatOps}.
Import Transcriber.
Implicit Types (E : env) (p : vad_params) (st : state) (s : seg_state).

Lemma beam_invariant_view E p st st' :
  beam_view st' = beam_view st -> beam_invariant E p st -> beam_invariant E p st'.
Proof.
  unfold beam_view, beam_invariant. intros Hview. injection Hview as -> -> ->. done.
Qed.

Lemma outside_dictionary_beam_view st st' :
  outside_dictionary st' = outside_dictionary st -> beam_view st' = beam_view st.
Proof.
  unfold outside_dictionary, beam_view. intros Heq.
  injection Heq as _ -> -> _ -> _ _. done.
Qed.

Lemma clamp_fixed (v lo hi : Z) : lo <= hi -> clamp (clamp v lo hi) lo hi = clamp v lo hi.
Proof.
  intros Hle. unfold clamp.
  repeat (match goal with |- context [?a <? ?b] => destruct (Z.ltb_spec a b) end); lia.
Qed.

Lemma beam_invariant_emit E p st audio si start fin avg ps :
  bias_decoding p = true -> beam_invariant E p st ->
  beam_invariant E p (emit_transcription E p st audio si start fin avg ps).
Proof.
  intros Hbias (Hlog & Hwarn & Hiff).
  destruct (decide (audio = [])) as [-> | Haudio]; [done |].
  destruct (emit_transcription_spec E p st audio si start fin avg ps Haudio)
    as (_ & _ & _ & Hlog' & Hw' & Hbw' & _).
  pose proof (reload_frame E p st si ps fin false) as Hre.
  unfold outside_dictionary in Hre. injection Hre as _ Hw0 _ _ Hbw0 _ _.
  destruct (configure_decode_beam E p (reload_dictionary_if_needed E p st si ps fin false)
              si ps fin Hbias) as (Hstrat & Hbeam & Hw1 & Hbw1).
  cbn zeta in *. rewrite Hw0 in Hw1. rewrite Hw0, Hbw0 in Hbw1.
  unfold beam_invariant. rewrite Hlog', Hw', Hbw', Hw1, Hbw1, Hwarn.
  split; [apply Forall_app; split; [done | by constructor] |].
  destruct (Z.eqb_spec (requested_beam E p) (clamp (requested_beam E p) 2 kWhisperMaxDecoders))
    as [Heq | Hne]; cbn [negb andb].
  - rewrite orb_false_r, app_nil_r. split; [done |].
    split; [intros Hw; apply Hiff in Hw as [_ ?]; done | intros [_ ?]; done].
  - destruct (warned_beam_size_clamp st); cbn [negb orb]; rewrite ?app_nil_r.
    + split; [done |]. split; [| done]. intros _. split; [| done].
      intros Hnil. by apply app_nil in Hnil as [_ ?].
    + split; [done |]. split; [| done]. intros _. split; [| done].
      intros Hnil. by apply app_nil in Hnil as [_ ?].
Qed.

Lemma beam_invariant_flush E p st forced :
  bias_decoding p = true -> beam_invariant E p st ->
  beam_invariant E p (flush_segment E p st forced).
Proof.
  intros Hbias Hinv. unfold flush_segment.
  destruct (_ || _); [by eapply beam_invariant_view |].
  destruct (_ <? _)%nat.
  - eapply beam_invariant_view; [| exact Hinv].
    etrans; [| apply outside_dictionary_beam_view;
               apply (debug_print_frame p st (DbgDiscardShort (keep_samples p (seg st) forced)));
               done].
    done.
  - eapply beam_invariant_view; [| by apply beam_invariant_emit]. done.
Qed.

Lemma beam_invariant_chunk E p st :
  bias_decoding p = true -> beam_invariant E p st ->
  beam_invariant E p (process_chunk E p st).
Proof.
  intros Hbias Hinv. rewrite process_chunk_unfold.
  destruct (vad_infer E _ _) as [prob |];
    [| eapply beam_invariant_view; [| exact Hinv]; unfold beam_view, beam_warnings; cbn;
       rewrite omap_app; cbn; by rewrite app_nil_r].
  assert (Hav : beam_invariant E p (after_vad p st prob)).
  { eapply beam_invariant_view; [| exact Hinv]. unfold after_vad.
    by destruct (emit_vad_events p). }
  cbn zeta. destruct (negb _ && _); [| destruct (in_segment (seg st))].
  - unfold start_segment. eapply beam_invariant_view; [| exact Hav].
    match goal with
    | |- context [debug_print p ?x ?l] => transitivity (beam_view (debug_print p x l))
    end; [done |].
    apply outside_dictionary_beam_view, debug_print_frame. done.
  - unfold maybe_flush, maybe_emit_partial.
    set (st1 := put_seg (after_vad p st prob) _).
    assert (H1 : beam_invariant E p st1) by (by eapply beam_invariant_view).
    match goal with
    | |- context [if ?c then put_seg ?x ?y else st1] =>
        assert (H2 : beam_invariant E p (if c then put_seg x y else st1))
    end.
    { destruct (_ && _ && _); [| done].
      eapply beam_invariant_view; [| by apply beam_invariant_emit]. done. }
    match goal with
    | H2 : beam_invariant E p ?x |- _ => set (st2 := x) in *
    end.
    assert (Hd : forall l, (forall r c, l <> WarnBeamSizeClamp r c) ->
                           beam_invariant E p (debug_print p st2 l)).
    { intros l Hl. eapply beam_invariant_view; [| exact H2].
      apply outside_dictionary_beam_view. by apply debug_print_frame. }
    repeat match goal with
           | |- beam_invariant _ _ (if ?c then _ else _) => destruct c
           end; try exact H2.
    all: apply beam_invariant_flush; [done |]; by apply Hd.
  - by eapply beam_invariant_view.
Qed.

Lemma beam_invariant_step E p st st' :
  bias_decoding p = true -> step E p st st' ->
  beam_invariant E p st -> beam_invariant E p st'.
Proof.
  intros Hbias Hstep Hinv. destruct Hstep.
  - eapply beam_invariant_view; [| exact Hinv].
    apply outside_dictionary_beam_view, reload_frame.
  - by eapply beam_invariant_view.
  - by eapply beam_invariant_view.
  - by eapply beam_invariant_view.
  - by apply beam_invariant_chunk.
  - by apply beam_invariant_flush.
  - match goal with
    | Hq : mic_queue _ _ _ = Some _ |- _ =>
        destruct (mic_queue_frame _ _ _ _ Hq) as (tail & t & ->)
    end.
    by eapply beam_invariant_view.
  - by eapply beam_invariant_view.
Qed.

Lemma beam_invariant_reachable E p st :
  bias_decoding p = true -> reachable E p st -> beam_invariant E p st.
Proof.
  intros Hbias Hreach. induction Hreach as [t_min f_min | st st' _ IH Hstep].
  - unfold beam_invariant. cbn. split; [constructor | split; [done |]].
    split; [done | by intros [? _]].
  - by eapply beam_invariant_step.
Qed.

Lemma process_loop_reachable E p fuel st :
  reachable E p st -> reachable E p (process_loop E p fuel st).
Proof.
  revert st. induction fuel as [| fuel IH]; intros st Hreach; [done |].
  cbn [process_loop].
  destruct (Nat.leb_spec vad_chunk_samples (length (pending_samples (seg st)))); [| done].
  apply IH. eapply reachable_step; [exact Hreach | by constructor].
Qed.

Lemma process_pending_chunks_reachable E p st :
  reachable E p st -> reachable E p (process_pending_chunks E p st).
Proof. apply process_loop_reachable. Qed.

Lemma run_stdin_pcm_samples_reachable E p st samples :
  reachable E p st -> reachable E p (run_stdin_pcm_samples E p st samples).
Proof.
  intros Hreach. destruct samples as [| x samples]; [done |].
  apply process_pending_chunks_reachable.
  eapply reachable_step; [exact Hreach | apply step_enqueue].
Qed.

Lemma mic_turn_reachable E p (a : Ring.audio_async float) st :
  reachable E p st -> reachable E p (mic_turn E p a st).
Proof.
  intros Hreach. unfold mic_turn. destruct (mic_queue p a st) as [st1 |] eqn:Hq; [| done].
  apply process_pending_chunks_reachable.
  eapply reachable_step; [exact Hreach | by eapply step_fetch].
Qed.

Lemma run_offline_reachable E p st pcm :
  reachable E p st -> reachable E p (run_offline E p st pcm).
Proof.
  intros Hreach. unfold run_offline, process_pending_chunks.
  eapply reachable_step; [| apply step_flush].
  apply process_loop_reachable.
  eapply reachable_step; [exact Hreach | apply step_enqueue_padded].
Qed.

End BeamFacts.

Section DecodeSpec.
Context `{FloatOps}.
Import Transcriber.
Implicit Types (E : env) (p : vad_params) (st : state) (s : seg_state).

(** C7.  With bias decoding enabled, in every state the process can reach,
    in any of its modes, every decode made so far was given beam search with
    a beam between 2 and 8: the requested beam itself when that is between 2
    and 8, 2 when it is below, 8 when it is above, where the requested beam is
    [--beam-size], or the acoustic model's default when [--beam-size] is not
    positive.  The clamp warnings on stderr are: none while no decode was
    made or when the request is between 2 and 8, and otherwise exactly one,
    naming the request and the bound it was clamped to, from the first decode
    on. *)
Theorem beam_size_is_clamped_and_warned_once E p st :
  bias_decoding p = true -> reachable E p st ->
  let requested :=
    if 0 <? beam_size p then beam_size p
    else default_beam_size E WHISPER_SAMPLING_BEAM_SEARCH in
  Forall (fun c : whisper_full_params * list float =>
            strategy c.1 = WHISPER_SAMPLING_BEAM_SEARCH
            /\ 2 <= wp_beam_size c.1 <= 8
            /\ (requested < 2 -> wp_beam_size c.1 = 2)
            /\ (2 <= requested <= 8 -> wp_beam_size c.1 = requested)
            /\ (8 < requested -> wp_beam_size c.1 = 8))
         (decode_log (io st))
  /\ (length (beam_warnings st) <= 1)%nat
  /\ (decode_log (io st) = [] -> beam_warnings st = [])
  /\ (2 <= requested <= 8 -> beam_warnings st = [])
  /\ (decode_log (io st) <> [] -> requested < 2 -> beam_warnings st = [(requested, 2)])
  /\ (decode_log (io st) <> [] -> 8 < requested -> beam_warnings st = [(requested, 8)])
  /\ (0 < beam_size p -> requested = beam_size p)
  /\ (beam_size p = 0 -> requested = default_beam_size E WHISPER_SAMPLING_BEAM_SEARCH).
Proof.
  intros Hbias Hreach requested.
  destruct (beam_invariant_reachable E p st Hbias Hreach) as (Hlog & Hwarn & Hiff).
  unfold requested_beam in Hlog, Hwarn, Hiff. fold requested in Hlog, Hwarn, Hiff.
  unfold clamp, kWhisperMaxDecoders in Hlog, Hwarn, Hiff.
  split.
  { eapply Forall_impl; [exact Hlog |]. intros c [Hs Hb]. split; [exact Hs |].
    rewrite Hb.
    destruct (Z.ltb_spec requested 2); [lia |].
    destruct (Z.ltb_spec 8 requested); lia. }
  split; [rewrite Hwarn; destruct (warned_beam_size_clamp st); cbn; lia |].
  assert (Hoff : warned_beam_size_clamp st = false -> beam_warnings st = [])
    by (intros Hw; by rewrite Hwarn, Hw).
  split.
  { intros Hnil. apply Hoff. destruct (warned_beam_size_clamp st); [| done].
    by destruct (proj1 Hiff eq_refl) as [Hne _]. }
  split.
  { intros Hmid. apply Hoff. destruct (warned_beam_size_clamp st); [| done].
    destruct (proj1 Hiff eq_refl) as [_ Hne].
    destruct (Z.ltb_spec requested 2); [lia |].
    destruct (Z.ltb_spec 8 requested); [lia | done]. }
  assert (Hon : decode_log (io st) <> [] -> requested < 2 \/ 8 < requested ->
                warned_beam_size_clamp st = true).
  { intros Hne Hout. apply Hiff. split; [exact Hne |].
    destruct (Z.ltb_spec requested 2); [lia |].
    destruct (Z.ltb_spec 8 requested); lia. }
  split.
  { intros Hne Hlow. rewrite Hwarn, Hon by (done || by left).
    by destruct (Z.ltb_spec requested 2); [| lia]. }
  split.
  { intros Hne Hhigh. rewrite Hwarn, Hon by (done || by right).
    destruct (Z.ltb_spec requested 2); [lia |].
    by destruct (Z.ltb_spec 8 requested); [| lia]. }
  subst requested.
  split; [intros Hpos; by destruct (Z.ltb_spec 0 (beam_size p)); [| lia] |].
  intros Hzero. by rewrite Hzero.
Qed.

(** C3 (amended).  On a natural flush of an active utterance the kept audio is
    the first [min (buffer length, max (last_voice_sample +
    post_padding_samples, start_sample) - start_sample)] samples of the
    buffer.  Below [min_segment_samples] nothing is printed and no decode is
    made.  Otherwise the kept audio is handed to the acoustic model; when the
    decode succeeds one [segment] line with [final=true], the current
    [partial_seq] and [avg_vad = prob_sum / prob_count] is printed, and when
    it fails no [segment] line is printed. *)
Theorem natural_flush_keeps_voice_and_padding E p st :
  in_segment (seg st) = true -> current_segment (seg st) <> [] ->
  let s := seg st in
  let keep :=
    Nat.min (length (current_segment s))
      (Z.to_nat (Z.max (last_voice_sample s + Z.of_nat (post_padding_samples p))
                       (segment_start_sample s)
                 - segment_start_sample s)) in
  let st' := flush_segment E p st false in
  let audio := take keep (current_segment s) in
  keep_samples p s false = keep
  /\ in_segment (seg st') = false
  /\ ((keep < min_segment_samples p)%nat ->
      stdout (io st') = stdout (io st) /\ decode_log (io st') = decode_log (io st))
  /\ ((min_segment_samples p <= keep)%nat -> (0 < keep)%nat ->
      exists w,
        decode_log (io st') = decode_log (io st) ++ [(w, audio)]
        /\ (whisper_full E (length (decode_log (io st))) w audio = None ->
            segment_events (stdout (io st')) = segment_events (stdout (io st)))
        /\ (whisper_full E (length (decode_log (io st))) w audio <> None ->
            exists e,
              segment_events (stdout (io st')) = segment_events (stdout (io st)) ++ [e]
              /\ se_final e = true
              /\ se_partial_seq e = partial_sequence s
              /\ se_avg_vad e = avg_prob s
              /\ (0 < segment_prob_count s ->
                  se_avg_vad e = d_div_int (segment_prob_sum s) (segment_prob_count s)))).
Proof.
  intros Hin Hbuf s keep st' audio. set (s0 := seg st) in *. subst s.
  rename s0 into s.
  assert (Hkeep : keep_samples p s false = keep).
  { subst keep. unfold keep_samples.
    set (wanted := last_voice_sample s + Z.of_nat (post_padding_samples p)).
    destruct (Z.ltb_spec wanted (segment_start_sample s)).
    - rewrite Z.max_r by lia. rewrite Z.max_r by lia.
      replace (segment_start_sample s - segment_start_sample s) with 0 by lia.
      cbn. by destruct (length (current_segment s)).
    - rewrite (Z.max_l wanted) by lia. rewrite Z.max_r by lia.
      destruct (Nat.ltb_spec (length (current_segment s))
                  (Z.to_nat (wanted - segment_start_sample s))); lia. }
  split; [exact Hkeep |].
  split; [apply flush_segment_shape |].
  subst st'. unfold flush_segment. fold s. rewrite Hin, Hkeep.
  rewrite bool_decide_eq_false_2 by done. cbn [negb orb].
  destruct (Nat.ltb_spec keep (min_segment_samples p)) as [Hshort | Hlong].
  - split; [| lia]. intros _.
    destruct (debug_print_frame p st (DbgDiscardShort keep) ltac:(done)) as (Hd & _ & Hout).
    unfold outside_dictionary in Hd. injection Hd as _ _ Hlog _ _ _ _.
    cbn [io put_seg]. by rewrite Hout, Hlog.
  - split; [lia |]. intros _ Hpos.
    assert (Haudio : audio <> []).
    { subst audio. intros Hnil. apply (f_equal length) in Hnil.
      rewrite length_take in Hnil. cbn in Hnil. subst keep. lia. }
    destruct (emit_transcription_spec E p st audio
                (if 0 <=? active_segment_index s then active_segment_index s
                 else segment_index s)
                (segment_start_sample s) true (avg_prob s) (partial_sequence s) Haudio)
      as (_ & _ & _ & Hlog & _ & _ & Hnone & Hsome).
    cbn zeta in *. cbn [io put_seg]. fold audio.
    eexists. split; [exact Hlog | split; [exact Hnone |]].
    intros Hok. destruct (Hsome Hok) as (e & He & Hfin & Hps & Havg & _).
    exists e. repeat split; try done.
    intros Hcount. rewrite Havg. unfold avg_prob.
    by destruct (Z.ltb_spec 0 (segment_prob_count s)); [| lia].
Qed.

End DecodeSpec.

Lemma beam_size_is_clamped_and_warned_once_witness :
  let final := Transcriber.run_offline env_voiced params_beam12 state0 (tone 16) in
  let live := Transcriber.mic_turn env_voiced params_beam12 ring_tone state0 in
  (Forall (fun c : Transcriber.whisper_full_params * list float =>
             Transcriber.wp_beam_size c.1 = 8)
          (Transcriber.decode_log (Transcriber.io final))
   /\ length (Transcriber.decode_log (Transcriber.io final)) = 3%nat
   /\ beam_warnings final = [(12, 8)])
  /\ (Forall (fun c : Transcriber.whisper_full_params * list float =>
                Transcriber.wp_beam_size c.1 = 8)
             (Transcriber.decode_log (Transcriber.io live))
      /\ length (Transcriber.decode_log (Transcriber.io live)) = 2%nat
      /\ Transcriber.last_fetch_time_ms (Transcriber.seg live) = 512
      /\ beam_warnings live = [(12, 8)]).
Proof.
  intros final live.
  assert (Hreach : reachable env_voiced params_beam12 final)
    by (apply run_offline_reachable; constructor).
  assert (Hlive : reachable env_voiced params_beam12 live)
    by (apply mic_turn_reachable; constructor).
  split.
  - destruct (beam_size_is_clamped_and_warned_once env_voiced params_beam12 final
                eq_refl Hreach) as (Hlog & _ & _ & _ & _ & Hbig & _).
    split; [| split; [vm_compute; reflexivity |]].
    + eapply Forall_impl; [exact Hlog |]. intros c (_ & _ & _ & _ & Hc). by apply Hc.
    + apply Hbig; [vm_compute; discriminate | reflexivity].
  - destruct (beam_size_is_clamped_and_warned_once env_voiced params_beam12 live
                eq_refl Hlive) as (Hlog & _ & _ & _ & _ & Hbig & _).
    split; [| split; [vm_compute; reflexivity | split; [vm_compute; reflexivity |]]].
    + eapply Forall_impl; [exact Hlog |]. intros c (_ & _ & _ & _ & Hc). by apply Hc.
    + apply Hbig; [vm_compute; discriminate | reflexivity].
Defined.

Lemma natural_flush_keeps_voice_and_padding_witness :
  let st' := Transcriber.flush_segment env_voiced params_short
               state_before_natural_flush false in
  Transcriber.keep_samples params_short seg_before_natural_flush false = 1824%nat
  /\ exists e, segment_events (Transcriber.stdout (Transcriber.io st')) = [e]
               /\ Transcriber.se_final e = true
               /\ Transcriber.se_avg_vad e = Some 450.
Proof.
  destruct (natural_flush_keeps_voice_and_padding env_voiced params_short
              state_before_natural_flush) as (Hkeep & _ & _ & Hemit).
  - reflexivity.
  - vm_compute. discriminate.
  - split; [exact Hkeep |].
    destruct Hemit as (w & _ & _ & Hsome); [vm_compute; lia | vm_compute; lia |].
    destruct Hsome as (e & He & Hfin & _ & _ & Havg); [cbn; discriminate |].
    exists e. split; [exact He | split; [exact Hfin |]].
    apply Havg. reflexivity.
Defined.

(** C3 as stated fails: a natural flush that keeps 1824 samples, above the
    minimum of 512, prints no [segment] line when [whisper_full] fails; the
    failure is logged on stderr and the utterance is lost.  The state is the
    one the pipeline is in on the fourth frame of two voiced frames followed
    by silence, as the offline run of that input shows. *)
Lemma natural_flush_is_silent_when_decode_fails :
  let st' := Transcriber.flush_segment env_decode_fails params_short
               state_before_natural_flush false in
  let run := Transcriber.run_offline env_two_voiced_decode_fails params_short state0
               (tone 2 ++ replicate 1024 (Some 0)) in
  Transcriber.in_segment seg_before_natural_flush = true
  /\ Transcriber.keep_samples params_short seg_before_natural_flush false = 1824%nat
  /\ Transcriber.min_segment_samples params_short = 512%nat
  /\ segment_events (Transcriber.stdout (Transcriber.io st')) = []
  /\ Transcriber.stderr (Transcriber.io st') = [Transcriber.ErrWhisperFullFailed 0 true]
  /\ segment_events (Transcriber.stdout (Transcriber.io run)) = []
  /\ Transcriber.stderr (Transcriber.io run) = [Transcriber.ErrWhisperFullFailed 0 true]
  /\ map (fun c : Transcriber.whisper_full_params * list float => length c.2)
         (Transcriber.decode_log (Transcriber.io run)) = [1824%nat].
Proof.
  cbn zeta. repeat split; vm_compute; reflexivity.
Qed.

(** ** Numbering of partial and final lines *)

Section TraceFacts.
Context `{FloatOps}.
Import Transcriber.
Implicit Types (E : env) (p : vad_params) (st g : state) (s : seg_state).
Implicit Types (evs out rest : list segment_event) (e f : segment_event).
Implicit Types (log : list (whisper_full_params * list float)).

Lemma partial_seqs_cons_partial e evs :
  se_final e = false ->
  partial_seqs (e :: evs) = se_partial_seq e :: partial_seqs evs
  /\ final_seqs (e :: evs) = final_seqs evs.
Proof.
  intros He. unfold partial_seqs, final_seqs.
  rewrite filter_cons_True by done. rewrite filter_cons_False by congruence. done.
Qed.

Lemma partial_seqs_final e :
  se_final e = true -> partial_seqs [e] = [] /\ final_seqs [e] = [se_partial_seq e].
Proof.
  intros He. unfold partial_seqs, final_seqs.
  rewrite filter_cons_False by congruence. rewrite filter_cons_True by done. done.
Qed.

Lemma partial_seqs_app evs out :
  partial_seqs (evs ++ out) = partial_seqs evs ++ partial_seqs out.
Proof. unfold partial_seqs. by rewrite filter_app, fmap_app. Qed.

Lemma final_seqs_app evs out : final_seqs (evs ++ out) = final_seqs evs ++ final_seqs out.
Proof. unfold final_seqs. by rewrite filter_app, fmap_app. Qed.

Lemma decode_succeeded_app E log more (i : nat) :
  (i < length log)%nat -> decode_succeeded E (log ++ more) i = decode_succeeded E log i.
Proof. intros Hi. unfold decode_succeeded. by rewrite lookup_app_l. Qed.

Lemma decode_succeeded_last E log c :
  decode_succeeded E (log ++ [c]) (length log)
  = match whisper_full E (length log) c.1 c.2 with Some _ => true | None => false end.
Proof.
  unfold decode_succeeded. rewrite lookup_app_r by lia. by rewrite Nat.sub_diag.
Qed.

Lemma decodes_succeed_logged E log (i : nat) :
  decodes_succeed E -> (i < length log)%nat -> decode_succeeded E log i = true.
Proof.
  intros Hok Hi. unfold decode_succeeded.
  destruct (lookup_lt_is_Some_2 log i Hi) as [c ->].
  destruct (whisper_full E i c.1 c.2) eqn:Hw; [done | by apply Hok in Hw].
Qed.

Lemma successful_partials_S E log (d0 k : nat) :
  successful_partials E log d0 (S k)
  = successful_partials E log d0 k
    ++ (if decode_succeeded E log (d0 + k) then [Z.of_nat k] else []).
Proof.
  unfold successful_partials. rewrite seq_S, filter_app, fmap_app. f_equal.
  cbn [Nat.add]. rewrite filter_cons, filter_nil.
  destruct (decode_succeeded E log (d0 + k)); by destruct (decide _).
Qed.

Lemma successful_partials_ext E log log' (d0 k : nat) :
  (forall i : nat, (i < k)%nat ->
     decode_succeeded E log' (d0 + i) = decode_succeeded E log (d0 + i)) ->
  successful_partials E log' d0 k = successful_partials E log d0 k.
Proof.
  induction k as [| k IH]; intros Hext; [done |].
  rewrite !successful_partials_S, IH by (intros i Hi; apply Hext; lia).
  by rewrite (Hext k) by lia.
Qed.

(** The numbers of the successful partial decodes: increasing, below the
    number of decodes made, and all of them when every decode succeeds. *)
Lemma successful_partials_facts E log (d0 k : nat) :
  StronglySorted Z.lt (successful_partials E log d0 k)
  /\ Forall (fun x => 0 <= x < Z.of_nat k) (successful_partials E log d0 k)
  /\ (length (successful_partials E log d0 k) <= k)%nat
  /\ ((forall i : nat, (i < k)%nat -> decode_succeeded E log (d0 + i) = true) ->
      successful_partials E log d0 k = Z.of_nat <$> seq 0 k).
Proof.
  induction k as [| k (Hsorted & Hbound & Hlen & Hall)].
  { split; [constructor | split; [constructor | split; [done | done]]]. }
  rewrite successful_partials_S.
  split; [| split; [| split]].
  - apply StronglySorted_app_2; [| done |].
    + intros x1 x2 Hx1 Hx2. rewrite Forall_forall in Hbound. apply Hbound in Hx1.
      destruct (decode_succeeded E log (d0 + k)).
      * apply list_elem_of_singleton in Hx2. lia.
      * by apply elem_of_nil in Hx2.
    + destruct (decode_succeeded E log (d0 + k)); repeat constructor.
  - apply Forall_app. split.
    + eapply Forall_impl; [exact Hbound |]. cbn. lia.
    + destruct (decode_succeeded E log (d0 + k)); repeat constructor; lia.
  - rewrite length_app. destruct (decode_succeeded E log (d0 + k)); cbn; lia.
  - intros Hok. rewrite Hall by (intros i Hi; apply Hok; lia).
    rewrite (Hok k) by lia. by rewrite seq_S, fmap_app.
Qed.

Lemma utterance_trace_same E (lines0 : list segment_event) (d0 : nat) st st' (k : nat) evs :
  partial_sequence (seg st') = partial_sequence (seg st) ->
  decode_log (io st') = decode_log (io st) ->
  segment_events (stdout (io st')) = segment_events (stdout (io st)) ->
  utterance_trace E lines0 d0 st k evs -> utterance_trace E lines0 d0 st' k evs.
Proof. unfold utterance_trace. by intros -> -> ->. Qed.

(** A decode of audio that is not empty logs one call; it prints one line if
    the call returns 0 and none otherwise. *)
Lemma emit_transcription_trace E p st audio si start fin avg ps :
  audio <> [] ->
  let st' := emit_transcription E p st audio si start fin avg ps in
  let d := length (decode_log (io st)) in
  seg st' = seg st
  /\ exists c out,
       decode_log (io st') = decode_log (io st) ++ [c]
       /\ c.2 = audio
       /\ segment_events (stdout (io st')) = segment_events (stdout (io st)) ++ out
       /\ (decode_succeeded E (decode_log (io st')) d = false -> out = [])
       /\ (decode_succeeded E (decode_log (io st')) d = true ->
           exists e, out = [e] /\ se_final e = fin /\ se_partial_seq e = ps).
Proof.
  intros Haudio.
  destruct (emit_transcription_spec E p st audio si start fin avg ps Haudio)
    as (Hseg & _ & _ & Hlog & _ & _ & Hnone & Hsome).
  cbn zeta in *. split; [exact Hseg |].
  rewrite Hlog, decode_succeeded_last. cbn [fst snd].
  destruct (whisper_full E _ _ audio) as [segs |] eqn:Hanswer.
  - destruct Hsome as (e & He & Hfin & Hps & _); [done |].
    eexists _, [e]. repeat split; try done. intros _. by exists e.
  - eexists _, []. rewrite app_nil_r. repeat split; try done. by apply Hnone.
Qed.

(** The partial decode of a frame extends the trace by one decode when it is
    made. *)
Lemma maybe_emit_partial_trace E p (lines0 : list segment_event) (d0 : nat) st (k : nat) evs :
  current_segment (seg st) <> [] ->
  utterance_trace E lines0 d0 st k evs ->
  exists (k' : nat) evs',
    utterance_trace E lines0 d0 (maybe_emit_partial E p st) k' evs'.
Proof.
  intros Hbuf (Hev & Hk & Hlen & Hfin & Hps). unfold maybe_emit_partial.
  destruct (_ && _ && _); [| by exists k, evs].
  match goal with
  | |- context [emit_transcription E p st ?a ?si ?start ?fin ?avg ?ps] =>
      destruct (emit_transcription_trace E p st a si start fin avg ps Hbuf)
        as (Hseg & c & out & Hlog & _ & Hout & Hfail & Hok)
  end.
  cbn zeta in *. exists (S k), (evs ++ out). unfold utterance_trace.
  cbn [seg io put_seg partial_emitted partial_sequence]. rewrite Hseg.
  split; [by rewrite Hout, Hev, app_assoc |].
  split; [rewrite Hk; lia |].
  split; [rewrite Hlog, length_app; cbn; lia |].
  rewrite final_seqs_app, partial_seqs_app, successful_partials_S, Hfin, Hps.
  rewrite Hlen in Hfail, Hok.
  assert (Hold : successful_partials E (decode_log (io st) ++ [c]) d0 k
                 = successful_partials E (decode_log (io st)) d0 k).
  { apply successful_partials_ext. intros i Hi. apply decode_succeeded_app. lia. }
  rewrite Hlog in *. rewrite Hold.
  destruct (decode_succeeded E (decode_log (io st) ++ [c]) (d0 + k)).
  - destruct (Hok eq_refl) as (e & -> & He & Hq).
    destruct (partial_seqs_cons_partial e [] He) as [-> ->]. rewrite Hq, Hk. done.
  - by rewrite (Hfail eq_refl).
Qed.

Lemma keep_samples_empty p s forced :
  current_segment s = [] -> keep_samples p s forced = 0%nat.
Proof.
  intros Hnil. unfold keep_samples. rewrite Hnil. cbn [length].
  destruct forced; [done |].
  match goal with |- context [(?a <? ?b)%nat] => destruct (Nat.ltb_spec a b) end;
    [done | lia].
Qed.

(** The flush of an active utterance after [k] partial decodes. *)
Lemma flush_segment_trace E p (lines0 : list segment_event) (d0 : nat) g (k : nat) evs forced :
  in_segment (seg g) = true ->
  utterance_trace E lines0 d0 g k evs ->
  let st' := flush_segment E p g forced in
  let keep := keep_samples p (seg g) forced in
  let log := decode_log (io st') in
  exists fin,
    segment_events (stdout (io st')) = lines0 ++ evs ++ fin
    /\ partial_seqs fin = []
    /\ (forall i : nat, (i < d0 + k)%nat ->
          decode_succeeded E log i = decode_succeeded E (decode_log (io g)) i)
    /\ ((keep < min_segment_samples p)%nat \/ keep = 0%nat ->
        fin = [] /\ log = decode_log (io g))
    /\ ((min_segment_samples p <= keep)%nat -> (0 < keep)%nat ->
        length log = (d0 + k + 1)%nat
        /\ final_seqs fin
           = if decode_succeeded E log (d0 + k) then [Z.of_nat k] else []).
Proof.
  intros Hin (Hev & Hk & Hlen & Hfin & Hps). cbn zeta.
  pose proof (keep_samples_empty p (seg g) forced) as Hzero.
  set (keep := keep_samples p (seg g) forced) in *.
  assert (Hnone : forall st',
            decode_log (io st') = decode_log (io g) ->
            segment_events (stdout (io st')) = segment_events (stdout (io g)) ->
            (min_segment_samples p <= keep -> 0 < keep -> False)%nat ->
            exists fin,
              segment_events (stdout (io st')) = lines0 ++ evs ++ fin
              /\ partial_seqs fin = []
              /\ (forall i : nat, (i < d0 + k)%nat ->
                    decode_succeeded E (decode_log (io st')) i
                    = decode_succeeded E (decode_log (io g)) i)
              /\ ((keep < min_segment_samples p)%nat \/ keep = 0%nat ->
                  fin = [] /\ decode_log (io st') = decode_log (io g))
              /\ ((min_segment_samples p <= keep)%nat -> (0 < keep)%nat ->
                  length (decode_log (io st')) = (d0 + k + 1)%nat
                  /\ final_seqs fin
                     = if decode_succeeded E (decode_log (io st')) (d0 + k)
                       then [Z.of_nat k] else [])).
  { intros st' Hlog Hse Habs. exists []. rewrite Hlog, Hse, app_nil_r.
    split; [done | split; [done | split; [done | split; [done |]]]].
    intros Hmin Hpos. by destruct (Habs Hmin Hpos). }
  unfold flush_segment. fold keep. rewrite Hin. cbn [negb orb].
  case_bool_decide as Hbuf.
  { apply Hnone; [done | done |]. rewrite (Hzero Hbuf). lia. }
  destruct (Nat.ltb_spec keep (min_segment_samples p)) as [Hshort | Hlong].
  { destruct (debug_print_frame p g (DbgDiscardShort keep) ltac:(done)) as (Hd & _ & Hout).
    unfold outside_dictionary in Hd. injection Hd as _ _ Hlog _ _ _ _.
    apply Hnone; cbn [io put_seg]; [done | by rewrite Hout | lia]. }
  destruct (decide (keep = 0%nat)) as [Hk0 | Hpos].
  { replace (take keep (current_segment (seg g))) with (@nil float)
      by (by rewrite Hk0).
    rewrite emit_transcription_empty.
    apply Hnone; [done | done | lia]. }
  assert (Haudio : take keep (current_segment (seg g)) <> []).
  { intros Hnil. apply (f_equal length) in Hnil. rewrite length_take in Hnil.
    cbn [length] in Hnil. destruct (current_segment (seg g)); [done |].
    cbn [length] in Hnil. lia. }
  match goal with
  | |- context [emit_transcription E p g ?a ?si ?start ?fin ?avg ?ps] =>
      destruct (emit_transcription_trace E p g a si start fin avg ps Haudio)
        as (_ & c & out & Hlog & _ & Hout & Hfail & Hok)
  end.
  cbn zeta in *. cbn [io put_seg]. exists out.
  rewrite Hlen in Hfail, Hok. rewrite Hlog in *.
  split; [by rewrite Hout, Hev, app_assoc |].
  assert (Hcases : partial_seqs out = []
                   /\ final_seqs out
                      = if decode_succeeded E (decode_log (io g) ++ [c]) (d0 + k)
                        then [Z.of_nat k] else []).
  { destruct (decode_succeeded E (decode_log (io g) ++ [c]) (d0 + k)).
    - destruct (Hok eq_refl) as (f & -> & Hf & Hq).
      destruct (partial_seqs_final f Hf) as [-> ->]. by rewrite Hq, Hk.
    - by rewrite (Hfail eq_refl). }
  destruct Hcases as [Hp Hf].
  split; [exact Hp |].
  split; [intros i Hi; apply decode_succeeded_app; lia |].
  split; [intros [? | ?]; lia |].
  intros _ _. split; [rewrite length_app; cbn; lia | exact Hf].
Qed.

Lemma maybe_flush_cases E p st prob :
  maybe_flush E p st prob = st
  \/ maybe_flush E p st prob
     = flush_segment E p (debug_print p st (DbgForcedFlush (segment_index (seg st)))) true
  \/ maybe_flush E p st prob
     = flush_segment E p
         (debug_print p st (DbgFlushAfterSilence (segment_index (seg st)) prob)) false.
Proof.
  unfold maybe_flush. destruct (_ <=? _); [by right; left |].
  destruct (_ && _); [by right; right | by left].
Qed.

(** A frame met while active joins the segment; the trace is extended by the
    partial decode. *)
Lemma join_frame_trace E p (lines0 : list segment_event) (d0 : nat) st (k : nat) evs prob :
  in_segment (seg st) = true ->
  (vad_chunk_samples <= length (pending_samples (seg st)))%nat ->
  utterance_trace E lines0 d0 st k evs ->
  in_segment (seg (join_frame E p st prob)) = true
  /\ exists (k' : nat) evs', utterance_trace E lines0 d0 (join_frame E p st prob) k' evs'.
Proof.
  intros Hin Hlen Htrace. unfold join_frame. cbn zeta.
  destruct (after_vad_frame p st prob) as (Hseg & _ & Hse & _).
  set (st1 := put_seg (after_vad p st prob) _).
  assert (Hbuf1 : current_segment (seg st1) <> []).
  { subst st1. cbn. rewrite Hseg. cbn [chunk_buffer advance_processed pop_chunk].
    intros Hnil. apply app_eq_nil in Hnil as [_ Htake].
    apply (f_equal length) in Htake. rewrite length_take in Htake.
    change (@length float []) with 0%nat in Htake.
    assert (0 < vad_chunk_samples)%nat by (unfold vad_chunk_samples; lia). lia. }
  assert (Hlog1 : decode_log (io st1) = decode_log (io st)).
  { subst st1. unfold after_vad. cbn. by destruct (emit_vad_events p). }
  assert (Htrace1 : utterance_trace E lines0 d0 st1 k evs).
  { eapply utterance_trace_same; [| exact Hlog1 | | exact Htrace].
    - subst st1. cbn. by rewrite Hseg.
    - subst st1. cbn. exact Hse. }
  destruct (maybe_emit_partial_shape E p st1) as (Hin2 & _).
  split.
  - cbn zeta in Hin2. rewrite Hin2. subst st1. cbn. by rewrite Hseg.
  - by apply (maybe_emit_partial_trace E p lines0 d0 st1 k evs).
Qed.

Lemma debug_print_trace E p (lines0 : list segment_event) (d0 : nat) st l (k : nat) evs :
  (forall r c, l <> WarnBeamSizeClamp r c) ->
  utterance_trace E lines0 d0 st k evs ->
  utterance_trace E lines0 d0 (debug_print p st l) k evs
  /\ in_segment (seg (debug_print p st l)) = in_segment (seg st).
Proof.
  intros Hl Htrace. destruct (debug_print_frame p st l Hl) as (Hd & _ & Hout).
  unfold outside_dictionary in Hd. injection Hd as Hseg _ Hlog _ _ _ _.
  split; [| by rewrite Hseg].
  eapply utterance_trace_same; [by rewrite Hseg | exact Hlog | by rewrite Hout | exact Htrace].
Qed.

(** An action that leaves the utterance active extends its trace. *)
Lemma step_trace E p (lines0 : list segment_event) (d0 : nat) st st' (k : nat) evs :
  in_segment (seg st) = true -> in_segment (seg st') = true -> step E p st st' ->
  utterance_trace E lines0 d0 st k evs ->
  exists (k' : nat) evs', utterance_trace E lines0 d0 st' k' evs'.
Proof.
  intros Hin Hin' Hstep Htrace.
  destruct Hstep as [st si ps fin force | st | st pcm | st samples | st Hlen | st forced
                     | st a st1 Hfetch | st e Hnseg Hnvad].
  - pose proof (reload_frame E p st si ps fin force) as Hre.
    unfold outside_dictionary in Hre. injection Hre as Hseg _ Hlog _ _ Hse _.
    exists k, evs. eapply utterance_trace_same; [by rewrite Hseg | done | done | done].
  - done.
  - exists k, evs. by eapply utterance_trace_same.
  - exists k, evs. by eapply utterance_trace_same.
  - rewrite process_chunk_unfold in Hin' |- *.
    destruct (vad_infer E _ _) as [prob |].
    2:{ exists k, evs. by eapply utterance_trace_same. }
    cbn zeta in Hin' |- *. rewrite Hin in Hin' |- *. cbn [negb andb] in Hin' |- *.
    destruct (join_frame_trace E p lines0 d0 st k evs prob Hin Hlen Htrace)
      as (Hjoin & k' & evs' & Htrace').
    unfold join_frame in Hjoin, Htrace'. cbn zeta in Hjoin, Htrace'.
    destruct (maybe_flush_cases E p
                (maybe_emit_partial E p
                   (put_seg (after_vad p st prob)
                      (append_chunk p (seg (after_vad p st prob)) prob))) prob)
      as [Heq | [Heq | Heq]]; rewrite Heq in Hin' |- *.
    + by exists k', evs'.
    + destruct (flush_segment_shape E p (debug_print p
                  (maybe_emit_partial E p
                     (put_seg (after_vad p st prob)
                        (append_chunk p (seg (after_vad p st prob)) prob)))
                  (DbgForcedFlush (segment_index (seg
                     (maybe_emit_partial E p
                        (put_seg (after_vad p st prob)
                           (append_chunk p (seg (after_vad p st prob)) prob))))))) true)
        as (Hoff & _). cbn zeta in Hoff. congruence.
    + destruct (flush_segment_shape E p (debug_print p
                  (maybe_emit_partial E p
                     (put_seg (after_vad p st prob)
                        (append_chunk p (seg (after_vad p st prob)) prob)))
                  (DbgFlushAfterSilence (segment_index (seg
                     (maybe_emit_partial E p
                        (put_seg (after_vad p st prob)
                           (append_chunk p (seg (after_vad p st prob)) prob))))) prob))
                  false)
        as (Hoff & _). cbn zeta in Hoff. congruence.
  - destruct (flush_segment_shape E p st forced) as (Hoff & _). cbn zeta in Hoff.
    congruence.
  - destruct (mic_queue_frame _ _ _ _ Hfetch) as (tail & t & ->).
    exists k, evs. by eapply utterance_trace_same.
  - exists k, evs.
    apply (utterance_trace_same E lines0 d0 st (print st e) k evs);
      [done | done | | exact Htrace].
    rewrite segment_events_print. destruct e; rewrite ?app_nil_r; try done.
    by destruct (Hnseg s).
Qed.

Lemma utterance_run_trace E p (lines0 : list segment_event) (d0 : nat) st st' :
  utterance_run E p st st' -> in_segment (seg st') = true ->
  forall (k : nat) evs,
    utterance_trace E lines0 d0 st k evs ->
    exists (k' : nat) evs', utterance_trace E lines0 d0 st' k' evs'.
Proof.
  induction 1 as [st | st st1 st2 Hin Hstep Hrun IH]; intros Hin' k evs Htrace.
  - by exists k, evs.
  - destruct (in_segment (seg st1)) eqn:Hin1.
    + destruct (step_trace E p lines0 d0 st st1 k evs Hin Hin1 Hstep Htrace)
        as (k1 & evs1 & Htrace1).
      by apply (IH Hin' k1 evs1).
    + inversion Hrun; congruence.
Qed.

(** The frame that opens an utterance prints no [segment] line and sets the
    counter to 0. *)
Lemma process_chunk_opens E p st :
  in_segment (seg st) = false -> in_segment (seg (process_chunk E p st)) = true ->
  partial_sequence (seg (process_chunk E p st)) = 0
  /\ segment_events (stdout (io (process_chunk E p st))) = segment_events (stdout (io st)).
Proof.
  intros Hin. rewrite process_chunk_unfold.
  destruct (vad_infer E _ _) as [prob |]; [| cbn; congruence].
  cbn zeta. rewrite Hin. cbn [negb andb].
  destruct (after_vad_frame p st prob) as (Hseg & _ & Hse & _).
  destruct (f_ge prob (start_threshold p)).
  - intros _.
    destruct (start_segment_frame p (after_vad p st prob) prob
                (Z.quot ((processed_samples_total (seg st) + Z.of_nat vad_chunk_samples)
                         * 1000) sample_rate)) as (_ & Hq & _ & _ & Hse' & _).
    cbn zeta in *. by rewrite Hq, Hse', Hse.
  - cbn. rewrite Hseg. cbn. congruence.
Qed.

(** The frame that opens an utterance makes no decode. *)
Lemma process_chunk_opens_log E p st :
  in_segment (seg st) = false -> in_segment (seg (process_chunk E p st)) = true ->
  decode_log (io (process_chunk E p st)) = decode_log (io st).
Proof.
  intros Hin. rewrite process_chunk_unfold.
  destruct (vad_infer E _ _) as [prob |]; [| cbn; congruence].
  cbn zeta. rewrite Hin. cbn [negb andb].
  destruct (after_vad_frame p st prob) as (Hseg & _).
  destruct (f_ge prob (start_threshold p)).
  - intros _. unfold start_segment, debug_print, after_vad.
    destruct (debug p), (emit_vad_events p); done.
  - cbn. rewrite Hseg. cbn. congruence.
Qed.

(** The states in which the active utterance is flushed carry its trace. *)
Lemma flush_point_trace E p (lines0 : list segment_event) (d0 : nat) st g forced (k : nat) evs :
  in_segment (seg st) = true -> flush_point E p st g forced ->
  utterance_trace E lines0 d0 st k evs ->
  in_segment (seg g) = true
  /\ exists (k' : nat) evs', utterance_trace E lines0 d0 g k' evs'.
Proof.
  intros Hin Hpoint Htrace.
  destruct Hpoint as [forced | prob Hlen Hvad | prob Hlen Hvad].
  - split; [done | by exists k, evs].
  - destruct (join_frame_trace E p lines0 d0 st k evs prob Hin Hlen Htrace)
      as (Hjoin & k' & evs' & Htrace').
    destruct (debug_print_trace E p lines0 d0 (join_frame E p st prob)
                (DbgForcedFlush (segment_index (seg (join_frame E p st prob))))
                k' evs' ltac:(done) Htrace') as [Htrace2 Hin2].
    split; [by rewrite Hin2 | by exists k', evs'].
  - destruct (join_frame_trace E p lines0 d0 st k evs prob Hin Hlen Htrace)
      as (Hjoin & k' & evs' & Htrace').
    destruct (debug_print_trace E p lines0 d0 (join_frame E p st prob)
                (DbgFlushAfterSilence (segment_index (seg (join_frame E p st prob))) prob)
                k' evs' ltac:(done) Htrace') as [Htrace2 Hin2].
    split; [by rewrite Hin2 | by exists k', evs'].
Qed.

(** The actions that end an active utterance. *)
Lemma step_closes E p st st' :
  in_segment (seg st) = true -> step E p st st' -> in_segment (seg st') = false ->
  st' = reset_segment_state st
  \/ exists g forced, flush_point E p st g forced /\ st' = flush_segment E p g forced.
Proof.
  intros Hin Hstep Hoff.
  destruct Hstep as [st si ps fin force | st | st pcm | st samples | st Hlen | st forced
                     | st a st1 Hfetch | st e Hnseg Hnvad].
  - pose proof (reload_frame E p st si ps fin force) as Hre.
    unfold outside_dictionary in Hre. injection Hre as Hseg _ _ _ _ _ _.
    rewrite Hseg in Hoff. congruence.
  - by left.
  - unfold enqueue_padded in Hoff. cbn in Hoff. congruence.
  - cbn in Hoff. congruence.
  - right. rewrite process_chunk_unfold in Hoff |- *.
    destruct (vad_infer E _ _) as [prob |] eqn:Hvad; [| cbn in Hoff; congruence].
    cbn zeta in Hoff |- *. rewrite Hin in Hoff |- *. cbn [negb andb] in Hoff |- *.
    change (maybe_emit_partial E p
              (put_seg (after_vad p st prob)
                 (append_chunk p (seg (after_vad p st prob)) prob)))
      with (join_frame E p st prob) in Hoff |- *.
    destruct (maybe_flush_cases E p (join_frame E p st prob) prob)
      as [Heq | [Heq | Heq]]; rewrite Heq in Hoff |- *.
    + destruct (maybe_emit_partial_shape E p
                  (put_seg (after_vad p st prob)
                     (append_chunk p (seg (after_vad p st prob)) prob))) as (Hin2 & _).
      destruct (after_vad_frame p st prob) as (Hseg & _).
      cbn zeta in Hin2. unfold join_frame in Hoff. cbn zeta in Hoff.
      rewrite Hin2 in Hoff. cbn in Hoff. rewrite Hseg in Hoff. cbn in Hoff. congruence.
    + eexists _, true. split; [by apply flush_over_max | done].
    + eexists _, false. split; [by apply flush_after_silence | done].
  - right. exists st, forced. split; [constructor | done].
  - destruct (mic_queue_frame _ _ _ _ Hfetch) as (tail & t & ->).
    cbn in Hoff. congruence.
  - cbn in Hoff. congruence.
Qed.

End TraceFacts.

Section UtteranceSpec.
Context `{FloatOps}.
Import Transcriber.
Implicit Types (E : env) (p : vad_params) (st : state) (s : seg_state).

(** C2 (amended).  Take an utterance from the frame that opens it to the call
    of [flush_segment] that ends it, in any mode, and let [k] be the number of
    partial decodes made for it, which is what the counter [partial_sequence]
    holds at the flush.  The lines with [final=false] carry, in increasing
    order, the numbers among 0 .. [k-1] of the partial decodes that
    succeeded: a failed partial decode prints nothing and uses up its number.
    No line with [final=true] is printed before the flush.  The flush prints
    no such line, and makes no decode, when it keeps fewer than
    [min_segment_samples] samples or none; otherwise it makes one decode and
    prints exactly one line with [final=true], carrying [k], if that decode
    succeeds, and none if it fails.  So when every decode succeeds the
    partial lines carry 0, 1, ..., [k-1] and an utterance that is not
    discarded has exactly one final line, whose [partial_seq] is the number
    of partial lines.  The only other way an utterance ends is the reset of a
    job start, which prints nothing. *)
Theorem utterance_partial_and_final_numbering E p st0 st g forced :
  in_segment (seg st0) = false ->
  in_segment (seg (process_chunk E p st0)) = true ->
  utterance_run E p (process_chunk E p st0) st ->
  in_segment (seg st) = true ->
  flush_point E p st g forced ->
  let st' := flush_segment E p g forced in
  let keep := keep_samples p (seg g) forced in
  let d0 := length (decode_log (io st0)) in
  let log := decode_log (io st') in
  exists (k : nat) evs,
    segment_events (stdout (io st')) = segment_events (stdout (io st0)) ++ evs
    /\ in_segment (seg st') = false
    /\ partial_sequence (seg g) = Z.of_nat k
    /\ partial_seqs evs = successful_partials E log d0 k
    /\ StronglySorted Z.lt (partial_seqs evs)
    /\ Forall (fun x => 0 <= x < Z.of_nat k) (partial_seqs evs)
    /\ (length (partial_seqs evs) <= k)%nat
    /\ (length (final_seqs evs) <= 1)%nat
    /\ (forall x, x ∈ final_seqs evs -> x = Z.of_nat k)
    /\ ((keep < min_segment_samples p)%nat \/ keep = 0%nat ->
        final_seqs evs = [] /\ length log = (d0 + k)%nat)
    /\ ((min_segment_samples p <= keep)%nat -> (0 < keep)%nat ->
        length log = (d0 + k + 1)%nat
        /\ final_seqs evs
           = if decode_succeeded E log (d0 + k) then [Z.of_nat k] else [])
    /\ (decodes_succeed E ->
        partial_seqs evs = Z.of_nat <$> seq 0 k
        /\ ((min_segment_samples p <= keep)%nat -> (0 < keep)%nat ->
            final_seqs evs = [Z.of_nat (length (partial_seqs evs))]))
    /\ (exists evs1,
          segment_events (stdout (io st)) = segment_events (stdout (io st0)) ++ evs1
          /\ final_seqs evs1 = []
          /\ StronglySorted Z.lt (partial_seqs evs1))
    /\ (forall st2, step E p st st2 -> in_segment (seg st2) = false ->
          (st2 = reset_segment_state st /\ io st2 = io st)
          \/ exists g2 forced2,
               flush_point E p st g2 forced2 /\ st2 = flush_segment E p g2 forced2).
Proof.
  intros Hidle Hopen Hrun Hin Hpoint. cbn zeta.
  destruct (process_chunk_opens E p st0 Hidle Hopen) as [Hq Hse].
  pose proof (process_chunk_opens_log E p st0 Hidle Hopen) as Hlog0.
  set (lines0 := segment_events (stdout (io st0))) in *.
  set (d0 := length (decode_log (io st0))) in *.
  assert (Htrace0 : utterance_trace E lines0 d0 (process_chunk E p st0) 0 []).
  { unfold utterance_trace. rewrite Hse, Hq, Hlog0, app_nil_r. subst d0.
    repeat split; done. }
  destruct (utterance_run_trace E p lines0 d0 _ _ Hrun Hin 0%nat [] Htrace0)
    as (k1 & evs1 & Htrace1).
  destruct (flush_point_trace E p lines0 d0 st g forced k1 evs1 Hin Hpoint Htrace1)
    as (Hin_g & k & evs_g & Htrace_g).
  destruct (flush_segment_trace E p lines0 d0 g k evs_g forced Hin_g Htrace_g)
    as (fin & Hev & Hpfin & Hsame & Hshort & Hlong).
  cbn zeta in Hev, Hsame, Hshort, Hlong.
  destruct Htrace_g as (_ & Hk & Hlen_g & Hfin_g & Hps_g).
  set (keep := keep_samples p (seg g) forced) in *.
  set (log := decode_log (io (flush_segment E p g forced))) in *.
  assert (Hps : partial_seqs (evs_g ++ fin) = successful_partials E log d0 k).
  { rewrite partial_seqs_app, Hpfin, app_nil_r, Hps_g. symmetry.
    apply successful_partials_ext. intros i Hi. apply Hsame. lia. }
  assert (Hfs : final_seqs (evs_g ++ fin) = final_seqs fin)
    by (by rewrite final_seqs_app, Hfin_g).
  destruct (successful_partials_facts E log d0 k) as (Hsorted & Hbound & Hcount & Hall).
  assert (Hcases : ((keep < min_segment_samples p)%nat \/ keep = 0%nat)
                   \/ ((min_segment_samples p <= keep)%nat /\ (0 < keep)%nat)) by lia.
  assert (Hfinal : final_seqs fin = [] \/ final_seqs fin = [Z.of_nat k]).
  { destruct Hcases as [Hc | [Hmin Hpos]].
    - destruct (Hshort Hc) as [-> _]. by left.
    - destruct (Hlong Hmin Hpos) as [_ ->].
      destruct (decode_succeeded E log (d0 + k)); [by right | by left]. }
  assert (Hloglen : (d0 + k <= length log)%nat).
  { destruct Hcases as [Hc | [Hmin Hpos]].
    - destruct (Hshort Hc) as [_ ->]. lia.
    - destruct (Hlong Hmin Hpos) as [-> _]. lia. }
  exists k, (evs_g ++ fin). rewrite Hps, Hfs.
  split; [exact Hev |].
  split; [apply flush_segment_shape |].
  split; [exact Hk |].
  split; [done |].
  split; [exact Hsorted |].
  split; [exact Hbound |].
  split; [exact Hcount |].
  split; [destruct Hfinal as [-> | ->]; cbn; lia |].
  split.
  { intros x Hx. destruct Hfinal as [Hf | Hf]; rewrite Hf in Hx.
    - by apply elem_of_nil in Hx.
    - by apply list_elem_of_singleton in Hx. }
  split.
  { intros Hc. destruct (Hshort Hc) as [-> Hl]. split; [done |]. by rewrite Hl. }
  split; [exact Hlong |].
  split.
  { intros Hok.
    assert (Hpart : successful_partials E log d0 k = Z.of_nat <$> seq 0 k).
    { apply Hall. intros i Hi. apply decodes_succeed_logged; [done | lia]. }
    split; [exact Hpart |]. intros Hmin Hpos.
    destruct (Hlong Hmin Hpos) as [Hl ->].
    rewrite decodes_succeed_logged by (done || lia).
    by rewrite Hpart, length_fmap, length_seq. }
  split.
  { destruct Htrace1 as (Hev1 & _ & _ & Hfin1 & Hps1).
    exists evs1. split; [exact Hev1 | split; [exact Hfin1 |]].
    rewrite Hps1. apply successful_partials_facts. }
  intros st2 Hstep Hoff.
  destruct (step_closes E p st st2 Hin Hstep Hoff) as [-> | Hflush]; [by left | by right].
Qed.

End UtteranceSpec.

Lemma env_voiced_decodes_succeed : decodes_succeed env_voiced.
Proof. intros n w audio. cbn. discriminate. Qed.

Lemma utterance_partial_and_final_numbering_witness :
  let '(queued, st1, st2, st3, st4) := utterance_states env_voiced params_short_partials in
  (exists (k : nat) evs,
     segment_events (Transcriber.stdout (Transcriber.io st4)) = [] ++ evs
     /\ Transcriber.partial_sequence (Transcriber.seg st3) = Z.of_nat k
     /\ partial_seqs evs = Z.of_nat <$> seq 0 k
     /\ final_seqs evs = [Z.of_nat (length (partial_seqs evs))])
  /\ partial_seqs (segment_events (Transcriber.stdout (Transcriber.io st4))) = [0; 1]
  /\ final_seqs (segment_events (Transcriber.stdout (Transcriber.io st4))) = [2].
Proof.
  unfold utterance_states. cbn zeta.
  set (queued := Transcriber.enqueue_padded state0 (tone 3)).
  set (st1 := Transcriber.process_chunk env_voiced params_short_partials queued).
  set (st2 := Transcriber.process_chunk env_voiced params_short_partials st1).
  set (st3 := Transcriber.process_chunk env_voiced params_short_partials st2).
  set (st4 := Transcriber.flush_segment env_voiced params_short_partials st3 true).
  assert (Hrun : utterance_run env_voiced params_short_partials st1 st3).
  { eapply utterance_step; [vm_compute; reflexivity | |].
    { apply (step_chunk env_voiced params_short_partials st1). vm_compute. lia. }
    eapply utterance_step; [vm_compute; reflexivity | |].
    { apply (step_chunk env_voiced params_short_partials st2). vm_compute. lia. }
    apply utterance_pause. }
  destruct (utterance_partial_and_final_numbering env_voiced params_short_partials
              queued st3 st3 true)
    as (k & evs & Hevs & _ & Hk & _ & _ & _ & _ & _ & _ & _ & _ & Hexact & _).
  - reflexivity.
  - vm_compute. reflexivity.
  - exact Hrun.
  - vm_compute. reflexivity.
  - apply flush_at_end.
  - destruct (Hexact env_voiced_decodes_succeed) as [Hpart Hlast].
    split; [| split; vm_compute; reflexivity].
    exists k, evs. split; [exact Hevs | split; [exact Hk | split; [exact Hpart |]]].
    apply Hlast; vm_compute; lia.
Defined.

(** C2 as stated fails, twice.  One voiced frame followed by the end of the
    input opens an utterance that is discarded as too short: no line with
    [final=true] is printed.  And when the first partial decode fails, the
    only partial line carries 1, not 0, and the final line carries 2 while
    one partial line was printed. *)
Lemma utterance_without_final_or_without_partial_zero :
  (let opened := Transcriber.process_pending_chunks env_voiced params_default
                   (Transcriber.enqueue_padded state0 (tone 1)) in
   let ended := Transcriber.run_offline env_voiced params_default state0 (tone 1) in
   Transcriber.in_segment (Transcriber.seg opened) = true
   /\ Transcriber.in_segment (Transcriber.seg ended) = false
   /\ Transcriber.stdout (Transcriber.io ended) = [Transcriber.EvVad 32 (Some 900) 512 16000]
   /\ final_seqs (segment_events (Transcriber.stdout (Transcriber.io ended))) = [])
  /\ (let '(_, _, _, _, st4) :=
        utterance_states env_first_decode_fails params_short_partials in
      partial_seqs (segment_events (Transcriber.stdout (Transcriber.io st4))) = [1]
      /\ final_seqs (segment_events (Transcriber.stdout (Transcriber.io st4))) = [2]).
Proof.
  split; [| split; vm_compute; reflexivity].
  split; [vm_compute; reflexivity |].
  split; [vm_compute; reflexivity |].
  split; vm_compute; reflexivity.
Qed.

(** ** The capture ring: windows and sessions *)

Section RingReads.
Context {sample : Type}.
Import Ring.
Implicit Types (a b : audio_async sample) (stream result : list sample).

Lemma callback_ring_ok a stream : ring_ok a -> ring_ok (callback a stream).
Proof.
  intros [Hpos Hlen]. destruct (m_running a) eqn:Hr.
  - destruct (callback_cursor a stream Hr) as [Hp Hl].
    destruct (callback_buffer a stream Hr Hpos) as (Hcap & _).
    cbn zeta in *. unfold ring_ok. rewrite Hp, Hl, Hcap. split.
    + apply Nat.mod_upper_bound. lia.
    + lia.
  - by rewrite callback_not_running.
Qed.

(** The number of samples [get] copies. *)
Lemma get_unfold a ms result t :
  m_dev_id_in a <> 0 -> m_running a = true ->
  0 <= m_sample_rate a < 2 ^ 31 ->
  0 <= (if ms <=? 0 then m_len_ms a else ms) < 2 ^ 31 ->
  ring_ok a ->
  let n := Nat.min (Z.to_nat (window_samples a ms)) (m_audio_len a) in
  let cap := length (m_audio a) in
  let s0 := ((m_audio_pos a + cap - n) mod cap)%nat in
  get_samples (get a ms result t)
  = if (cap <? s0 + n)%nat
    then take (cap - s0) (drop s0 (m_audio a)) ++ take (n - (cap - s0)) (m_audio a)
    else take n (drop s0 (m_audio a)).
Proof.
  intros Hdev Hr Hsr Hms [Hpos Hlen] n cap s0. unfold get, get_samples.
  destruct (Z.eqb_spec (m_dev_id_in a) 0) as [? | _]; [done |].
  rewrite Hr. cbn [negb fst snd].
  set (ms' := if ms <=? 0 then m_len_ms a else ms) in *.
  assert (Hw : wrap64 (wrap64 (m_sample_rate a) * wrap64 ms') / 1000 = window_samples a ms).
  { unfold window_samples, wrap64. fold ms'.
    rewrite (Z.mod_small (m_sample_rate a)) by lia.
    rewrite (Z.mod_small ms') by lia.
    rewrite Z.mod_small; [done |]. split; [nia |].
    assert (m_sample_rate a * ms' < 2 ^ 31 * 2 ^ 31) by nia. lia. }
  rewrite Hw.
  assert (Hwpos : 0 <= window_samples a ms).
  { unfold window_samples. fold ms'. apply Z.div_pos; [nia | lia]. }
  assert (Hn : (if Z.of_nat (m_audio_len a) <? window_samples a ms
                then m_audio_len a else Z.to_nat (window_samples a ms)) = n).
  { subst n. destruct (Z.ltb_spec (Z.of_nat (m_audio_len a)) (window_samples a ms)); lia. }
  rewrite Hn.
  assert (Hncap : (n <= cap)%nat) by (subst n cap; lia).
  assert (Hs0 : Z.to_nat (if Z.of_nat (m_audio_pos a) - Z.of_nat n <? 0
                          then Z.of_nat (m_audio_pos a) - Z.of_nat n + Z.of_nat cap
                          else Z.of_nat (m_audio_pos a) - Z.of_nat n) = s0).
  { subst s0. fold cap in Hpos.
    destruct (Z.ltb_spec (Z.of_nat (m_audio_pos a) - Z.of_nat n) 0).
    - rewrite Nat.mod_small by lia. lia.
    - rewrite mod_wrap_once by lia. lia. }
  fold cap. by rewrite Hs0.
Qed.

End RingReads.

Section RingWindow.
Context {sample : Type}.
Import Ring.
Implicit Types (a b : audio_async sample) (stream result : list sample).

Lemma get_window_spec a ms result t :
  m_dev_id_in a <> 0 -> m_running a = true ->
  0 <= m_sample_rate a < 2 ^ 31 ->
  0 <= (if ms <=? 0 then m_len_ms a else ms) < 2 ^ 31 ->
  ring_ok a ->
  let n := Nat.min (Z.to_nat (window_samples a ms)) (m_audio_len a) in
  let cap := length (m_audio a) in
  let out := get_samples (get a ms result t) in
  length out = n
  /\ (forall i, (i < n)%nat ->
        out !! i = m_audio a !! ((m_audio_pos a + cap - n + i) mod cap)%nat)
  /\ get_log (get a ms result t) = [].
Proof.
  intros Hdev Hr Hsr Hms Hok n cap out. subst out.
  rewrite (get_unfold a ms result t Hdev Hr Hsr Hms Hok). fold n cap.
  destruct Hok as [Hpos Hlen]. fold cap in Hpos, Hlen.
  assert (Hncap : (n <= cap)%nat) by (subst n; lia).
  set (s0 := ((m_audio_pos a + cap - n) mod cap)%nat).
  assert (Hs0 : (s0 < cap)%nat) by (apply Nat.mod_upper_bound; lia).
  assert (Hidx : forall i, (i < n)%nat ->
            ((m_audio_pos a + cap - n + i) mod cap
             = if (s0 + i <? cap) then s0 + i else s0 + i - cap)%nat).
  { intros i Hi. subst s0.
    destruct (Nat.lt_ge_cases (m_audio_pos a) n) as [Hlt | Hge].
    - rewrite (Nat.mod_small (m_audio_pos a + cap - n)) by lia.
      destruct (Nat.ltb_spec (m_audio_pos a + cap - n + i) cap).
      + apply Nat.mod_small. lia.
      + apply mod_wrap_once. lia.
    - rewrite (mod_wrap_once (m_audio_pos a + cap - n)) by lia.
      destruct (Nat.ltb_spec (m_audio_pos a + cap - n - cap + i) cap); [| lia].
      replace (m_audio_pos a + cap - n + i)%nat
        with (m_audio_pos a + cap - n - cap + i + 1 * cap)%nat by lia.
      rewrite Nat.Div0.mod_add. apply Nat.mod_small. lia. }
  split; [| split].
  - destruct (Nat.ltb_spec cap (s0 + n)).
    + rewrite length_app, !length_take, length_drop. fold cap. lia.
    + rewrite length_take, length_drop. fold cap. lia.
  - intros i Hi. rewrite (Hidx i Hi).
    destruct (Nat.ltb_spec cap (s0 + n)) as [Hwrap | Hfit].
    + destruct (Nat.ltb_spec (s0 + i) cap) as [Hlo | Hhi].
      * rewrite lookup_app_l by (rewrite length_take, length_drop; fold cap; lia).
        rewrite lookup_take_lt by lia. by rewrite lookup_drop.
      * rewrite lookup_app_r by (rewrite length_take, length_drop; fold cap; lia).
        rewrite length_take, length_drop. fold cap.
        rewrite lookup_take_lt by lia. f_equal. lia.
    + destruct (Nat.ltb_spec (s0 + i) cap) as [Hlo | Hhi]; [| lia].
      rewrite lookup_take_lt by lia. by rewrite lookup_drop.
  - unfold get, get_log.
    destruct (Z.eqb_spec (m_dev_id_in a) 0) as [? | _]; [done |]. by rewrite Hr.
Qed.

(** X1.  A [get] that is not refused returns the [n] most recent samples of
    the ring in order, where [n] is the smaller of the window and the valid
    length: sample [i] of the result is the ring slot [n - i] places before
    the write cursor, counted around the ring. *)
Theorem get_returns_most_recent_window a ms result t :
  m_dev_id_in a <> 0 -> m_running a = true ->
  0 <= m_sample_rate a < 2 ^ 31 ->
  0 <= (if ms <=? 0 then m_len_ms a else ms) < 2 ^ 31 ->
  ring_ok a ->
  let n := Nat.min (Z.to_nat (window_samples a ms)) (m_audio_len a) in
  let cap := length (m_audio a) in
  let out := get_samples (get a ms result t) in
  length out = n
  /\ (forall i, (i < n)%nat ->
        out !! i = m_audio a !! ((m_audio_pos a + cap - n + i) mod cap)%nat)
  /\ get_log (get a ms result t) = [].
Proof. apply get_window_spec. Qed.

(** X2.  Reading right after a delivery: when the window is no longer than
    what the delivery wrote, [get] returns exactly the last samples of the
    delivery, whatever the ring held before. *)
Theorem get_after_delivery_returns_its_tail a stream ms result t :
  m_dev_id_in a <> 0 -> m_running a = true ->
  0 <= m_sample_rate a < 2 ^ 31 ->
  0 <= (if ms <=? 0 then m_len_ms a else ms) < 2 ^ 31 ->
  ring_ok a ->
  let n := Z.to_nat (window_samples a ms) in
  (n <= Nat.min (length stream) (length (m_audio a)))%nat ->
  get_samples (get (callback a stream) ms result t) = drop (length stream - n) stream.
Proof.
  intros Hdev Hr Hsr Hms Hok n Hn.
  set (a' := callback a stream).
  assert (Hok' : ring_ok a') by (by apply callback_ring_ok).
  destruct (callback_cursor a stream Hr) as [Hp Hl].
  destruct Hok as [Hpos Hlen].
  destruct (callback_buffer a stream Hr Hpos) as (Hcap & Hin & _).
  cbn zeta in *. fold a' in Hp, Hl, Hcap, Hin.
  set (cap := length (m_audio a)) in *.
  set (m := Nat.min (length stream) cap) in *.
  assert (Hfields : m_dev_id_in a' = m_dev_id_in a /\ m_running a' = true
                    /\ m_sample_rate a' = m_sample_rate a /\ m_len_ms a' = m_len_ms a).
  { subst a'. unfold callback. rewrite Hr. cbn [negb].
    destruct (Nat.ltb _ _); done. }
  destruct Hfields as (Hdev' & Hr' & Hsr' & Hlen').
  assert (Hwin : window_samples a' ms = window_samples a ms)
    by (unfold window_samples; by rewrite Hsr', Hlen').
  destruct (get_window_spec a' ms result t) as (Hout_len & Hout & _);
    [congruence | done | by rewrite Hsr' | by rewrite Hlen' | done |].
  cbn zeta in *. rewrite Hwin, Hl, Hcap in *. fold n in Hout_len, Hout.
  assert (Hmin : Nat.min n (Nat.min (m_audio_len a + m) cap) = n) by lia.
  rewrite Hmin in *.
  apply list_eq. intros i.
  destruct (Nat.lt_ge_cases i n) as [Hi | Hi].
  - rewrite (Hout i Hi), Hp, lookup_drop.
    replace ((m_audio_pos a + m) mod cap + cap - n + i)%nat
      with ((m_audio_pos a + m) mod cap + (cap - n + i))%nat by lia.
    rewrite Nat.Div0.add_mod_idemp_l.
    replace (m_audio_pos a + m + (cap - n + i))%nat
      with (m_audio_pos a + (m - n + i) + 1 * cap)%nat by lia.
    rewrite Nat.Div0.mod_add.
    rewrite Hin by lia. f_equal. lia.
  - rewrite lookup_ge_None_2 by lia.
    symmetry. apply lookup_ge_None_2. rewrite length_drop. lia.
Qed.

End RingWindow.

Section RingLifecycle.
Context {sample : Type}.
Import Ring.
Implicit Types (a b : audio_async sample) (stream result : list sample).

Lemma get_time_unfold a ms result t :
  m_dev_id_in a <> 0 -> m_running a = true ->
  get_time_ms (get a ms result t)
  = if 0 <? m_sample_rate a
    then to_int64 (wrap64 (m_total_samples a * 1000) / wrap64 (m_sample_rate a))
    else 0.
Proof.
  intros Hdev Hr. unfold get, get_time_ms.
  destruct (Z.eqb_spec (m_dev_id_in a) 0) as [? | _]; [done |]. by rewrite Hr.
Qed.

Lemma get_of_empty_ring a ms result t :
  m_dev_id_in a <> 0 -> m_running a = true -> m_audio_len a = 0%nat ->
  m_audio_pos a = 0%nat ->
  get_samples (get a ms result t) = [].
Proof.
  intros Hdev Hr Hlen Hpos. unfold get, get_samples.
  destruct (Z.eqb_spec (m_dev_id_in a) 0) as [? | _]; [done |].
  rewrite Hr, Hlen, Hpos. cbn [negb fst snd].
  set (wanted := wrap64 _ / 1000).
  assert (Hn : (if Z.of_nat 0 <? wanted then 0%nat else Z.to_nat wanted) = 0%nat)
    by (destruct (Z.ltb_spec (Z.of_nat 0) wanted); lia).
  rewrite Hn. cbn. by destruct (length (m_audio a)).
Qed.

(** X3.  [clear] on a running ring empties the buffer and keeps the timeline:
    the next [get] returns no sample and reports the same time as before. *)
Theorem clear_empties_the_ring_and_keeps_the_timeline a ms result t :
  m_dev_id_in a <> 0 -> m_running a = true ->
  let cleared := (clear a).1.2 in
  (clear a).1.1 = true
  /\ m_total_samples cleared = m_total_samples a
  /\ get_samples (get cleared ms result t) = []
  /\ get_time_ms (get cleared ms result t) = get_time_ms (get a ms result t).
Proof.
  intros Hdev Hr.
  assert (Hclear : clear a = (true, set_ring a (m_audio a) 0 0 (m_total_samples a), [])).
  { unfold clear. destruct (Z.eqb_spec (m_dev_id_in a) 0) as [? | _]; [done |].
    by rewrite Hr. }
  cbn zeta. rewrite Hclear. cbn [fst snd].
  split; [done | split; [done | split]].
  - by apply get_of_empty_ring.
  - by rewrite !get_time_unfold.
Qed.

(** X4.  The life cycle of a capture session.  [resume] on a stopped ring
    with a device starts it with an empty buffer and the timeline at zero; a
    second [resume] is refused and changes nothing.  After [pause] every
    delivery is dropped, so the timeline does not move, and [get] is refused. *)
Theorem capture_session_lifecycle a stream ms result t :
  m_dev_id_in a <> 0 -> m_running a = false ->
  let started := (resume a).1.2 in
  let paused := (pause started).1.2 in
  (resume a).1.1 = true
  /\ m_running started = true
  /\ get_samples (get started ms result t) = []
  /\ get_time_ms (get started ms result t) = 0
  /\ resume started = (false, started, [LogLine "resume" "already running!"])
  /\ (pause started).1.1 = true
  /\ callback paused stream = paused
  /\ get (callback paused stream) ms result t = (result, t, [LogLine "get" "not running!"]).
Proof.
  intros Hdev Hr. cbn zeta.
  assert (Hresume : resume a = (true, set_running (set_ring a (m_audio a) 0 0 0) true, [])).
  { unfold resume. destruct (Z.eqb_spec (m_dev_id_in a) 0) as [? | _]; [done |].
    by rewrite Hr. }
  rewrite Hresume. cbn [fst snd].
  set (started := set_running (set_ring a (m_audio a) 0 0 0) true).
  assert (Hpause : pause started = (true, set_running started false, [])).
  { unfold pause. cbn. by destruct (Z.eqb_spec (m_dev_id_in a) 0). }
  rewrite Hpause. cbn [fst snd].
  split; [done | split; [done | split; [by apply get_of_empty_ring |]]].
  split.
  { rewrite get_time_unfold by done. cbn. by destruct (0 <? m_sample_rate a). }
  split.
  { unfold resume. cbn. by destruct (Z.eqb_spec (m_dev_id_in a) 0). }
  split; [done |].
  rewrite callback_not_running by done.
  split; [done |]. unfold get. cbn. by destruct (Z.eqb_spec (m_dev_id_in a) 0).
Qed.

End RingLifecycle.

Lemma get_returns_most_recent_window_witness :
  Ring.get_samples (Ring.get (Ring.callback ring4 [1; 2; 3; 4; 5; 6]) 1 [] 0) !! 0%nat
  = Some 3.
Proof.
  assert (Hok : ring_ok (Ring.callback ring4 [1; 2; 3; 4; 5; 6]))
    by (split; vm_compute; lia).
  destruct (get_returns_most_recent_window (Ring.callback ring4 [1; 2; 3; 4; 5; 6]) 1 [] 0)
    as (_ & Hout & _); [vm_compute; congruence | reflexivity | vm_compute; split; congruence
                        | vm_compute; split; congruence | exact Hok |].
  rewrite (Hout 0%nat); [reflexivity | vm_compute; lia].
Defined.

Lemma get_after_delivery_returns_its_tail_witness :
  Ring.get_samples (Ring.get (Ring.callback ring4 [1; 2; 3; 4; 5; 6]) 1 [] 0) = [3; 4; 5; 6].
Proof.
  apply (get_after_delivery_returns_its_tail ring4 [1; 2; 3; 4; 5; 6] 1 [] 0).
  - vm_compute. congruence.
  - reflexivity.
  - vm_compute. split; congruence.
  - vm_compute. split; congruence.
  - split; vm_compute; lia.
  - vm_compute. lia.
Defined.

Lemma clear_empties_the_ring_and_keeps_the_timeline_witness :
  Ring.get_samples (Ring.get (Ring.clear ring4).1.2 1 [] 0) = []
  /\ Ring.get_time_ms (Ring.get (Ring.clear ring4).1.2 1 [] 0) = 1.
Proof.
  destruct (clear_empties_the_ring_and_keeps_the_timeline ring4 1 [] 0)
    as (_ & _ & Hs & Ht); [vm_compute; congruence | reflexivity |].
  split; [exact Hs | rewrite Ht; reflexivity].
Defined.

Lemma capture_session_lifecycle_witness :
  let started := (Ring.resume ring4_paused).1.2 in
  Ring.m_running started = true
  /\ Ring.callback (Ring.pause started).1.2 [1; 2] = (Ring.pause started).1.2.
Proof.
  destruct (capture_session_lifecycle ring4_paused [1; 2] 1 [] 0)
    as (_ & Hr & _ & _ & _ & _ & Hc & _); [vm_compute; congruence | reflexivity |].
  split; [exact Hr | exact Hc].
Defined.

(** ** The bias callback: matching and boosts *)

Section BiasMatching.
Context `{FloatOps}.
Import Bias.
Implicit Types (logits : list float) (tokens sq : list Z) (bctx : bias_decode_context).

Lemma prefix_matches_spec tokens sq l :
  prefix_matches tokens sq l = true <-> suffix_match tokens sq l.
Proof.
  unfold prefix_matches, suffix_match. rewrite forallb_forall. split.
  - intros Hall.
    assert (Hj : forall j, (j < l)%nat ->
              exists t, tokens !! (length tokens - l + j)%nat = Some t /\ sq !! j = Some t).
    { intros j Hjl. specialize (Hall j). rewrite in_seq in Hall.
      specialize (Hall ltac:(lia)).
      destruct (tokens !! _) as [t |] eqn:Ht; [| done].
      destruct (sq !! j) as [s |] eqn:Hs; [| done].
      apply Z.eqb_eq in Hall as ->. by exists s. }
    assert (Hbounds : (l <= length tokens)%nat /\ (l <= length sq)%nat).
    { destruct l as [| l']; [lia |].
      destruct (Hj l' ltac:(lia)) as (t & Ht & Hs).
      apply lookup_lt_Some in Ht. apply lookup_lt_Some in Hs. lia. }
    destruct Hbounds as [Hn Hs]. split; [done | split; [done |]].
    apply list_eq. intros i. destruct (Nat.lt_ge_cases i l) as [Hi | Hi].
    + destruct (Hj i Hi) as (t & Ht & Hsq).
      by rewrite lookup_take_lt, lookup_drop, Ht, Hsq.
    + rewrite lookup_ge_None_2 by (rewrite length_take; lia).
      symmetry. apply lookup_ge_None_2. rewrite length_drop. lia.
  - intros (Hn & Hs & Heq) j Hj. rewrite in_seq in Hj.
    assert (Hlook : take l sq !! j = drop (length tokens - l) tokens !! j) by (by rewrite Heq).
    rewrite lookup_take_lt, lookup_drop in Hlook by lia.
    rewrite <- Hlook.
    destruct (sq !! j) as [s |] eqn:Hsq; [apply Z.eqb_refl |].
    apply lookup_ge_None in Hsq. lia.
Qed.

Lemma longest_match_spec tokens sq (m : nat) :
  (forall l, longest_match tokens sq m = Some l <->
             (1 <= l <= m)%nat /\ suffix_match tokens sq l
             /\ forall l', (l < l' <= m)%nat -> ~ suffix_match tokens sq l')
  /\ (longest_match tokens sq m = None <->
      forall l, (1 <= l <= m)%nat -> ~ suffix_match tokens sq l).
Proof.
  induction m as [| m [IHsome IHnone]]; cbn [longest_match].
  - split; [| split; [intros _ l Hl; lia | done]].
    intros l. split; [done | intros [Hl _]; lia].
  - destruct (prefix_matches tokens sq (S m)) eqn:Hm.
    + apply prefix_matches_spec in Hm. split.
      * intros l. split.
        -- intros [= <-]. split; [lia | split; [done |]]. intros l' Hl'. lia.
        -- intros (Hl & Hmatch & Hmax). f_equal.
           destruct (Nat.eq_dec l (S m)) as [-> | Hne]; [done |].
           by destruct (Hmax (S m) ltac:(lia)).
      * split; [done |]. intros Hno. by destruct (Hno (S m) ltac:(lia)).
    + assert (Hnot : ~ suffix_match tokens sq (S m)).
      { intros Hs. apply prefix_matches_spec in Hs. congruence. }
      split.
      * intros l. rewrite IHsome. split.
        -- intros (Hl & Hmatch & Hmax). split; [lia | split; [done |]].
           intros l' Hl'. destruct (Nat.eq_dec l' (S m)) as [-> | Hne]; [done |].
           apply Hmax. lia.
        -- intros (Hl & Hmatch & Hmax).
           assert (l <> S m) by (intros ->; done).
           split; [lia | split; [done |]]. intros l' Hl'. apply Hmax. lia.
      * rewrite IHnone. split.
        -- intros Hno l Hl. destruct (Nat.eq_dec l (S m)) as [-> | Hne]; [done |].
           apply Hno. lia.
        -- intros Hno l Hl. apply Hno. lia.
Qed.

(** X5.  The matching loop finds the longest suffix of the prefix that is a
    prefix of the sequence: [longest_match tokens sq m] is [Some l] exactly
    when [l] is the largest length in [1 .. m] for which the last [l] tokens
    of the prefix equal the first [l] tokens of [sq], and [None] exactly when
    no length in [1 .. m] matches. *)
Theorem longest_match_is_the_longest_suffix_match tokens sq (m : nat) :
  (forall l, longest_match tokens sq m = Some l <->
             (1 <= l <= m)%nat /\ suffix_match tokens sq l
             /\ forall l', (l < l' <= m)%nat -> ~ suffix_match tokens sq l')
  /\ (longest_match tokens sq m = None <->
      forall l, (1 <= l <= m)%nat -> ~ suffix_match tokens sq l).
Proof. apply longest_match_spec. Qed.

(** The token a sequence boosts, if any, as the loop body computes it. *)
Lemma continuation_step_cases n_vocab token_beg kc tokens acc sq :
  (continuation_step n_vocab token_beg kc tokens acc sq = acc
   /\ forall k, ~ continues_with tokens sq k \/ (length sq < 2)%nat)
  \/ (exists k, (2 <= length sq)%nat /\ continues_with tokens sq k
                /\ continuation_step n_vocab token_beg kc tokens acc sq
                   = (add_bias n_vocab token_beg acc.1 k kc,
                      <[k := f_add (default f_zero (acc.2 !! k)) kc]> acc.2)).
Proof.
  unfold continuation_step.
  destruct (Nat.ltb_spec (length sq) 2) as [Hshort | Hlong]; [left; split; [done | by right] |].
  destruct (longest_match_spec tokens sq
              (Nat.min (length tokens) (length sq - 1))) as [Hsome Hnone].
  destruct (longest_match tokens sq _) as [l |] eqn:Hl.
  - destruct (proj1 (Hsome l) eq_refl) as (Hrange & Hmatch & Hmax).
    destruct (sq !! l) as [k |] eqn:Hk.
    + right. exists k. split; [done | split; [| done]]. by exists l.
    + apply lookup_ge_None in Hk. lia.
  - left. split; [done |]. intros k. left. intros (l & Hrange & Hmatch & _).
    by apply (proj1 Hnone eq_refl l).
Qed.

Lemma continues_with_unique tokens sq k k' :
  continues_with tokens sq k -> continues_with tokens sq k' -> k = k'.
Proof.
  intros (l & Hr & Hm & Hmax & Hk) (l' & Hr' & Hm' & Hmax' & Hk').
  assert (l = l') as <-.
  { destruct (Nat.lt_total l l') as [Hlt | [? | Hgt]]; [| done |].
    - by destruct (Hmax l' ltac:(lia)).
    - by destruct (Hmax' l ltac:(lia)). }
  congruence.
Qed.

Lemma boost_continuations_dom n_vocab token_beg kc tokens seqs acc k :
  k ∈ dom (fold_left (continuation_step n_vocab token_beg kc tokens) seqs acc).2
  <-> k ∈ dom acc.2
      \/ exists sq, sq ∈ seqs /\ (2 <= length sq)%nat /\ continues_with tokens sq k.
Proof.
  revert acc. induction seqs as [| sq seqs IH]; intros acc; cbn [fold_left].
  - split; [by left | intros [? | (sq & Hin & _)]; [done | by apply elem_of_nil in Hin]].
  - rewrite IH.
    destruct (continuation_step_cases n_vocab token_beg kc tokens acc sq)
      as [[-> Hnone] | (k0 & Hlong & Hk0 & ->)].
    + split.
      * intros [? | (sq' & Hin & Hl & Hc)]; [by left | right].
        exists sq'. split; [by apply elem_of_cons; right | done].
      * intros [? | (sq' & Hin & Hl & Hc)]; [by left |].
        apply elem_of_cons in Hin as [-> | Hin].
        -- destruct (Hnone k) as [Hno | Hshort]; [by destruct Hno | lia].
        -- right. by exists sq'.
    + cbn [snd]. rewrite dom_insert_L, elem_of_union, elem_of_singleton. split.
      * intros [[-> | ?] | (sq' & Hin & Hl & Hc)].
        -- right. exists sq. split; [by apply elem_of_cons; left | done].
        -- by left.
        -- right. exists sq'. split; [by apply elem_of_cons; right | done].
      * intros [? | (sq' & Hin & Hl & Hc)]; [left; by right |].
        apply elem_of_cons in Hin as [-> | Hin].
        -- left; left. by eapply continues_with_unique.
        -- right. by exists sq'.
Qed.

Lemma boost_first_fold n_vocab token_beg kf firsts logits (k : Z) :
  fold_left (fun (acc : list float * Z) tid =>
               (add_bias n_vocab token_beg acc.1 tid kf, acc.2 + 1)) firsts (logits, k)
  = (fold_left (fun l tid => add_bias n_vocab token_beg l tid kf) firsts logits,
     k + Z.of_nat (length firsts)).
Proof.
  revert logits k. induction firsts as [| tid firsts IH]; intros logits k; cbn [fold_left].
  - cbn. f_equal. lia.
  - cbn [fst snd]. rewrite IH. cbn [length]. f_equal. lia.
Qed.

End BiasMatching.

Section BiasPhases.
Context `{FloatOps}.
Import Bias.
Implicit Types (logits : list float) (tokens sq : list Z) (bctx : bias_decode_context).

Lemma callback_unfold n_vocab token_beg bctx tokens logits :
  enabled bctx = true -> 0 < n_vocab ->
  let c := boost_continuations n_vocab token_beg bctx tokens logits in
  let f := boost_first_tokens n_vocab token_beg bctx c.2 c.1 in
  let r := whisper_logits_filter_cb n_vocab token_beg bctx tokens logits in
  logits_out r = f.1 /\ boosted_cont r = c.2 /\ boosted_first_total r = f.2.
Proof.
  intros He Hn. cbn zeta. unfold whisper_logits_filter_cb. rewrite He. cbn [negb].
  destruct (Z.leb_spec n_vocab 0); [lia |].
  destruct (boost_continuations _ _ _ _ _) as [l1 cont].
  by destruct (boost_first_tokens _ _ _ _ _) as [l2 nf].
Qed.

(** X6.  The continuation boosts the callback records are exactly the tokens
    that continue a dictionary sequence: [k] is a key of [boosted_cont] if
    and only if some sequence of at least two tokens has its longest match
    with the end of the prefix followed by [k]. *)
Theorem continuation_boosts_are_the_continued_tokens
    n_vocab token_beg bctx tokens logits seqs k :
  enabled bctx = true -> 0 < n_vocab -> dict_token_seqs bctx = Some seqs ->
  k ∈ dom (boosted_cont (whisper_logits_filter_cb n_vocab token_beg bctx tokens logits))
  <-> exists sq, sq ∈ seqs /\ (2 <= length sq)%nat /\ continues_with tokens sq k.
Proof.
  intros He Hn Hseqs.
  destruct (callback_unfold n_vocab token_beg bctx tokens logits He Hn) as (_ & -> & _).
  unfold boost_continuations. rewrite Hseqs, boost_continuations_dom. cbn [snd].
  rewrite dom_empty_L. split; [intros [Hk | ?]; [by apply elem_of_empty in Hk | done] | by right].
Qed.

Lemma boost_continuations_unmatched n_vocab token_beg kc tokens seqs acc :
  (fold_left (continuation_step n_vocab token_beg kc tokens) seqs acc).2 = ∅ ->
  fold_left (continuation_step n_vocab token_beg kc tokens) seqs acc = acc.
Proof.
  revert acc. induction seqs as [| sq seqs IH]; intros acc Hempty; [done |].
  cbn [fold_left] in *.
  destruct (continuation_step_cases n_vocab token_beg kc tokens acc sq)
    as [[Heq _] | (k & _ & _ & Heq)]; rewrite Heq in *; [by apply IH |].
  assert (Hk : k ∈ dom (fold_left (continuation_step n_vocab token_beg kc tokens) seqs
                          (add_bias n_vocab token_beg acc.1 k kc,
                           <[k := f_add (default f_zero (acc.2 !! k)) kc]> acc.2)).2).
  { apply boost_continuations_dom. left. cbn [snd]. rewrite dom_insert_L.
    apply elem_of_union. left. by apply elem_of_singleton. }
  rewrite Hempty, dom_empty_L in Hk. by apply elem_of_empty in Hk.
Qed.

(** X7.  First-token boosts are applied only while the beam is off every
    dictionary path.  If a continuation was boosted, no first token is
    touched; if none was, the logits reach the first-token loop unchanged and
    every first token goes through [add_bias] once, in order.  At decode step
    0, with an empty prefix, no continuation is ever boosted. *)
Theorem first_tokens_boosted_only_off_dictionary_paths
    n_vocab token_beg bctx tokens logits :
  enabled bctx = true -> 0 < n_vocab ->
  let r := whisper_logits_filter_cb n_vocab token_beg bctx tokens logits in
  (boosted_cont r <> ∅ ->
   boosted_first_total r = 0
   /\ logits_out r = (boost_continuations n_vocab token_beg bctx tokens logits).1)
  /\ (boosted_cont r = ∅ ->
      forall firsts, dict_first_tokens bctx = Some firsts ->
        logits_out r
        = fold_left (fun l tid => add_bias n_vocab token_beg l tid (bias_first_logit bctx))
            firsts logits
        /\ boosted_first_total r = Z.of_nat (length firsts))
  /\ (tokens = [] -> boosted_cont r = ∅).
Proof.
  intros He Hn r.
  destruct (callback_unfold n_vocab token_beg bctx tokens logits He Hn) as (Hout & Hcont & Hnf).
  cbn zeta in *. fold r in Hout, Hcont, Hnf. rewrite Hout, Hcont, Hnf.
  split; [| split].
  - intros Hne. unfold boost_first_tokens.
    destruct (dict_first_tokens bctx); [| done].
    by destruct (decide (_ = ∅)).
  - intros Hempty firsts Hfirsts.
    assert (Hsame : boost_continuations n_vocab token_beg bctx tokens logits = (logits, ∅)).
    { unfold boost_continuations in *. destruct (dict_token_seqs bctx); [| done].
      by apply boost_continuations_unmatched in Hempty. }
    rewrite Hsame. unfold boost_first_tokens. rewrite Hfirsts. cbn [fst snd].
    destruct (decide (∅ = ∅)) as [_ | ?]; [| done].
    rewrite boost_first_fold. cbn [fst snd]. split; [done | lia].
  - intros ->. apply map_eq. intros k. rewrite lookup_empty.
    apply not_elem_of_dom. intros Hk.
    unfold boost_continuations in Hk. destruct (dict_token_seqs bctx) as [seqs |] eqn:Hs.
    + apply boost_continuations_dom in Hk as [Hk | (sq & _ & _ & l & Hl & _)].
      * cbn in Hk. rewrite dom_empty_L in Hk. by apply elem_of_empty in Hk.
      * cbn in Hl. lia.
    + cbn in Hk. rewrite dom_empty_L in Hk. by apply elem_of_empty in Hk.
Qed.

End BiasPhases.

Lemma longest_match_is_the_longest_suffix_match_witness :
  Bias.longest_match [7; 20; 10] [20; 10; 11] 2 = Some 2%nat
  /\ suffix_match [7; 20; 10] [20; 10; 11] 2.
Proof.
  split; [reflexivity |].
  destruct (longest_match_is_the_longest_suffix_match [7; 20; 10] [20; 10; 11] 2)
    as [Hsome _].
  by destruct (proj1 (Hsome 2%nat) eq_refl) as (_ & Hm & _).
Defined.

Lemma continuation_boosts_are_the_continued_tokens_witness :
  exists sq, sq ∈ [[10; 11]; [20; 10; 11]] /\ (2 <= length sq)%nat
             /\ continues_with [20; 10] sq 11.
Proof.
  apply (continuation_boosts_are_the_continued_tokens 30 25 bctx_small [20; 10] logits30
           [[10; 11]; [20; 10; 11]] 11); [reflexivity | lia | reflexivity |].
  apply elem_of_dom. vm_compute. by eexists.
Defined.

Lemma first_tokens_boosted_only_off_dictionary_paths_witness :
  let r := Bias.whisper_logits_filter_cb 30 25 bctx_small [] logits30 in
  Bias.boosted_cont r = ∅
  /\ Bias.logits_out r !! 10%nat = Some (Some 1350)
  /\ Bias.boosted_first_total r = 2.
Proof.
  intros r.
  destruct (first_tokens_boosted_only_off_dictionary_paths 30 25 bctx_small [] logits30)
    as (_ & Hoff & Hstep0); [reflexivity | lia |].
  split; [by apply Hstep0 |].
  destruct (Hoff (Hstep0 eq_refl) [10; 20] eq_refl) as [Hout Hn].
  fold r in Hout, Hn. rewrite Hout, Hn. split; reflexivity.
Defined.

(** ** The sample timeline *)

Section Timeline.
Context `{FloatOps}.
Import Transcriber.
Implicit Types (E : env) (p : vad_params) (st : state) (s : seg_state).

Lemma push_pre_roll_spec p (pre : list float) x :
  (length pre <= pre_padding_samples p)%nat ->
  push_pre_roll p pre x = drop (length pre + 1 - pre_padding_samples p) (pre ++ [x]).
Proof.
  intros Hle. unfold push_pre_roll. rewrite length_app. cbn [length].
  destruct (Nat.ltb_spec (pre_padding_samples p) (length pre + 1)).
  - by replace (length pre + 1 - pre_padding_samples p)%nat with 1%nat by lia.
  - by replace (length pre + 1 - pre_padding_samples p)%nat with 0%nat by lia.
Qed.

Lemma fold_push_pre_roll p (pre xs : list float) :
  (length pre <= pre_padding_samples p)%nat ->
  fold_left (push_pre_roll p) xs pre
  = drop (length pre + length xs - pre_padding_samples p) (pre ++ xs).
Proof.
  revert pre. induction xs as [| x xs IH]; intros pre Hle.
  - cbn. rewrite app_nil_r.
    by replace (length pre + 0 - pre_padding_samples p)%nat with 0%nat by lia.
  - cbn [fold_left length]. rewrite IH.
    + rewrite push_pre_roll_spec by done.
      destruct (decide (length pre + 1 <= pre_padding_samples p)%nat) as [Hroom | Hfull].
      * replace (length pre + 1 - pre_padding_samples p)%nat with 0%nat by lia.
        rewrite drop_0, length_app, <- List.app_assoc. cbn [length app]. f_equal. lia.
      * replace (length pre + 1 - pre_padding_samples p)%nat with 1%nat by lia.
        rewrite length_drop, length_app. cbn [length].
        replace (drop 1 (pre ++ [x]) ++ xs) with (drop 1 (pre ++ x :: xs)).
        -- rewrite drop_drop. f_equal. lia.
        -- destruct pre; [done |]. cbn. rewrite !drop_0. by rewrite <- List.app_assoc.
    + rewrite push_pre_roll_spec, length_drop, length_app by done. cbn [length]. lia.
Qed.

(** X8.  The pre-roll is a sliding window: after pushing the samples [xs]
    one by one it holds the last [pre_padding_samples] samples of what it held
    followed by [xs], or all of them when there are fewer. *)
Theorem pre_roll_keeps_the_most_recent_samples p (pre xs : list float) :
  (length pre <= pre_padding_samples p)%nat ->
  fold_left (push_pre_roll p) xs pre
  = drop (length pre + length xs - pre_padding_samples p) (pre ++ xs).
Proof. apply fold_push_pre_roll. Qed.

Lemma pre_roll_length p (pre xs : list float) :
  (length pre <= pre_padding_samples p)%nat ->
  length (fold_left (push_pre_roll p) xs pre)
  = Nat.min (pre_padding_samples p) (length pre + length xs).
Proof.
  intros Hle. rewrite fold_push_pre_roll by done.
  rewrite length_drop, length_app. lia.
Qed.

Lemma min_segment_samples_ms p :
  Z.of_nat (min_segment_samples p) = 16 * Z.max 0 (min_segment_ms p).
Proof.
  unfold min_segment_samples, ms_to_samples, sample_rate.
  replace (min_segment_ms p * 16000) with (min_segment_ms p * 16 * 1000) by lia.
  rewrite Z.quot_mul by lia. lia.
Qed.

Lemma printed_segment_ok p fin avg si ps start (audio : list float) e :
  printed_segment fin avg si ps start audio e ->
  0 <= start -> (min_segment_samples p <= length audio)%nat -> 0 <= ps -> 0 <= si ->
  segment_line_ok p e.
Proof.
  intros (_ & Hps & _ & Hsi & Hstart & Hend & Hdur) H0 Hmin Hq Hi.
  assert (Hlen : Z.max 0 (min_segment_ms p)
                 <= Z.quot (Z.of_nat (length audio) * 1000) sample_rate).
  { unfold sample_rate. apply Z.quot_le_lower_bound; [lia |].
    pose proof (min_segment_samples_ms p). lia. }
  assert (0 <= Z.quot (start * 1000) sample_rate)
    by (unfold sample_rate; apply Z.quot_pos; lia).
  unfold segment_line_ok. rewrite Hdur, Hend, Hstart, Hps, Hsi. lia.
Qed.

Lemma length_substring_0 (n : nat) (s : string) :
  String.length (substring 0 n s) = Nat.min n (String.length s).
Proof.
  revert n. induction s as [| c s IH]; intros [| n]; cbn; try done. by rewrite IH.
Qed.

Lemma configure_decode_prompt E p st si ps fin :
  match initial_prompt (configure_decode E p st si ps fin).2 with
  | Some s => send_prompt p = true /\ (1 <= String.length s <= 4096)%nat
  | None => True
  end.
Proof.
  assert (Hprompt :
    match (if send_prompt p && negb (bool_decide (dictionary_cache (dict st) = ""))
           then Some (if (4096 <? String.length (dictionary_cache (dict st)))%nat
                      then substring 0 4096 (dictionary_cache (dict st))
                      else dictionary_cache (dict st))
           else None) with
    | Some s => send_prompt p = true /\ (1 <= String.length s <= 4096)%nat
    | None => True
    end).
  { destruct (send_prompt p); [| done]. cbn [andb].
    destruct (bool_decide_reflect (dictionary_cache (dict st) = "")) as [| Hne]; [done |].
    cbn [negb]. split; [done |].
    assert (1 <= String.length (dictionary_cache (dict st)))%nat
      by (destruct (dictionary_cache (dict st)); [done | cbn; lia]).
    destruct (Nat.ltb_spec 4096 (String.length (dictionary_cache (dict st)))).
    - rewrite length_substring_0. lia.
    - lia. }
  unfold configure_decode. by destruct (bias_decoding p).
Qed.

Lemma output_invariant_frame p st st' :
  segment_events (stdout (io st')) = segment_events (stdout (io st)) ->
  decode_log (io st') = decode_log (io st) ->
  output_invariant p st -> output_invariant p st'.
Proof. unfold output_invariant. by intros -> ->. Qed.

Lemma output_invariant_outside p st st' :
  outside_dictionary st' = outside_dictionary st ->
  output_invariant p st -> output_invariant p st'.
Proof.
  unfold outside_dictionary. intros Heq. apply output_invariant_frame; congruence.
Qed.

Lemma output_invariant_debug p st l :
  (forall r c, l <> WarnBeamSizeClamp r c) ->
  output_invariant p st -> output_invariant p (debug_print p st l).
Proof.
  intros Hl. apply output_invariant_outside. by apply debug_print_frame.
Qed.

Lemma seg_debug_print p st l : seg (debug_print p st l) = seg st.
Proof. unfold debug_print. by destruct (debug p). Qed.

Lemma output_invariant_emit E p st audio si start fin avg ps :
  0 <= start ->
  (min_segment_samples p <= length audio < segment_bound p + vad_chunk_samples)%nat ->
  0 <= ps -> 0 <= si ->
  output_invariant p st ->
  output_invariant p (emit_transcription E p st audio si start fin avg ps)
  /\ seg (emit_transcription E p st audio si start fin avg ps) = seg st.
Proof.
  intros H0 Hlen Hq Hi (Hev & Hlog).
  destruct (emit_transcription_shape E p st audio si start fin avg ps)
    as (Hs & _ & _ & out & Hout & Hcase & _).
  split; [| done]. split.
  - rewrite Hout. apply Forall_app. split; [done |].
    destruct Hcase as [-> | (e & -> & He)]; [done |].
    apply Forall_singleton. eapply printed_segment_ok; [done | done | lia | done | done].
  - destruct (decide (audio = [])) as [-> | Haudio]; [done |].
    destruct (emit_transcription_spec E p st audio si start fin avg ps Haudio)
      as (_ & _ & _ & -> & _).
    apply Forall_app. split; [done |]. apply Forall_singleton.
    split; [done |]. split; [done |]. apply configure_decode_prompt.
Qed.

Lemma keep_samples_le p s forced :
  (keep_samples p s forced <= length (current_segment s))%nat.
Proof.
  unfold keep_samples. destruct forced; [done |].
  match goal with |- context [(?a <? ?b)%nat] => destruct (Nat.ltb_spec a b) end; lia.
Qed.

Lemma timeline_within_slack p s :
  timeline_invariant p s -> timeline_within vad_chunk_samples p s.
Proof.
  intros (Hpre & Hproc & Hidx & Hin). repeat split; try done.
  all: destruct (Hin H0) as (? & ? & ? & ? & ? & ? & ?); try done; lia.
Qed.

Lemma flush_within E p st forced :
  timeline_within vad_chunk_samples p (seg st) -> output_invariant p st ->
  pipeline_invariant p (flush_segment E p st forced).
Proof.
  intros (Hpre & Hproc & Hidx & Hin) Hout. unfold flush_segment.
  destruct (negb (in_segment (seg st)) || bool_decide (current_segment (seg st) = []))
    eqn:Hidle.
  { split; [| done]. unfold timeline_invariant, timeline_within. cbn. by repeat split. }
  apply orb_false_iff in Hidle as [Hact _]. apply negb_false_iff in Hact.
  destruct (Hin Hact) as (_ & Hstart & Hlen & Hvoice & Hactive & Hq & Hbuf).
  pose proof (keep_samples_le p (seg st) forced) as Hkeep.
  destruct (Nat.ltb_spec (keep_samples p (seg st) forced) (min_segment_samples p))
    as [Hshort | Hlong].
  - split; [| by apply output_invariant_debug].
    unfold timeline_invariant, timeline_within. cbn. repeat split; try done; lia.
  - match goal with
    | |- pipeline_invariant p (put_seg (emit_transcription E p st ?a ?si ?b ?f ?v ?q) _) =>
        destruct (output_invariant_emit E p st a si b f v q) as [He _]
    end; try done.
    { rewrite length_take. lia. }
    { rewrite Hactive. by destruct (0 <=? segment_index (seg st)). }
    split; [| done]. unfold timeline_invariant, timeline_within. cbn.
    rewrite pre_roll_length by (cbn; lia). rewrite length_drop. cbn [length].
    repeat split; try done; lia.
Qed.

Lemma pipeline_invariant_flush E p st forced :
  pipeline_invariant p st -> pipeline_invariant p (flush_segment E p st forced).
Proof. intros [Hseg Hout]. by apply flush_within; [apply timeline_within_slack |]. Qed.

Lemma partial_within E p st :
  timeline_within vad_chunk_samples p (seg st) -> output_invariant p st ->
  in_segment (seg st) = true ->
  timeline_within vad_chunk_samples p (seg (maybe_emit_partial E p st))
  /\ output_invariant p (maybe_emit_partial E p st)
  /\ seg (maybe_emit_partial E p st)
     = (if enable_partials p
           && (min_segment_samples p <=? length (current_segment (seg st)))%nat
           && (step_samples p
               <=? segment_start_sample (seg st)
                   + Z.of_nat (length (current_segment (seg st)))
                   - last_partial_emit_sample (seg st))
        then partial_emitted (seg st)
               (segment_start_sample (seg st)
                + Z.of_nat (length (current_segment (seg st))))
        else seg st).
Proof.
  intros Hseg Hout Hact. pose proof Hseg as (Hpre & Hproc & Hidx & Hin).
  destruct (Hin Hact) as (Hnil & Hstart & Hlen & Hvoice & Hactive & Hq & Hchunk).
  unfold maybe_emit_partial.
  destruct (enable_partials p
            && (min_segment_samples p <=? length (current_segment (seg st)))%nat
            && (step_samples p
                <=? segment_start_sample (seg st)
                    + Z.of_nat (length (current_segment (seg st)))
                    - last_partial_emit_sample (seg st))) eqn:Hdue; [| done].
  apply andb_true_iff in Hdue as [Hdue _]. apply andb_true_iff in Hdue as [_ Hmin].
  apply Nat.leb_le in Hmin.
  match goal with
  | |- context [emit_transcription E p st ?a ?si ?b ?f ?v ?q] =>
      destruct (output_invariant_emit E p st a si b f v q) as [He Hs]; try done;
      [lia | rewrite Hactive; by destruct (0 <=? segment_index (seg st)) |];
      set (st1 := emit_transcription E p st a si b f v q) in *
  end.
  cbn [seg put_seg]. rewrite Hs. split; [| done].
  unfold timeline_within. cbn. repeat split; try done; lia.
Qed.

Lemma maybe_flush_within E p st prob :
  timeline_within vad_chunk_samples p (seg st) -> output_invariant p st ->
  in_segment (seg st) = true ->
  pipeline_invariant p (maybe_flush E p st prob).
Proof.
  intros Hseg Hout Hact. unfold maybe_flush.
  destruct (Z.leb_spec (Z.of_nat (max_segment_samples p))
              (processed_samples_total (seg st) - segment_start_sample (seg st)))
    as [Hover | Hunder].
  { apply flush_within; [by rewrite seg_debug_print | by apply output_invariant_debug]. }
  destruct (_ && _).
  { apply flush_within; [by rewrite seg_debug_print | by apply output_invariant_debug]. }
  split; [| done]. destruct Hseg as (Hpre & Hproc & Hidx & Hin).
  destruct (Hin Hact) as (? & ? & ? & ? & ? & ? & ?).
  unfold timeline_invariant, timeline_within, segment_bound in *.
  repeat split; try done; lia.
Qed.

Lemma pipeline_invariant_chunk E p st :
  (vad_chunk_samples <= length (pending_samples (seg st)))%nat ->
  pipeline_invariant p st -> pipeline_invariant p (process_chunk E p st).
Proof.
  intros Hfull Hinv. pose proof Hinv as [(Hpre & Hproc & Hidx & Hin) Hout].
  rewrite process_chunk_unfold.
  destruct (vad_infer E _ _) as [prob |]; [| by split].
  destruct (after_vad_frame p st prob) as (Hseg1 & _ & Hev1 & _).
  assert (Hlog1 : decode_log (io (after_vad p st prob)) = decode_log (io st))
    by (unfold after_vad; by destruct (emit_vad_events p)).
  assert (Hout1 : output_invariant p (after_vad p st prob))
    by (by apply output_invariant_frame with st).
  set (st1 := after_vad p st prob) in *. cbn zeta.
  assert (Hchunk : length (chunk_buffer (seg st1)) = vad_chunk_samples)
    by (rewrite Hseg1; cbn [chunk_buffer advance_processed pop_chunk];
        rewrite length_take; lia).
  destruct (negb (in_segment (seg st)) && f_ge prob (start_threshold p)) eqn:Hopen.
  - apply andb_true_iff in Hopen as [Hidle _]. apply negb_true_iff in Hidle.
    unfold start_segment. split; [| by apply output_invariant_debug].
    unfold timeline_invariant, timeline_within, segment_bound. cbn.
    rewrite length_app, Hchunk, Hseg1. cbn. unfold vad_chunk_samples in *.
    split; [lia |]. split; [lia |]. split; [done |]. intros _.
    match goal with |- context [?a <? 0] => destruct (Z.ltb_spec a 0) end;
      repeat split; try done; lia.
  - destruct (in_segment (seg st)) eqn:Hact.
    + destruct (Hin eq_refl) as (Hnil & Hstart & Hlen & Hvoice & Hactive & Hq & Hbuf).
      set (st2 := put_seg st1 (append_chunk p (seg st1) prob)).
      assert (Hseg2 : timeline_within vad_chunk_samples p (seg st2)).
      { unfold timeline_within. cbn. rewrite length_app, Hchunk, Hseg1. cbn.
        rewrite Hact, Hnil. unfold vad_chunk_samples in *. cbn [length].
        split; [lia |]. split; [lia |]. split; [done |]. intros _.
        destruct (f_ge prob (stop_threshold p)); repeat split; try done; lia. }
      assert (Hact2 : in_segment (seg st2) = true) by (cbn; by rewrite Hseg1).
      destruct (partial_within E p st2 Hseg2 Hout1 Hact2) as (Hseg3 & Hout3 & Hs3).
      apply maybe_flush_within; [done | done |].
      rewrite Hs3.
      match goal with |- in_segment (if ?c then _ else _) = _ => destruct c end;
        exact Hact2.
    + split; [| done]. unfold timeline_invariant, timeline_within. cbn.
      rewrite pre_roll_length by (rewrite Hseg1; done). rewrite Hchunk, Hseg1. cbn.
      rewrite Hact. unfold vad_chunk_samples.
      split; [lia |]. split; [lia |]. split; [done |]. done.
Qed.

Lemma pipeline_invariant_step E p st st' :
  step E p st st' -> pipeline_invariant p st -> pipeline_invariant p st'.
Proof.
  intros Hstep Hinv. destruct Hstep.
  - destruct Hinv as [Hseg Hout].
    pose proof (reload_frame E p st si ps fin force) as Hre.
    split; [| by eapply output_invariant_outside].
    unfold outside_dictionary in Hre. by injection Hre as -> _.
  - destruct Hinv as [_ Hev]. split; [| done].
    unfold timeline_invariant, timeline_within. cbn. repeat split; done || lia.
  - destruct Hinv as [Hseg Hev]. by split.
  - destruct Hinv as [Hseg Hev]. by split.
  - by apply pipeline_invariant_chunk.
  - by apply pipeline_invariant_flush.
  - match goal with
    | Hq : mic_queue _ _ _ = Some _ |- _ =>
        destruct (mic_queue_frame _ _ _ _ Hq) as (tail & t & ->)
    end.
    destruct Hinv as [Hseg Hev]. by split.
  - destruct Hinv as [Hseg Hev]. split; [done |].
    apply output_invariant_frame with st; [| done | done].
    rewrite segment_events_print. destruct e; try by rewrite app_nil_r.
    by destruct (H0 s).
Qed.

Lemma pipeline_invariant_reachable E p st :
  reachable E p st -> pipeline_invariant p st.
Proof.
  induction 1 as [| st st' _ IH Hstep].
  - split; [| by split]. unfold timeline_invariant, timeline_within. cbn.
    repeat split; done || lia.
  - by eapply pipeline_invariant_step.
Qed.

(** X9.  In every state the pipeline can reach, the sample timeline is
    consistent: the pre-roll holds at most [pre_padding_samples] samples, all
    of them already processed, and an open utterance buffers exactly the
    samples from [segment_start_sample], which is never negative, up to
    [processed_samples_total], fewer than [segment_bound] of them, its last
    voiced sample lying in between. *)
Theorem timeline_bookkeeping_is_consistent E p st :
  reachable E p st -> timeline_invariant p (seg st).
Proof. intros Hreach. by apply pipeline_invariant_reachable in Hreach as [? _]. Qed.

(** X10.  Every [segment] line the pipeline prints starts at or after 0 ms,
    ends no earlier than it starts, reports [duration_ms = end_ms - start_ms],
    lasts at least [min_segment_ms], and carries a non-negative segment index
    and partial number. *)
Theorem segment_lines_are_well_formed E p st e :
  reachable E p st -> e ∈ segment_events (stdout (io st)) -> segment_line_ok p e.
Proof.
  intros Hreach He. apply pipeline_invariant_reachable in Hreach as (_ & Hev & _).
  by eapply Forall_forall in Hev.
Qed.


End Timeline.

Lemma pre_roll_keeps_the_most_recent_samples_witness :
  fold_left (Transcriber.push_pre_roll params_pre_padding_1ms)
    (replicate 12 (Some 2)) (replicate 10 (Some 1))
  = replicate 4 (Some 1) ++ replicate 12 (Some 2).
Proof.
  rewrite (pre_roll_keeps_the_most_recent_samples params_pre_padding_1ms
             (replicate 10 (Some 1)) (replicate 12 (Some 2))).
  - reflexivity.
  - vm_compute. lia.
Defined.

Lemma timeline_bookkeeping_is_consistent_witness :
  let st := Transcriber.process_chunk env_voiced_after_one params_pre_padding_1ms
              (Transcriber.process_chunk env_voiced_after_one params_pre_padding_1ms
                 (Transcriber.enqueue_padded state0 (tone 3))) in
  Transcriber.in_segment (Transcriber.seg st) = true
  /\ Transcriber.segment_start_sample (Transcriber.seg st) = 496
  /\ timeline_invariant params_pre_padding_1ms (Transcriber.seg st).
Proof.
  intros st. split; [vm_compute; reflexivity |]. split; [vm_compute; reflexivity |].
  apply (timeline_bookkeeping_is_consistent env_voiced_after_one params_pre_padding_1ms st).
  eapply reachable_step; [eapply reachable_step; [eapply reachable_step |] |].
  - apply (reachable_init _ _ (-1000000) 0).
  - apply (step_enqueue_padded _ _ _ (tone 3)).
  - apply step_chunk. vm_compute. lia.
  - apply step_chunk. vm_compute. lia.
Defined.

Lemma segment_lines_are_well_formed_witness :
  let final := Transcriber.run_offline env_voiced_after_one params_pre_padding_1ms
                 state0 (tone 3) in
  exists e, segment_events (Transcriber.stdout (Transcriber.io final)) !! 1%nat = Some e
            /\ Transcriber.se_start_ms e = 31
            /\ segment_line_ok params_pre_padding_1ms e.
Proof.
  intros final.
  assert (Hreach : reachable env_voiced_after_one params_pre_padding_1ms final)
    by (apply run_offline_reachable; constructor).
  assert (Hsome : is_Some (segment_events (Transcriber.stdout (Transcriber.io final))
                             !! 1%nat))
    by (vm_compute; eexists; reflexivity).
  destruct Hsome as [e He]. exists e. split; [exact He |]. split.
  - vm_compute in He. injection He as <-. reflexivity.
  - apply (segment_lines_are_well_formed env_voiced_after_one params_pre_padding_1ms
             final e Hreach).
    eapply list_elem_of_lookup_2. exact He.
Defined.


Section FrameClock.
Context `{FloatOps}.
Import Transcriber.
Implicit Types (E : env) (p : vad_params) (st : state) (s : seg_state).

Lemma vad_failures_eprint st l :
  vad_failures (eprint st l)
  = (vad_failures st + match l with ErrVadInferenceFailed => 1 | _ => 0 end)%nat.
Proof.
  unfold vad_failures. cbn. rewrite omap_app, length_app. by destruct l.
Qed.

Lemma vad_failures_reload E p st si ps fin force :
  vad_failures (reload_dictionary_if_needed E p st si ps fin force) = vad_failures st.
Proof.
  unfold reload_dictionary_if_needed, emit_dictionary_event, debug_print, vad_failures.
  repeat destruct_match; cbn; rewrite ?omap_app; cbn; rewrite ?app_nil_r; done.
Qed.

Lemma vad_failures_configure E p st si ps fin :
  vad_failures (configure_decode E p st si ps fin).1 = vad_failures st.
Proof.
  unfold configure_decode, vad_failures.
  repeat destruct_match; cbn; rewrite ?omap_app; cbn; rewrite ?app_nil_r; done.
Qed.

Lemma vad_failures_emit E p st audio si start fin avg ps :
  vad_failures (emit_transcription E p st audio si start fin avg ps) = vad_failures st.
Proof.
  unfold emit_transcription. destruct audio as [| x audio]; [done |].
  pose proof (vad_failures_configure E p
                (reload_dictionary_if_needed E p st si ps fin false) si ps fin) as Hc.
  rewrite vad_failures_reload in Hc.
  destruct (configure_decode _ _ _ _ _ _) as [st1 w]. cbn [fst] in Hc.
  destruct (whisper_full _ _ _ _); [done |].
  rewrite vad_failures_eprint. unfold vad_failures in *. cbn in *. lia.
Qed.

Lemma frame_view_emit E p st audio si start fin avg ps :
  frame_view (emit_transcription E p st audio si start fin avg ps) = frame_view st.
Proof.
  destruct (emit_transcription_shape E p st audio si start fin avg ps)
    as (Hseg & _ & Hvad & _).
  unfold frame_view. by rewrite Hseg, Hvad, vad_failures_emit.
Qed.

Lemma frame_view_debug p st l :
  l <> ErrVadInferenceFailed -> frame_view (debug_print p st l) = frame_view st.
Proof.
  intros Hl. unfold debug_print. destruct (debug p); [| done].
  unfold frame_view. rewrite vad_failures_eprint. cbn. destruct l; try done.
  all: by rewrite Nat.add_0_r.
Qed.

Lemma frame_view_put_seg st s :
  processed_samples_total s = processed_samples_total (seg st) ->
  frame_view (put_seg st s) = frame_view st.
Proof. unfold frame_view, vad_failures. cbn. by intros ->. Qed.

Lemma seg_emit E p st audio si start fin avg ps :
  seg (emit_transcription E p st audio si start fin avg ps) = seg st.
Proof. by destruct (emit_transcription_shape E p st audio si start fin avg ps). Qed.

Lemma seg_debug p st l : seg (debug_print p st l) = seg st.
Proof. unfold debug_print. by destruct (debug p). Qed.

Lemma frame_view_flush E p st forced :
  frame_view (flush_segment E p st forced) = frame_view st.
Proof.
  unfold flush_segment.
  destruct (negb (in_segment (seg st)) || bool_decide (current_segment (seg st) = []));
    [by apply frame_view_put_seg |].
  destruct (keep_samples p (seg st) forced <? min_segment_samples p)%nat.
  - rewrite frame_view_put_seg; [by apply frame_view_debug | by rewrite seg_debug].
  - rewrite frame_view_put_seg; [by apply frame_view_emit | by rewrite seg_emit].
Qed.

Lemma frame_view_partial E p st :
  frame_view (maybe_emit_partial E p st) = frame_view st.
Proof.
  unfold maybe_emit_partial. destruct_match; [| done].
  rewrite frame_view_put_seg; [by apply frame_view_emit | by rewrite seg_emit].
Qed.

Lemma frame_view_maybe_flush E p st prob :
  frame_view (maybe_flush E p st prob) = frame_view st.
Proof.
  unfold maybe_flush. repeat destruct_match; [| | done];
    by rewrite frame_view_flush, frame_view_debug.
Qed.

Lemma frame_view_after_vad p st prob :
  frame_view (after_vad p st prob)
  = (processed_samples_total (seg st) + Z.of_nat vad_chunk_samples,
     vad_failures st,
     vad_events (stdout (io st))
     ++ (if emit_vad_events p
         then [(Z.quot ((processed_samples_total (seg st) + Z.of_nat vad_chunk_samples)
                        * 1000) sample_rate, prob)]
         else [])).
Proof.
  destruct (after_vad_frame p st prob) as (Hseg & _ & _ & Hvad).
  unfold frame_view. rewrite Hseg, Hvad. f_equal.
  unfold after_vad, vad_failures. by destruct (emit_vad_events p).
Qed.

(** One turn of the loop, seen from the frame clock. *)
Lemma process_chunk_frame_view E p st :
  frame_view (process_chunk E p st)
  = match vad_infer E (vad_calls (io st))
            (take vad_chunk_samples (pending_samples (seg st))) with
    | None => (processed_samples_total (seg st), S (vad_failures st),
               vad_events (stdout (io st)))
    | Some prob =>
        (processed_samples_total (seg st) + Z.of_nat vad_chunk_samples,
         vad_failures st,
         vad_events (stdout (io st))
         ++ (if emit_vad_events p
             then [(Z.quot ((processed_samples_total (seg st)
                             + Z.of_nat vad_chunk_samples) * 1000) sample_rate, prob)]
             else []))
    end.
Proof.
  rewrite process_chunk_unfold. destruct (vad_infer E _ _) as [prob |].
  - rewrite <- frame_view_after_vad. cbn zeta. repeat destruct_match.
    + unfold start_segment.
      rewrite frame_view_put_seg; [by apply frame_view_debug | by rewrite seg_debug].
    + by rewrite frame_view_maybe_flush, frame_view_partial, frame_view_put_seg.
    + by rewrite frame_view_put_seg.
  - unfold frame_view. rewrite vad_failures_eprint. cbn.
    by rewrite Nat.add_1_r.
Qed.

End FrameClock.

Section FrameLoop.
Context `{FloatOps}.
Import Transcriber.
Implicit Types (E : env) (p : vad_params) (st : state) (s : seg_state).

Lemma vad_answers_S E c (pending : list float) k :
  vad_answers E c pending (S k)
  = vad_answers E c pending k
    ++ match vad_infer E (c + k) (frame pending k) with
       | Some prob => [prob]
       | None => []
       end.
Proof.
  unfold vad_answers. rewrite seq_S, omap_app. cbn. by destruct (vad_infer E _ _).
Qed.

Lemma vad_answers_length E c (pending : list float) m :
  (length (vad_answers E c pending m) <= m)%nat.
Proof.
  induction m as [| m IH]; [done |]. rewrite vad_answers_S, length_app.
  destruct (vad_infer E _ _); cbn; lia.
Qed.

Lemma vad_lines_snoc start (answers : list float) prob :
  vad_lines start (answers ++ [prob])
  = vad_lines start answers
    ++ [(Z.quot ((start + Z.of_nat vad_chunk_samples
                           * (Z.of_nat (length answers) + 1)) * 1000) sample_rate, prob)].
Proof. unfold vad_lines. rewrite imap_app. cbn. by rewrite Nat.add_0_r. Qed.

Lemma process_pending_chunks_clock E p st :
  let pending := pending_samples (seg st) in
  let m := (length pending / vad_chunk_samples)%nat in
  let answers := vad_answers E (vad_calls (io st)) pending m in
  let st' := process_pending_chunks E p st in
  processed_samples_total (seg st')
  = processed_samples_total (seg st)
    + Z.of_nat vad_chunk_samples * Z.of_nat (length answers)
  /\ vad_failures st' = (vad_failures st + (m - length answers))%nat
  /\ vad_events (stdout (io st'))
     = vad_events (stdout (io st))
       ++ (if emit_vad_events p
           then vad_lines (processed_samples_total (seg st)) answers else [])
  /\ pending_samples (seg st') = drop (vad_chunk_samples * m) pending.
Proof.
  intros pending m answers st'.
  set (c := vad_calls (io st)).
  set (P := fun (k : nat) (stk : state) =>
    pending_samples (seg stk) = drop (vad_chunk_samples * k) pending
    /\ vad_calls (io stk) = (c + k)%nat
    /\ frame_view stk
       = (processed_samples_total (seg st)
          + Z.of_nat vad_chunk_samples * Z.of_nat (length (vad_answers E c pending k)),
          (vad_failures st + (k - length (vad_answers E c pending k)))%nat,
          vad_events (stdout (io st))
          ++ (if emit_vad_events p
              then vad_lines (processed_samples_total (seg st)) (vad_answers E c pending k)
              else []))).
  assert (Hstep : forall k stk, P k stk ->
            (vad_chunk_samples <= length (pending_samples (seg stk)))%nat ->
            P (S k) (process_chunk E p stk)).
  { intros k stk (Hq & Hc & Hv) Hfull.
    destruct (process_chunk_queue E p stk) as [Hq' Hc'].
    split; [| split].
    - rewrite Hq', Hq, drop_drop. f_equal. lia.
    - rewrite Hc', Hc. lia.
    - rewrite process_chunk_frame_view, Hq, Hc. fold (frame pending k).
      unfold frame_view in Hv. injection Hv as Hproc Hfail Hev.
      rewrite vad_answers_S. pose proof (vad_answers_length E c pending k) as Hle.
      destruct (vad_infer E (c + k) (frame pending k)) as [prob |].
      + rewrite length_app, Hproc, Hfail, Hev. cbn [length]. f_equal; [f_equal; lia |].
        rewrite <- List.app_assoc. f_equal. destruct (emit_vad_events p); [| done].
        rewrite vad_lines_snoc. do 4 f_equal. lia.
      + rewrite app_nil_r, Hproc, Hfail, Hev. do 2 f_equal. lia. }
  destruct (process_loop_ind E p P Hstep (length (pending_samples (seg st))) st 0)
    as [(Hq & _ & Hv) _].
  - apply fuel_suffices.
  - unfold P. cbn. split; [done | split; [subst c; lia |]].
    unfold frame_view. f_equal; [f_equal; lia |].
    by destruct (emit_vad_events p); rewrite app_nil_r.
  - cbn [Nat.add] in Hq, Hv. unfold frame_view in Hv. injection Hv as Hproc Hfail Hev.
    by repeat split.
Qed.

Lemma vad_answers_all E c (pending : list float) m :
  (forall n frame, is_Some (vad_infer E n frame)) ->
  length (vad_answers E c pending m) = m.
Proof.
  intros Hall. induction m as [| m IH]; [done |]. rewrite vad_answers_S, length_app, IH.
  destruct (Hall (c + m)%nat (frame pending m)) as [prob ->]. cbn. lia.
Qed.

(** X11.  The frame clock of [process_pending_chunks].  Of the [m] whole
    frames queued, those the VAD answers advance [processed_samples_total] by
    512 samples each and, when VAD lines are enabled, print one [vad] line
    each, stamped with the end of the frame on that timeline; a frame whose
    VAD call throws is dropped: it leaves one line on stderr, prints nothing
    and does not advance the timeline.  All [m] frames leave the queue. *)
Theorem timeline_advances_by_answered_frames E p st :
  let pending := pending_samples (seg st) in
  let m := (length pending / vad_chunk_samples)%nat in
  let answers := vad_answers E (vad_calls (io st)) pending m in
  let st' := process_pending_chunks E p st in
  processed_samples_total (seg st')
  = processed_samples_total (seg st)
    + Z.of_nat vad_chunk_samples * Z.of_nat (length answers)
  /\ vad_failures st' = (vad_failures st + (m - length answers))%nat
  /\ vad_events (stdout (io st'))
     = vad_events (stdout (io st))
       ++ (if emit_vad_events p
           then vad_lines (processed_samples_total (seg st)) answers else [])
  /\ pending_samples (seg st') = drop (vad_chunk_samples * m) pending.
Proof. apply process_pending_chunks_clock. Qed.

End FrameLoop.

Section Flush.
Context `{FloatOps}.
Import Transcriber.
Implicit Types (E : env) (p : vad_params) (st : state) (s : seg_state).

Lemma flush_segment_idle E p st forced :
  in_segment (seg st) = false -> current_segment (seg st) = [] ->
  segment_prob_sum (seg st) = d_zero -> segment_prob_count (seg st) = 0 ->
  flush_segment E p st forced = st.
Proof.
  intros Hin Hcur Hsum Hcount. unfold flush_segment. rewrite Hin. cbn [negb orb].
  destruct st as [s d w o]. destruct s. cbn in *. by subst.
Qed.

Lemma flush_segment_closes E p st forced :
  let s' := seg (flush_segment E p st forced) in
  in_segment s' = false /\ current_segment s' = []
  /\ segment_prob_sum s' = d_zero /\ segment_prob_count s' = 0.
Proof.
  cbn zeta. unfold flush_segment.
  destruct (negb (in_segment (seg st)) || bool_decide (current_segment (seg st) = []));
    [done |].
  by destruct (keep_samples p (seg st) forced <? min_segment_samples p)%nat.
Qed.

(** X12.  A flush always closes the utterance: whatever branch it takes, the
    pipeline is left idle with an empty utterance buffer and zeroed VAD
    statistics, the queue, the timeline and the VAD lines are left as they
    were, and a second flush, forced or not, changes nothing at all. *)
Theorem flush_closes_the_utterance_once E p st forced forced' :
  let st' := flush_segment E p st forced in
  in_segment (seg st') = false
  /\ current_segment (seg st') = []
  /\ pending_samples (seg st') = pending_samples (seg st)
  /\ processed_samples_total (seg st') = processed_samples_total (seg st)
  /\ vad_events (stdout (io st')) = vad_events (stdout (io st))
  /\ flush_segment E p st' forced' = st'.
Proof.
  intros st'.
  destruct (flush_segment_closes E p st forced) as (Hin & Hcur & Hsum & Hcount).
  destruct (flush_segment_shape E p st forced) as (_ & Hq & _).
  pose proof (frame_view_flush E p st forced) as Hview.
  unfold frame_view in Hview. injection Hview as Hproc _ Hvad.
  split; [exact Hin |]. split; [exact Hcur |]. split; [exact Hq |].
  split; [exact Hproc |]. split; [exact Hvad |].
  by apply flush_segment_idle.
Qed.

End Flush.

(** ** The dictionary file *)

Section Splitting.
Import Transcriber.
Implicit Types (raw cur w : list ascii) (out ws : list string).

Lemma drop_spaces_clean w : Forall (fun c => isspace c = false) w -> drop_spaces w = w.
Proof. destruct 1 as [| c w Hc _]; [done |]. cbn. by rewrite Hc. Qed.

Lemma trim_clean w : Forall (fun c => isspace c = false) w -> trim w = w.
Proof.
  intros Hw. unfold trim. rewrite (drop_spaces_clean w Hw), drop_spaces_clean.
  - apply rev_involutive.
  - by apply List.Forall_rev.
Qed.

Lemma flush_word_clean cur out :
  Forall (fun c => isspace c = false) cur ->
  flush_word cur out
  = match cur with [] => out | _ => out ++ [string_of_list_ascii cur] end.
Proof.
  intros Hcur. unfold flush_word. destruct cur as [| c cur]; [done |].
  by rewrite trim_clean.
Qed.

Lemma clean_word_of_list cur :
  cur <> [] -> Forall (fun c => isspace c = false) cur ->
  clean_word (string_of_list_ascii cur).
Proof.
  intros Hne Hcur. split.
  - by destruct cur.
  - by rewrite list_ascii_of_string_of_list_ascii.
Qed.

Lemma flush_word_keeps_clean cur out :
  Forall (fun c => isspace c = false) cur -> Forall clean_word out ->
  Forall clean_word (flush_word cur out).
Proof.
  intros Hcur Hout. rewrite flush_word_clean by done.
  destruct cur as [| c cur]; [done |].
  apply Forall_app. split; [done |]. apply Forall_singleton.
  by apply clean_word_of_list.
Qed.

Lemma split_words_clean raw cur out :
  Forall (fun c => isspace c = false) cur -> Forall clean_word out ->
  Forall clean_word (split_words raw cur out).
Proof.
  revert cur out. induction raw as [| c raw IH]; intros cur out Hcur Hout; cbn.
  - by apply flush_word_keeps_clean.
  - destruct (isspace c) eqn:Hc.
    + apply IH; [done |]. by apply flush_word_keeps_clean.
    + apply IH; [| done]. apply Forall_app. split; [done |]. by apply Forall_singleton.
Qed.

Lemma uniq_words_spec ws (seen : gset string) :
  NoDup (uniq_words ws seen)
  /\ forall x, x ∈ uniq_words ws seen <-> x ∈ ws /\ x <> EmptyString /\ x ∉ seen.
Proof.
  revert seen. induction ws as [| s ws IH]; intros seen; cbn.
  - split; [constructor |]. intros x. split; [by intros ?%elem_of_nil |].
    by intros [?%elem_of_nil _].
  - destruct (decide (s = EmptyString)) as [-> | Hs].
    { destruct (IH seen) as [Hnd Hin]. split; [done |]. intros x.
      rewrite Hin, elem_of_cons. split.
      - intros (Hx & Hne & Hout). split; [by right | done].
      - intros ([-> | Hx] & Hne & Hout); done. }
    destruct (decide (s ∈ seen)) as [Hseen | Hnew].
    { destruct (IH seen) as [Hnd Hin]. split; [done |]. intros x.
      rewrite Hin, elem_of_cons. split.
      - intros (Hx & Hne & Hout). split; [by right | done].
      - intros ([-> | Hx] & Hne & Hout); done. }
    destruct (IH ({[s]} ∪ seen)) as [Hnd Hin]. split.
    + constructor; [| done]. rewrite Hin. intros (_ & _ & Hx). apply Hx.
      apply elem_of_union. left. by apply elem_of_singleton.
    + intros x. rewrite !elem_of_cons, Hin. split.
      * intros [-> | (Hx & Hne & Hout)]; [split; [by left | done] |].
        split; [by right |]. split; [done |]. intros Hx'. apply Hout.
        apply elem_of_union. by right.
      * intros ([-> | Hx] & Hne & Hout); [by left |].
        destruct (decide (x = s)) as [-> | Hxs]; [by left |]. right.
        split; [done |]. split; [done |]. intros [Hx' | Hx']%elem_of_union; [| done].
        by apply elem_of_singleton in Hx'.
Qed.

(** X13.  The entries read from a dictionary file are distinct words: no
    entry is empty, none contains white space, and none occurs twice. *)
Theorem dictionary_entries_are_distinct_words (raw : string) :
  NoDup (split_dictionary_entries raw)
  /\ Forall clean_word (split_dictionary_entries raw).
Proof.
  unfold split_dictionary_entries.
  destruct (uniq_words_spec (split_words (list_ascii_of_string raw) [] []) ∅)
    as [Hnd Hin].
  split; [done |]. apply Forall_forall. intros x [Hx _]%Hin.
  eapply Forall_forall in Hx; [done |]. by apply split_words_clean.
Qed.

Lemma split_words_word w c raw cur out :
  Forall (fun c => isspace c = false) w -> isspace c = true ->
  split_words (w ++ c :: raw) cur out = split_words raw [] (flush_word (cur ++ w) out).
Proof.
  intros Hw Hc. revert cur. induction Hw as [| a w Ha _ IH]; intros cur; cbn.
  - by rewrite Hc, app_nil_r.
  - rewrite Ha, IH. by rewrite <- List.app_assoc.
Qed.

Lemma list_ascii_of_string_append (s t : string) :
  list_ascii_of_string (String.append s t)
  = list_ascii_of_string s ++ list_ascii_of_string t.
Proof.
  induction s as [| c s IH]; [done |].
  change (String.append (String c s) t) with (String c (String.append s t)).
  cbn [list_ascii_of_string app]. by rewrite IH.
Qed.

Lemma split_words_lines ws out :
  Forall clean_word ws ->
  split_words (list_ascii_of_string (one_per_line ws)) [] out = out ++ ws.
Proof.
  intros Hws. revert out. induction Hws as [| w ws [Hne Hw] _ IH]; intros out; cbn.
  - by rewrite app_nil_r.
  - rewrite list_ascii_of_string_append. cbn [list_ascii_of_string].
    rewrite split_words_word by done. cbn [app]. rewrite flush_word_clean by done.
    destruct (list_ascii_of_string w) as [| a l] eqn:Hl.
    { destruct w; [done | discriminate]. }
    rewrite <- Hl, string_of_list_ascii_of_string, IH. by rewrite <- List.app_assoc.
Qed.

Lemma uniq_words_distinct ws (seen : gset string) :
  NoDup ws -> Forall (fun e : string => e <> EmptyString /\ e ∉ seen) ws ->
  uniq_words ws seen = ws.
Proof.
  intros Hnd. revert seen. induction Hnd as [| w ws Hw _ IH]; intros seen Hall; [done |].
  apply Forall_cons in Hall as [[Hne Hout] Hall]. cbn.
  destruct (decide (w = EmptyString)); [done |].
  destruct (decide (w ∈ seen)); [done |]. f_equal. apply IH.
  apply Forall_forall. intros x Hx. eapply Forall_forall in Hall as [Hxne Hxout]; [| done].
  split; [done |]. intros [Hx' | Hx']%elem_of_union; [| done].
  apply elem_of_singleton in Hx'. by subst.
Qed.

(** X14.  A dictionary written one entry per line is read back as it was
    written: when the entries are distinct, non-empty and free of white
    space, [split_dictionary_entries] returns them in order. *)
Theorem dictionary_file_round_trip ws :
  NoDup ws -> Forall clean_word ws ->
  split_dictionary_entries (one_per_line ws) = ws.
Proof.
  intros Hnd Hws. unfold split_dictionary_entries.
  rewrite split_words_lines by done. cbn [app]. apply uniq_words_distinct; [done |].
  eapply Forall_impl; [exact Hws |]. intros w [Hne _]. split; [done |].
  apply not_elem_of_empty.
Qed.

End Splitting.

Lemma dictionary_file_round_trip_witness :
  Transcriber.split_dictionary_entries (one_per_line ["widget"; "openflow"]%string)
  = ["widget"; "openflow"]%string.
Proof.
  apply (dictionary_file_round_trip ["widget"; "openflow"]%string).
  - repeat constructor; rewrite ?elem_of_cons, ?elem_of_nil; intros Hx;
      repeat (destruct Hx as [Hx | Hx]; [discriminate |]); done.
  - repeat constructor; (discriminate || reflexivity).
Defined.

Section DictLift.
Context `{FloatOps}.
Import Transcriber.
Implicit Types (E : env) (p : vad_params) (st : state) (s : seg_state).

Lemma dict_debug p st l : dict (debug_print p st l) = dict st.
Proof. unfold debug_print. by destruct (debug p). Qed.

Lemma dict_emit E p st audio si start fin avg ps :
  dict (emit_transcription E p st audio si start fin avg ps)
  = dict (match audio with
          | [] => st
          | _ => reload_dictionary_if_needed E p st si ps fin false
          end).
Proof.
  unfold emit_transcription. destruct audio as [| x audio]; [done |].
  pose proof (configure_decode_frame E p
                (reload_dictionary_if_needed E p st si ps fin false) si ps fin)
    as (_ & Hd & _).
  destruct (configure_decode _ _ _ _ _ _) as [st1 w]. cbn [fst] in Hd.
  by destruct (whisper_full _ _ _ _).
Qed.

(** A property of the dictionary state that every reload keeps holds in every
    state the pipeline reaches. *)
Section Lift.
Variables (E : env) (p : vad_params).
Variable Q : dict_state -> Prop.
Hypothesis Q_reload :
  forall st si ps fin force,
    Q (dict st) -> Q (dict (reload_dictionary_if_needed E p st si ps fin force)).
Hypothesis Q_init : forall t_min f_min, Q (dict (initial_state t_min f_min)).

Lemma lift_emit st audio si start fin avg ps :
  Q (dict st) -> Q (dict (emit_transcription E p st audio si start fin avg ps)).
Proof.
  intros HQ. rewrite dict_emit. destruct audio; [done | by apply Q_reload].
Qed.

Lemma lift_flush st forced : Q (dict st) -> Q (dict (flush_segment E p st forced)).
Proof.
  intros HQ. unfold flush_segment.
  destruct (negb (in_segment (seg st)) || bool_decide (current_segment (seg st) = []));
    [done |].
  destruct (keep_samples p (seg st) forced <? min_segment_samples p)%nat.
  - cbn. by rewrite dict_debug.
  - cbn [dict put_seg]. by apply lift_emit.
Qed.

Lemma lift_partial st : Q (dict st) -> Q (dict (maybe_emit_partial E p st)).
Proof.
  intros HQ. unfold maybe_emit_partial. destruct_match; [| done].
  cbn [dict put_seg]. by apply lift_emit.
Qed.

Lemma lift_maybe_flush st prob : Q (dict st) -> Q (dict (maybe_flush E p st prob)).
Proof.
  intros HQ. unfold maybe_flush.
  repeat match goal with |- Q (dict (if ?c then _ else _)) => destruct c end; [| | done];
    apply lift_flush; by rewrite dict_debug.
Qed.

Lemma lift_chunk st : Q (dict st) -> Q (dict (process_chunk E p st)).
Proof.
  intros HQ. rewrite process_chunk_unfold.
  destruct (vad_infer E _ _) as [prob |]; [| done].
  assert (H1 : dict (after_vad p st prob) = dict st)
    by (unfold after_vad; by destruct (emit_vad_events p)).
  cbn zeta.
  repeat match goal with |- Q (dict (if ?c then _ else _)) => destruct c end.
  - unfold start_segment. cbn [dict put_seg]. by rewrite dict_debug, H1.
  - apply lift_maybe_flush, lift_partial. cbn [dict put_seg]. by rewrite H1.
  - cbn [dict put_seg]. by rewrite H1.
Qed.

Lemma lift_step st st' : step E p st st' -> Q (dict st) -> Q (dict st').
Proof.
  intros Hstep HQ. destruct Hstep; try done.
  - by apply Q_reload.
  - by apply lift_chunk.
  - by apply lift_flush.
  - match goal with
    | Hq : mic_queue _ _ _ = Some _ |- _ =>
        destruct (mic_queue_frame _ _ _ _ Hq) as (tail & t & ->)
    end.
    done.
Qed.

Lemma lift_reachable st : reachable E p st -> Q (dict st).
Proof.
  induction 1 as [| st st' _ IH Hstep]; [apply Q_init | by eapply lift_step].
Qed.

End Lift.
End DictLift.

Section Accounting.
Context `{FloatOps}.
Import Transcriber.
Implicit Types (E : env) (p : vad_params) (st : state) (d : dict_state) (a : tok_acc).

Lemma tokenize_variant_cases E entry a text :
  tokenize_variant E entry a text = a
  \/ exists sq fresh,
       sq <> []
       /\ acc_token_seqs (tokenize_variant E entry a text) = acc_token_seqs a ++ [sq]
       /\ acc_entry_texts (tokenize_variant E entry a text) = acc_entry_texts a ++ [entry]
       /\ acc_first_tokens (tokenize_variant E entry a text)
          = acc_first_tokens a ++ fresh
       /\ (length fresh <= 1)%nat
       /\ Forall (fun x => head sq = Some x) fresh
       /\ total_tokens a + 1 <= total_tokens (tokenize_variant E entry a text).
Proof.
  unfold tokenize_variant.
  destruct (Z.leb_spec (whisper_token_count E text) 0) as [| Hneeded]; [by left |].
  destruct (whisper_tokenize E text _) as [n_got written].
  destruct (Z.leb_spec n_got 0) as [| Hgot]; [by left |]. right.
  set (sq := resize (Z.to_nat n_got) 0 _).
  assert (Hsq : sq <> []).
  { intros Hnil. apply (f_equal length) in Hnil. subst sq.
    rewrite length_resize in Hnil. cbn in Hnil. lia. }
  destruct sq as [| first sq'] eqn:Hdef; [done |].
  exists (first :: sq'). cbn.
  destruct (bool_decide (first ∈ first_seen a)); cbn.
  - exists []. rewrite app_nil_r. repeat split; try done; cbn; lia.
  - exists [first]. repeat split; try done; cbn; try lia. by apply Forall_singleton.
Qed.

Lemma tokenize_variant_sized E (entries : list string) entry a text :
  entry ∈ entries -> variant_sized entries a ->
  variant_sized entries (tokenize_variant E entry a text)
  /\ (length (acc_token_seqs (tokenize_variant E entry a text))
      <= S (length (acc_token_seqs a)))%nat.
Proof.
  intros Hentry (Hfirst & Htotal & Hseqs & Hheads & Htexts).
  destruct (tokenize_variant_cases E entry a text)
    as [-> | (sq & fresh & Hsq & Hs & Ht & Hf & Hfresh & Hhead & Htot)].
  - split; [done | lia].
  - unfold variant_sized. rewrite Hs, Ht, Hf, !length_app. cbn [length]. split; [| lia].
    split; [lia |]. split; [lia |]. split; [| split].
    + apply Forall_app. split; [done |]. by apply Forall_singleton.
    + apply Forall_app. split.
      * eapply Forall_impl; [exact Hheads |]. intros x (sq0 & Hin & Hx).
        exists sq0. split; [| done]. apply elem_of_app. by left.
      * eapply Forall_impl; [exact Hhead |]. intros x Hx. exists sq.
        split; [| done]. apply elem_of_app. right. by apply list_elem_of_singleton.
    + apply Forall_app. split; [done |]. by apply Forall_singleton.
Qed.

Lemma tokenize_entry_sized E (done : list string) entry a :
  tok_acc_sized done a -> tok_acc_sized (done ++ [entry]) (tokenize_entry E a entry).
Proof.
  intros (Hfirst & Hcount & Htotal & Hseqs & Hheads & Htexts).
  assert (Hentry : entry ∈ done ++ [entry])
    by (apply elem_of_app; right; by apply list_elem_of_singleton).
  assert (Hbase : variant_sized (done ++ [entry]) a).
  { repeat split; try done. eapply Forall_impl; [exact Htexts |].
    intros t Ht. apply elem_of_app. by left. }
  unfold tok_acc_sized. rewrite length_app. cbn [length].
  unfold tokenize_entry. destruct entry as [| c entry'].
  { destruct Hbase as (? & ? & ? & ? & ?). repeat split; try done. lia. }
  set (entry := String c entry') in *.
  destruct (Ascii.eqb c " "); cbn [fold_left].
  - destruct (tokenize_variant_sized E (done ++ [entry]) entry a entry Hentry Hbase)
      as [(? & ? & ? & ? & ?) Hlen].
    repeat split; try done. lia.
  - destruct (tokenize_variant_sized E (done ++ [entry]) entry a entry Hentry Hbase)
      as [Hbase1 Hlen1].
    destruct (tokenize_variant_sized E (done ++ [entry]) entry _
                (String " " entry) Hentry Hbase1) as [(? & ? & ? & ? & ?) Hlen2].
    repeat split; try done. lia.
Qed.

Lemma tokenize_entries_sized E (entries done : list string) a :
  tok_acc_sized done a ->
  tok_acc_sized (done ++ entries) (fold_left (tokenize_entry E) entries a).
Proof.
  revert done a. induction entries as [| entry entries IH]; intros done a Ha; cbn.
  - by rewrite app_nil_r.
  - replace (done ++ entry :: entries) with ((done ++ [entry]) ++ entries)
      by (by rewrite <- List.app_assoc).
    by apply IH, tokenize_entry_sized.
Qed.

Lemma rebuild_dictionary_sized E d contents mtime :
  dictionary_sized (rebuild_dictionary E d contents mtime).
Proof.
  destruct (tokenize_entries_sized E (split_dictionary_entries contents) [] tok_acc_empty)
    as (Hfirst & Hcount & Htotal & Hseqs & Hheads & Htexts).
  { repeat split; cbn; (done || lia || constructor). }
  cbn [app] in Hcount, Htexts. unfold dictionary_sized, rebuild_dictionary. cbn.
  repeat split; try done; lia.
Qed.

Lemma clear_dictionary_sized d err : dictionary_sized (clear_dictionary d err).
Proof. unfold dictionary_sized. cbn. repeat split; (done || lia || constructor). Qed.

Lemma initial_dictionary_sized t_min f_min :
  dictionary_sized (dict (initial_state t_min f_min)).
Proof. unfold dictionary_sized. cbn. repeat split; (done || lia || constructor). Qed.

(** Every path of a reload ends in [emit_dictionary_event] or returns before
    touching anything. *)
Lemma reload_cases E p st si ps fin force :
  let st' := reload_dictionary_if_needed E p st si ps fin force in
  (dict st' = dict st /\ stdout (io st') = stdout (io st))
  \/ exists st1 rel,
       st' = emit_dictionary_event E p st1 si ps fin true rel
       /\ stdout (io st1) = stdout (io st)
       /\ reload_outcome E (dict st) (dict st1).
Proof.
  cbn zeta. unfold reload_dictionary_if_needed, reload_outcome.
  destruct (bool_decide (dictionary_path p = "")).
  { right. eexists _, _. split; [done |]. split; [done |].
    right. right. left. by eexists _, _. }
  destruct (negb _); [by left |].
  destruct (last_write_time E _) as [message | mtime].
  { right. eexists _, _. split; [done |]. split; [done |].
    right. right. left. by eexists _, _. }
  destruct (negb force && _).
  { right. eexists _, _. split; [done |]. split; [done |]. right. left. by eexists. }
  destruct (open_file E _) as [contents |].
  - right. eexists _, _. split; [done |]. split.
    + unfold debug_print. by destruct (debug p).
    + right. right. right. unfold debug_print. destruct (debug p); by eexists _, _, _.
  - right. eexists _, _. split; [done |]. split; [done |].
    right. right. left. by eexists _, _.
Qed.

Lemma reload_outcome_dict E p st si ps fin force :
  reload_outcome E (dict st) (dict (reload_dictionary_if_needed E p st si ps fin force)).
Proof.
  destruct (reload_cases E p st si ps fin force)
    as [[-> _] | (st1 & rel & -> & _ & Hout)]; [by left |].
  by rewrite emit_dictionary_event_dict.
Qed.

Lemma reload_outcome_sized E d d' :
  reload_outcome E d d' -> dictionary_sized d -> dictionary_sized d'.
Proof.
  intros [-> | [[now ->] | [(d0 & err & ->) | (d0 & contents & mtime & ->)]]] Hd.
  - done.
  - done.
  - apply clear_dictionary_sized.
  - apply rebuild_dictionary_sized.
Qed.

Lemma reload_outcome_invariant E d d' :
  reload_outcome E d d' -> dict_invariant d -> dict_invariant d'.
Proof.
  intros [-> | [[now ->] | [(d0 & err & ->) | (d0 & contents & mtime & ->)]]] Hd.
  - done.
  - by apply set_last_dictionary_reload_invariant.
  - apply clear_dictionary_invariant.
  - apply rebuild_dictionary_invariant.
Qed.

Lemma reachable_dictionary E p st :
  reachable E p st -> dictionary_sized (dict st) /\ dict_invariant (dict st).
Proof.
  apply (lift_reachable E p (fun d => dictionary_sized d /\ dict_invariant d)).
  - intros st0 si ps fin force [Hs Hi].
    pose proof (reload_outcome_dict E p st0 si ps fin force) as Hout.
    split; [by eapply reload_outcome_sized | by eapply reload_outcome_invariant].
  - intros t_min f_min. split; [apply initial_dictionary_sized |].
    pose proof (clear_dictionary_invariant (dict (initial_state t_min f_min)) "") as Hc.
    unfold dict_invariant in *. cbn in *. done.
Qed.

(** X15.  In every state the pipeline reaches the tokenized dictionary adds
    up: a dictionary entry gives at most two token sequences and none of them
    is empty, there are no more first tokens than sequences and each of them
    starts a sequence, every entry text is an entry of the cached file, and
    while an error is recorded the dictionary is empty. *)
Theorem dictionary_accounting_holds E p st :
  reachable E p st -> dictionary_sized (dict st).
Proof. intros Hreach. by apply reachable_dictionary in Hreach as [? _]. Qed.

Lemma emit_dictionary_event_line E p st si ps fin rel :
  dictionary_sized (dict st) ->
  exists e,
    stdout (io (emit_dictionary_event E p st si ps fin true rel))
    = stdout (io st) ++ [EvDictionary e]
    /\ dictionary_line_ok e /\ de_reloaded e = rel.
Proof.
  intros (Hfirst & Hcount & Htotal & _ & _ & _ & Herr).
  unfold emit_dictionary_event. eexists. split; [done |]. split; [| done].
  unfold dictionary_line_ok. cbn.
  split; [done |]. split; [done |]. split; [lia |]. split; [lia |]. split; [lia |].
  split.
  - destruct (verbose_dictionary_packets p); cbn; [| lia].
    rewrite length_map, length_take. lia.
  - intros Hok. apply bool_decide_eq_false in Hok.
    destruct (Herr Hok) as (-> & -> & -> & _ & -> & ->). done.
Qed.

(** X16.  The numbers of a [dictionary] line agree with each other.  A
    reload made in any state the pipeline reaches prints at most one line,
    and on that line [ok] is false exactly when an error is given,
    [dict_first_tokens <= dict_entries <= 2 * dict_entries_raw],
    [dict_entries <= dict_total_tokens], at most 40 words are listed, and a
    line with [ok = false] reports an empty dictionary. *)
Theorem dictionary_lines_are_consistent E p st si ps fin force :
  reachable E p st ->
  let st' := reload_dictionary_if_needed E p st si ps fin force in
  stdout (io st') = stdout (io st)
  \/ exists e, stdout (io st') = stdout (io st) ++ [EvDictionary e]
               /\ dictionary_line_ok e.
Proof.
  intros Hreach st'. apply reachable_dictionary in Hreach as [Hsized _].
  destruct (reload_cases E p st si ps fin force)
    as [[_ Hout] | (st1 & rel & Hst' & Hout & Hcase)]; [by left |].
  right. eapply reload_outcome_sized in Hsized; [| exact Hcase].
  destruct (emit_dictionary_event_line E p st1 si ps fin rel Hsized) as (e & He & Hok & _).
  exists e. subst st'. by rewrite Hst', He, Hout.
Qed.

End Accounting.

Section BiasPipeline.
Context `{FloatOps}.
Import Transcriber.
Implicit Types (E : env) (p : vad_params) (st : state) (d : dict_state).

Lemma boost_continuations_first_step n_vocab token_beg kc seqs
    (acc : list float * gmap Z float) :
  fold_left (Bias.continuation_step n_vocab token_beg kc []) seqs acc = acc.
Proof.
  induction seqs as [| sq seqs IH]; [done |]. cbn [fold_left].
  replace (Bias.continuation_step n_vocab token_beg kc [] acc sq) with acc; [done |].
  unfold Bias.continuation_step. by destruct (length sq <? 2)%nat.
Qed.

Lemma callback_first_step n_vocab token_beg bctx (logits : list float) :
  Bias.enabled bctx = true -> 0 < n_vocab ->
  Bias.logits_out (Bias.whisper_logits_filter_cb n_vocab token_beg bctx [] logits)
  = fold_left (fun l tid => Bias.add_bias n_vocab token_beg l tid (Bias.bias_first_logit bctx))
      (default [] (Bias.dict_first_tokens bctx)) logits.
Proof.
  intros He Hn.
  destruct (callback_unfold n_vocab token_beg bctx [] logits He Hn) as (-> & _ & _).
  assert (Hc : Bias.boost_continuations n_vocab token_beg bctx [] logits = (logits, ∅)).
  { unfold Bias.boost_continuations. destruct (Bias.dict_token_seqs bctx); [| done].
    apply boost_continuations_first_step. }
  rewrite Hc. unfold Bias.boost_first_tokens. cbn [fst snd].
  destruct (Bias.dict_first_tokens bctx) as [firsts |]; [| done].
  destruct (decide (∅ = ∅)) as [_ | ?]; [| done]. by rewrite boost_first_fold.
Qed.

Lemma callback_without_dictionary n_vocab token_beg bctx tokens (logits : list float) :
  Bias.dict_token_seqs bctx = None -> Bias.dict_first_tokens bctx = None ->
  Bias.logits_out (Bias.whisper_logits_filter_cb n_vocab token_beg bctx tokens logits)
  = logits.
Proof.
  intros Hs Hf. unfold Bias.whisper_logits_filter_cb.
  destruct (negb (Bias.enabled bctx)); [done |].
  destruct (n_vocab <=? 0); [done |].
  unfold Bias.boost_continuations, Bias.boost_first_tokens. by rewrite Hs, Hf.
Qed.

Lemma add_bias_lookup n_vocab token_beg (logits : list float) tid b (i : nat) v :
  logits !! i = Some v ->
  Bias.add_bias n_vocab token_beg logits tid b !! i
  = Some (if bool_decide (tid = Z.of_nat i) && boostable n_vocab token_beg i v
          then f_add v b else v).
Proof.
  intros Hv. unfold Bias.add_bias, boostable.
  destruct (decide (tid = Z.of_nat i)) as [-> | Hne].
  - rewrite bool_decide_eq_true_2 by done. rewrite Nat2Z.id, Hv.
    destruct (Z.ltb_spec (Z.of_nat i) 0); [lia |].
    destruct (Z.leb_spec n_vocab (Z.of_nat i)), (Z.ltb_spec (Z.of_nat i) n_vocab);
      try lia; cbn; [done |].
    destruct ((0 <? token_beg) && (token_beg <=? Z.of_nat i)); cbn; [done |].
    destruct (f_isfinite v); [| done].
    by rewrite list_lookup_insert_eq by (by eapply lookup_lt_Some).
  - rewrite bool_decide_eq_false_2 by done. cbn.
    destruct ((tid <? 0) || (n_vocab <=? tid)) eqn:Hrange; [done |].
    destruct ((0 <? token_beg) && (token_beg <=? tid)); [done |].
    destruct (logits !! Z.to_nat tid) as [w |]; [| done].
    destruct (f_isfinite w); [| done].
    rewrite list_lookup_insert_ne; [done |].
    apply orb_false_iff in Hrange as [Hneg _]. apply Z.ltb_ge in Hneg. lia.
Qed.

Lemma first_boosts_lookup n_vocab token_beg kf firsts (logits : list float) (i : nat) v :
  NoDup firsts -> logits !! i = Some v ->
  fold_left (fun l tid => Bias.add_bias n_vocab token_beg l tid kf) firsts logits !! i
  = Some (if bool_decide (Z.of_nat i ∈ firsts) && boostable n_vocab token_beg i v
          then f_add v kf else v).
Proof.
  intros Hnd. revert logits v.
  induction Hnd as [| tid firsts Hfresh _ IH]; intros logits v Hv; [done |].
  cbn [fold_left].
  pose proof (add_bias_lookup n_vocab token_beg logits tid kf i v Hv) as H1.
  rewrite (IH _ _ H1).
  destruct (decide (tid = Z.of_nat i)) as [-> | Hne].
  - rewrite (bool_decide_eq_true_2 (Z.of_nat i = Z.of_nat i)) by done.
    rewrite (bool_decide_eq_false_2 (Z.of_nat i ∈ firsts)) by done.
    rewrite (bool_decide_eq_true_2 (Z.of_nat i ∈ Z.of_nat i :: firsts))
      by (by apply elem_of_cons; left).
    done.
  - rewrite (bool_decide_eq_false_2 (tid = Z.of_nat i)) by done. cbn [andb].
    destruct (decide (Z.of_nat i ∈ firsts)) as [Hin | Hout].
    + rewrite !bool_decide_eq_true_2; [done | by apply elem_of_cons; right | done].
    + rewrite !bool_decide_eq_false_2; [done | | done].
      intros [? | ?]%elem_of_cons; [by subst | done].
Qed.

Lemma first_tokens_start_entries d x :
  dictionary_sized d -> dict_invariant d ->
  x ∈ dictionary_first_tokens d <-> starts_entry d x.
Proof.
  intros (_ & _ & _ & _ & Hheads & _) (Hseqs & Hids & _). split.
  - intros Hx. by eapply Forall_forall in Hheads.
  - intros (sq & Hsq & Hhead). eapply Forall_forall in Hseqs as (first & Hf & Hin); [| done].
    apply Hids. congruence.
Qed.

(** X17.  At the first decode step the callback boosts the tokens that start
    a dictionary sequence, each of them once.  With the context the pipeline
    builds in any state it reaches and an empty prefix, the logit at index
    [i] becomes [v + bias_first_logit] when [i] is the first token of some
    sequence and passes the guards of [add_bias], and is left as it was
    otherwise. *)
Theorem first_step_boosts_each_entry_start_once
    E p st si ps fin n_vocab token_beg (logits : list float) (i : nat) v :
  reachable E p st -> 0 < n_vocab -> logits !! i = Some v ->
  let out :=
    Bias.logits_out
      (Bias.whisper_logits_filter_cb n_vocab token_beg
         (make_bias_context E p st si ps fin) [] logits) in
  (starts_entry (dict st) (Z.of_nat i) -> boostable n_vocab token_beg i v = true ->
   out !! i = Some (f_add v (bias_first_logit p)))
  /\ (~ starts_entry (dict st) (Z.of_nat i) \/ boostable n_vocab token_beg i v = false ->
      out !! i = Some v).
Proof.
  intros Hreach Hn Hv out. apply reachable_dictionary in Hreach as [Hsized Hinv].
  pose proof (first_tokens_start_entries (dict st) (Z.of_nat i) Hsized Hinv) as Hstart.
  assert (Hout : out !! i
                 = Some (if bool_decide (Z.of_nat i ∈ dictionary_first_tokens (dict st))
                            && boostable n_vocab token_beg i v
                         then f_add v (bias_first_logit p) else v)).
  { subst out. rewrite callback_first_step by done.
    replace (default [] (Bias.dict_first_tokens (make_bias_context E p st si ps fin)))
      with (dictionary_first_tokens (dict st))
      by (cbn; by destruct (dictionary_first_tokens (dict st))).
    apply first_boosts_lookup; [| done]. by destruct Hinv as (_ & _ & Hnd & _). }
  rewrite Hout. split.
  - intros Hs Hb. by rewrite bool_decide_eq_true_2, Hb by (by apply Hstart).
  - intros [Hs | Hb].
    + rewrite bool_decide_eq_false_2; [done |]. by rewrite Hstart.
    + by rewrite Hb, andb_false_r.
Qed.

(** X18.  After a failed reload decoding is neither prompted nor biased.
    In any state the pipeline reaches with a dictionary error recorded, the
    parameters built for [whisper_full] carry no initial prompt, and the
    callback installed for bias decoding returns every logit unchanged. *)
Theorem dictionary_error_disables_prompt_and_bias E p st si ps fin :
  reachable E p st -> last_dictionary_error (dict st) <> EmptyString ->
  let w := (configure_decode E p st si ps fin).2 in
  initial_prompt w = None
  /\ forall bctx, logits_filter_callback_user_data w = Some bctx ->
       forall n_vocab token_beg tokens (logits : list float),
         Bias.logits_out (Bias.whisper_logits_filter_cb n_vocab token_beg bctx tokens logits)
         = logits.
Proof.
  intros Hreach Herr w. apply reachable_dictionary in Hreach as [Hsized _].
  destruct Hsized as (_ & _ & _ & _ & _ & _ & Hempty).
  destruct (Hempty Herr) as (Hcache & Hseqs & Hfirsts & _).
  subst w. unfold configure_decode. rewrite Hcache.
  rewrite (bool_decide_eq_true_2 (EmptyString = EmptyString)) by done.
  rewrite andb_false_r. destruct (bias_decoding p); cbn [snd initial_prompt
    logits_filter_callback_user_data]; (split; [done |]); [| done].
  intros bctx [= <-] n_vocab token_beg tokens logits.
  apply callback_without_dictionary; cbn; by rewrite ?Hseqs, ?Hfirsts.
Qed.

End BiasPipeline.

Lemma state_loaded_reachable : reachable env_silent params_dictionary state_loaded.
Proof.
  eapply reachable_step; [apply (reachable_init _ _ (-1000000) 0) |].
  apply (step_reload env_silent params_dictionary state0 (-1) (-1) false true).
Qed.

Lemma state_without_dictionary_reachable :
  reachable env_silent params_default state_without_dictionary.
Proof.
  eapply reachable_step; [apply (reachable_init _ _ (-1000000) 0) |].
  apply (step_reload env_silent params_default state0 (-1) (-1) false true).
Qed.

Lemma dictionary_accounting_holds_witness :
  length (Transcriber.dictionary_token_seqs (Transcriber.dict state_loaded)) = 4%nat
  /\ Transcriber.last_dictionary_entries_raw (Transcriber.dict state_loaded) = 2
  /\ dictionary_sized (Transcriber.dict state_loaded).
Proof.
  split; [vm_compute; reflexivity |]. split; [vm_compute; reflexivity |].
  apply (dictionary_accounting_holds env_silent params_dictionary state_loaded).
  exact state_loaded_reachable.
Defined.

Lemma dictionary_lines_are_consistent_witness :
  exists e,
    Transcriber.stdout (Transcriber.io state_loaded) = [Transcriber.EvDictionary e]
    /\ Transcriber.de_dict_entries e = 4
    /\ dictionary_line_ok e.
Proof.
  destruct (dictionary_lines_are_consistent env_silent params_dictionary state0
              (-1) (-1) false true (reachable_init _ _ (-1000000) 0))
    as [Hsame | (e & He & Hok)].
  - vm_compute in Hsame. discriminate Hsame.
  - exists e. split; [exact He |]. split; [| exact Hok].
    vm_compute in He. injection He as <-. reflexivity.
Defined.

Lemma first_step_boosts_each_entry_start_once_witness :
  let out :=
    Bias.logits_out
      (Bias.whisper_logits_filter_cb 200 150
         (Transcriber.make_bias_context env_silent params_dictionary state_loaded 0 0 false)
         [] logits200) in
  out !! 119%nat = Some (Some 1350) /\ out !! 120%nat = Some (Some 1000).
Proof.
  intros out. split.
  - destruct (first_step_boosts_each_entry_start_once env_silent params_dictionary
                state_loaded 0 0 false 200 150 logits200 119 (Some 1000)
                state_loaded_reachable) as [Hboost _]; [lia | reflexivity |].
    apply Hboost; [| reflexivity].
    exists (byte_tokens "widget"). split; [| reflexivity].
    vm_compute. apply elem_of_cons. left. reflexivity.
  - vm_compute. reflexivity.
Defined.

Lemma dictionary_error_disables_prompt_and_bias_witness :
  Transcriber.last_dictionary_error (Transcriber.dict state_without_dictionary)
  = "dictionary_file not set"%string
  /\ Transcriber.initial_prompt
       (Transcriber.configure_decode env_silent params_default state_without_dictionary
          0 0 true).2 = None.
Proof.
  split; [vm_compute; reflexivity |].
  destruct (dictionary_error_disables_prompt_and_bias env_silent params_default
              state_without_dictionary 0 0 true state_without_dictionary_reachable)
    as [Hprompt _]; [vm_compute; discriminate | exact Hprompt].
Defined.

(** ** Escaping and packets *)

Section Escaping.
Import Json.

Lemma escape_fold (l acc : list ascii) :
  fold_left (fun out c => out ++ escape_char c) l acc = acc ++ concat (map escape_char l).
Proof.
  revert acc. induction l as [| c l IH]; intros acc; cbn.
  - by rewrite app_nil_r.
  - by rewrite IH, <- List.app_assoc.
Qed.

Lemma escape_json_bytes (s : string) :
  list_ascii_of_string (escape_json s) = concat (map escape_char (list_ascii_of_string s)).
Proof.
  unfold escape_json. by rewrite list_ascii_of_string_of_list_ascii, escape_fold.
Qed.

(** What [escape_char] appends: the byte itself when it needs no escape, or
    a backslash and a printable byte. *)
Lemma escape_char_cases (c : ascii) :
  (escape_char c = [c]
   /\ c <> backslash /\ c <> double_quote /\ c <> line_feed
   /\ c <> carriage_return /\ c <> tab)
  \/ (exists e, escape_char c = [backslash; e]
                /\ e <> line_feed /\ e <> carriage_return /\ e <> tab
                /\ c = (if Ascii.eqb e "n"%char then line_feed
                        else if Ascii.eqb e "r"%char then carriage_return
                        else if Ascii.eqb e "t"%char then tab
                        else e)).
Proof.
  unfold escape_char.
  destruct (Ascii.eqb_spec c backslash) as [-> | ?];
    [right; by exists backslash |].
  destruct (Ascii.eqb_spec c double_quote) as [-> | ?];
    [right; by exists double_quote |].
  destruct (Ascii.eqb_spec c line_feed) as [-> | ?]; [right; by exists "n"%char |].
  destruct (Ascii.eqb_spec c carriage_return) as [-> | ?]; [right; by exists "r"%char |].
  destruct (Ascii.eqb_spec c tab) as [-> | ?]; [right; by exists "t"%char |].
  by left.
Qed.

Lemma unescape_escaped (l : list ascii) :
  unescape (concat (map escape_char l)) = l.
Proof.
  induction l as [| c l IH]; [done |]. cbn [map concat].
  destruct (escape_char_cases c) as [(-> & Hb & _) | (e & -> & _ & _ & _ & Hc)].
  - cbn. destruct (Ascii.eqb_spec c backslash); [done |]. by rewrite IH.
  - cbn [app unescape]. rewrite Ascii.eqb_refl, IH. by rewrite <- Hc.
Qed.

(** X20.  An escaped text stays on its line and inside its quotes: the
    output of [escape_json] holds no line feed, carriage return or tab, and
    every double quote in it comes right after a backslash. *)
Theorem escaped_text_stays_on_one_line (s : string) :
  let out := list_ascii_of_string (escape_json s) in
  Forall (fun c => c <> line_feed /\ c <> carriage_return /\ c <> tab) out
  /\ forall i : nat, out !! i = Some double_quote ->
       exists j : nat, i = S j /\ out !! j = Some backslash.
Proof.
  cbn zeta. rewrite escape_json_bytes.
  induction (list_ascii_of_string s) as [| c l [IHline IHquote]]; cbn [map concat].
  { split; [done |]. intros i Hi. by destruct i. }
  destruct (escape_char_cases c)
    as [(-> & Hb & Hq & Hn & Hr & Ht) | (e & -> & Hn & Hr & Ht & Hc)].
  - split; [by constructor |]. intros [| i] Hi; cbn in Hi.
    + by injection Hi.
    + destruct (IHquote i Hi) as (j & -> & Hj). by exists (S j).
  - split; [by repeat constructor |]. intros [| [| i]] Hi; cbn in Hi.
    + by injection Hi.
    + by exists 0%nat.
    + destruct (IHquote i Hi) as (j & -> & Hj). by exists (S (S j)).
Qed.

(** X21.  Escaping loses nothing: reading each backslash pair of the output
    back as one byte gives the input again, so two texts with the same
    escaped form are the same text. *)
Theorem escaped_text_reads_back (s t : string) :
  unescape (list_ascii_of_string (escape_json s)) = list_ascii_of_string s
  /\ (escape_json s = escape_json t -> s = t).
Proof.
  assert (Hback : forall u, unescape (list_ascii_of_string (escape_json u))
                            = list_ascii_of_string u)
    by (intros u; by rewrite escape_json_bytes, unescape_escaped).
  split; [apply Hback |]. intros Heq.
  rewrite <- (string_of_list_ascii_of_string s), <- (string_of_list_ascii_of_string t).
  by rewrite <- (Hback s), <- (Hback t), Heq.
Qed.

End Escaping.

Section PacketPrefix.
Import Packet.

Lemma fnv1a_step_range h v : 0 <= fnv1a_step h v < 2 ^ 64.
Proof. unfold fnv1a_step, wrap64. apply Z.mod_pos_bound. lia. Qed.

(** The hash of a prefix: FNV-1a over the ids as 32-bit words. *)
Lemma hash_fold (n k : nat) (l : list Z) (h prev : Z) :
  let acc := fold_left (hash_step n) (zip (seq k (length l)) l) (h, prev) in
  acc.1 = fold_left fnv1a_step (to_uint32 <$> l) h
  /\ ((k + length l <= n - 1)%nat -> acc.2 = prev).
Proof.
  revert k h prev. induction l as [| t l IH]; intros k h prev; cbn zeta; [done |].
  cbn [length seq zip zip_with fold_left fmap list_fmap].
  destruct (IH (S k) (fnv1a_step h (to_uint32 t))
              (if (k =? n - 1)%nat then h else prev)) as [H1 H2].
  cbn zeta in H1, H2.
  change (hash_step n (h, prev) (k, t))
    with (fnv1a_step h (to_uint32 t), if (k =? n - 1)%nat then h else prev).
  split; [exact H1 |]. intros Hk. rewrite H2 by lia.
  destruct (Nat.eqb_spec k (n - 1)); [lia | done].
Qed.

Lemma prefix_hashes_fst (tokens : list Z) :
  (prefix_hashes tokens).1 = fold_left fnv1a_step (to_uint32 <$> tokens) fnv_offset.
Proof.
  unfold prefix_hashes.
  destruct (hash_fold (length tokens) 0 tokens fnv_offset fnv_offset) as [H1 _].
  cbn zeta in H1. by destruct (length tokens =? 0)%nat.
Qed.

(** X22.  The prefix hashes chain the packets of a beam: the packet written
    for a prefix extended by one token carries as [prefix_prev_hash] the
    [prefix_hash] of the prefix, and as [prefix_hash] one FNV-1a step further
    with the new id as a 32-bit word; for the empty prefix both are the FNV
    offset.  Hashes are 64-bit values. *)
Theorem prefix_hashes_chain (tokens : list Z) (t : Z) :
  prefix_hashes [] = (fnv_offset, fnv_offset)
  /\ prefix_hashes (tokens ++ [t])
     = (fnv1a_step (prefix_hashes tokens).1 (to_uint32 t), (prefix_hashes tokens).1)
  /\ 0 <= (prefix_hashes (tokens ++ [t])).1 < 2 ^ 64.
Proof.
  split; [done |].
  assert (Heq : prefix_hashes (tokens ++ [t])
     = (fnv1a_step (prefix_hashes tokens).1 (to_uint32 t), (prefix_hashes tokens).1)).
  { rewrite prefix_hashes_fst. unfold prefix_hashes.
    rewrite length_app. cbn [length].
    replace (length tokens + 1 =? 0)%nat with false
      by (symmetry; apply Nat.eqb_neq; lia).
    rewrite seq_app, zip_with_app by (by rewrite length_seq).
    rewrite fold_left_app. cbn [seq zip zip_with fold_left].
    destruct (hash_fold (length tokens + 1) 0 tokens fnv_offset fnv_offset) as [H1 H2].
    cbn zeta in H1, H2.
    destruct (fold_left (hash_step (length tokens + 1)) (zip (seq 0 (length tokens)) tokens)
                (fnv_offset, fnv_offset)) as [h prev].
    cbn [fst snd] in H1, H2. unfold hash_step. cbn [fst snd].
    replace (0 + length tokens =? length tokens + 1 - 1)%nat with true
      by (symmetry; apply Nat.eqb_eq; lia).
    by rewrite H1. }
  split; [exact Heq |]. rewrite Heq. apply fnv1a_step_range.
Qed.

Lemma last_n_short {A} (n : nat) (l : list A) : (length l <= n)%nat -> last_n n l = l.
Proof.
  intros Hle. unfold last_n. by replace (length l - n)%nat with 0%nat by lia.
Qed.

Lemma last_n_length {A} (n : nat) (l : list A) :
  length (last_n n l) = Nat.min n (length l).
Proof. unfold last_n. rewrite length_drop. lia. Qed.

Lemma last_n_app_last_n {A} (n : nat) (a b : list A) :
  last_n n (last_n n a ++ b) = last_n n (a ++ b).
Proof.
  unfold last_n. rewrite !length_app, length_drop.
  destruct (decide (length a <= n)%nat) as [Hle | Hgt].
  - replace (length a - n)%nat with 0%nat by lia. rewrite drop_0. f_equal. lia.
  - rewrite <- (drop_app_le a b (length a - n)) by lia.
    rewrite drop_drop. f_equal. lia.
Qed.

Lemma kept_pieces_snoc token_to_str (done : list Z) (id : Z) :
  kept_pieces token_to_str (done ++ [id])
  = kept_pieces token_to_str done
    ++ match token_to_str id with
       | Some piece =>
           if Transcriber.is_control_piece piece then [] else list_ascii_of_string piece
       | None => []
       end.
Proof.
  unfold kept_pieces. rewrite omap_app, concat_app. f_equal. cbn.
  destruct (token_to_str id) as [piece |]; [| done].
  destruct (Transcriber.is_control_piece piece); [done |]. cbn. by rewrite app_nil_r.
Qed.

Lemma prefix_text_fold token_to_str (tokens done : list Z) :
  fold_left (prefix_text_step token_to_str) tokens
    (last_n 256 (kept_pieces token_to_str done))
  = last_n 256 (kept_pieces token_to_str (done ++ tokens)).
Proof.
  revert done. induction tokens as [| id tokens IH]; intros done; cbn [fold_left].
  - by rewrite app_nil_r.
  - replace (done ++ id :: tokens) with ((done ++ [id]) ++ tokens)
      by (by rewrite <- List.app_assoc).
    rewrite <- IH. f_equal. rewrite kept_pieces_snoc. unfold prefix_text_step.
    destruct (token_to_str id) as [piece |]; [| by rewrite app_nil_r].
    destruct (Transcriber.is_control_piece piece); [by rewrite app_nil_r |].
    rewrite <- last_n_app_last_n.
    match goal with
    | |- (if (256 <? length ?t)%nat then _ else _) = _ =>
        destruct (Nat.ltb_spec 256 (length t));
          [reflexivity | symmetry; apply last_n_short; lia]
    end.
Qed.

(** X23.  [prefix_text] is a window on the prefix: when it is enabled it
    holds the last 256 bytes of the texts of the last 48 tokens, control
    pieces and tokens without text left out, and never more than 256 bytes;
    when it is disabled it is empty. *)
Theorem prefix_text_is_a_window token_to_str (tokens : list Z) :
  prefix_text token_to_str true tokens
  = last_n 256 (kept_pieces token_to_str (last_n 48 tokens))
  /\ (length (prefix_text token_to_str true tokens) <= 256)%nat
  /\ prefix_text token_to_str false tokens = [].
Proof.
  assert (Heq : prefix_text token_to_str true tokens
                = last_n 256 (kept_pieces token_to_str (last_n 48 tokens))).
  { unfold prefix_text.
    replace (length tokens - Nat.min (length tokens) 48)%nat
      with (length tokens - 48)%nat by lia.
    apply (prefix_text_fold token_to_str (last_n 48 tokens) []). }
  split; [exact Heq |]. split; [| done]. rewrite Heq, last_n_length. lia.
Qed.

End PacketPrefix.

(** ** The WAV reader *)

Section LittleEndian.
Import Wav.

Lemma lor_high (a b k : Z) :
  0 <= k -> 0 <= a < 2 ^ k -> Z.lor a (b * 2 ^ k) = a + b * 2 ^ k.
Proof.
  intros Hk Ha. symmetry. apply Z.add_nocarry_lor. apply Z.bits_inj'. intros n Hn.
  rewrite Z.land_spec, Z.bits_0. destruct (Z.lt_ge_cases n k) as [Hlow | Hhigh].
  - by rewrite Z.mul_pow2_bits_low, andb_false_r.
  - rewrite <- (Z.mod_small a (2 ^ k)) by done.
    by rewrite Z.mod_pow2_bits_high.
Qed.

Lemma byte_at_range (buf : list Z) (off : nat) :
  bytes_ok buf -> 0 <= byte_at buf off < 256.
Proof.
  intros Hbuf. unfold byte_at. destruct (buf !! off) as [b |] eqn:Hb; cbn; [| lia].
  eapply Forall_forall in Hbuf; [done |]. by eapply list_elem_of_lookup_2.
Qed.

Lemma read_u16_le_value (buf : list Z) (off : nat) :
  0 <= byte_at buf off < 256 -> 0 <= byte_at buf (off + 1) < 256 ->
  Z.lor (byte_at buf off) (Z.shiftl (byte_at buf (off + 1)) 8) mod 2 ^ 16
  = byte_at buf off + 256 * byte_at buf (off + 1).
Proof.
  intros H0 H1. rewrite Z.shiftl_mul_pow2 by lia. rewrite lor_high by lia.
  rewrite Z.mod_small; lia.
Qed.

Lemma read_u32_le_value (buf : list Z) (off : nat) :
  0 <= byte_at buf off < 256 -> 0 <= byte_at buf (off + 1) < 256 ->
  0 <= byte_at buf (off + 2) < 256 -> 0 <= byte_at buf (off + 3) < 256 ->
  read_u32_le buf off
  = byte_at buf off + 256 * byte_at buf (off + 1) + 65536 * byte_at buf (off + 2)
    + 16777216 * byte_at buf (off + 3).
Proof.
  intros H0 H1 H2 H3. unfold read_u32_le. rewrite !Z.shiftl_mul_pow2 by lia.
  rewrite !Z.mod_small by lia.
  rewrite (lor_high _ _ 8) by lia. rewrite (lor_high _ _ 16) by lia.
  rewrite (lor_high _ _ 24) by lia. lia.
Qed.

(** X24.  The header fields are read least significant byte first: on a
    buffer of bytes, [read_u16_le] gives [b0 + 256 b1], [read_u32_le] gives
    [b0 + 256 b1 + 65536 b2 + 16777216 b3], and both stay inside 16 and 32
    bits. *)
Theorem header_fields_are_little_endian (buf : list Z) (off : nat) :
  bytes_ok buf ->
  read_u16_le buf off = byte_at buf off + 256 * byte_at buf (off + 1)
  /\ read_u32_le buf off
     = byte_at buf off + 256 * byte_at buf (off + 1) + 65536 * byte_at buf (off + 2)
       + 16777216 * byte_at buf (off + 3)
  /\ 0 <= read_u16_le buf off < 2 ^ 16
  /\ 0 <= read_u32_le buf off < 2 ^ 32.
Proof.
  intros Hbuf.
  pose proof (byte_at_range buf off Hbuf). pose proof (byte_at_range buf (off + 1) Hbuf).
  pose proof (byte_at_range buf (off + 2) Hbuf).
  pose proof (byte_at_range buf (off + 3) Hbuf).
  unfold read_u16_le. rewrite read_u16_le_value, read_u32_le_value by done. lia.
Qed.

Lemma read_u16_le_bytes (buf : list Z) (off : nat) (v : Z) :
  map (byte_at buf) (seq off 2) = le_bytes_2 v -> 0 <= v < 2 ^ 16 ->
  read_u16_le buf off = v.
Proof.
  intros Hb Hv. cbn in Hb. injection Hb as H0 H1.
  replace (S off) with (off + 1)%nat in * by lia.
  unfold read_u16_le. rewrite read_u16_le_value.
  - rewrite H0, H1. Z.div_mod_to_equations. lia.
  - rewrite H0. apply Z.mod_pos_bound. lia.
  - rewrite H1. apply Z.mod_pos_bound. lia.
Qed.

Lemma read_u32_le_bytes (buf : list Z) (off : nat) (v : Z) :
  map (byte_at buf) (seq off 4) = le_bytes_4 v -> 0 <= v < 2 ^ 32 ->
  read_u32_le buf off = v.
Proof.
  intros Hb Hv. cbn in Hb. injection Hb as H0 H1 H2 H3.
  replace (S off) with (off + 1)%nat in * by lia.
  replace (S (off + 1)) with (off + 2)%nat in * by lia.
  replace (S (off + 2)) with (off + 3)%nat in * by lia.
  rewrite read_u32_le_value.
  - rewrite H0, H1, H2, H3. Z.div_mod_to_equations. lia.
  - rewrite H0. apply Z.mod_pos_bound. lia.
  - rewrite H1. apply Z.mod_pos_bound. lia.
  - rewrite H2. apply Z.mod_pos_bound. lia.
  - rewrite H3. apply Z.mod_pos_bound. lia.
Qed.

End LittleEndian.

Section WavReading.
Context `{SampleOps}.
Import Wav.

Lemma scan_chunks_end (fuel : nat) (buf : list Z) (off : nat) (h : wav_header) :
  (length buf < off + 8)%nat -> scan_chunks fuel buf off h = h.
Proof.
  intros Hend. destruct fuel as [| fuel]; [done |]. cbn [scan_chunks].
  by destruct (Nat.leb_spec (off + 8) (length buf)); [lia |].
Qed.

(** One turn of the chunk loop on a chunk of [sz] bytes that lies inside the
    file. *)
Lemma scan_chunks_chunk (fuel : nat) (buf : list Z) (off sz : nat) (h : wav_header) :
  read_u32_le buf (off + 4) = Z.of_nat sz -> (off + 8 + sz <= length buf)%nat ->
  scan_chunks (S fuel) buf off h
  = scan_chunks fuel buf
      (if Nat.odd (off + 8 + sz) then S (off + 8 + sz) else (off + 8 + sz)%nat)
      (if tag_at buf off tag_fmt && (16 <=? sz)%nat then
         {| audio_format := read_u16_le buf (off + 8 + 0);
            num_channels := read_u16_le buf (off + 8 + 2);
            sample_rate := read_u32_le buf (off + 8 + 4);
            bits_per_sample := read_u16_le buf (off + 8 + 14);
            data_off := data_off h; data_size := data_size h |}
       else if tag_at buf off tag_data then
         {| audio_format := audio_format h; num_channels := num_channels h;
            sample_rate := sample_rate h; bits_per_sample := bits_per_sample h;
            data_off := (off + 8)%nat; data_size := sz |}
       else h).
Proof.
  intros Hsz Hin. cbn [scan_chunks]. rewrite Hsz, Nat2Z.id.
  destruct (Nat.leb_spec (off + 8) (length buf)); [| lia].
  by destruct (Nat.ltb_spec (length buf) (off + 8 + sz)); [lia |].
Qed.

(** The data chunk the loop settles on lies inside the file. *)
Lemma scan_chunks_inside (fuel : nat) (buf : list Z) (off : nat) (h : wav_header) :
  (data_off h + data_size h <= length buf)%nat ->
  (data_off (scan_chunks fuel buf off h) + data_size (scan_chunks fuel buf off h)
   <= length buf)%nat.
Proof.
  revert off h. induction fuel as [| fuel IH]; intros off h Hh; [done |].
  cbn [scan_chunks]. destruct (off + 8 <=? length buf)%nat; [| done].
  destruct (Nat.ltb_spec (length buf)
              (off + 8 + Z.to_nat (read_u32_le buf (off + 4)))); [done |].
  apply IH. destruct (tag_at buf off tag_fmt && _); [done |].
  by destruct (tag_at buf off tag_data).
Qed.

Lemma decode_sample_uniform (h : wav_header) :
  (forall buf p, is_Some (decode_sample h buf p))
  \/ (forall buf p, decode_sample h buf p = None).
Proof.
  unfold decode_sample.
  destruct ((audio_format h =? 1) && (bits_per_sample h =? 16)); [by left; eexists |].
  destruct ((audio_format h =? 1) && (bits_per_sample h =? 32)); [by left; eexists |].
  destruct ((audio_format h =? 3) && (bits_per_sample h =? 32)); [by left; eexists |].
  by right.
Qed.

Lemma sum_channels_uniform (h : wav_header) (chs : list nat) :
  (forall buf frame sum, is_Some (sum_channels h buf frame chs sum))
  \/ (forall buf frame sum, sum_channels h buf frame chs sum = None).
Proof.
  destruct chs as [| ch chs]; [left; by eexists |].
  destruct (decode_sample_uniform h) as [Hsome | Hnone].
  - left. intros buf frame. induction (ch :: chs) as [| c l IH]; intros sum; cbn.
    + by eexists.
    + destruct (Hsome buf (frame + c * Z.to_nat (bits_per_sample h / 8))%nat) as [s ->].
      apply IH.
  - right. intros buf frame sum. cbn. by rewrite Hnone.
Qed.

Lemma decode_frames_supported (h : wav_header) (buf : list Z) (frame_bytes : nat)
    (frames : list nat) (out : list float) :
  (forall frame sum,
     is_Some (sum_channels h buf frame (seq 0 (Z.to_nat (num_channels h))) sum)) ->
  (decode_frames h buf frame_bytes frames out).1 = true
  /\ length (decode_frames h buf frame_bytes frames out).2
     = (length out + length frames)%nat.
Proof.
  intros Hsome. revert out. induction frames as [| i frames IH]; intros out; cbn.
  - split; [done | lia].
  - destruct (Hsome (data_off h + i * frame_bytes)%nat d_zero) as [sum ->].
    destruct (IH (out ++ [f_of_double (d_div_int sum (Z.max 1 (num_channels h)))]))
      as [Hok Hlen].
    split; [done |]. rewrite Hlen, length_app. cbn. lia.
Qed.

Lemma decode_frames_result (h : wav_header) (buf : list Z) (frame_bytes : nat)
    (frames : list nat) (out : list float) :
  let r := decode_frames h buf frame_bytes frames out in
  (r.1 = true -> length r.2 = (length out + length frames)%nat)
  /\ (r.1 = false -> r.2 = out).
Proof.
  cbn zeta.
  destruct (sum_channels_uniform h (seq 0 (Z.to_nat (num_channels h))))
    as [Hsome | Hnone].
  - destruct (decode_frames_supported h buf frame_bytes frames out (Hsome buf))
      as [Hok Hlen].
    split; [done |]. by rewrite Hok.
  - destruct frames as [| i frames]; cbn.
    + split; [lia | done].
    + rewrite Hnone. cbn. done.
Qed.

(** X26.  What [read_wav_mono_f32] leaves in its output arguments.  On
    every error the sample rate is left as the caller passed it, and the
    sample vector is untouched, or empty when the encoding turns out
    unsupported after the vector was cleared.  On success the file has at
    least 44 bytes, the data chunk found lies inside it, and the vector holds
    one sample per whole frame of that chunk. *)
Theorem wav_reader_outputs (file : file_read) (out : list float) (sample_rate_out : Z) :
  let r := read_wav_mono_f32 file out sample_rate_out in
  match r.1.1 with
  | Some (ErrUnsupportedEncoding _ _) => r.1.2 = [] /\ r.2 = sample_rate_out
  | Some _ => r.1.2 = out /\ r.2 = sample_rate_out
  | None =>
      exists buf,
        let h := scan_chunks (length buf) buf 12 no_header in
        file = FileBytes buf /\ (44 <= length buf)%nat
        /\ (data_off h + data_size h <= length buf)%nat
        /\ length r.1.2
           = (data_size h
              / (Z.to_nat (num_channels h) * Z.to_nat (bits_per_sample h / 8)))%nat
        /\ r.2 = to_int32 (sample_rate h)
  end.
Proof.
  cbn zeta. unfold read_wav_mono_f32.
  destruct file as [| size | buf]; [done | done |].
  destruct buf as [| b0 buf]; [done |].
  set (file := b0 :: buf).
  destruct (Nat.ltb_spec (length file) 44) as [| Hlong]; [done |]. cbn [orb].
  destruct (negb (tag_at file 0 tag_RIFF) || negb (tag_at file 8 tag_WAVE)); [done |].
  set (h := scan_chunks (length file) file 12 no_header).
  destruct ((data_off h =? 0)%nat || (data_size h =? 0)%nat); [done |].
  destruct ((sample_rate h =? 0) || (num_channels h =? 0)); [done |].
  destruct (negb (audio_format h =? 1) && negb (audio_format h =? 3)); [done |].
  destruct (_ =? 0)%nat; [done |].
  pose proof (decode_frames_result h file
                (Z.to_nat (num_channels h) * Z.to_nat (bits_per_sample h / 8))
                (seq 0 (data_size h
                        / (Z.to_nat (num_channels h) * Z.to_nat (bits_per_sample h / 8))))
                []) as [Hok Hko].
  destruct (decode_frames _ _ _ _ _) as [[|] out']; cbn [fst snd] in *.
  - exists file. split; [done |]. split; [done |]. split.
    + apply scan_chunks_inside. cbn. lia.
    + split; [| done]. rewrite Hok by done. by rewrite length_seq.
  - by rewrite Hko.
Qed.

(** *** A canonical 16-bit file *)

Lemma pcm16_data_length (samples : list Z) :
  length (concat (map pcm16_bytes samples)) = (2 * length samples)%nat.
Proof. induction samples as [| s l IH]; [done |]. cbn [map concat]. rewrite length_app, IH. cbn. lia. Qed.

Lemma concat_uniform_length {A} (c : nat) (frames : list (list A)) :
  Forall (fun f => length f = c) frames -> length (concat frames) = (length frames * c)%nat.
Proof.
  induction 1 as [| f frames Hf _ IH]; [done |]. cbn. rewrite length_app, IH, Hf. lia.
Qed.

Lemma concat_uniform_lookup {A} (c : nat) (frames : list (list A)) (i k : nat) f :
  Forall (fun f => length f = c) frames -> frames !! i = Some f -> (k < c)%nat ->
  concat frames !! (i * c + k)%nat = f !! k.
Proof.
  intros Hall. revert i. induction Hall as [| g frames Hg _ IH]; intros i Hi Hk; [done |].
  destruct i as [| i]; cbn in Hi |- *.
  - injection Hi as ->. by rewrite lookup_app_l by lia.
  - rewrite lookup_app_r by lia. rewrite <- (IH i Hi Hk). f_equal. lia.
Qed.

Lemma pcm16_data_bytes (samples : list Z) (k : nat) (s : Z) :
  samples !! k = Some s ->
  concat (map pcm16_bytes samples) !! (2 * k)%nat = Some ((s mod 65536) mod 256)
  /\ concat (map pcm16_bytes samples) !! (2 * k + 1)%nat
     = Some ((s mod 65536) / 256 mod 256).
Proof.
  revert k. induction samples as [| t l IH]; intros k Hk; [done |].
  destruct k as [| k]; cbn in Hk.
  - by injection Hk as ->.
  - destruct (IH k Hk) as [Hlo Hhi]. cbn [map concat].
    replace (2 * S k)%nat with (S (S (2 * k))) by lia.
    replace (S (S (2 * k)) + 1)%nat with (S (S (2 * k + 1))) by lia.
    done.
Qed.

Lemma read_i16_pcm16 (buf : list Z) (off : nat) (s : Z) :
  buf !! off = Some ((s mod 65536) mod 256) ->
  buf !! (off + 1)%nat = Some ((s mod 65536) / 256 mod 256) ->
  pcm16_sample s -> read_i16 buf off = s.
Proof.
  intros Hlo Hhi Hs. unfold read_i16, pcm16_sample in *. rewrite read_u16_le_value.
  - unfold byte_at. rewrite Hlo, Hhi. cbn [default from_option id].
    assert (Hu : 0 <= s mod 65536 < 65536) by (apply Z.mod_pos_bound; lia).
    assert (Hsplit : (s mod 65536) mod 256 + 256 * ((s mod 65536) / 256 mod 256)
                     = s mod 65536).
    { generalize dependent (s mod 65536). intros u _ _ Hu.
      Z.div_mod_to_equations. lia. }
    rewrite Hsplit. change (2 ^ 15) with 32768 in *. change (2 ^ 16) with 65536.
    destruct (Z.ltb_spec (s mod 65536) 32768); Z.div_mod_to_equations; lia.
  - unfold byte_at. rewrite Hlo. cbn. apply Z.mod_pos_bound. lia.
  - unfold byte_at. rewrite Hhi. cbn. apply Z.mod_pos_bound. lia.
Qed.

Section Canonical.
Variables (rate : Z) (channels : nat) (frames : list (list Z)).
Hypothesis rate_ok : 0 < rate < 2 ^ 32.
Hypothesis channels_ok : 1 <= Z.of_nat channels < 65536.
Hypothesis frames_ok :
  Forall (fun f => length f = channels /\ Forall pcm16_sample f) frames.
Hypothesis frames_some : frames <> [].
Hypothesis size_ok : 2 * Z.of_nat channels * Z.of_nat (length frames) < 2 ^ 32.

Lemma frames_uniform : Forall (fun f : list Z => length f = channels) frames.
Proof using frames_ok. eapply Forall_impl; [exact frames_ok |]. by intros f [? _]. Qed.

Lemma data_length : length (pcm16_data frames) = (2 * (length frames * channels))%nat.
Proof using frames_ok.
  unfold pcm16_data. by rewrite pcm16_data_length, (concat_uniform_length channels), Nat.mul_comm
    by apply frames_uniform.
Qed.

Lemma buf_length : length (wav_pcm16 rate channels frames) = (44 + length (pcm16_data frames))%nat.
Proof. unfold wav_pcm16. by cbn. Qed.

Lemma buf_data (j : nat) : (wav_pcm16 rate channels frames) !! (44 + j)%nat = (pcm16_data frames) !! j.
Proof. done. Qed.

Lemma canonical_scan :
  scan_chunks (length (wav_pcm16 rate channels frames)) (wav_pcm16 rate channels frames) 12 no_header = (canonical_header rate channels frames).
Proof using rate_ok channels_ok frames_ok frames_some size_ok.
  pose proof data_length as Hd. pose proof buf_length as Hb.
  assert (Hpos : (0 < length frames)%nat) by (destruct frames; [done | cbn; lia]).
  replace (length (wav_pcm16 rate channels frames)) with (S (S (S (41 + length (pcm16_data frames))))) by lia.
  rewrite (scan_chunks_chunk _ (wav_pcm16 rate channels frames) 12 16); [| | lia].
  2: { apply read_u32_le_bytes; [reflexivity | lia]. }
  replace (tag_at (wav_pcm16 rate channels frames) 12 tag_fmt) with true by reflexivity.
  cbn [andb Nat.leb Nat.odd Nat.add negb].
  rewrite (scan_chunks_chunk _ (wav_pcm16 rate channels frames) 36 (length (pcm16_data frames))); [| | lia].
  2: { apply read_u32_le_bytes; [reflexivity | lia]. }
  replace (tag_at (wav_pcm16 rate channels frames) 36 tag_fmt) with false by reflexivity.
  replace (tag_at (wav_pcm16 rate channels frames) 36 tag_data) with true by reflexivity.
  cbn [andb]. rewrite scan_chunks_end by (destruct (Nat.odd _); lia).
  unfold canonical_header. cbn [audio_format num_channels sample_rate bits_per_sample
    data_off data_size no_header Nat.add].
  f_equal;
    first [apply read_u16_le_bytes; [reflexivity | lia]
          | apply read_u32_le_bytes; [reflexivity | lia]].
Qed.

Lemma canonical_sample (i k : nat) f s :
  frames !! i = Some f -> f !! k = Some s ->
  read_i16 (wav_pcm16 rate channels frames) (44 + i * (channels * 2) + k * 2) = s.
Proof using frames_ok.
  intros Hf Hs.
  assert (Hk : (k < channels)%nat).
  { eapply Forall_forall in frames_ok as [<- _]; [| by eapply list_elem_of_lookup_2].
    by eapply lookup_lt_Some. }
  assert (Hpcm : pcm16_sample s).
  { eapply Forall_forall in frames_ok as [_ Hall]; [| by eapply list_elem_of_lookup_2].
    eapply Forall_forall in Hall; [done |]. by eapply list_elem_of_lookup_2. }
  assert (Hflat : concat frames !! (i * channels + k)%nat = Some s)
    by (rewrite (concat_uniform_lookup channels _ _ _ f); [done | apply frames_uniform
        | done | done]).
  destruct (pcm16_data_bytes (concat frames) _ s Hflat) as [Hlo Hhi].
  fold (pcm16_data frames) in Hlo, Hhi.
  apply read_i16_pcm16; [| | done].
  - replace (44 + i * (channels * 2) + k * 2)%nat
      with (44 + 2 * (i * channels + k))%nat by lia.
    by rewrite buf_data.
  - replace (44 + i * (channels * 2) + k * 2 + 1)%nat
      with (44 + (2 * (i * channels + k) + 1))%nat by lia.
    by rewrite buf_data.
Qed.

Lemma canonical_channels (i : nat) f (k : nat) (sum : double) :
  frames !! i = Some f ->
  sum_channels (canonical_header rate channels frames) (wav_pcm16 rate channels frames) (44 + i * (channels * 2))
    (seq k (channels - k)) sum
  = Some (fold_left d_add (map d_of_pcm16 (drop k f)) sum).
Proof using frames_ok.
  intros Hf.
  assert (Hlen : length f = channels)
    by (eapply Forall_forall in frames_ok as [? _]; [done | by eapply list_elem_of_lookup_2]).
  remember (channels - k)%nat as m eqn:Hm. revert k sum Hm.
  induction m as [| m IH]; intros k sum Hm.
  - cbn. by rewrite drop_ge by lia.
  - cbn [seq sum_channels].
    destruct (f !! k) as [s |] eqn:Hs; [| apply lookup_ge_None in Hs; lia].
    rewrite (drop_S f s k Hs). cbn [map fold_left].
    unfold decode_sample at 1. cbn [canonical_header audio_format bits_per_sample].
    cbn [Z.eqb Pos.eqb andb].
    replace (Z.to_nat (16 / 8)) with 2%nat by reflexivity.
    rewrite (canonical_sample i k f s Hf Hs). apply IH. lia.
Qed.

Lemma canonical_frames (i m : nat) (out : list float) :
  (i + m = length frames)%nat ->
  decode_frames (canonical_header rate channels frames) (wav_pcm16 rate channels frames) (channels * 2) (seq i m) out
  = (true, out ++ map (downmix channels) (drop i frames)).
Proof using frames_ok channels_ok.
  revert i out. induction m as [| m IH]; intros i out Him.
  - cbn. rewrite drop_ge by lia. by rewrite app_nil_r.
  - cbn [seq decode_frames].
    destruct (frames !! i) as [f |] eqn:Hf; [| apply lookup_ge_None in Hf; lia].
    cbn [canonical_header data_off num_channels]. rewrite Nat2Z.id.
    pose proof (canonical_channels i f 0 d_zero Hf) as Hsum.
    rewrite Nat.sub_0_r, drop_0 in Hsum. rewrite Hsum.
    rewrite IH by lia. rewrite (drop_S frames f i Hf). cbn [map].
    rewrite <- List.app_assoc. cbn [app]. do 3 f_equal. unfold downmix. do 2 f_equal. lia.
Qed.

Lemma canonical_read (out : list float) (sample_rate_out : Z) :
  read_wav_mono_f32 (FileBytes (wav_pcm16 rate channels frames)) out sample_rate_out
  = (None, map (downmix channels) frames, to_int32 rate).
Proof using rate_ok channels_ok frames_ok frames_some size_ok.
  pose proof data_length as Hd. pose proof buf_length as Hb.
  assert (Hpos : (0 < length frames)%nat) by (destruct frames; [done | cbn; lia]).
  unfold read_wav_mono_f32.
  change (FileBytes (wav_pcm16 rate channels frames)) with (FileBytes (82 :: tl (wav_pcm16 rate channels frames))).
  cbv match beta. change (82 :: tl (wav_pcm16 rate channels frames)) with (wav_pcm16 rate channels frames).
  destruct (Nat.ltb_spec (length (wav_pcm16 rate channels frames)) 44); [lia |].
  replace (tag_at (wav_pcm16 rate channels frames) 0 tag_RIFF) with true by reflexivity.
  replace (tag_at (wav_pcm16 rate channels frames) 8 tag_WAVE) with true by reflexivity.
  cbn [negb orb]. rewrite canonical_scan.
  cbn [canonical_header data_off data_size sample_rate num_channels audio_format
       bits_per_sample].
  replace (Z.to_nat (16 / 8)) with 2%nat by reflexivity. rewrite Nat2Z.id.
  cbn [Nat.eqb orb Z.eqb Pos.eqb negb andb].
  destruct (Nat.eqb_spec (length (pcm16_data frames)) 0); [lia |].
  destruct (Z.eqb_spec rate 0); [lia |].
  destruct (Z.eqb_spec (Z.of_nat channels) 0); [lia |]. cbn [orb].
  destruct (Nat.eqb_spec (channels * 2) 0); [lia |].
  replace (length (pcm16_data frames) / (channels * 2))%nat with (length frames)
    by (rewrite Hd; apply Nat.div_unique_exact; lia).
  rewrite (canonical_frames 0 (length frames) []) by lia.
  by rewrite drop_0.
Qed.

End Canonical.

(** X25.  A canonical 16-bit PCM file is read back as the mean of its
    channels.  For the 44-byte header followed by the interleaved samples of
    at least one frame, [read_wav_mono_f32] succeeds, returns for each frame
    the sum of its samples, each divided by 32768, divided by the number of
    channels, and reports the sample rate of the header. *)
Theorem canonical_wav_is_read_back rate channels frames out sample_rate_out :
  0 < rate < 2 ^ 32 -> 1 <= Z.of_nat channels < 65536 ->
  Forall (fun f => length f = channels /\ Forall pcm16_sample f) frames ->
  frames <> [] ->
  2 * Z.of_nat channels * Z.of_nat (length frames) < 2 ^ 32 ->
  read_wav_mono_f32 (FileBytes (wav_pcm16 rate channels frames)) out sample_rate_out
  = (None, map (downmix channels) frames, to_int32 rate).
Proof. intros. by apply canonical_read. Qed.

End WavReading.

Lemma header_fields_are_little_endian_witness :
  Wav.read_u16_le [1; 2; 3; 4] 2 = 1027 /\ Wav.read_u32_le [1; 2; 3; 4] 0 = 67305985.
Proof.
  assert (Hbytes : bytes_ok [1; 2; 3; 4]) by (repeat constructor; lia).
  destruct (header_fields_are_little_endian [1; 2; 3; 4] 2 Hbytes) as (H16 & _).
  destruct (header_fields_are_little_endian [1; 2; 3; 4] 0 Hbytes) as (_ & H32 & _).
  split; [rewrite H16 | rewrite H32]; reflexivity.
Defined.

Lemma canonical_wav_is_read_back_witness :
  Wav.read_wav_mono_f32 (Wav.FileBytes (wav_pcm16 16000 2 stereo_frames)) [] 0
  = (None, [Some 0; Some 499], 16000).
Proof.
  rewrite (canonical_wav_is_read_back 16000 2 stereo_frames [] 0).
  - reflexivity.
  - lia.
  - lia.
  - repeat constructor; unfold pcm16_sample; lia.
  - discriminate.
  - vm_compute. reflexivity.
Defined.

(** ** The microphone loop *)

Section MicLoop.
Context `{FloatOps}.
Import Transcriber.
Implicit Types (E : env) (p : vad_params) (st : state) (s : seg_state).

Lemma last_fetch_flush E p st forced :
  last_fetch_time_ms (seg (flush_segment E p st forced)) = last_fetch_time_ms (seg st).
Proof.
  unfold flush_segment.
  destruct (negb (in_segment (seg st)) || bool_decide (current_segment (seg st) = []));
    [done |].
  by destruct (keep_samples p (seg st) forced <? min_segment_samples p)%nat.
Qed.

Lemma last_fetch_partial E p st :
  last_fetch_time_ms (seg (maybe_emit_partial E p st)) = last_fetch_time_ms (seg st).
Proof.
  unfold maybe_emit_partial. destruct_match; [| done].
  cbn. by rewrite seg_emit.
Qed.

Lemma last_fetch_maybe_flush E p st prob :
  last_fetch_time_ms (seg (maybe_flush E p st prob)) = last_fetch_time_ms (seg st).
Proof.
  unfold maybe_flush.
  repeat match goal with
         | |- last_fetch_time_ms (seg (if ?c then _ else _)) = _ => destruct c
         end; [| | done]; by rewrite last_fetch_flush, seg_debug.
Qed.

Lemma last_fetch_chunk E p st :
  last_fetch_time_ms (seg (process_chunk E p st)) = last_fetch_time_ms (seg st).
Proof.
  rewrite process_chunk_unfold. destruct (vad_infer E _ _) as [prob |]; [| done].
  destruct (after_vad_frame p st prob) as (Hseg1 & _).
  cbn zeta.
  repeat match goal with
         | |- last_fetch_time_ms (seg (if ?c then _ else _)) = _ => destruct c
         end.
  - unfold start_segment. cbn. by rewrite Hseg1.
  - rewrite last_fetch_maybe_flush, last_fetch_partial. cbn. by rewrite Hseg1.
  - cbn. by rewrite Hseg1.
Qed.

Lemma last_fetch_pending_chunks E p st :
  last_fetch_time_ms (seg (process_pending_chunks E p st)) = last_fetch_time_ms (seg st).
Proof.
  destruct (process_loop_ind E p
              (fun _ stk => last_fetch_time_ms (seg stk) = last_fetch_time_ms (seg st)))
    with (fuel := length (pending_samples (seg st))) (st := st) (k := 0%nat)
    as [Hlast _]; try done.
  - intros k stk Hk _. by rewrite last_fetch_chunk.
  - apply fuel_suffices.
Qed.

(** X27.  A turn of the microphone loop keeps the pipeline on the capture
    clock.  While the VAD answers every frame and the window fetched holds
    the audio of the time gone by, the samples taken over (processed or still
    queued) stay at 16 per millisecond of [last_fetch_time_ms], fewer than
    one frame is left in the queue after a fetch, and a turn in which the
    capture time has not moved changes nothing. *)
Theorem mic_turn_follows_the_capture_clock E p (a : Ring.audio_async float) st :
  (forall n frame, is_Some (vad_infer E n frame)) ->
  processed_samples_total (seg st) + Z.of_nat (length (pending_samples (seg st)))
  = 16 * last_fetch_time_ms (seg st) ->
  let r := Ring.get a (fetch_window_ms p) [] 0 in
  let now := Ring.get_time_ms r in
  16 * (now - last_fetch_time_ms (seg st)) <= Z.of_nat (length (Ring.get_samples r)) ->
  Z.of_nat (length (Ring.get_samples r)) < 2 ^ 64 ->
  let st' := mic_turn E p a st in
  processed_samples_total (seg st') + Z.of_nat (length (pending_samples (seg st')))
  = 16 * last_fetch_time_ms (seg st')
  /\ last_fetch_time_ms (seg st') = Z.max now (last_fetch_time_ms (seg st))
  /\ (now <= last_fetch_time_ms (seg st) -> st' = st)
  /\ (last_fetch_time_ms (seg st) < now ->
      (length (pending_samples (seg st')) < vad_chunk_samples)%nat).
Proof.
  intros Hvad Hclock r now Hwindow Hsize st'. subst st'. unfold mic_turn, mic_queue.
  fold r. fold now.
  destruct (Z.leb_spec now (last_fetch_time_ms (seg st))) as [Hstall | Hmoved].
  { split; [done |]. split; [lia |]. split; [done | lia]. }
  set (delta := now - last_fetch_time_ms (seg st)) in *.
  assert (Hnew : Z.to_nat (wrap64 (Z.quot (delta * sample_rate) 1000))
                 = Z.to_nat (16 * delta)).
  { unfold sample_rate, wrap64.
    replace (delta * 16000) with (16 * delta * 1000) by lia.
    rewrite Z.quot_mul by lia. rewrite Z.mod_small; [done | lia]. }
  rewrite Hnew.
  destruct (Nat.ltb_spec (length (Ring.get_samples r)) (Z.to_nat (16 * delta)));
    [lia |].
  destruct (Nat.ltb_spec 0 (Z.to_nat (16 * delta))); [| lia].
  set (tail := drop (length (Ring.get_samples r) - Z.to_nat (16 * delta))
                 (Ring.get_samples r)).
  set (st1 := put_seg st (set_fetched (seg st) (pending_samples (seg st) ++ tail) now)).
  assert (Htail : Z.of_nat (length tail) = 16 * delta)
    by (subst tail; rewrite length_drop; lia).
  destruct (process_pending_chunks_clock E p st1) as (Hproc & _ & _ & Hq).
  cbn zeta in Hproc, Hq.
  rewrite vad_answers_all in Hproc by done.
  pose proof (last_fetch_pending_chunks E p st1) as Hlast.
  set (st2 := process_pending_chunks E p st1) in *.
  assert (Hlen1 : length (pending_samples (seg st1))
                  = (length (pending_samples (seg st)) + length tail)%nat)
    by (subst st1; cbn; by rewrite length_app).
  assert (Hdiv : (vad_chunk_samples * (length (pending_samples (seg st1)) / vad_chunk_samples)
                  <= length (pending_samples (seg st1)))%nat)
    by (apply Nat.Div0.mul_div_le).
  assert (Hrem : (length (pending_samples (seg st1))
                  - vad_chunk_samples * (length (pending_samples (seg st1)) / vad_chunk_samples)
                  < vad_chunk_samples)%nat).
  { pose proof (Nat.div_mod_eq (length (pending_samples (seg st1))) vad_chunk_samples).
    pose proof (Nat.mod_upper_bound (length (pending_samples (seg st1))) vad_chunk_samples).
    unfold vad_chunk_samples in *. lia. }
  rewrite Hq, length_drop, Hproc, Hlast.
  replace (processed_samples_total (seg st1)) with (processed_samples_total (seg st))
    by done.
  replace (last_fetch_time_ms (seg st1)) with now by done.
  split; [| split; [lia | split; [lia | done]]]. lia.
Qed.

End MicLoop.

Lemma mic_turn_follows_the_capture_clock_witness :
  let st' := Transcriber.mic_turn env_silent params_default ring_one_lap state0 in
  Transcriber.processed_samples_total (Transcriber.seg st') = 1024
  /\ Transcriber.last_fetch_time_ms (Transcriber.seg st') = 64
  /\ Transcriber.processed_samples_total (Transcriber.seg st')
     + Z.of_nat (length (Transcriber.pending_samples (Transcriber.seg st')))
     = 16 * Transcriber.last_fetch_time_ms (Transcriber.seg st').
Proof.
  intros st'. split; [vm_compute; reflexivity |]. split; [vm_compute; reflexivity |].
  destruct (mic_turn_follows_the_capture_clock env_silent params_default ring_one_lap
              state0) as [Hclock _].
  - intros n frame. eexists. reflexivity.
  - reflexivity.
  - vm_compute. discriminate.
  - vm_compute. reflexivity.
  - exact Hclock.
Defined.

(** ** Segment indices *)

Section SegmentIndex.
Context `{FloatOps}.
Import Transcriber.
Implicit Types (E : env) (p : vad_params) (st : state) (s : seg_state).











End SegmentIndex.

